(** * Fused operators of mlx::core::fast (mlx/fast.cpp)

    A shallow embedding of the operator-definition unit [mlx/fast.cpp]:
    the generic [Custom] primitive, [rms_norm], [layer_norm], [rope],
    [scaled_dot_product_attention], the affine quantization codec and
    [custom_kernel].

    The array library the unit is written against ([mlx/ops.h],
    [mlx/transforms.h], [mlx/dtype.h]) is not part of the unit: it is the
    interface [ArrayLib] below, and every operator is defined once, for any
    implementation of that interface.  Its primitives are total
    functions: an exception the library itself may raise is not modelled,
    only what [fast.cpp] throws.  [Real.Lib] is an implementation over
    exact real arithmetic (shape, dtype tag and one real per multi-index).
    The bit layout of the quantization codec is studied on 32-bit words as
    integers with the wrap-around written out. *)

From Stdlib Require Import ZArith List String Bool Lia Reals Lra Sorting.Sorted.
Import ListNotations.
Open Scope Z_scope.

(** ** Element types, devices, streams *)

Inductive Dtype : Type :=
| bool_ | uint8 | uint16 | uint32 | uint64
| int8 | int16 | int32 | int64
| float16 | float32 | bfloat16 | complex64.

Definition Dtype_eqb (a b : Dtype) : bool :=
  match a, b with
  | bool_, bool_ | uint8, uint8 | uint16, uint16 | uint32, uint32
  | uint64, uint64 | int8, int8 | int16, int16 | int32, int32
  | int64, int64 | float16, float16 | float32, float32
  | bfloat16, bfloat16 | complex64, complex64 => true
  | _, _ => false
  end.

(** The dtype categories [issubdtype] is asked about. *)
Inductive Category : Type :=
| generic | number | integer | signedinteger | unsignedinteger
| inexact | floating | complexfloating.

Inductive Device : Type := cpu | gpu.

Definition Device_eqb (a b : Device) : bool :=
  match a, b with
  | cpu, cpu | gpu, gpu => true
  | _, _ => false
  end.

Record Stream : Type := mkStream { index : Z; device : Device }.

(** [StreamOrDevice] is [std::variant<std::monostate, Stream, Device>]. *)
Inductive StreamOrDevice : Type :=
| monostate
| on_stream (s : Stream)
| on_device (d : Device).

(** ** Outcomes of a call

    A call returns, throws, or has no defined behaviour (C++ gives none to
    an integer division by zero, to an index past the end of a vector, or
    to control reaching the end of a value-returning function). *)

Inductive exception : Type :=
| invalid_argument (what : string).
(* [what] keeps the literal text of the message, up to the first value
   that the source streams into it. *)

Inductive undefined : Type :=
| division_by_zero
| index_out_of_range
| flows_off_the_end.

Inductive outcome (A : Type) : Type :=
| Return (a : A)
| Throw (e : exception)
| Undefined (u : undefined).
Arguments Return {A} a.
Arguments Throw {A} e.
Arguments Undefined {A} u.

Definition raises {A} (o : outcome A) : Prop :=
  exists what, o = Throw (invalid_argument what).

Definition returns {A} (o : outcome A) : Prop :=
  exists a, o = Return a.

(** [v[0]] on the vector a closure returned. *)
Definition first {A} (v : list A) : outcome A :=
  match v with
  | a :: _ => Return a
  | [] => Undefined index_out_of_range
  end.

(** C++ [/] and [%] on [int] truncate towards zero. *)
Definition idiv (a b : Z) : Z := Z.quot a b.
Definition imod (a b : Z) : Z := Z.rem a b.

(** ** Primitive nodes

    A node of the lazy graph: the stream it is bound to, the fallback
    closure, and the operator's parameters. *)

Section Primitives.
Variable array : Type.

Definition closure : Type := list array -> list array.

Inductive Primitive : Type :=
| RMSNorm (s : Stream) (fallback : closure) (eps : R)
| RMSNormVJP (s : Stream) (fallback : closure) (eps : R)
| LayerNorm (s : Stream) (fallback : closure) (eps : R)
| LayerNormVJP (s : Stream) (fallback : closure) (eps : R)
| RoPE (s : Stream) (fallback : closure) (dims : Z) (traditional : bool)
       (base scale : R) (offset : Z) (forward : bool)
| ScaledDotProductAttention (s : Stream) (fallback : closure)
                            (scale : R) (needs_mask : bool)
| AffineQuantize (s : Stream) (fallback : closure)
                 (group_size bits : Z) (dequantize : bool)
| CustomKernel (s : Stream) (source : string).

Definition fallback_of (p : Primitive) : option closure :=
  match p with
  | RMSNorm _ f _ | RMSNormVJP _ f _ | LayerNorm _ f _ | LayerNormVJP _ f _
  | RoPE _ f _ _ _ _ _ _ | ScaledDotProductAttention _ f _ _
  | AffineQuantize _ f _ _ _ => Some f
  | CustomKernel _ _ => None
  end.
End Primitives.

Arguments RMSNorm {array}.
Arguments RMSNormVJP {array}.
Arguments LayerNorm {array}.
Arguments LayerNormVJP {array}.
Arguments RoPE {array}.
Arguments ScaledDotProductAttention {array}.
Arguments AffineQuantize {array}.
Arguments CustomKernel {array}.
Arguments fallback_of {array}.

(** ** The array library

    What [fast.cpp] uses of [mlx/ops.h], [mlx/dtype.h], [mlx/utils.h] and
    [mlx/transforms.h].  The stream argument of an element-wise primitive
    only says where it runs and is left out.  [sum], [mean], [max] and
    [min] take the list of axes; the overload with one [int axis] is the
    call with a one-element list.  [array_of v t] is the scalar
    constructor [array(v, t)]; [mk_array] and [make_arrays] are the
    constructors of deferred nodes, [array(shape, dtype, primitive,
    inputs)] and [array::make_arrays]. *)

Class ArrayLib (array : Type) : Type := {
  (* metadata *)
  shape : array -> list Z;
  dtype : array -> Dtype;
  (* mlx/utils.h and mlx/dtype.h *)
  to_stream : StreamOrDevice -> Stream;
  result_type : list array -> Dtype;
  issubdtype : Dtype -> Category -> bool;
  (* constructors *)
  array_of : R -> Dtype -> array;
  mk_array : list Z -> Dtype -> Primitive array -> list array -> array;
  make_arrays :
    list (list Z) -> list Dtype -> Primitive array -> list array -> list array;
  zeros_like : array -> array;
  arange : Z -> Z -> Z -> Dtype -> array;
  (* element-wise *)
  astype : array -> Dtype -> array;
  add : array -> array -> array;
  subtract : array -> array -> array;
  multiply : array -> array -> array;
  divide : array -> array -> array;
  power : array -> array -> array;
  maximum : array -> array -> array;
  greater : array -> array -> array;
  equal : array -> array -> array;
  not_equal : array -> array -> array;
  left_shift : array -> array -> array;
  right_shift : array -> array -> array;
  where_ : array -> array -> array -> array;
  clip : array -> array -> array -> array;
  square : array -> array;
  sqrt : array -> array;
  rsqrt : array -> array;
  negative : array -> array;
  abs : array -> array;
  round : array -> array;
  exp : array -> array;
  cos : array -> array;
  sin : array -> array;
  (* reductions *)
  sum : array -> list Z -> bool -> array;
  mean : array -> list Z -> bool -> array;
  max : array -> list Z -> bool -> array;
  min : array -> list Z -> bool -> array;
  softmax : array -> list Z -> bool -> array;
  number_of_elements : array -> list Z -> bool -> Dtype -> array;
  (* layout *)
  reshape : array -> list Z -> array;
  expand_dims : array -> Z -> array;
  swapaxes : array -> Z -> Z -> array;
  slice : array -> list Z -> list Z -> list Z -> array;
  concatenate : list array -> Z -> array;
  matmul : array -> array -> array;
  (* laws *)
  zeros_like_shape : forall a, shape (zeros_like a) = shape a;
  zeros_like_dtype : forall a, dtype (zeros_like a) = dtype a;
  make_arrays_length :
    forall shapes dtypes p inputs,
      List.length (make_arrays shapes dtypes p inputs) = List.length shapes
}.

Section Fast.
Context {array : Type} {L : ArrayLib array}.

Definition ndim (a : array) : Z := Z.of_nat (List.length (shape a)).

(** [a.shape(i)], a negative [i] counting from the last axis. *)
Definition shape_at (a : array) (i : Z) : Z :=
  nth (Z.to_nat (if i <? 0 then i + ndim a else i)) (shape a) 0.

(** [shape.back() = v]. *)
Definition set_back (sh : list Z) (v : Z) : list Z :=
  removelast sh ++ [v].

(** [std::iota(axes.begin(), axes.end(), 0)] on a vector of [n] ints. *)
Definition iota (n : Z) : list Z := map Z.of_nat (seq 0 (Z.to_nat n)).

(** *** Custom (lines 13-51) *)

Section Custom.

(** The generic transforms of [mlx/transforms.h]. *)
Variable core_vjp :
  closure array -> list array -> list array -> list array * list array.
Variable core_jvp :
  closure array -> list array -> list array -> list array * list array.

(** The loop of [Custom::vjp]: [rest] is [vjps] from index [i] on. *)
Fixpoint vjp_loop (rest : list array) (i : Z) (j : nat) (argnums : list Z)
  : list array :=
  match rest with
  | [] => []
  | g :: rest' =>
      if (Nat.ltb j (List.length argnums)) && (i =? nth j argnums 0)
      then g :: vjp_loop rest' (i + 1) (S j) argnums
      else vjp_loop rest' (i + 1) j argnums
  end.

Definition Custom_vjp (fallback_ : closure array)
    (primals cotangents : list array) (argnums : list Z)
    (outputs : list array) : list array :=
  let '(_, vjps) := core_vjp fallback_ primals cotangents in
  vjp_loop vjps 0 0%nat argnums.

(** The loop of [Custom::jvp]: [rest] is [primals] from index [i] on;
    [tangents[j]] past the end is not defined. *)
Fixpoint jvp_loop (rest : list array) (i : Z) (j : nat)
    (argnums : list Z) (tangents : list array) : outcome (list array) :=
  match rest with
  | [] => Return []
  | p :: rest' =>
      if (Nat.ltb j (List.length argnums)) && (i =? nth j argnums 0)
      then match nth_error tangents j with
           | Some t =>
               match jvp_loop rest' (i + 1) (S j) argnums tangents with
               | Return l => Return (t :: l)
               | o => o
               end
           | None => Undefined index_out_of_range
           end
      else match jvp_loop rest' (i + 1) j argnums tangents with
           | Return l => Return (zeros_like p :: l)
           | o => o
           end
  end.

Definition Custom_jvp (fallback_ : closure array)
    (primals tangents : list array) (argnums : list Z)
  : outcome (list array) :=
  match jvp_loop primals 0 0%nat argnums tangents with
  | Return all_tangents =>
      Return (snd (core_jvp fallback_ primals all_tangents))
  | o => o
  end.

(** [Custom::vmap] (lines 45-51): the fallback is batched by the generic
    [vmap], and every output is declared batched along its first
    axis. *)
Variable core_vmap : closure array -> list Z -> closure array.

Definition Custom_vmap (fallback_ : closure array)
    (inputs : list array) (axes : list Z) : list array * list Z :=
  let outputs := core_vmap fallback_ axes inputs in
  let out_axes := repeat 0 (List.length outputs) in
  (outputs, out_axes).
End Custom.

(** *** rms_norm (lines 53-99) *)

Definition rms_norm_fallback (eps : R) (out_type : Dtype)
  : closure array :=
  fun inputs =>
    match inputs with
    | x0 :: w :: _ =>
        let x := astype x0 float32 in
        let x :=
          multiply x
            (rsqrt (add (mean (square x) [-1] true) (array_of eps float32)))
        in
        let x := astype x out_type in
        [multiply w x]
    | _ => []
    end.

Definition rms_norm (x weight : array) (eps : R) (s_ : StreamOrDevice)
  : outcome array :=
  if ndim x =? 0 then
    Throw (invalid_argument
      "[rms_norm] Input must have at least 1 dimension but got input with 0 dimensions.")
  else if negb (ndim weight =? 1) then
    Throw (invalid_argument "[rms_norm] weight must have 1 dimension")
  else
    let out_type := result_type [x; weight] in
    if negb (issubdtype out_type floating) then
      Throw (invalid_argument "[rms_norm] Received unsupported type")
    else
      let s := to_stream s_ in
      let fallback := rms_norm_fallback eps out_type in
      if Device_eqb (device s) gpu then
        Return (mk_array (shape x) out_type (RMSNorm s fallback eps)
                  [astype x out_type; astype weight out_type])
      else first (fallback [x; weight]).

(** *** layer_norm (lines 164-239) *)

Definition layer_norm_fallback (has_weight has_bias : bool) (eps : R)
    (out_type : Dtype) : closure array :=
  fun inputs =>
    match inputs with
    | x0 :: w :: b :: _ =>
        let x := astype x0 float32 in
        let mu := mean x [-1] true in
        let mu2 := square mu in
        let x2 := mean (square x) [-1] true in
        let v := subtract x2 mu2 in
        let x :=
          multiply (subtract x mu) (rsqrt (add v (array_of eps float32))) in
        let x := astype x out_type in
        let x := if has_weight then multiply x w else x in
        let x := if has_bias then add x b else x in
        [x]
    | _ => []
    end.

Definition has_value {A} (o : option A) : bool :=
  match o with Some _ => true | None => false end.

(** The node inputs [layer_norm] passes on: an absent weight or bias is
    replaced by the 0-dimensional scalar [array(1, out_type)] or
    [array(0, out_type)]. *)
Definition passed_weight (weight : option array) (out_type : Dtype) : array :=
  astype (match weight with Some w => w | None => array_of 1 out_type end)
         out_type.

Definition passed_bias (bias : option array) (out_type : Dtype) : array :=
  astype (match bias with Some b => b | None => array_of 0 out_type end)
         out_type.

Definition layer_norm (x : array) (weight bias : option array) (eps : R)
    (s_ : StreamOrDevice) : outcome array :=
  if ndim x =? 0 then
    Throw (invalid_argument
      "[layer_norm] Input must have at least 1 dimension but got input with 0 dimensions.")
  else if match weight with Some w => negb (ndim w =? 1) | None => false end
  then Throw (invalid_argument "[layer_norm] weight must have 1 dimension")
  else if match bias with Some b => negb (ndim b =? 1) | None => false end
  then Throw (invalid_argument "[layer_norm] bias must have 1 dimension")
  else
    let out_type :=
      match weight with
      | Some w =>
          match bias with
          | Some b => result_type [x; w; b]
          | None => result_type [x; w]
          end
      | None => dtype x
      end in
    if negb (issubdtype out_type floating) then
      Throw (invalid_argument "[layer_norm] Received unsupported type")
    else
      let s := to_stream s_ in
      let has_weight := has_value weight in
      let has_bias := has_value bias in
      let fallback := layer_norm_fallback has_weight has_bias eps out_type in
      let pw := passed_weight weight out_type in
      let pb := passed_bias bias out_type in
      if Device_eqb (device s) gpu then
        Return (mk_array (shape x) out_type (LayerNorm s fallback eps)
                  [astype x out_type; pw; pb])
      else first (fallback [x; pw; pb]).

(** *** LayerNorm::vjp (lines 241-313) *)

Definition LayerNorm_vjp_fallback (eps : R) : closure array :=
  fun inputs =>
    match inputs with
    | x :: w :: b :: g :: _ =>
        let norm := number_of_elements x [-1] true (dtype x) in
        let sumx := sum x [-1] true in
        let sumx2 := sum (square x) [-1] true in
        let mu := multiply sumx norm in
        let mu2 := multiply sumx2 norm in
        let var := subtract mu2 (square mu) in
        let n := rsqrt (add var (array_of eps (dtype x))) in
        let n3 := power n (array_of 3 (dtype x)) in
        let x_c := subtract x mu in
        (* df/dx *)
        let wg := multiply w g in
        let sumwg := multiply (sum wg [-1] true) norm in
        let sumwgxc := multiply (sum (multiply wg x_c) [-1] true) norm in
        let t1 := multiply (multiply x_c sumwgxc) n3 in
        let t2 := multiply (subtract wg sumwg) n in
        let vjp_x := subtract t2 t1 in
        (* df/dw *)
        let axes := iota (ndim g - 1) in
        let vjp_w :=
          if ndim w =? 0 then zeros_like w
          else sum (multiply g (multiply x_c n)) axes false in
        (* df/db *)
        let vjp_b :=
          if ndim b =? 0 then zeros_like w
          else sum g axes false in
        [vjp_x; vjp_w; vjp_b]
    | _ => []
    end.

(** [returned_vjps.push_back(vjps[arg])] for each [arg] of [argnums]. *)
Fixpoint select (vjps : list array) (argnums : list Z)
  : outcome (list array) :=
  match argnums with
  | [] => Return []
  | arg :: rest =>
      if arg <? 0 then Undefined index_out_of_range
      else match nth_error vjps (Z.to_nat arg) with
           | None => Undefined index_out_of_range
           | Some g =>
               match select vjps rest with
               | Return l => Return (g :: l)
               | o => o
               end
           end
  end.

(** The three [assert]s of the method are the patterns on [primals] and
    [cotangents]. *)
Definition LayerNorm_vjp (s : Stream) (eps_ : R)
    (primals cotangents : list array) (argnums : list Z)
    (outputs : list array) : outcome (list array) :=
  match primals, cotangents with
  | [p0; p1; p2], [c0] =>
      let fallback := LayerNorm_vjp_fallback eps_ in
      let vjps :=
        make_arrays [shape p0; shape p1; shape p2]
                    [dtype p0; dtype p1; dtype p2]
                    (LayerNormVJP s fallback eps_)
                    [p0; p1; p2; c0] in
      select vjps argnums
  | _, _ => Undefined index_out_of_range
  end.

(** *** RMSNorm::vjp (lines 101-152) *)

Definition RMSNorm_vjp_fallback (eps : R) : closure array :=
  fun inputs =>
    match inputs with
    | x :: w :: g :: _ =>
        let n :=
          rsqrt (add (mean (square x) [-1] true) (array_of eps (dtype x))) in
        let n3 := power n (array_of 3 (dtype x)) in
        (* df/dx *)
        let gw := multiply g w in
        let t := mean (multiply gw x) [-1] true in
        let t := multiply (multiply x t) n3 in
        let vjp_x := subtract (multiply gw n) t in
        (* df/dw *)
        let axes := iota (ndim g - 1) in
        let vjp_w := sum (multiply g (multiply x n)) axes false in
        [vjp_x; vjp_w]
    | _ => []
    end.

(** As in [LayerNorm_vjp], the [assert]s are the patterns on [primals]
    and [cotangents]. *)
Definition RMSNorm_vjp (s : Stream) (eps_ : R)
    (primals cotangents : list array) (argnums : list Z)
    (outputs : list array) : outcome (list array) :=
  match primals, cotangents with
  | [p0; p1], [c0] =>
      let fallback := RMSNorm_vjp_fallback eps_ in
      let vjps :=
        make_arrays [shape p0; shape p1] [dtype p0; dtype p1]
                    (RMSNormVJP s fallback eps_) [p0; p1; c0] in
      select vjps argnums
  | _, _ => Undefined index_out_of_range
  end.

(** *** rope (lines 325-426) *)

(** [slice(a, start, stop)]: every stride is 1. *)
Definition slice_ (a : array) (start stop : list Z) : array :=
  slice a start stop (map (fun _ => 1) (shape a)).

Definition apply_rope (forward : bool) (x1 x2 coss sins : array)
  : list array :=
  if forward then
    [subtract (multiply x1 coss) (multiply x2 sins);
     add (multiply x1 sins) (multiply x2 coss)]
  else
    [add (multiply x2 sins) (multiply x1 coss);
     subtract (multiply x2 coss) (multiply x1 sins)].

Definition rope_fallback (dims : Z) (traditional : bool) (base scale : R)
    (offset : Z) (forward : bool) : closure array :=
  fun inputs =>
    match inputs with
    | x0 :: _ =>
        let shape0 := shape x0 in
        let ndim0 := Z.of_nat (List.length shape0) in
        let x :=
          reshape x0 [-1; shape_at x0 (ndim0 - 2); shape_at x0 (ndim0 - 1)] in
        let t := dtype x in
        let N := shape_at x 1 + offset in
        (* Compute sines and cosines *)
        let half_dims := idiv dims 2 in
        let positions := multiply (arange offset N 1 t) (array_of scale t) in
        let freqs := negative (arange 0 half_dims 1 t) in
        let freqs :=
          exp (multiply freqs
                 (array_of (ln base / IZR half_dims)%R t)) in
        let theta :=
          multiply (expand_dims positions 1) (expand_dims freqs 0) in
        let coss := cos theta in
        let sins := sin theta in
        if traditional then
          let x1 :=
            slice x [0; 0; 0] [shape_at x 0; shape_at x 1; dims] [1; 1; 2] in
          let x2 :=
            slice x [0; 0; 1] [shape_at x 0; shape_at x 1; dims] [1; 1; 2] in
          let outs := apply_rope forward x1 x2 coss sins in
          let outs := map (fun o => expand_dims o 3) outs in
          let out := concatenate outs 3 in
          let out :=
            if dims <? shape_at x (-1) then
              let out := reshape out [shape_at x 0; shape_at x 1; dims] in
              concatenate [out; slice_ x [0; 0; dims] (shape x)] 2
            else out in
          [reshape out shape0]
        else
          let out_s := set_back (shape x) half_dims in
          let x1 := slice_ x [0; 0; 0] out_s in
          let out_s := set_back out_s dims in
          let x2 := slice_ x [0; 0; half_dims] out_s in
          let outs := apply_rope forward x1 x2 coss sins in
          let outs :=
            if dims <? shape_at x (-1)
            then outs ++ [slice_ x [0; 0; dims] (shape x)]
            else outs in
          [reshape (concatenate outs 2) shape0]
    | [] => []
    end.

Definition rope (x : array) (dims : Z) (traditional : bool) (base scale : R)
    (offset : Z) (forward : bool) (s : StreamOrDevice) : outcome array :=
  if ndim x <? 3 then
    Throw (invalid_argument
      "[rope] Input must have at least 3 dimensions but got input with")
  else
    let fallback := rope_fallback dims traditional base scale offset forward in
    let stream := to_stream s in
    if Device_eqb (device stream) gpu then
      Return (mk_array (shape x) (dtype x)
                (RoPE stream fallback dims traditional base scale offset
                      forward)
                [x])
    else first (fallback [x]).

(** The public overload without the direction flag. *)
Definition rope_forward (x : array) (dims : Z) (traditional : bool)
    (base scale : R) (offset : Z) (s : StreamOrDevice) : outcome array :=
  rope x dims traditional base scale offset true s.

(** *** RoPE::vjp (lines 428-451)

    The gradient is the rotation in the other direction, as one more
    [RoPE] node on the cotangents.  The closure of the node calls [rope],
    which throws on an input of fewer than 3 dimensions; the closure then
    has no array to give, which the empty list stands for.  [argnums] is
    not read: the node has one input. *)

Definition RoPE_vjp_fallback (s : Stream) (dims_ : Z) (traditional_ : bool)
    (base_ scale_ : R) (offset_ : Z) (forward_ : bool) : closure array :=
  fun inputs =>
    match inputs with
    | x0 :: _ =>
        match rope x0 dims_ traditional_ base_ scale_ offset_ (negb forward_)
                   (on_stream s) with
        | Return y => [y]
        | _ => []
        end
    | [] => []
    end.

Definition RoPE_vjp (s : Stream) (dims_ : Z) (traditional_ : bool)
    (base_ scale_ : R) (offset_ : Z) (forward_ : bool)
    (primals cotangents : list array) (argnums : list Z)
    (outputs : list array) : outcome (list array) :=
  match cotangents with
  | c0 :: _ =>
      let fallback :=
        RoPE_vjp_fallback s dims_ traditional_ base_ scale_ offset_ forward_ in
      Return [mk_array (shape c0) (dtype c0)
                (RoPE s fallback dims_ traditional_ base_ scale_ offset_
                      (negb forward_))
                cotangents]
  | [] => Undefined index_out_of_range
  end.

(** *** scaled_dot_product_attention (lines 462-605) *)

Definition sdpa_fallback (scale : R) (needs_mask : bool) (final_type : Dtype)
    (n_q_heads n_kv_heads : Z) : closure array :=
  fun inputs =>
    match inputs with
    | q0 :: k0 :: v0 :: rest =>
        let q := multiply (array_of scale (dtype q0)) q0 in
        let n_repeats := idiv n_q_heads n_kv_heads in
        let B := shape_at q 0 in
        let L_ := shape_at q 2 in
        let k := k0 in
        let v := v0 in
        let q :=
          if n_repeats >? 1
          then reshape q [B; n_kv_heads; n_repeats; L_; -1] else q in
        let k := if n_repeats >? 1 then expand_dims k 2 else k in
        let v := if n_repeats >? 1 then expand_dims v 2 else v in
        let scores := matmul q (swapaxes k (-1) (-2)) in
        let finish (scores : array) :=
          let scores := softmax scores [-1] true in
          let out := matmul scores v in
          let out :=
            if n_repeats >? 1
            then reshape out [B; n_q_heads; L_; -1] else out in
          [out] in
        if needs_mask then
          match rest with
          | m :: _ => finish (add scores m)
          | [] => []
          end
        else finish scores
    | _ => []
    end.

(** Lines 564-586: the eligibility of the accelerated kernels. *)
Definition implementation_supports_use_case (q : array)
    (mask : option array) (batch_dim n_q_heads n_kv_heads : Z)
    (final_type : Dtype) (stream : Stream) : bool :=
  let query_head_dim := shape_at q (-1) in
  let supported_head_dim :=
    (query_head_dim =? 64) || (query_head_dim =? 80)
    || (query_head_dim =? 128) in
  let supported_head_dim_self_attn :=
    (query_head_dim =? 64) || (query_head_dim =? 128) in
  let query_sequence_length := shape_at q 2 in
  let supports_full_self_attention :=
    (query_sequence_length >=? 16) && negb (has_value mask)
    && supported_head_dim_self_attn && (n_q_heads =? n_kv_heads)
    && negb (Dtype_eqb final_type bfloat16)
    && Device_eqb (device stream) gpu in
  (* fast decoding gpu shader *)
  let supports_sdpa :=
    (batch_dim =? 1) && (query_sequence_length =? 1)
    && negb (has_value mask) && supported_head_dim
    && negb (Dtype_eqb final_type bfloat16)
    && Device_eqb (device stream) gpu in
  let implementation_supports_use_case :=
    supports_sdpa || supports_full_self_attention in
  (* disabling full self attention until perf is tuned;
     likewise for sdpa *)
  implementation_supports_use_case && false.

Definition scaled_dot_product_attention (queries keys values : array)
    (scale : R) (mask : option array) (s : StreamOrDevice) : outcome array :=
  if negb (ndim queries =? 4) || negb (ndim keys =? 4)
     || negb (ndim values =? 4) then
    Throw (invalid_argument "[scaled_dot_product_attention] input with shape")
  else
    let batch_dim := shape_at queries 0 in
    if negb (shape_at keys 0 =? batch_dim)
       || negb (shape_at values 0 =? batch_dim) then
      Throw (invalid_argument
        "[scaled_dot_product_attention] mismatching batch dimension for input with shape")
    else if negb (shape_at queries (-1) =? shape_at keys (-1)) then
      Throw (invalid_argument
        "[scaled_dot_product_attention] query, keys expected to have matching last dimension; found query shape")
    else
      let n_q_heads := shape_at queries (-3) in
      let n_kv_heads := shape_at keys (-3) in
      if negb (shape_at keys (-3) =? shape_at values (-3)) then
        Throw (invalid_argument
          "[scaled_dot_product_attention] keys, values expected to have matching n_kv_heads; found keys with n_heads")
      else if n_kv_heads =? 0 then Undefined division_by_zero
      else if negb (imod n_q_heads n_kv_heads =? 0) then
        Throw (invalid_argument
          "[scaled_dot_product_attention] n_heads must be a multiple of n_kv_heads, found n_heads")
      else
        let final_type := result_type [queries; keys; values] in
        if negb (issubdtype final_type floating) then
          Throw (invalid_argument
            "[scaled_dot_product_attention] Received unsupported type")
        else
          let q := astype queries final_type in
          let k := astype keys final_type in
          let v := astype values final_type in
          let needs_mask := has_value mask in
          let fallback :=
            sdpa_fallback scale needs_mask final_type n_q_heads n_kv_heads in
          let stream := to_stream s in
          if implementation_supports_use_case q mask batch_dim n_q_heads
               n_kv_heads final_type stream
          then
            let out_shape :=
              [shape_at q 0; shape_at q 1; shape_at q 2; shape_at v (-1)] in
            Return (mk_array out_shape final_type
                      (ScaledDotProductAttention stream fallback scale false)
                      [q; k; v])
          else
            match mask with
            | Some m => first (fallback [q; k; v; m])
            | None => first (fallback [q; k; v])
            end.

(** *** The affine quantization codec (lines 613-860) *)

Definition pack_and_quantize (packed_w scales biases : array)
    (group_size bits : Z) : array :=
  let el_per_int := idiv 32 bits in
  let zero := array_of 0 (dtype packed_w) in
  let n_bins :=
    array_of (IZR (Z.shiftl 1 bits - 1)) (dtype packed_w) in (* 2**bits - 1 *)
  let shifts := power (array_of 2 uint32) (arange 0 32 bits uint32) in
  let packed_w :=
    astype
      (clip (round (divide (subtract packed_w biases) scales)) zero n_bins)
      uint32 in
  let packed_w := reshape packed_w [shape_at packed_w 0; -1; el_per_int] in
  sum (multiply packed_w shifts) [2] false.

Definition affine_quantize_fallback (group_size bits el_per_int : Z)
  : closure array :=
  fun inputs =>
    match inputs with
    | w :: _ =>
        let wshape := set_back (shape w) (-1) in
        let zero := array_of 0 (dtype w) in
        let n_bins := array_of (IZR (Z.shiftl 1 bits - 1)) (dtype w) in
        let eps := array_of (1 / 10 ^ 7)%R (dtype w) in
        let packed_w :=
          reshape w [-1; idiv (shape_at w (-1)) group_size; group_size] in
        let w_max := max packed_w [-1] true in
        let w_min := min packed_w [-1] true in
        let mask := greater (abs w_min) (abs w_max) in
        let scales :=
          maximum (divide (subtract w_max w_min) n_bins) eps in
        let scales := where_ mask scales (negative scales) in
        let edge := where_ mask w_min w_max in
        let q0 := round (divide edge scales) in
        let scales := where_ (not_equal q0 zero) (divide edge q0) scales in
        let biases := where_ (equal q0 zero) zero edge in
        let packed_w :=
          pack_and_quantize packed_w scales biases group_size bits in
        [reshape packed_w wshape; reshape scales wshape;
         reshape biases wshape]
    | [] => []
    end.

Definition affine_quantize (w : array) (group_size bits : Z)
    (s_ : StreamOrDevice) : outcome (array * array * array) :=
  let s := to_stream s_ in
  if negb (group_size =? 32) && negb (group_size =? 64)
     && negb (group_size =? 128) then
    Throw (invalid_argument "[quantize] The requested group size")
  else if negb (bits =? 2) && negb (bits =? 4) && negb (bits =? 8) then
    Throw (invalid_argument "[quantize] The requested number of bits")
  else if ndim w <? 2 then
    Throw (invalid_argument
      "[quantize] The matrix to be quantized must have at least 2 dimension but it has only")
  else if negb (imod (shape_at w (-1)) group_size =? 0) then
    Throw (invalid_argument
      "[quantize] The last dimension of the matrix needs to be divisible by the quantization group size")
  else
    let el_per_int := idiv 32 bits in
    if shape_at w (-1) <? 32 * el_per_int then
      Throw (invalid_argument
        "[quantize] The feature dimension (2nd dimension of the matrix) is too small for quantization. We support >=512 for 2 bits, >= 256 for 4 bits and >= 128 for 8 bits. The provided matrix has shape")
    else
      let fallback := affine_quantize_fallback group_size bits el_per_int in
      let outputs :=
        if Device_eqb (device s) gpu then
          let wq_shape :=
            set_back (shape w) (idiv (shape_at w (-1)) el_per_int) in
          let sshape :=
            set_back (shape w) (idiv (shape_at w (-1)) group_size) in
          make_arrays [wq_shape; sshape; sshape]
                      [uint32; dtype w; dtype w]
                      (AffineQuantize s fallback group_size bits false)
                      [w]
        else fallback [w] in
      match outputs with
      | o0 :: o1 :: o2 :: _ => Return (o0, o1, o2)
      | _ => Undefined index_out_of_range
      end.

(** The overload of [affine_quantize] that is given [scales] and
    [biases] (lines 728-762). *)
Definition affine_quantize_given_fallback (group_size bits el_per_int : Z)
  : closure array :=
  fun inputs =>
    match inputs with
    | w :: scales0 :: biases0 :: _ =>
        let scales := expand_dims scales0 (-1) in
        let biases := expand_dims biases0 (-1) in
        let wshape := set_back (shape w) (-1) in
        let packed_w :=
          reshape w [-1; idiv (shape_at w (-1)) group_size; group_size] in
        let packed_w :=
          pack_and_quantize packed_w scales biases group_size bits in
        [reshape packed_w wshape]
    | _ => []
    end.

Definition affine_quantize_given (w scales biases : array)
    (group_size bits : Z) (s_ : StreamOrDevice) : outcome array :=
  let s := to_stream s_ in
  if bits =? 0 then Undefined division_by_zero
  else
    let el_per_int := idiv 32 bits in
    let fallback :=
      affine_quantize_given_fallback group_size bits el_per_int in
    if Device_eqb (device s) gpu then
      let out_shape :=
        set_back (shape w) (idiv (shape_at w (-1)) el_per_int) in
      Return (mk_array out_shape uint32
                (AffineQuantize s fallback group_size bits false)
                [w; scales; biases])
    else first (fallback [w; scales; biases]).

(** The loop [for (int start = 0; start < 32; start += bits)] of the
    dequantize fallback; [bits] is positive there, so 32 rounds are
    enough. *)
Fixpoint dequantize_parts (fuel : nat) (w : array) (bits start : Z)
  : list array :=
  match fuel with
  | O => []
  | S fuel' =>
      if start <? 32 then
        expand_dims
          (right_shift
             (left_shift w (array_of (IZR (32 - (start + bits))) uint32))
             (array_of (IZR (32 - bits)) uint32))
          (-1)
        :: dequantize_parts fuel' w bits (start + bits)
      else []
  end.

(** The closure of lines 818-845.  It holds [wshape] and [sshape] by
    reference to the locals of the enclosing call and appends
    [group_size] to [wshape]; here the two shapes are passed in, as the
    closure finds them when the enclosing call runs it itself, on a
    stream that is not a GPU stream.  The copy a GPU node keeps outlives
    those locals: what it would compute is not defined, and nothing below
    is stated about it. *)
Definition affine_dequantize_fallback (wshape sshape : list Z)
    (group_size bits el_per_int : Z) : closure array :=
  fun inputs =>
    match inputs with
    | w :: scales :: biases :: _ =>
        let parts := dequantize_parts 32 w bits 0 in
        let w_full := concatenate parts (-1) in
        (* Dequantize *)
        let wshape := wshape ++ [group_size] in
        let w_full := reshape w_full wshape in
        let w_full := multiply w_full (expand_dims scales (-1)) in
        let w_full := add w_full (expand_dims biases (-1)) in
        let w_full := reshape w_full sshape in
        [w_full]
    | _ => []
    end.

Definition list_Z_eqb (a b : list Z) : bool :=
  if list_eq_dec Z.eq_dec a b then true else false.

Definition affine_dequantize (w scales biases : array)
    (group_size bits : Z) (s_ : StreamOrDevice) : outcome array :=
  if bits <=? 0 then
    Throw (invalid_argument "[dequantize] Invalid value for bits: ")
  else if group_size <=? 0 then
    Throw (invalid_argument "[dequantize] Invalid value for group_size: ")
  else if (ndim w <? 2) || (ndim scales <? 2) || (ndim biases <? 2) then
    Throw (invalid_argument
      "[quantize] The matrix to be quantized must have at least 2 dimension but it has only")
  else
    let wshape := set_back (shape w) (-1) in
    let sshape := set_back (shape scales) (-1) in
    let bshape := set_back (shape biases) (-1) in
    if negb (list_Z_eqb wshape sshape) || negb (list_Z_eqb wshape bshape)
    then
      Throw (invalid_argument
        "[dequantize] Shape of scales and biases does not match the matrix")
    else if negb (Dtype_eqb (dtype w) uint32) then
      Throw (invalid_argument
        "[dequantize] The matrix should be given as a uint32")
    else
      (* Packing into uint32 *)
      let el_per_int := idiv 32 bits in
      if negb (shape_at w (-1) * el_per_int
               =? shape_at scales (-1) * group_size) then
        Throw (invalid_argument
          "[dequantize] Shape of scales and biases does not match the matrix given the quantization parameters. Provided matrix of shape")
      else
        let s := to_stream s_ in
        let fallback :=
          affine_dequantize_fallback wshape sshape group_size bits
                                     el_per_int in
        if Device_eqb (device s) gpu then
          let out_shape :=
            set_back (shape w) (shape_at w (-1) * el_per_int) in
          Return (mk_array out_shape (dtype scales)
                    (AffineQuantize s fallback group_size bits true)
                    [w; scales; biases])
        else first (fallback [w; scales; biases]).

(** *** custom_kernel (lines 862-891)

    A [std::map] is its list of entries in key order.  [m[name]] on a
    key the map does not hold is left undefined. *)

Fixpoint map_at {V} (m : list (string * V)) (name : string) : option V :=
  match m with
  | [] => None
  | (k, v) :: m' => if String.eqb k name then Some v else map_at m' name
  end.

Fixpoint out_dtypes_of (output_shapes : list (string * list Z))
    (output_dtypes : list (string * Dtype)) : outcome (list Dtype) :=
  match output_shapes with
  | [] => Return []
  | (name, _) :: rest =>
      match map_at output_dtypes name with
      | None => Undefined index_out_of_range
      | Some t =>
          match out_dtypes_of rest output_dtypes with
          | Return l => Return (t :: l)
          | o => o
          end
      end
  end.

Definition custom_kernel (inputs : list (string * array))
    (source : string) (output_shapes : list (string * list Z))
    (output_dtypes : list (string * Dtype))
    (grid threadgroup : Z * Z * Z) (ensure_row_contiguous : bool)
    (s_ : StreamOrDevice) : outcome (list array) :=
  let s := to_stream s_ in
  if Device_eqb (device s) gpu then
    let in_arrs := map snd inputs in
    let out_shapes := map snd output_shapes in
    match out_dtypes_of output_shapes output_dtypes with
    | Return out_dtypes =>
        Return (make_arrays out_shapes out_dtypes (CustomKernel s source)
                            in_arrs)
    | Throw e => Throw e
    | Undefined u => Undefined u
    end
  else Undefined flows_off_the_end.

End Fast.

(** ** An implementation of the array library over exact reals

    A tensor is its shape, its dtype tag and one real per multi-index
    (row-major order decides what [reshape] does).  Arithmetic is exact:
    [astype] changes the tag only, so what is proved on this
    implementation is what the operators compute before any rounding. *)

Module Real.

Record tensor : Type := mk_tensor {
  t_shape : list Z;
  t_dtype : Dtype;
  t_at : list Z -> R
}.

(** *** Shapes and indices *)

Definition prod (sh : list Z) : Z := fold_right Z.mul 1 sh.

(** Row-major position of a multi-index, and back. *)
Fixpoint ravel (sh idx : list Z) : Z :=
  match sh, idx with
  | _ :: sh', i :: idx' => i * prod sh' + ravel sh' idx'
  | _, _ => 0
  end.

Fixpoint unravel (sh : list Z) (n : Z) : list Z :=
  match sh with
  | [] => []
  | d :: sh' => (n / prod sh') mod d :: unravel sh' n
  end.

Fixpoint in_bounds (sh idx : list Z) : Prop :=
  match sh, idx with
  | [], [] => True
  | d :: sh', i :: idx' => 0 <= i < d /\ in_bounds sh' idx'
  | _, _ => False
  end.

Definition rank (sh : list Z) : Z := Z.of_nat (List.length sh).

Definition norm_axis (nd ax : Z) : nat :=
  Z.to_nat (if ax <? 0 then ax + nd else ax).

Fixpoint set_nth {A} (n : nat) (v : A) (l : list A) : list A :=
  match n, l with
  | O, _ :: l' => v :: l'
  | S n', a :: l' => a :: set_nth n' v l'
  | _, [] => []
  end.

Fixpoint insert_nth {A} (n : nat) (v : A) (l : list A) : list A :=
  match n, l with
  | O, _ => v :: l
  | S n', a :: l' => a :: insert_nth n' v l'
  | S _, [] => [v]
  end.

Fixpoint remove_nth {A} (n : nat) (l : list A) : list A :=
  match n, l with
  | O, _ :: l' => l'
  | S n', a :: l' => a :: remove_nth n' l'
  | _, [] => []
  end.

(** Broadcasting: shapes are aligned on their last axis, and an axis of
    size 1 is stretched. *)
Fixpoint bshape_rev (a b : list Z) : list Z :=
  match a, b with
  | [], _ => b
  | _, [] => a
  | x :: a', y :: b' => (if x =? 1 then y else x) :: bshape_rev a' b'
  end.

Definition bshape (a b : list Z) : list Z :=
  rev (bshape_rev (rev a) (rev b)).

Fixpoint bidx_aligned (sh idx : list Z) : list Z :=
  match sh, idx with
  | d :: sh', i :: idx' => (if d =? 1 then 0 else i) :: bidx_aligned sh' idx'
  | _, _ => []
  end.

(** The index of the operand of shape [sh] that a result index reads. *)
Definition bidx (sh idx : list Z) : list Z :=
  bidx_aligned sh (skipn (List.length idx - List.length sh) idx).

(** *** Dtypes (mlx/dtype.h) *)

Definition is_float (t : Dtype) : bool :=
  match t with float16 | float32 | bfloat16 => true | _ => false end.

Definition is_unsigned (t : Dtype) : bool :=
  match t with uint8 | uint16 | uint32 | uint64 => true | _ => false end.

Definition is_signed (t : Dtype) : bool :=
  match t with int8 | int16 | int32 | int64 => true | _ => false end.

Definition width (t : Dtype) : Z :=
  match t with
  | bool_ => 1 | uint8 | int8 => 8 | uint16 | int16 | float16 | bfloat16 => 16
  | uint32 | int32 | float32 => 32 | uint64 | int64 | complex64 => 64
  end.

Definition signed_of_width (w : Z) : Dtype :=
  if w <=? 8 then int8 else if w <=? 16 then int16
  else if w <=? 32 then int32 else int64.

Definition promote_types (a b : Dtype) : Dtype :=
  if Dtype_eqb a b then a
  else match a, b with
  | complex64, _ | _, complex64 => complex64
  | bool_, t | t, bool_ => t
  | _, _ =>
      if is_float a && is_float b then float32
      else if is_float a then a
      else if is_float b then b
      else if Bool.eqb (is_unsigned a) (is_unsigned b) then
        (if width a <? width b then b else a)
      else
        let u := if is_unsigned a then a else b in
        let i := if is_unsigned a then b else a in
        if width u <? width i then i
        else if width u <? 64 then signed_of_width (2 * width u)
        else float32
  end.

Definition r_issubdtype (t : Dtype) (c : Category) : bool :=
  match c with
  | generic => true
  | number => negb (Dtype_eqb t bool_)
  | integer => is_signed t || is_unsigned t
  | signedinteger => is_signed t
  | unsignedinteger => is_unsigned t
  | inexact => is_float t || Dtype_eqb t complex64
  | floating => is_float t
  | complexfloating => Dtype_eqb t complex64
  end.

Definition r_result_type (l : list tensor) : Dtype :=
  match l with
  | [] => bool_
  | a :: rest =>
      fold_left (fun t b => promote_types t (t_dtype b)) rest (t_dtype a)
  end.

(** *** Scalars of the reals used by the integer-valued primitives *)

Definition Rfloor (x : R) : Z := Int_part x.

(** Round to the nearest integer, a tie to the even one. *)
Definition Rrint (x : R) : R :=
  let n := Rfloor (x + / 2) in
  if Req_dec_T (IZR n) (x + / 2)
  then (if Z.even n then IZR n else IZR (n - 1))
  else IZR n.

Definition Rpow (x y : R) : R :=
  if Req_dec_T (IZR (Rfloor y)) y then powerRZ x (Rfloor y) else Rpower x y.

Definition Rbool (b : bool) : R := if b then 1%R else 0%R.

Definition Rgtb (x y : R) : bool := if Rlt_dec y x then true else false.
Definition Reqb (x y : R) : bool := if Req_dec_T x y then true else false.

(** 32-bit shifts of unsigned words. *)
Definition Rshl (x k : R) : R :=
  IZR (Z.shiftl (Rfloor x) (Rfloor k) mod 2 ^ 32).
Definition Rshr (x k : R) : R :=
  IZR (Z.shiftr (Rfloor x) (Rfloor k)).

(** Sum of [f 0 .. f (n - 1)]. *)
Definition Rsum (n : Z) (f : Z -> R) : R :=
  fold_right (fun k acc => (f (Z.of_nat k) + acc)%R) 0%R (seq 0 (Z.to_nat n)).

Definition Rfold (g : R -> R -> R) (n : Z) (f : Z -> R) : R :=
  match Z.to_nat n with
  | O => 0%R
  | S m => fold_left (fun acc k => g acc (f (Z.of_nat k))) (seq 1 m) (f 0)
  end.

(** *** Primitives *)

Definition array_of (v : R) (t : Dtype) : tensor := mk_tensor [] t (fun _ => v).

Definition zeros_like (a : tensor) : tensor :=
  mk_tensor (t_shape a) (t_dtype a) (fun _ => 0%R).

Definition arange (start stop step : Z) (t : Dtype) : tensor :=
  mk_tensor [Z.max 0 ((stop - start + step - 1) / step)] t
            (fun idx => IZR (start + hd 0 idx * step)).

Definition astype (a : tensor) (t : Dtype) : tensor :=
  mk_tensor (t_shape a) t (t_at a).

Definition unary (f : R -> R) (a : tensor) : tensor :=
  mk_tensor (t_shape a) (t_dtype a) (fun idx => f (t_at a idx)).

Definition binary (f : R -> R -> R) (a b : tensor) : tensor :=
  mk_tensor (bshape (t_shape a) (t_shape b))
            (promote_types (t_dtype a) (t_dtype b))
            (fun idx => f (t_at a (bidx (t_shape a) idx))
                          (t_at b (bidx (t_shape b) idx))).

Definition compare (f : R -> R -> bool) (a b : tensor) : tensor :=
  mk_tensor (bshape (t_shape a) (t_shape b)) bool_
            (fun idx => Rbool (f (t_at a (bidx (t_shape a) idx))
                                 (t_at b (bidx (t_shape b) idx)))).

Definition add := binary Rplus.
Definition subtract := binary Rminus.
Definition multiply := binary Rmult.
Definition divide := binary Rdiv.
Definition power := binary Rpow.
Definition maximum := binary Rmax.
Definition left_shift := binary Rshl.
Definition right_shift := binary Rshr.
Definition greater := compare Rgtb.
Definition equal := compare Reqb.
Definition not_equal := compare (fun x y => negb (Reqb x y)).

Definition where_ (c a b : tensor) : tensor :=
  let sh := bshape (t_shape c) (bshape (t_shape a) (t_shape b)) in
  mk_tensor sh (promote_types (t_dtype a) (t_dtype b))
    (fun idx =>
       if Reqb (t_at c (bidx (t_shape c) idx)) 0
       then t_at b (bidx (t_shape b) idx)
       else t_at a (bidx (t_shape a) idx)).

Definition clip (a lo hi : tensor) : tensor :=
  let sh := bshape (t_shape a) (bshape (t_shape lo) (t_shape hi)) in
  mk_tensor sh (t_dtype a)
    (fun idx =>
       Rmin (Rmax (t_at a (bidx (t_shape a) idx))
                  (t_at lo (bidx (t_shape lo) idx)))
            (t_at hi (bidx (t_shape hi) idx))).

Definition square := unary (fun x => (x * x)%R).
Definition sqrt := unary R_sqrt.sqrt.
Definition rsqrt := unary (fun x => (/ R_sqrt.sqrt x)%R).
Definition negative := unary Ropp.
Definition abs := unary Rabs.
Definition round := unary Rrint.
Definition exp := unary Rtrigo_def.exp.
Definition cos := unary Rtrigo_def.cos.
Definition sin := unary Rtrigo_def.sin.

(** Reduce one axis and keep it, with size 1. *)
Definition reduce_axis (red : Z -> (Z -> R) -> R) (a : tensor) (ax : nat)
  : tensor :=
  mk_tensor (set_nth ax 1 (t_shape a)) (t_dtype a)
    (fun idx => red (nth ax (t_shape a) 0)
                    (fun k => t_at a (set_nth ax k idx))).

Definition squeeze_axis (a : tensor) (ax : nat) : tensor :=
  mk_tensor (remove_nth ax (t_shape a)) (t_dtype a)
            (fun idx => t_at a (insert_nth ax 0 idx)).

Definition norm_axes (a : tensor) (axes : list Z) : list nat :=
  map (norm_axis (rank (t_shape a))) axes.

(** Axes are squeezed from the last one down, so the ones still to go
    keep their place. *)
Definition squeeze_axes (a : tensor) (axes : list nat) : tensor :=
  fold_left squeeze_axis
    (filter (fun k => existsb (Nat.eqb k) axes)
            (rev (seq 0 (List.length (t_shape a))))) a.

Definition reduce (red : Z -> (Z -> R) -> R) (a : tensor) (axes : list Z)
    (keepdims : bool) : tensor :=
  let axs := norm_axes a axes in
  let r := fold_left (reduce_axis red) axs a in
  if keepdims then r else squeeze_axes r axs.

Definition sum := reduce Rsum.
Definition max := reduce (Rfold Rmax).
Definition min := reduce (Rfold Rmin).

Definition count (a : tensor) (axes : list Z) : Z :=
  prod (map (fun ax => nth ax (t_shape a) 0) (norm_axes a axes)).

Definition mean (a : tensor) (axes : list Z) (keepdims : bool) : tensor :=
  unary (fun x => (x / IZR (count a axes))%R) (sum a axes keepdims).

Definition number_of_elements (a : tensor) (axes : list Z) (inverted : bool)
    (t : Dtype) : tensor :=
  array_of
    (if inverted then (/ IZR (count a axes))%R else IZR (count a axes)) t.

Definition softmax (a : tensor) (axes : list Z) (precise : bool) : tensor :=
  let e := exp a in
  mk_tensor (t_shape a) (t_dtype a)
            (t_at (divide e (sum e axes true))).

(** [reshape]: one entry of the new shape may be [-1] and is inferred. *)
Definition infer_shape (size : Z) (sh : list Z) : list Z :=
  let known := prod (filter (fun d => negb (d =? -1)) sh) in
  map (fun d => if d =? -1 then size / known else d) sh.

Definition reshape (a : tensor) (sh : list Z) : tensor :=
  let sh' := infer_shape (prod (t_shape a)) sh in
  mk_tensor sh' (t_dtype a)
            (fun idx => t_at a (unravel (t_shape a) (ravel sh' idx))).

Definition expand_dims (a : tensor) (axis : Z) : tensor :=
  let ax := norm_axis (rank (t_shape a) + 1) axis in
  mk_tensor (insert_nth ax 1 (t_shape a)) (t_dtype a)
            (fun idx => t_at a (remove_nth ax idx)).

Definition swap {A} (i j : nat) (d : A) (l : list A) : list A :=
  set_nth i (nth j l d) (set_nth j (nth i l d) l).

Definition swapaxes (a : tensor) (ax1 ax2 : Z) : tensor :=
  let i := norm_axis (rank (t_shape a)) ax1 in
  let j := norm_axis (rank (t_shape a)) ax2 in
  mk_tensor (swap i j 0 (t_shape a)) (t_dtype a)
            (fun idx => t_at a (swap i j 0 idx)).

Fixpoint slice_shape (start stop strides : list Z) : list Z :=
  match start, stop, strides with
  | s :: start', e :: stop', st :: strides' =>
      Z.max 0 ((e - s + st - 1) / st) :: slice_shape start' stop' strides'
  | _, _, _ => []
  end.

Fixpoint slice_index (start strides idx : list Z) : list Z :=
  match start, strides, idx with
  | s :: start', st :: strides', i :: idx' =>
      (s + i * st) :: slice_index start' strides' idx'
  | _, _, _ => []
  end.

Definition slice (a : tensor) (start stop strides : list Z) : tensor :=
  mk_tensor (slice_shape start stop strides) (t_dtype a)
            (fun idx => t_at a (slice_index start strides idx)).

Definition concat2 (ax : nat) (a b : tensor) : tensor :=
  let da := nth ax (t_shape a) 0 in
  mk_tensor (set_nth ax (da + nth ax (t_shape b) 0) (t_shape a)) (t_dtype a)
    (fun idx =>
       let i := nth ax idx 0 in
       if i <? da then t_at a idx else t_at b (set_nth ax (i - da) idx)).

Definition concatenate (l : list tensor) (axis : Z) : tensor :=
  match l with
  | [] => array_of 0 float32
  | a :: rest =>
      fold_left (concat2 (norm_axis (rank (t_shape a)) axis)) rest a
  end.

(** [matmul]: the last two axes are multiplied, the others broadcast. *)
Definition matmul (a b : tensor) : tensor :=
  let na := List.length (t_shape a) in
  let nb := List.length (t_shape b) in
  let batch_a := firstn (na - 2) (t_shape a) in
  let batch_b := firstn (nb - 2) (t_shape b) in
  let m := nth (na - 2) (t_shape a) 0 in
  let k := nth (na - 1) (t_shape a) 0 in
  let n := nth (nb - 1) (t_shape b) 0 in
  mk_tensor (bshape batch_a batch_b ++ [m; n])
            (promote_types (t_dtype a) (t_dtype b))
    (fun idx =>
       let r := List.length idx in
       let batch := firstn (r - 2) idx in
       let i := nth (r - 2) idx 0 in
       let j := nth (r - 1) idx 0 in
       Rsum k (fun t =>
         (t_at a (bidx batch_a batch ++ [i; t])
          * t_at b (bidx batch_b batch ++ [t; j]))%R)).

(** A deferred node evaluates to what its fallback computes on the
    node's inputs (the contract of a primitive node); a node without a
    fallback is given zeros. *)
Definition node_outputs (p : Primitive tensor) (inputs : list tensor)
  : list tensor :=
  match fallback_of p with
  | Some f => f inputs
  | None => []
  end.

Definition mk_array (sh : list Z) (t : Dtype) (p : Primitive tensor)
    (inputs : list tensor) : tensor :=
  mk_tensor sh t (t_at (nth 0 (node_outputs p inputs) (array_of 0 t))).

Definition make_arrays (shapes : list (list Z)) (dtypes : list Dtype)
    (p : Primitive tensor) (inputs : list tensor) : list tensor :=
  map (fun i =>
         mk_tensor (nth i shapes []) (nth i dtypes float32)
           (t_at (nth i (node_outputs p inputs) (array_of 0 float32))))
      (seq 0 (List.length shapes)).

Definition to_stream (default_stream : Stream) (s : StreamOrDevice) : Stream :=
  match s with
  | monostate => default_stream
  | on_stream st => st
  | on_device d => mkStream 0 d
  end.

Definition make_arrays_length shapes dtypes p inputs :
  List.length (make_arrays shapes dtypes p inputs) = List.length shapes :=
  eq_trans (length_map _ _) (length_seq _ _).

Definition Lib (default_stream : Stream) : ArrayLib tensor :=
  Build_ArrayLib tensor
    t_shape t_dtype (to_stream default_stream) r_result_type r_issubdtype
    array_of mk_array make_arrays zeros_like arange astype add subtract
    multiply divide power maximum greater equal not_equal left_shift
    right_shift where_ clip square sqrt rsqrt negative abs round exp cos sin
    sum mean max min softmax number_of_elements reshape expand_dims swapaxes
    slice concatenate matmul (fun _ => eq_refl) (fun _ => eq_refl)
    make_arrays_length.

End Real.

(** ** The packed layout on 32-bit words

    What [pack_and_quantize] (lines 620-633) and the loop of the
    dequantize fallback (lines 826-838) do to one 32-bit word: the
    values are [uint32], so every product, sum and left shift is taken
    modulo [2^32]. *)

Module Codec.

Definition u32 (x : Z) : Z := x mod 2 ^ 32.

Definition u32_add (a b : Z) : Z := u32 (a + b).
Definition u32_mul (a b : Z) : Z := u32 (a * b).
Definition u32_shl (a k : Z) : Z := u32 (Z.shiftl a k).
Definition u32_shr (a k : Z) : Z := Z.shiftr a k.

(** [arange(start, stop, step, uint32)]: [ceil((stop - start) / step)]
    values. *)
Definition arange_u32 (start stop step : Z) : list Z :=
  map (fun i => u32 (start + Z.of_nat i * step))
      (seq 0 (Z.to_nat ((stop - start + step - 1) / step))).

(** [shifts = power(array(2, uint32), arange(0, 32, bits, uint32))]. *)
Definition shifts (bits : Z) : list Z :=
  map (fun e => u32 (2 ^ e)) (arange_u32 0 32 bits).

(** [sum(multiply(packed_w, shifts), 2)] on the [el_per_int] quantized
    values that share a word. *)
Definition pack_word (bits : Z) (qs : list Z) : Z :=
  fold_left u32_add
    (map (fun '(q, s) => u32_mul q s) (combine qs (shifts bits))) 0.

(** One round of the loop: the field that starts at bit [start]. *)
Definition field (bits start w : Z) : Z :=
  u32_shr (u32_shl w (u32 (32 - (start + bits)))) (u32 (32 - bits)).

Fixpoint unpack_loop (fuel : nat) (w bits start : Z) : list Z :=
  match fuel with
  | O => []
  | S fuel' =>
      if start <? 32
      then field bits start w :: unpack_loop fuel' w bits (start + bits)
      else []
  end.

(** [concatenate(parts, -1)] on one word: its fields, first part first. *)
Definition unpack_word (bits w : Z) : list Z := unpack_loop 32 w bits 0.

(** The value [sum(q_i * 2^(bits*i))], without wrap-around. *)
Fixpoint packed_value (bits : Z) (qs : list Z) : Z :=
  match qs with
  | [] => 0
  | q :: qs' => q + 2 ^ bits * packed_value bits qs'
  end.

Definition level (bits q : Z) : Prop := 0 <= q <= 2 ^ bits - 1.

End Codec.

(** * Specifications

    What the properties below are stated with: the words of the claims
    and of the specification, as definitions. *)

(** The longest prefix of [l] that increases strictly and stays within
    [lo, hi). *)
Fixpoint increasing_prefix (lo hi : Z) (l : list Z) : list Z :=
  match l with
  | [] => []
  | a :: l' =>
      if (lo <=? a) && (a <? hi) then a :: increasing_prefix (a + 1) hi l'
      else []
  end.

Definition supported_group_size (group_size : Z) : Prop :=
  group_size = 32 \/ group_size = 64 \/ group_size = 128.

Definition supported_bits (bits : Z) : Prop :=
  bits = 2 \/ bits = 4 \/ bits = 8.

Section Specifications.
Context {array : Type} {L : ArrayLib array}.

(** What [affine_quantize] rejects: the five conditions of the claim. *)
Definition quantize_rejects (w : array) (group_size bits : Z) : Prop :=
  ~ supported_group_size group_size
  \/ ~ supported_bits bits
  \/ ndim w < 2
  \/ ~ (group_size | shape_at w (-1))
  \/ shape_at w (-1) < 32 * (32 / bits).

(** The outputs [affine_quantize] hands back when it accepts: those of
    the deferred node on a GPU stream, those of the fallback otherwise. *)
Definition quantize_outputs (w : array) (group_size bits : Z)
    (s_ : StreamOrDevice) : list array :=
  let s := to_stream s_ in
  let el_per_int := idiv 32 bits in
  let fallback := affine_quantize_fallback group_size bits el_per_int in
  if Device_eqb (device s) gpu then
    make_arrays
      [set_back (shape w) (idiv (shape_at w (-1)) el_per_int);
       set_back (shape w) (idiv (shape_at w (-1)) group_size);
       set_back (shape w) (idiv (shape_at w (-1)) group_size)]
      [uint32; dtype w; dtype w]
      (AffineQuantize s fallback group_size bits false) [w]
  else fallback [w].

(** The checks of [affine_dequantize] that do not involve the values of
    [bits] and [group_size] beyond the width relation. *)
Definition dequantize_shapes_agree (w scales biases : array)
    (group_size bits : Z) : Prop :=
  2 <= ndim w /\ 2 <= ndim scales /\ 2 <= ndim biases
  /\ set_back (shape w) (-1) = set_back (shape scales) (-1)
  /\ set_back (shape w) (-1) = set_back (shape biases) (-1)
  /\ dtype w = uint32
  /\ shape_at w (-1) * (32 / bits) = shape_at scales (-1) * group_size.

(** The decomposition in the words of the specification: scale the
    queries, repeat the key/value heads by reshape and broadcast, and
    take [softmax(q . k^T + mask) . v].  [n_q_heads] and [n_kv_heads] are
    the head counts of the queries and of the keys. *)
Definition attention_reference (scale : R) (mask : option array)
    (n_q_heads n_kv_heads : Z) (q k v : array) : array :=
  let scaled := multiply (array_of scale (dtype q)) q in
  let n_repeats := idiv n_q_heads n_kv_heads in
  let B := shape_at scaled 0 in
  let L_ := shape_at scaled 2 in
  let grouped := n_repeats >? 1 in
  let q' :=
    if grouped then reshape scaled [B; n_kv_heads; n_repeats; L_; -1]
    else scaled in
  let k' := if grouped then expand_dims k 2 else k in
  let v' := if grouped then expand_dims v 2 else v in
  let scores := matmul q' (swapaxes k' (-1) (-2)) in
  let scores :=
    match mask with Some m => add scores m | None => scores end in
  let out := matmul (softmax scores [-1] true) v' in
  if grouped then reshape out [B; n_q_heads; L_; -1] else out.

(** The inputs that pass every check of [scaled_dot_product_attention]. *)
Definition sdpa_valid (queries keys values : array) : Prop :=
  ndim queries = 4 /\ ndim keys = 4 /\ ndim values = 4
  /\ shape_at keys 0 = shape_at queries 0
  /\ shape_at values 0 = shape_at queries 0
  /\ shape_at queries (-1) = shape_at keys (-1)
  /\ shape_at keys (-3) = shape_at values (-3)
  /\ shape_at keys (-3) <> 0
  /\ imod (shape_at queries (-3)) (shape_at keys (-3)) = 0
  /\ issubdtype (result_type [queries; keys; values]) floating = true.

(** The definition in the words of the specification:
    [weight * cast(x32 / sqrt(mean(x32^2, last_axis) + eps), out_type)],
    with [x32] the input upcast to [float32]. *)
Definition rms_norm_reference (eps : R) (out_type : Dtype) (x weight : array)
  : array :=
  let x32 := astype x float32 in
  let ms := mean (square x32) [-1] true in
  multiply weight
    (astype (divide x32 (sqrt (add ms (array_of eps float32)))) out_type).

(** Exact arithmetic: multiplying by the reciprocal square root is
    dividing by the square root. *)
Definition rsqrt_is_reciprocal_sqrt : Prop :=
  forall a b : array, multiply a (rsqrt b) = divide a (sqrt b).

(** The angle table of [rope], from the 3-D view [x] of the input. *)
Definition rope_theta (dims : Z) (base scale : R) (offset : Z) (x : array)
  : array :=
  let t := dtype x in
  let N := shape_at x 1 + offset in
  let half_dims := idiv dims 2 in
  let positions := multiply (arange offset N 1 t) (array_of scale t) in
  let freqs := negative (arange 0 half_dims 1 t) in
  let freqs := exp (multiply freqs (array_of (ln base / IZR half_dims)%R t)) in
  multiply (expand_dims positions 1) (expand_dims freqs 0).

(** The rotation of the 3-D view, before the last [reshape]. *)
Definition rope_rotate (dims : Z) (traditional forward : bool)
    (x coss sins : array) : array :=
  let half_dims := idiv dims 2 in
  if traditional then
    let x1 := slice x [0; 0; 0] [shape_at x 0; shape_at x 1; dims] [1; 1; 2] in
    let x2 := slice x [0; 0; 1] [shape_at x 0; shape_at x 1; dims] [1; 1; 2] in
    let outs := apply_rope forward x1 x2 coss sins in
    let outs := map (fun o => expand_dims o 3) outs in
    let out := concatenate outs 3 in
    if dims <? shape_at x (-1) then
      let out := reshape out [shape_at x 0; shape_at x 1; dims] in
      concatenate [out; slice_ x [0; 0; dims] (shape x)] 2
    else out
  else
    let out_s := set_back (shape x) half_dims in
    let x1 := slice_ x [0; 0; 0] out_s in
    let out_s := set_back out_s dims in
    let x2 := slice_ x [0; 0; half_dims] out_s in
    let outs := apply_rope forward x1 x2 coss sins in
    let outs :=
      if dims <? shape_at x (-1)
      then outs ++ [slice_ x [0; 0; dims] (shape x)]
      else outs in
    concatenate outs 2.


(** The output type of [layer_norm]: the common type of [x], the weight
    and the bias when a weight is given, the type of [x] otherwise. *)
Definition layer_norm_out_type (x : array) (weight bias : option array)
  : Dtype :=
  match weight with
  | Some w =>
      match bias with
      | Some b => result_type [x; w; b]
      | None => result_type [x; w]
      end
  | None => dtype x
  end.

(** What [layer_norm] rejects. *)
Definition layer_norm_rejects (x : array) (weight bias : option array)
  : Prop :=
  ndim x = 0
  \/ (exists w, weight = Some w /\ ndim w <> 1)
  \/ (exists b, bias = Some b /\ ndim b <> 1)
  \/ issubdtype (layer_norm_out_type x weight bias) floating = false.

(** The shape checks of [scaled_dot_product_attention] that come before
    the division of the head counts. *)
Definition sdpa_shapes_agree (queries keys values : array) : Prop :=
  ndim queries = 4 /\ ndim keys = 4 /\ ndim values = 4
  /\ shape_at keys 0 = shape_at queries 0
  /\ shape_at values 0 = shape_at queries 0
  /\ shape_at queries (-1) = shape_at keys (-1)
  /\ shape_at keys (-3) = shape_at values (-3).
End Specifications.

(** ** Tensors over the reals *)

Definition positive_dims (sh : list Z) : Prop := Forall (fun d => 0 < d) sh.

(** [a] has shape [sh] and holds [f idx] at every index within it. *)
Definition denotes (a : Real.tensor) (sh : list Z) (f : list Z -> R) : Prop :=
  Real.t_shape a = sh
  /\ forall idx, Real.in_bounds sh idx -> Real.t_at a idx = f idx.

(** A slice that stays within the array. *)
Fixpoint slice_ok (sh start stop strides : list Z) : Prop :=
  match sh, start, stop, strides with
  | [], [], [], [] => True
  | d :: sh', s :: start', e :: stop', st :: strides' =>
      0 <= s /\ 0 < st /\ e <= d /\ slice_ok sh' start' stop' strides'
  | _, _, _, _ => False
  end.

(** The rotation of one pair, as [apply_rope] computes it. *)
Definition rotate (forward : bool) (a b c s : R) : R * R :=
  if forward then (a * c - b * s, a * s + b * c)%R
  else (b * s + a * c, b * c - a * s)%R.

(** What [rope] does to one row [r] of features, [theta] being the
    angles of the row's position. *)
Definition rotate_row (traditional forward : bool) (dims h : Z)
    (theta : Z -> R) (r : Z -> R) (d : Z) : R :=
  if d <? dims then
    if traditional then
      let i := d / 2 in
      let p := rotate forward (r (2 * i)) (r (2 * i + 1))
                      (Rtrigo_def.cos (theta i)) (Rtrigo_def.sin (theta i)) in
      if d mod 2 =? 0 then fst p else snd p
    else if d <? h then
      fst (rotate forward (r d) (r (h + d))
                  (Rtrigo_def.cos (theta d)) (Rtrigo_def.sin (theta d)))
    else
      snd (rotate forward (r (d - h)) (r d)
                  (Rtrigo_def.cos (theta (d - h)))
                  (Rtrigo_def.sin (theta (d - h))))
  else r d.

(** The same on a 3-D tensor [f], row by row. *)
Definition rotated (traditional forward : bool) (dims h : Z)
    (th f : list Z -> R) : list Z -> R :=
  fun idx =>
    let b := nth 0 idx 0 in
    let l := nth 1 idx 0 in
    rotate_row traditional forward dims h (fun i => th [l; i])
               (fun d => f [b; l; d]) (nth 2 idx 0).

(** The angles [rope] uses for rows of a tensor with [L_] positions. *)
Definition rope_angles (ds : Stream) (dims : Z) (base scale : R) (offset L_ : Z)
  : list Z -> R :=
  Real.t_at
    (rope_theta (L := Real.Lib ds) dims base scale offset
       (Real.mk_tensor [0; L_; 0] float32 (fun _ => 0%R))).

(** The two features of the pair [i] that [rope] rotates together:
    neighbours in the traditional layout, [h] apart otherwise. *)
Definition rope_pair (traditional : bool) (h i : Z) : Z * Z :=
  if traditional then (2 * i, 2 * i + 1) else (i, h + i).

(** The angle of position [offset + l] and pair [i]. *)
Definition rope_angle (base scale : R) (offset h l i : Z) : R :=
  (IZR (offset + l) * scale
   * Rtrigo_def.exp (- IZR i * (ln base / IZR h)))%R.

(** Mean and variance of a row of [D] features, and the normalized
    row. *)
Definition row_mean (D : Z) (r : Z -> R) : R := (Real.Rsum D r / IZR D)%R.

Definition row_var (D : Z) (r : Z -> R) : R :=
  (row_mean D (fun k => r k * r k) - row_mean D r * row_mean D r)%R.

Definition layer_norm_row (eps : R) (D : Z) (w b : option (Z -> R))
    (r : Z -> R) (d : Z) : R :=
  let n := ((r d - row_mean D r) * / R_sqrt.sqrt (row_var D r + eps))%R in
  let n := match w with Some w => (n * w d)%R | None => n end in
  match b with Some b => (n + b d)%R | None => n end.

Definition rms_norm_row (eps : R) (D : Z) (w r : Z -> R) (d : Z) : R :=
  (w d * (r d * / R_sqrt.sqrt (row_mean D (fun k => r k * r k) + eps)))%R.

(** [round]: the nearest integer, a tie going to the even one. *)
Definition rint (x : R) : Z :=
  let n := Real.Rfloor (x + / 2) in
  if Req_dec_T (IZR n) (x + / 2)
  then (if Z.even n then n else n - 1)
  else n.

(** The level [pack_and_quantize] stores for the scaled value [x]:
    [clip(round(x), 0, 2^bits - 1)]. *)
Definition quantize_level (bits : Z) (x : R) : Z :=
  Z.min (Z.max (rint x) 0) (2 ^ bits - 1).

(** The level stored for entry [r, c] of [w]: the entry, against the
    scale and the bias of its group, rounded and clipped. *)
Definition stored_level (group_size bits : Z) (w scales biases : Real.tensor)
    (r c : Z) : Z :=
  quantize_level bits
    ((Real.t_at w [r; c] - Real.t_at biases [r; c / group_size])
     / Real.t_at scales [r; c / group_size]).

(** The levels that share word [m] of row [r], lowest bits first. *)
Definition word_levels (group_size bits : Z) (w scales biases : Real.tensor)
    (r m : Z) : list Z :=
  map (fun k =>
         stored_level group_size bits w scales biases r
                      (m * (32 / bits) + Z.of_nat k))
      (seq 0 (Z.to_nat (32 / bits))).

(** The entry of an additive mask of shape [L, S]; none adds nothing. *)
Definition mask_at (mask : option Real.tensor) (l t : Z) : R :=
  match mask with
  | Some m => Real.t_at m [l; t]
  | None => 0%R
  end.

(** The score of key [t] for the query at [b, h, l], against the keys
    of head [g]. *)
Definition attention_score (scale : R) (q k : Real.tensor)
    (mask : option Real.tensor) (D b h g l t : Z) : R :=
  (Real.Rsum D (fun d => scale * Real.t_at q [b; h; l; d]
                         * Real.t_at k [b; g; t; d])
   + mask_at mask l t)%R.

Definition softmax_weight (S_ : Z) (s : Z -> R) (t : Z) : R :=
  (Rtrigo_def.exp (s t) / Real.Rsum S_ (fun u => Rtrigo_def.exp (s u)))%R.

(** Entry [j] of the attention output for the query at [b, h, l]. *)
Definition attention_row (scale : R) (q k v : Real.tensor)
    (mask : option Real.tensor) (D S_ b h g l j : Z) : R :=
  Real.Rsum S_ (fun t =>
    (softmax_weight S_ (attention_score scale q k mask D b h g l) t
     * Real.t_at v [b; g; t; j])%R).

(** The row of the gradient that [LayerNorm::vjp] computes for [x]:
    [(wg - mean wg) * n - x_c * mean (wg * x_c) * n^3]. *)
Definition layer_norm_vjp_row (eps : R) (D : Z) (w g x : Z -> R) (d : Z)
  : R :=
  let mu := row_mean D x in
  let n := (/ R_sqrt.sqrt (row_var D x + eps))%R in
  ((w d * g d - row_mean D (fun k => w k * g k)) * n
   - (x d - mu) * row_mean D (fun k => w k * g k * (x k - mu))
     * (n * n * n))%R.

(** The row of the gradient that [RMSNorm::vjp] computes for [x]:
    [g * w * n - x * mean (g * w * x) * n^3]. *)
Definition rms_norm_vjp_row (eps : R) (D : Z) (w g x : Z -> R) (d : Z)
  : R :=
  let n := (/ R_sqrt.sqrt (row_mean D (fun k => x k * x k) + eps))%R in
  (g d * w d * n
   - x d * row_mean D (fun k => g k * w k * x k) * (n * n * n))%R.

(** [x + e * U], entry by entry. *)
Definition perturb (x : Real.tensor) (U : list Z -> R) (e : R)
  : Real.tensor :=
  Real.mk_tensor (Real.t_shape x) (Real.t_dtype x)
                 (fun idx => (Real.t_at x idx + e * U idx)%R).

(** The entry of a returned tensor. *)
Definition returned_at (o : outcome Real.tensor) (idx : list Z) : R :=
  match o with
  | Return y => Real.t_at y idx
  | _ => 0%R
  end.

(** [sum_{r, d} g[r, d] * y[r, d]] for the matrix that [o] returns. *)
Definition weighted_total (R_ D : Z) (g : Real.tensor)
    (o : outcome Real.tensor) : R :=
  Real.Rsum R_ (fun r =>
    Real.Rsum D (fun d => (Real.t_at g [r; d] * returned_at o [r; d])%R)).

(** ** Concrete inputs *)

Definition cpu_stream : Stream := mkStream 0 cpu.

Definition example_lib : ArrayLib Real.tensor := Real.Lib cpu_stream.

(** A tensor of the given shape and dtype that holds its own row-major
    positions. *)
Definition iota_tensor (sh : list Z) (t : Dtype) : Real.tensor :=
  Real.mk_tensor sh t (fun idx => IZR (Real.ravel sh idx)).

(** * Properties *)

Lemma Dtype_eqb_eq (a b : Dtype) : Dtype_eqb a b = true <-> a = b.
Proof. destruct a, b; simpl; split; intro H; congruence. Qed.

Lemma Device_eqb_eq (a b : Device) : Device_eqb a b = true <-> a = b.
Proof. destruct a, b; simpl; split; intro H; congruence. Qed.

Lemma Dtype_eqb_refl (a : Dtype) : Dtype_eqb a a = true.
Proof. now destruct a. Qed.

Lemma first_singleton {A} (a : A) : first [a] = Return a.
Proof. reflexivity. Qed.

Lemma raises_Throw {A} what : raises (@Throw A (invalid_argument what)).
Proof. now exists what. Qed.

Lemma not_raises_Return {A} (a : A) : ~ raises (Return a).
Proof. intros [what H]; discriminate. Qed.

Lemma not_raises_Undefined {A} u : ~ raises (@Undefined A u).
Proof. intros [what H]; discriminate. Qed.

Lemma returns_Return {A} (a : A) : returns (Return a).
Proof. now exists a. Qed.

Create HintDb outcome.
#[local] Hint Resolve raises_Throw not_raises_Return not_raises_Undefined
  returns_Return : outcome.

(** ** Custom::vjp *)

Lemma increasing_prefix_empty_range lo hi l :
  hi <= lo -> increasing_prefix lo hi l = [].
Proof.
  destruct l as [|a l]; simpl; [reflexivity|]. intros H.
  destruct (lo <=? a) eqn:E1, (a <? hi) eqn:E2; simpl; try reflexivity. lia.
Qed.

Lemma increasing_prefix_step lo hi a l :
  a <> lo ->
  increasing_prefix lo hi (a :: l) = increasing_prefix (lo + 1) hi (a :: l).
Proof.
  intros Hne; simpl.
  destruct (lo <=? a) eqn:E1, (lo + 1 <=? a) eqn:E2, (a <? hi) eqn:E3;
    simpl; try reflexivity; lia.
Qed.

Lemma increasing_prefix_length lo hi l :
  (List.length (increasing_prefix lo hi l) <= List.length l)%nat.
Proof.
  revert lo; induction l as [|a l IH]; intros lo; simpl; [lia|].
  destruct ((lo <=? a) && (a <? hi)); simpl; [specialize (IH (a + 1))|]; lia.
Qed.

Lemma increasing_prefix_sorted lo hi l :
  StronglySorted Z.lt l -> Forall (fun a => lo <= a < hi) l ->
  increasing_prefix lo hi l = l.
Proof.
  revert lo; induction l as [|a l IH]; intros lo Hs Hr; simpl; [reflexivity|].
  inversion Hs as [|? ? Hs' Hlt]; subst. inversion Hr as [|? ? Ha Hr']; subst.
  replace ((lo <=? a) && (a <? hi)) with true by lia.
  f_equal. apply IH; [assumption|].
  rewrite Forall_forall in *. intros x Hx.
  specialize (Hlt x Hx). specialize (Hr' x Hx). lia.
Qed.

Lemma increasing_prefix_full lo hi l :
  List.length (increasing_prefix lo hi l) = List.length l ->
  StronglySorted Z.lt l /\ Forall (fun a => lo <= a < hi) l.
Proof.
  revert lo; induction l as [|a l IH]; intros lo; simpl.
  - intros _; split; constructor.
  - destruct (lo <=? a) eqn:E1, (a <? hi) eqn:E2; simpl; try discriminate.
    intros H; injection H as H. destruct (IH _ H) as [Hs Hr].
    split.
    + constructor; [assumption|].
      rewrite Forall_forall in *. intros x Hx. specialize (Hr x Hx). lia.
    + constructor; [lia|].
      rewrite Forall_forall in *. intros x Hx. specialize (Hr x Hx). lia.
Qed.

Section CustomProperties.
Context {array : Type}.
Variable core_vjp :
  closure array -> list array -> list array -> list array * list array.

(** The loop of [Custom::vjp] keeps exactly the entries of [vjps] named by
    the increasing prefix of what is left of [argnums]. *)
Lemma vjp_loop_prefix (rest : list array) :
  forall (i : Z) (j : nat) (argnums : list Z),
    map Some (vjp_loop rest i j argnums) =
    map (fun a => nth_error rest (Z.to_nat (a - i)))
        (increasing_prefix i (i + Z.of_nat (List.length rest))
                           (skipn j argnums)).
Proof.
  induction rest as [|g rest IH]; intros i j argnums.
  - simpl. now rewrite increasing_prefix_empty_range by lia.
  - cbn [vjp_loop].
    replace (i + Z.of_nat (List.length (g :: rest)))
      with (i + 1 + Z.of_nat (List.length rest))
      by (cbn [List.length]; lia).
    destruct (Nat.ltb j (List.length argnums)) eqn:Hj.
    + apply Nat.ltb_lt in Hj.
      destruct (nth_error argnums j) as [a|] eqn:Ha;
        [|apply nth_error_None in Ha; lia].
      assert (Hsk : skipn j argnums = a :: skipn (S j) argnums).
      { clear -Ha. revert j Ha.
        induction argnums as [|b l IHl]; intros [|j] Ha; simpl in *;
          try discriminate; [now injection Ha as ->|auto]. }
      rewrite (nth_error_nth _ _ 0 Ha), Hsk.
      destruct (i =? a) eqn:Hia; cbn [andb].
      * apply Z.eqb_eq in Hia; subst a.
        cbn [increasing_prefix map].
        rewrite Z.leb_refl.
        replace (i <? i + 1 + Z.of_nat (List.length rest)) with true
          by (symmetry; apply Z.ltb_lt; lia).
        cbn [andb map]. rewrite Z.sub_diag. cbn [Z.to_nat nth_error].
        f_equal. rewrite IH.
        apply map_ext_in. intros a Hin.
        assert (i + 1 <= a).
        { clear -Hin. remember (skipn (S j) argnums) as l eqn:E; clear E.
          destruct l as [|b l]; simpl in Hin; [contradiction|].
          destruct (i + 1 <=? b) eqn:E1; simpl in Hin; [|contradiction].
          destruct (b <? i + 1 + Z.of_nat (List.length rest)) eqn:E2;
            simpl in Hin; [|contradiction].
          destruct Hin as [<-|Hin]; [lia|].
          revert Hin. generalize (i + 1 + Z.of_nat (List.length rest)).
          assert (Hb : i + 1 <= b + 1) by lia. revert Hb.
          generalize (b + 1). clear E1 E2.
          induction l as [|c l IHl]; intros lo Hlo hi Hin; simpl in Hin;
            [contradiction|].
          destruct (lo <=? c) eqn:E1; simpl in Hin; [|contradiction].
          destruct (c <? hi) eqn:E2; simpl in Hin; [|contradiction].
          destruct Hin as [<-|Hin]; [lia|].
          apply (IHl (c + 1)) in Hin; lia. }
        replace (Z.to_nat (a - i)) with (S (Z.to_nat (a - (i + 1)))) by lia.
        reflexivity.
      * apply Z.eqb_neq in Hia.
        rewrite increasing_prefix_step by congruence.
        rewrite IH, <- Hsk.
        apply map_ext_in. intros b Hin.
        assert (i + 1 <= b).
        { clear -Hin. revert Hin.
          generalize (i + 1 + Z.of_nat (List.length rest)).
          generalize (skipn j argnums). intros l hi.
          assert (Hb : i + 1 <= i + 1) by lia. revert Hb.
          generalize (i + 1) at 2 3.
          induction l as [|c l IHl]; intros lo Hlo Hin; simpl in Hin;
            [contradiction|].
          destruct (lo <=? c) eqn:E1; simpl in Hin; [|contradiction].
          destruct (c <? hi) eqn:E2; simpl in Hin; [|contradiction].
          destruct Hin as [<-|Hin]; [lia|].
          apply (IHl (c + 1)) in Hin; lia. }
        replace (Z.to_nat (b - i)) with (S (Z.to_nat (b - (i + 1)))) by lia.
        reflexivity.
    + apply Nat.ltb_ge in Hj. cbn [andb].
      rewrite IH, skipn_all2 by lia. reflexivity.
Qed.

(** C8.  [Custom::vjp] returns the gradients of the fallback named by the
    longest strictly increasing prefix of [argnums].  So for [argnums]
    strictly increasing (and naming inputs) it returns the gradient of
    each named input, in that order; and when [argnums] is not strictly
    increasing, everything from the first out-of-order entry on is
    skipped and fewer gradients than entries of [argnums] come back. *)
Theorem Custom_vjp_argnums (fallback_ : closure array)
    (primals cotangents : list array) (argnums : list Z)
    (outputs : list array) :
  let vjps := snd (core_vjp fallback_ primals cotangents) in
  let returned :=
    Custom_vjp core_vjp fallback_ primals cotangents argnums outputs in
  let n := Z.of_nat (List.length vjps) in
  map Some returned =
    map (fun a => nth_error vjps (Z.to_nat a)) (increasing_prefix 0 n argnums)
  /\ (StronglySorted Z.lt argnums ->
      Forall (fun a => 0 <= a < n) argnums ->
      map Some returned = map (fun a => nth_error vjps (Z.to_nat a)) argnums)
  /\ (~ StronglySorted Z.lt argnums ->
      (List.length returned < List.length argnums)%nat).
Proof.
  intros vjps returned n.
  assert (Hgen : map Some returned =
    map (fun a => nth_error vjps (Z.to_nat a)) (increasing_prefix 0 n argnums)).
  { subst returned vjps n. unfold Custom_vjp.
    destruct (core_vjp fallback_ primals cotangents) as [o vjps]. cbn [snd].
    rewrite vjp_loop_prefix. cbn [skipn Z.add].
    apply map_ext. intros a. now rewrite Z.sub_0_r. }
  split; [exact Hgen|]. split.
  - intros Hs Hr. rewrite Hgen. now rewrite increasing_prefix_sorted.
  - intros Hns.
    assert (Hlen : List.length returned
                   = List.length (increasing_prefix 0 n argnums)).
    { rewrite <- (length_map Some returned), Hgen. apply length_map. }
    pose proof (increasing_prefix_length 0 n argnums) as Hle.
    destruct (Nat.eq_dec (List.length (increasing_prefix 0 n argnums))
                         (List.length argnums)) as [Heq|Hne]; [|lia].
    exfalso. apply Hns. now apply (increasing_prefix_full 0 n).
Qed.

End CustomProperties.

(** ** Custom::jvp *)

Section CustomJvpProperties.
Context {array : Type} {L : ArrayLib array}.
Variable core_jvp :
  closure array -> list array -> list array -> list array * list array.

Lemma skipn_cons_nth {A} (l : list A) (j : nat) (a : A) :
  nth_error l j = Some a -> skipn j l = a :: skipn (S j) l.
Proof.
  revert j. induction l as [|b l IH]; intros [|j] H; simpl in *;
    try discriminate; [now injection H as ->|auto].
Qed.

(** The loop of [Custom::jvp] on [argnums] that increase strictly and
    name inputs still to come: every named input gets its tangent, every
    other input zeros. *)
Lemma jvp_loop_sorted (rest : list array) :
  forall (i : Z) (j : nat) (argnums : list Z) (tangents : list array),
    StronglySorted Z.lt (skipn j argnums) ->
    Forall (fun a => i <= a < i + Z.of_nat (List.length rest))
           (skipn j argnums) ->
    (List.length argnums <= List.length tangents)%nat ->
    exists l,
      jvp_loop rest i j argnums tangents = Return l
      /\ List.length l = List.length rest
      /\ (forall k a, nth_error argnums (j + k) = Some a ->
            nth_error l (Z.to_nat (a - i)) = nth_error tangents (j + k))
      /\ (forall m p, nth_error rest m = Some p ->
            ~ In (i + Z.of_nat m) (skipn j argnums) ->
            nth_error l m = Some (zeros_like p)).
Proof.
  induction rest as [|p rest IH]; intros i j argnums tangents Hs Hr Hlen.
  - exists []. split; [reflexivity|]. split; [reflexivity|]. split.
    + intros k a Ha. rewrite <- nth_error_skipn in Ha.
      apply nth_error_In in Ha. rewrite Forall_forall in Hr.
      specialize (Hr a Ha). cbn [List.length] in Hr. lia.
    + intros [|m] q Hq; discriminate.
  - cbn [jvp_loop].
    destruct (Nat.ltb j (List.length argnums)) eqn:Hj.
    + apply Nat.ltb_lt in Hj.
      destruct (nth_error argnums j) as [a|] eqn:Ha;
        [|apply nth_error_None in Ha; lia].
      pose proof (skipn_cons_nth _ _ _ Ha) as Hsk.
      rewrite (nth_error_nth _ _ 0 Ha).
      rewrite Hsk in Hs, Hr.
      inversion Hs as [|? ? Hs' Hlt]; subst.
      inversion Hr as [|? ? Hra Hr']; subst.
      cbn [List.length] in Hra, Hr'.
      destruct (i =? a) eqn:Hia; cbn [andb].
      * apply Z.eqb_eq in Hia; subst a.
        destruct (nth_error tangents j) as [t|] eqn:Ht;
          [|apply nth_error_None in Ht; lia].
        destruct (IH (i + 1) (S j) argnums tangents Hs')
          as (l & Hl & Hll & Ht' & Hz).
        { rewrite Forall_forall in *. intros x Hx.
          specialize (Hlt x Hx). specialize (Hr' x Hx). lia. }
        { exact Hlen. }
        rewrite Hl. exists (t :: l). split; [reflexivity|].
        split; [cbn [List.length]; lia|]. split.
        -- intros [|k] b Hb.
           ++ rewrite Nat.add_0_r in Hb |- *. rewrite Ha in Hb.
              injection Hb as <-. rewrite Z.sub_diag. cbn. now rewrite Ht.
           ++ assert (Hin : In b (skipn (S j) argnums)).
              { apply (nth_error_In _ k). rewrite nth_error_skipn.
                now replace (S j + k)%nat with (j + S k)%nat by lia. }
              rewrite Forall_forall in Hlt. specialize (Hlt b Hin).
              replace (Z.to_nat (b - i)) with (S (Z.to_nat (b - (i + 1))))
                by lia.
              cbn [nth_error].
              replace (j + S k)%nat with (S j + k)%nat in * by lia.
              now apply Ht'.
        -- intros [|m] q Hq Hnin.
           ++ exfalso. apply Hnin. rewrite Hsk. left.
              cbn [Z.of_nat]. lia.
           ++ cbn [nth_error] in Hq |- *. apply Hz; [exact Hq|].
              intros Hin. apply Hnin. rewrite Hsk. right.
              now replace (i + Z.of_nat (S m)) with (i + 1 + Z.of_nat m)
                by lia.
      * apply Z.eqb_neq in Hia.
        destruct (IH (i + 1) j argnums tangents)
          as (l & Hl & Hll & Ht' & Hz).
        { now rewrite Hsk. }
        { rewrite Hsk. constructor; [lia|].
          rewrite Forall_forall in *. intros x Hx.
          specialize (Hlt x Hx). specialize (Hr' x Hx). lia. }
        { exact Hlen. }
        rewrite Hl. exists (zeros_like p :: l). split; [reflexivity|].
        split; [cbn [List.length]; lia|]. split.
        -- intros k b Hb.
           assert (Hin : In b (skipn j argnums)).
           { apply (nth_error_In _ k). now rewrite nth_error_skipn. }
           assert (i + 1 <= b).
           { rewrite Hsk in Hin. destruct Hin as [<-|Hin]; [lia|].
             rewrite Forall_forall in Hlt. specialize (Hlt b Hin). lia. }
           replace (Z.to_nat (b - i)) with (S (Z.to_nat (b - (i + 1))))
             by lia.
           cbn [nth_error]. now apply Ht'.
        -- intros [|m] q Hq Hnin.
           ++ cbn in Hq |- *. now injection Hq as ->.
           ++ cbn [nth_error] in Hq |- *. apply Hz; [exact Hq|].
              now replace (i + 1 + Z.of_nat m) with (i + Z.of_nat (S m))
                by lia.
    + apply Nat.ltb_ge in Hj. cbn [andb].
      destruct (IH (i + 1) j argnums tangents)
        as (l & Hl & Hll & Ht' & Hz).
      { rewrite skipn_all2 by lia. constructor. }
      { rewrite skipn_all2 by lia. constructor. }
      { exact Hlen. }
      rewrite Hl. exists (zeros_like p :: l). split; [reflexivity|].
      split; [cbn [List.length]; lia|]. split.
      * intros k b Hb.
        assert (j + k < List.length argnums)%nat
          by (apply nth_error_Some; congruence).
        lia.
      * intros [|m] q Hq Hnin.
        -- cbn in Hq |- *. now injection Hq as ->.
        -- cbn [nth_error] in Hq |- *. apply Hz; [exact Hq|].
           rewrite skipn_all2 by lia. intros [].
Qed.

(** [Custom::jvp] hands the generic [jvp] one tangent per primal.  For
    [argnums] that increase strictly and name inputs, with one tangent
    per entry of [argnums]: the input [argnums[j]] gets [tangents[j]],
    and every input that [argnums] does not name gets zeros of its own
    shape and dtype. *)
Theorem Custom_jvp_all_tangents (fallback_ : closure array)
    (primals tangents : list array) (argnums : list Z) :
  StronglySorted Z.lt argnums ->
  Forall (fun a => 0 <= a < Z.of_nat (List.length primals)) argnums ->
  (List.length argnums <= List.length tangents)%nat ->
  exists all_tangents,
    Custom_jvp core_jvp fallback_ primals tangents argnums
    = Return (snd (core_jvp fallback_ primals all_tangents))
    /\ List.length all_tangents = List.length primals
    /\ (forall j a, nth_error argnums j = Some a ->
          nth_error all_tangents (Z.to_nat a) = nth_error tangents j)
    /\ (forall i p, nth_error primals i = Some p ->
          ~ In (Z.of_nat i) argnums ->
          nth_error all_tangents i = Some (zeros_like p)).
Proof.
  intros Hs Hr Hlen.
  destruct (jvp_loop_sorted primals 0 0%nat argnums tangents Hs Hr Hlen)
    as (l & Hl & Hll & Ht & Hz).
  exists l. unfold Custom_jvp. rewrite Hl.
  split; [reflexivity|]. split; [exact Hll|]. split.
  - intros j a Ha. specialize (Ht j a Ha). now rewrite Z.sub_0_r in Ht.
  - intros i p Hp Hnin. now apply Hz.
Qed.

End CustomJvpProperties.

Section FastProperties.
Context {array : Type} {L : ArrayLib array}.

Lemma ndim_nonneg (a : array) : 0 <= ndim a.
Proof. unfold ndim; lia. Qed.

(** ** custom_kernel *)

(** C10.  [custom_kernel] returns a value only on a GPU stream; on any
    other stream control reaches the end of the function: nothing is
    returned and nothing is thrown. *)
Theorem custom_kernel_only_on_gpu (inputs : list (string * array))
    (source : string) (output_shapes : list (string * list Z))
    (output_dtypes : list (string * Dtype)) (grid threadgroup : Z * Z * Z)
    (ensure_row_contiguous : bool) (s_ : StreamOrDevice) :
  let call :=
    custom_kernel inputs source output_shapes output_dtypes grid threadgroup
                  ensure_row_contiguous s_ in
  (returns call -> device (to_stream s_) = gpu)
  /\ (device (to_stream s_) <> gpu ->
      call = Undefined flows_off_the_end /\ ~ returns call /\ ~ raises call).
Proof.
  intros call; subst call; unfold custom_kernel.
  destruct (Device_eqb (device (to_stream s_)) gpu) eqn:E.
  - apply Device_eqb_eq in E. split; [auto|]. intros H; contradiction.
  - split.
    + intros [v H]; discriminate.
    + intros _. split; [reflexivity|]. split; intros [v H]; discriminate.
Qed.

(** ** affine_quantize *)

Lemma quantize_outputs_three (w : array) (group_size bits : Z)
    (s_ : StreamOrDevice) :
  exists o0 o1 o2, quantize_outputs w group_size bits s_ = [o0; o1; o2].
Proof.
  unfold quantize_outputs.
  destruct (Device_eqb (device (to_stream s_)) gpu).
  - match goal with |- context [make_arrays ?a ?b ?c ?d] =>
      pose proof (make_arrays_length a b c d) as Hlen;
      destruct (make_arrays a b c d) as [|o0 [|o1 [|o2 [|o3 l]]]];
      try discriminate Hlen
    end.
    now exists o0, o1, o2.
  - unfold affine_quantize_fallback. eauto.
Qed.

(** C7.  [affine_quantize(w, group_size, bits)] throws
    [invalid_argument] exactly when [group_size] is not 32, 64 or 128, or
    [bits] is not 2, 4 or 8, or [w] has fewer than 2 dimensions, or the
    last axis is not divisible by [group_size], or the last axis is
    smaller than [32 * (32 / bits)]; otherwise it returns the triple of
    packed weights, scales and biases. *)
Theorem affine_quantize_raises_iff (w : array) (group_size bits : Z)
    (s_ : StreamOrDevice) :
  (raises (affine_quantize w group_size bits s_)
   <-> quantize_rejects w group_size bits)
  /\ (~ quantize_rejects w group_size bits ->
      exists packed scales biases,
        affine_quantize w group_size bits s_ = Return (packed, scales, biases)
        /\ quantize_outputs w group_size bits s_ = [packed; scales; biases]).
Proof.
  unfold affine_quantize, quantize_rejects, supported_group_size,
    supported_bits.
  destruct (negb (group_size =? 32) && negb (group_size =? 64)
            && negb (group_size =? 128)) eqn:Eg.
  { rewrite !andb_true_iff, !negb_true_iff, !Z.eqb_neq in Eg.
    split; [split; [intros _; left; lia|auto with outcome]|].
    intros H; exfalso; apply H; left; lia. }
  assert (Hg : group_size = 32 \/ group_size = 64 \/ group_size = 128).
  { rewrite !andb_false_iff, !negb_false_iff, !Z.eqb_eq in Eg. tauto. }
  destruct (negb (bits =? 2) && negb (bits =? 4) && negb (bits =? 8)) eqn:Eb.
  { rewrite !andb_true_iff, !negb_true_iff, !Z.eqb_neq in Eb.
    split; [split; [intros _; right; left; lia|auto with outcome]|].
    intros H; exfalso; apply H; right; left; lia. }
  assert (Hb : bits = 2 \/ bits = 4 \/ bits = 8).
  { rewrite !andb_false_iff, !negb_false_iff, !Z.eqb_eq in Eb. tauto. }
  destruct (ndim w <? 2) eqn:En.
  { apply Z.ltb_lt in En.
    split; [split; [intros _; right; right; left; lia|auto with outcome]|].
    intros H; exfalso; apply H; right; right; left; lia. }
  apply Z.ltb_ge in En.
  assert (Hdiv : imod (shape_at w (-1)) group_size = 0
                 <-> (group_size | shape_at w (-1))).
  { unfold imod. apply Z.rem_divide. lia. }
  destruct (negb (imod (shape_at w (-1)) group_size =? 0)) eqn:Em.
  { rewrite negb_true_iff, Z.eqb_neq in Em.
    split; [split; [intros _; do 3 right; left; tauto|auto with outcome]|].
    intros H; exfalso; apply H; do 3 right; left; tauto. }
  rewrite negb_false_iff, Z.eqb_eq in Em.
  assert (Hel : idiv 32 bits = 32 / bits).
  { unfold idiv. destruct Hb as [->|[->| ->]]; reflexivity. }
  destruct (shape_at w (-1) <? 32 * idiv 32 bits) eqn:Es.
  { apply Z.ltb_lt in Es. rewrite Hel in Es.
    split; [split; [intros _; do 4 right; lia|auto with outcome]|].
    intros H; exfalso; apply H; do 4 right; lia. }
  apply Z.ltb_ge in Es. rewrite Hel in Es.
  destruct (quantize_outputs_three w group_size bits s_) as (o0 & o1 & o2 & Ho).
  unfold quantize_outputs in Ho. cbv zeta in Ho. cbv zeta. rewrite Ho.
  split.
  - split; [intros [what H]; discriminate|].
    intros [H|[H|[H|[H|H]]]]; try tauto; lia.
  - intros _. exists o0, o1, o2. split; [reflexivity|].
    unfold quantize_outputs. cbv zeta. exact Ho.
Qed.

(** ** affine_dequantize *)

Lemma list_Z_eqb_eq (a b : list Z) : list_Z_eqb a b = true <-> a = b.
Proof.
  unfold list_Z_eqb. destruct (list_eq_dec Z.eq_dec a b); split; congruence.
Qed.


(** ** affine_quantize given scales and biases *)

(** ** scaled_dot_product_attention *)

Lemma implementation_supports_use_case_false (q : array)
    (mask : option array) (batch_dim n_q_heads n_kv_heads : Z)
    (final_type : Dtype) (stream : Stream) :
  implementation_supports_use_case q mask batch_dim n_q_heads n_kv_heads
    final_type stream = false.
Proof. unfold implementation_supports_use_case. apply andb_false_r. Qed.

Lemma sdpa_fallback_reference (scale : R) (mask : option array)
    (final_type : Dtype) (n_q_heads n_kv_heads : Z) (q k v : array) :
  sdpa_fallback scale (has_value mask) final_type n_q_heads n_kv_heads
    (q :: k :: v :: match mask with Some m => [m] | None => [] end)
  = [attention_reference scale mask n_q_heads n_kv_heads q k v].
Proof.
  unfold sdpa_fallback, attention_reference.
  destruct mask as [m|]; cbn [has_value]; reflexivity.
Qed.

(** C1.  The eligibility predicate of the accelerated kernels is false
    for every input, so for every input that passes the shape and dtype
    checks, with a mask or without, [scaled_dot_product_attention]
    returns the first output of the fallback closure on the cast inputs,
    which is the decomposition [attention_reference]; no
    [ScaledDotProductAttention] node is built. *)
Theorem scaled_dot_product_attention_is_fallback (queries keys values : array)
    (scale : R) (mask : option array) (s : StreamOrDevice) :
  (forall q m batch_dim n_q_heads n_kv_heads final_type stream,
      implementation_supports_use_case q m batch_dim n_q_heads n_kv_heads
        final_type stream = false)
  /\ (sdpa_valid queries keys values ->
      let final_type := result_type [queries; keys; values] in
      let n_q_heads := shape_at queries (-3) in
      let n_kv_heads := shape_at keys (-3) in
      let q := astype queries final_type in
      let k := astype keys final_type in
      let v := astype values final_type in
      let fallback :=
        sdpa_fallback scale (has_value mask) final_type n_q_heads n_kv_heads in
      scaled_dot_product_attention queries keys values scale mask s
      = first (fallback
                 (q :: k :: v
                    :: match mask with Some m => [m] | None => [] end))
      /\ scaled_dot_product_attention queries keys values scale mask s
         = Return (attention_reference scale mask n_q_heads n_kv_heads q k v)).
Proof.
  split; [exact implementation_supports_use_case_false|].
  intros (Hq & Hk & Hv & Hbk & Hbv & Hd & Hh & Hnz & Hm & Hf).
  intros final_type n_q_heads n_kv_heads q k v fallback.
  assert (Hcall :
    scaled_dot_product_attention queries keys values scale mask s
    = first (fallback
               (q :: k :: v
                  :: match mask with Some m => [m] | None => [] end))).
  { unfold scaled_dot_product_attention.
    rewrite Hq, Hk, Hv. cbn [Z.eqb Pos.eqb negb orb].
    rewrite Hbk, Hbv, Z.eqb_refl. cbn [negb orb].
    rewrite Hd, Z.eqb_refl. cbn [negb].
    rewrite <- Hh, Z.eqb_refl. cbn [negb].
    replace (shape_at keys (-3) =? 0) with false
      by (symmetry; now apply Z.eqb_neq).
    rewrite Hm. cbn [Z.eqb negb]. rewrite Hf. cbn [negb].
    rewrite implementation_supports_use_case_false.
    destruct mask; reflexivity. }
  split; [exact Hcall|].
  rewrite Hcall. subst fallback. now rewrite sdpa_fallback_reference.
Qed.

(** ** rms_norm *)

(** C3.  [rms_norm] throws [invalid_argument] when [x] has no dimension,
    when [weight] is not 1-D, or when the common result type is not
    floating.  Otherwise, over exact arithmetic, it computes
    [rms_norm_reference]: off the GPU that is the value returned; on a
    GPU stream the deferred [RMSNorm] node is returned, on [x] and
    [weight] cast to the output type, and the closure the node carries is
    [rms_norm_reference]. *)
Theorem rms_norm_spec (x weight : array) (eps : R) (s_ : StreamOrDevice) :
  rsqrt_is_reciprocal_sqrt ->
  let out_type := result_type [x; weight] in
  let s := to_stream s_ in
  (ndim x = 0 \/ ndim weight <> 1 \/ issubdtype out_type floating = false ->
   raises (rms_norm x weight eps s_))
  /\ (1 <= ndim x -> ndim weight = 1 -> issubdtype out_type floating = true ->
      exists fallback,
        (forall a b, fallback [a; b] = [rms_norm_reference eps out_type a b])
        /\ rms_norm x weight eps s_ =
           if Device_eqb (device s) gpu then
             Return (mk_array (shape x) out_type (RMSNorm s fallback eps)
                       [astype x out_type; astype weight out_type])
           else Return (rms_norm_reference eps out_type x weight)).
Proof.
  intros Hexact out_type s. unfold rms_norm. fold out_type. split.
  - intros H.
    destruct (ndim x =? 0) eqn:Ex; [auto with outcome|].
    destruct (ndim weight =? 1) eqn:Ew; cbn [negb]; [|auto with outcome].
    destruct (issubdtype out_type floating) eqn:Ef; cbn [negb];
      [|auto with outcome].
    apply Z.eqb_neq in Ex. apply Z.eqb_eq in Ew.
    destruct H as [H|[H|H]]; [lia|lia|discriminate].
  - intros Hx Hw Hf.
    replace (ndim x =? 0) with false by (symmetry; apply Z.eqb_neq; lia).
    rewrite Hw, Hf. cbn [Z.eqb Pos.eqb negb].
    assert (Hfb : forall a b,
      rms_norm_fallback eps out_type [a; b]
      = [rms_norm_reference eps out_type a b]).
    { intros a b. unfold rms_norm_fallback, rms_norm_reference.
      now rewrite Hexact. }
    exists (rms_norm_fallback eps out_type). split; [exact Hfb|].
    fold s. destruct (Device_eqb (device s) gpu); [reflexivity|].
    now rewrite Hfb.
Qed.

(** ** LayerNorm::vjp *)

(** The weight and bias gradients of the fallback of [LayerNorm::vjp].
    The weight gradient is [sum(g * x_c * n)] over all axes but the last,
    or zeros like the weight when the weight is a 0-dimensional scalar;
    the bias gradient is [sum(g)] over the same axes, or zeros like the
    WEIGHT when the bias is a 0-dimensional scalar. *)
Lemma LayerNorm_vjp_fallback_gradients (eps : R) (x w b g : array) :
  let norm := number_of_elements x [-1] true (dtype x) in
  let mu := multiply (sum x [-1] true) norm in
  let mu2 := multiply (sum (square x) [-1] true) norm in
  let n := rsqrt (add (subtract mu2 (square mu)) (array_of eps (dtype x))) in
  let x_c := subtract x mu in
  let axes := iota (ndim g - 1) in
  exists dx,
    LayerNorm_vjp_fallback eps [x; w; b; g] =
    [dx;
     if ndim w =? 0 then zeros_like w
     else sum (multiply g (multiply x_c n)) axes false;
     if ndim b =? 0 then zeros_like w else sum g axes false].
Proof. cbv zeta. unfold LayerNorm_vjp_fallback. eexists. reflexivity. Qed.

Lemma LayerNorm_vjp_fallback_absent_bias (eps : R) (x w b g : array) :
  ndim b = 0 ->
  exists dx dw db,
    LayerNorm_vjp_fallback eps [x; w; b; g] = [dx; dw; db]
    /\ shape db = shape w /\ dtype db = dtype w.
Proof.
  intros Hb. unfold LayerNorm_vjp_fallback. rewrite Hb. cbn [Z.eqb].
  do 3 eexists. split; [reflexivity|].
  split; [apply zeros_like_shape|apply zeros_like_dtype].
Qed.


Lemma not_returns_Throw {A} e : ~ returns (@Throw A e).
Proof. intros [a H]; discriminate. Qed.

Lemma not_returns_Undefined {A} u : ~ returns (@Undefined A u).
Proof. intros [a H]; discriminate. Qed.

(** A goal about the outcome of a call whose outcome is known. *)
Ltac outcome_absurd :=
  match goal with
  | H : returns (Throw _) |- _ => destruct (not_returns_Throw _ H)
  | H : returns (Undefined _) |- _ => destruct (not_returns_Undefined _ H)
  | H : raises (Return _) |- _ => destruct (not_raises_Return _ H)
  | H : raises (Undefined _) |- _ => destruct (not_raises_Undefined _ H)
  | H : Throw _ = Undefined _ |- _ => discriminate H
  | H : Return _ = Undefined _ |- _ => discriminate H
  end.

Ltac settle_outcomes :=
  repeat match goal with
         | |- _ /\ _ => split
         | |- _ <-> _ => split
         end;
  intros;
  first [ outcome_absurd
        | solve [auto with outcome]
        | tauto
        | lia
        | solve [intuition (first [discriminate | lia | congruence])] ].

(** ** The gradients a [vjp] hands back *)

Lemma select_in_range (vjps : list array) (argnums : list Z) :
  Forall (fun a => 0 <= a < Z.of_nat (List.length vjps)) argnums ->
  exists l,
    select vjps argnums = Return l
    /\ map Some l = map (fun a => nth_error vjps (Z.to_nat a)) argnums.
Proof.
  induction 1 as [|a argnums Ha _ (l & Hl & Hm)].
  - exists []. split; reflexivity.
  - cbn [select].
    replace (a <? 0) with false by lia.
    destruct (nth_error vjps (Z.to_nat a)) as [g|] eqn:Hg;
      [|apply nth_error_None in Hg; lia].
    rewrite Hl. exists (g :: l). split; [reflexivity|].
    cbn [map]. now rewrite Hg, Hm.
Qed.

Lemma select_out_of_range (vjps : list array) (argnums : list Z) :
  ~ Forall (fun a => 0 <= a < Z.of_nat (List.length vjps)) argnums ->
  select vjps argnums = Undefined index_out_of_range.
Proof.
  induction argnums as [|a argnums IH]; intros H.
  - exfalso. apply H. constructor.
  - cbn [select].
    destruct (a <? 0) eqn:E; [reflexivity|]. apply Z.ltb_ge in E.
    destruct (nth_error vjps (Z.to_nat a)) as [g|] eqn:Hg; [|reflexivity].
    assert (Ha : 0 <= a < Z.of_nat (List.length vjps)).
    { split; [exact E|].
      assert (Z.to_nat a < List.length vjps)%nat
        by (apply nth_error_Some; congruence).
      lia. }
    rewrite IH; [reflexivity|].
    intros Hr. apply H. now constructor.
Qed.

(** [RMSNorm::vjp] and [LayerNorm::vjp] answer [argnums] entry by entry:
    for distinct [argnums] that name inputs of the node (2 for RMSNorm,
    3 for LayerNorm) the gradients come back in the order of [argnums],
    whatever that order is; an entry that names no input reads past the
    end of the vector of gradients, nothing is thrown.  (An index given
    twice would read an array that has been moved from, hence
    [NoDup].) *)
Theorem norm_vjp_returns_selected (s : Stream) (eps_ : R) (x w b g : array)
    (argnums : list Z) (outputs : list array) :
  NoDup argnums ->
  let rms :=
    make_arrays [shape x; shape w] [dtype x; dtype w]
      (RMSNormVJP s (RMSNorm_vjp_fallback eps_) eps_) [x; w; g] in
  let ln :=
    make_arrays [shape x; shape w; shape b] [dtype x; dtype w; dtype b]
      (LayerNormVJP s (LayerNorm_vjp_fallback eps_) eps_) [x; w; b; g] in
  (Forall (fun a => 0 <= a < 2) argnums ->
   exists l,
     RMSNorm_vjp s eps_ [x; w] [g] argnums outputs = Return l
     /\ map Some l = map (fun a => nth_error rms (Z.to_nat a)) argnums)
  /\ (~ Forall (fun a => 0 <= a < 2) argnums ->
      RMSNorm_vjp s eps_ [x; w] [g] argnums outputs
      = Undefined index_out_of_range)
  /\ (Forall (fun a => 0 <= a < 3) argnums ->
      exists l,
        LayerNorm_vjp s eps_ [x; w; b] [g] argnums outputs = Return l
        /\ map Some l = map (fun a => nth_error ln (Z.to_nat a)) argnums)
  /\ (~ Forall (fun a => 0 <= a < 3) argnums ->
      LayerNorm_vjp s eps_ [x; w; b] [g] argnums outputs
      = Undefined index_out_of_range).
Proof.
  intros _ rms ln.
  assert (Hrms : Z.of_nat (List.length rms) = 2)
    by (subst rms; now rewrite make_arrays_length).
  assert (Hln : Z.of_nat (List.length ln) = 3)
    by (subst ln; now rewrite make_arrays_length).
  unfold RMSNorm_vjp, LayerNorm_vjp. fold rms. fold ln.
  repeat split.
  - intros H. apply select_in_range. now rewrite Hrms.
  - intros H. apply select_out_of_range. now rewrite Hrms.
  - intros H. apply select_in_range. now rewrite Hln.
  - intros H. apply select_out_of_range. now rewrite Hln.
Qed.

(** ** layer_norm *)


(** ** rope *)


(** ** scaled_dot_product_attention *)


(** ** affine_dequantize *)


(** The loop of the dequantize fallback makes one part per started
    field of the word: [ceil(32 / bits)] parts. *)
Lemma dequantize_parts_count (w : array) (bits : Z) :
  0 < bits ->
  forall (fuel : nat) (start : Z),
    0 <= start -> (Z.to_nat (32 - start) <= fuel)%nat ->
    Z.of_nat (List.length (dequantize_parts fuel w bits start))
    = Z.max 0 ((32 - start + bits - 1) / bits).
Proof.
  intros Hb. induction fuel as [|fuel IH]; intros start Hs Hf.
  - cbn [dequantize_parts List.length Z.of_nat].
    assert ((32 - start + bits - 1) / bits <= 0); [|lia].
    assert (32 - start + bits - 1 < bits) by lia.
    apply Z.lt_succ_r. apply Z.div_lt_upper_bound; lia.
  - cbn [dequantize_parts].
    destruct (start <? 32) eqn:E.
    + apply Z.ltb_lt in E. cbn [List.length].
      rewrite Nat2Z.inj_succ, IH by lia.
      replace (32 - start + bits - 1)
        with (32 - (start + bits) + bits - 1 + 1 * bits) by lia.
      rewrite Z.div_add by lia.
      assert (0 <= (32 - (start + bits) + bits - 1) / bits)
        by (apply Z.div_pos; lia).
      lia.
    + apply Z.ltb_ge in E. cbn [List.length Z.of_nat].
      assert ((32 - start + bits - 1) / bits <= 0); [|lia].
      assert (32 - start + bits - 1 < bits) by lia.
      apply Z.lt_succ_r. apply Z.div_lt_upper_bound; lia.
Qed.

(** The unpacking loop of [affine_dequantize] yields [ceil(32 / bits)]
    fields per word, where the declared output has [32 / bits] values
    per word: the two agree exactly when [bits] divides 32. *)
Theorem dequantize_parts_length (w : array) (bits : Z) :
  0 < bits ->
  let parts := dequantize_parts 32 w bits 0 in
  Z.of_nat (List.length parts) = (32 + bits - 1) / bits
  /\ (Z.of_nat (List.length parts) = idiv 32 bits <-> (bits | 32)).
Proof.
  intros Hb parts.
  assert (Hlen : Z.of_nat (List.length parts) = (32 + bits - 1) / bits).
  { subst parts. rewrite dequantize_parts_count by (cbn; lia).
    rewrite Z.sub_0_r.
    assert (0 <= (32 + bits - 1) / bits) by (apply Z.div_pos; lia). lia. }
  split; [exact Hlen|]. rewrite Hlen.
  unfold idiv. rewrite Z.quot_div_nonneg by lia.
  split.
  - intros H. exists (32 / bits).
    pose proof (Z.div_mod 32 bits ltac:(lia)) as D1.
    pose proof (Z.mod_pos_bound 32 bits Hb) as M1.
    pose proof (Z.div_mod (32 + bits - 1) bits ltac:(lia)) as D2.
    pose proof (Z.mod_pos_bound (32 + bits - 1) bits Hb) as M2.
    rewrite H in D2. nia.
  - intros [k Hk]. rewrite Hk.
    replace (k * bits + bits - 1) with (bits - 1 + k * bits) by lia.
    rewrite Z.div_add, Z.div_mul by lia.
    rewrite Z.div_small by lia. lia.
Qed.

(** ** custom_kernel on a GPU stream *)

Lemma out_dtypes_of_total (output_shapes : list (string * list Z))
    (output_dtypes : list (string * Dtype)) :
  (forall name sh, In (name, sh) output_shapes ->
     exists t, map_at output_dtypes name = Some t) ->
  exists dts,
    out_dtypes_of output_shapes output_dtypes = Return dts
    /\ map Some dts = map (fun e => map_at output_dtypes (fst e)) output_shapes.
Proof.
  induction output_shapes as [|[name sh] rest IH]; intros H.
  - exists []. split; reflexivity.
  - cbn [out_dtypes_of].
    destruct (H name sh (or_introl eq_refl)) as [t Ht]. rewrite Ht.
    destruct IH as (dts & Hd & Hm).
    { intros n' sh' Hin. apply (H n' sh'). now right. }
    rewrite Hd. exists (t :: dts). split; [reflexivity|].
    cbn [map fst]. now rewrite Ht, Hm.
Qed.

(** On a GPU stream, when every output that has a shape has a dtype,
    [custom_kernel] returns one array per entry of [output_shapes], in
    the order of the names, each with the dtype recorded under its name;
    the entries of [output_dtypes] under other names are not used, and
    neither are [grid], [threadgroup] and [ensure_row_contiguous]. *)
Theorem custom_kernel_gpu_outputs (inputs : list (string * array))
    (source : string) (output_shapes : list (string * list Z))
    (output_dtypes : list (string * Dtype)) (grid threadgroup : Z * Z * Z)
    (ensure_row_contiguous : bool) (s_ : StreamOrDevice) :
  device (to_stream s_) = gpu ->
  (forall name sh, In (name, sh) output_shapes ->
     exists t, map_at output_dtypes name = Some t) ->
  exists outs dts,
    (forall grid' threadgroup' ensure_row_contiguous',
       custom_kernel inputs source output_shapes output_dtypes grid'
                     threadgroup' ensure_row_contiguous' s_ = Return outs)
    /\ List.length outs = List.length output_shapes
    /\ map Some dts = map (fun e => map_at output_dtypes (fst e)) output_shapes
    /\ outs = make_arrays (map snd output_shapes) dts
                (CustomKernel (to_stream s_) source) (map snd inputs).
Proof.
  intros Hgpu Hall.
  destruct (out_dtypes_of_total _ _ Hall) as (dts & Hd & Hm).
  exists (make_arrays (map snd output_shapes) dts
            (CustomKernel (to_stream s_) source) (map snd inputs)), dts.
  split; [|split; [|split]].
  - intros g t e. unfold custom_kernel.
    rewrite Hgpu. cbn [Device_eqb]. now rewrite Hd.
  - now rewrite make_arrays_length, length_map.
  - exact Hm.
  - reflexivity.
Qed.
End FastProperties.

(** ** The packed layout *)

Section CodecProperties.
Import Codec.

Lemma u32_small (x : Z) : 0 <= x < 2 ^ 32 -> u32 x = x.
Proof. intros H. unfold u32. now apply Z.mod_small. Qed.

(** The shift-mask pair of the dequantize loop reads the [bits]-wide
    digit that starts at bit [start]. *)
Lemma field_digit (bits start w : Z) :
  0 < bits -> 0 <= start -> start + bits <= 32 -> 0 <= w < 2 ^ 32 ->
  field bits start w = (w / 2 ^ start) mod 2 ^ bits.
Proof.
  intros Hb Hs Hsb Hw. unfold field, u32_shr, u32_shl.
  set (s := 32 - (start + bits)).
  assert (Hs32 : 0 <= s < 32) by (subst s; lia).
  rewrite (u32_small s) by lia.
  rewrite (u32_small (32 - bits)) by lia.
  rewrite Z.shiftl_mul_pow2, Z.shiftr_div_pow2 by lia.
  unfold u32.
  assert (P1 : 0 < 2 ^ s) by (apply Z.pow_pos_nonneg; lia).
  assert (P2 : 0 < 2 ^ start) by (apply Z.pow_pos_nonneg; lia).
  assert (P3 : 0 < 2 ^ bits) by (apply Z.pow_pos_nonneg; lia).
  replace (2 ^ 32) with (2 ^ (start + bits) * 2 ^ s)
    by (rewrite <- Z.pow_add_r by lia; f_equal; subst s; lia).
  rewrite Z.mul_mod_distr_r by lia.
  replace (2 ^ (32 - bits)) with (2 ^ start * 2 ^ s)
    by (rewrite <- Z.pow_add_r by lia; f_equal; subst s; lia).
  rewrite Z.div_mul_cancel_r by lia.
  rewrite Z.pow_add_r by lia.
  rewrite Z.rem_mul_r by lia.
  rewrite (Z.mul_comm (2 ^ start)), Z.div_add by lia.
  rewrite Z.div_small by (apply Z.mod_pos_bound; lia).
  reflexivity.
Qed.

Lemma packed_value_bounds (bits : Z) (qs : list Z) :
  0 < bits -> Forall (level bits) qs ->
  0 <= packed_value bits qs < 2 ^ (bits * Z.of_nat (List.length qs)).
Proof.
  intros Hb H. induction H as [|q qs Hq Hqs IH].
  - simpl. rewrite Z.mul_0_r. simpl. lia.
  - cbn [packed_value List.length].
    replace (bits * Z.of_nat (S (List.length qs)))
      with (bits + bits * Z.of_nat (List.length qs)) by lia.
    rewrite Z.pow_add_r by lia.
    unfold level in Hq.
    assert (0 < 2 ^ bits) by (apply Z.pow_pos_nonneg; lia).
    nia.
Qed.

Lemma packed_value_digit (bits : Z) (qs : list Z) :
  0 < bits -> Forall (level bits) qs ->
  forall k, (k < List.length qs)%nat ->
    (packed_value bits qs / 2 ^ (bits * Z.of_nat k)) mod 2 ^ bits
    = nth k qs 0.
Proof.
  intros Hb H. induction H as [|q qs Hq Hqs IH]; intros k Hk.
  - simpl in Hk; lia.
  - cbn [packed_value].
    assert (P : 0 < 2 ^ bits) by (apply Z.pow_pos_nonneg; lia).
    unfold level in Hq.
    destruct k as [|k].
    + cbn [nth Z.of_nat]. rewrite Z.mul_0_r. cbn [Z.pow]. rewrite Z.div_1_r.
      rewrite Z.mul_comm, Z.mod_add by lia. apply Z.mod_small; lia.
    + cbn [nth]. cbn [List.length] in Hk.
      replace (bits * Z.of_nat (S k)) with (bits + bits * Z.of_nat k) by lia.
      rewrite Z.pow_add_r by lia.
      rewrite <- Z.div_div by (try apply Z.pow_pos_nonneg; lia).
      rewrite (Z.mul_comm (2 ^ bits)), Z.div_add by lia.
      rewrite (Z.div_small q) by lia. cbn [Z.add].
      apply IH. lia.
Qed.

(** The packing sum never wraps: with [k] values already packed into
    [acc], packing [qs] next adds their value shifted by [bits * k]. *)
Lemma pack_fold (bits : Z) (qs : list Z) :
  0 < bits -> Forall (level bits) qs ->
  forall (k m : nat) (acc : Z),
    (List.length qs <= m)%nat ->
    bits * Z.of_nat (k + List.length qs) <= 32 ->
    0 <= acc < 2 ^ (bits * Z.of_nat k) ->
    fold_left u32_add
      (map (fun '(q, s) => u32_mul q s)
           (combine qs
              (map (fun e => u32 (2 ^ e))
                   (map (fun i => u32 (0 + Z.of_nat i * bits)) (seq k m)))))
      acc
    = acc + 2 ^ (bits * Z.of_nat k) * packed_value bits qs.
Proof.
  intros Hb H. induction H as [|q qs Hq Hqs IH]; intros k m acc Hm Hk Hacc.
  - simpl. lia.
  - destruct m as [|m]; [cbn [List.length] in Hm; lia|].
    cbn [List.length] in Hm, Hk.
    cbn [seq map combine fold_left packed_value].
    assert (Hkb : 0 <= Z.of_nat k * bits < 32) by nia.
    assert (Pk : 0 < 2 ^ (bits * Z.of_nat k)) by (apply Z.pow_pos_nonneg; nia).
    assert (Pb : 0 < 2 ^ bits) by (apply Z.pow_pos_nonneg; lia).
    assert (Hstep : 2 ^ (bits * Z.of_nat (S k))
                    = 2 ^ (bits * Z.of_nat k) * 2 ^ bits).
    { rewrite <- Z.pow_add_r by nia. f_equal. lia. }
    assert (Hle : 2 ^ (bits * Z.of_nat (S k)) <= 2 ^ 32).
    { apply Z.pow_le_mono_r; lia. }
    unfold level in Hq.
    rewrite (u32_small (0 + Z.of_nat k * bits))
      by (change (2 ^ 32) with 4294967296; lia).
    replace (0 + Z.of_nat k * bits) with (bits * Z.of_nat k) by lia.
    assert (Pb2 : 1 < 2 ^ bits) by (apply Z.pow_gt_1; lia).
    rewrite (IH (S k) m);
      [|lia
       |replace (S k + List.length qs)%nat
          with (k + S (List.length qs))%nat by lia; exact Hk|].
    + unfold u32_add, u32_mul, u32.
      rewrite Hstep in *. clear IH Hstep Hk Hkb.
      revert Hq Pb2 Pk Hle Hacc.
      generalize (2 ^ (bits * Z.of_nat k)) (2 ^ bits) (2 ^ 32).
      intros X Bv T Hq Pb2 Pk Hle Hacc.
      rewrite (Z.mod_small X) by nia.
      rewrite (Z.mod_small (q * X)) by nia.
      rewrite (Z.mod_small (acc + q * X)) by nia.
      ring.
    + unfold u32_add, u32_mul, u32.
      rewrite Hstep in *. clear IH Hstep Hk Hkb.
      revert Hq Pb2 Pk Hle Hacc.
      generalize (2 ^ (bits * Z.of_nat k)) (2 ^ bits) (2 ^ 32).
      intros X Bv T Hq Pb2 Pk Hle Hacc.
      rewrite (Z.mod_small X) by nia.
      rewrite (Z.mod_small (q * X)) by nia.
      rewrite (Z.mod_small (acc + q * X)) by nia.
      nia.
Qed.

Lemma pack_word_value (bits : Z) (qs : list Z) :
  supported_bits bits -> List.length qs = Z.to_nat (32 / bits) ->
  Forall (level bits) qs ->
  pack_word bits qs = packed_value bits qs.
Proof.
  intros Hb Hlen Hq. unfold pack_word, shifts, arange_u32.
  assert (Hpos : 0 < bits) by (destruct Hb as [->|[->| ->]]; lia).
  assert (Hn : Z.to_nat ((32 - 0 + bits - 1) / bits) = Z.to_nat (32 / bits))
    by (destruct Hb as [->|[->| ->]]; reflexivity).
  assert (Hfill : bits * Z.of_nat (Z.to_nat (32 / bits)) <= 32)
    by (destruct Hb as [->|[->| ->]]; vm_compute; discriminate).
  rewrite Hn, (pack_fold bits qs Hpos Hq 0 (Z.to_nat (32 / bits)) 0).
  - cbn [Z.of_nat]. rewrite Z.mul_0_r. cbn [Z.pow]. lia.
  - lia.
  - cbn [Nat.add]. now rewrite Hlen.
  - cbn [Z.of_nat]. rewrite Z.mul_0_r. cbn [Z.pow]. lia.
Qed.

Lemma unpack_word_fields (bits w : Z) :
  supported_bits bits ->
  unpack_word bits w
  = map (fun k => field bits (bits * Z.of_nat k) w)
        (seq 0 (Z.to_nat (32 / bits))).
Proof. intros [->|[->| ->]]; reflexivity. Qed.

Lemma map_nth_seq {A} (d : A) (l : list A) :
  map (fun k => nth k l d) (seq 0 (List.length l)) = l.
Proof.
  induction l as [|a l IH]; [reflexivity|].
  cbn [List.length seq map nth]. f_equal.
  rewrite <- seq_shift, map_map. exact IH.
Qed.

(** C5.  For [bits] 2, 4 or 8 and any [32 / bits] quantization levels
    [q_i] in [0, 2^bits - 1], packing them into one 32-bit word as
    [sum(q_i * 2^(bits * i))] and unpacking the word with the shift-mask
    pairs of the dequantize loop gives back the same levels in the same
    order. *)
Theorem unpack_pack_word (bits : Z) (qs : list Z) :
  supported_bits bits ->
  List.length qs = Z.to_nat (32 / bits) ->
  Forall (level bits) qs ->
  pack_word bits qs = packed_value bits qs
  /\ 0 <= pack_word bits qs < 2 ^ 32
  /\ unpack_word bits (pack_word bits qs) = qs.
Proof.
  intros Hb Hlen Hq.
  assert (Hpos : 0 < bits) by (destruct Hb as [->|[->| ->]]; lia).
  assert (Hfill : bits * Z.of_nat (Z.to_nat (32 / bits)) = 32)
    by (destruct Hb as [->|[->| ->]]; reflexivity).
  pose proof (packed_value_bounds bits qs Hpos Hq) as Hbound.
  rewrite Hlen, Hfill in Hbound.
  rewrite (pack_word_value bits qs Hb Hlen Hq).
  split; [reflexivity|]. split; [exact Hbound|].
  rewrite (unpack_word_fields _ _ Hb), <- Hlen.
  rewrite <- (map_nth_seq 0 qs) at 2.
  apply map_ext_in. intros k Hk. apply in_seq in Hk.
  assert (Hk1 : bits * Z.of_nat k + bits <= 32).
  { assert (Z.of_nat k + 1 <= Z.of_nat (List.length qs)) as H by lia.
    rewrite Hlen in H. nia. }
  rewrite field_digit.
  - apply packed_value_digit; [assumption..|lia].
  - exact Hpos.
  - nia.
  - exact Hk1.
  - exact Hbound.
Qed.

(** The digits of [w] in base [2^bits], from digit [j] on, packed without
    wrap-around, are [w] without its [j] low digits. *)
Lemma packed_value_digits (bits w : Z) :
  0 < bits -> 0 <= w ->
  forall (m j : nat),
    packed_value bits
      (map (fun k => (w / 2 ^ (bits * Z.of_nat k)) mod 2 ^ bits) (seq j m))
    = (w / 2 ^ (bits * Z.of_nat j)) mod 2 ^ (bits * Z.of_nat m).
Proof.
  intros Hb Hw. induction m as [|m IH]; intros j.
  - cbn [seq map packed_value Z.of_nat]. rewrite Z.mul_0_r. cbn [Z.pow].
    now rewrite Z.mod_1_r.
  - cbn [seq map packed_value]. rewrite IH.
    assert (Pb : 0 < 2 ^ bits) by (apply Z.pow_pos_nonneg; lia).
    assert (Pm : 0 < 2 ^ (bits * Z.of_nat m)) by (apply Z.pow_pos_nonneg; nia).
    assert (Pj : 0 < 2 ^ (bits * Z.of_nat j)) by (apply Z.pow_pos_nonneg; nia).
    replace (bits * Z.of_nat (S j)) with (bits * Z.of_nat j + bits) by lia.
    replace (bits * Z.of_nat (S m)) with (bits + bits * Z.of_nat m) by lia.
    rewrite !Z.pow_add_r by nia.
    rewrite <- Z.div_div by lia.
    rewrite Z.rem_mul_r by lia. reflexivity.
Qed.

(** The other direction of the packed layout: every 32-bit word is the
    packing of the fields the dequantize loop reads from it, so packing
    and unpacking are inverse bijections between words and sequences of
    [32 / bits] levels. *)
Theorem pack_unpack_word (bits w : Z) :
  supported_bits bits -> 0 <= w < 2 ^ 32 ->
  List.length (unpack_word bits w) = Z.to_nat (32 / bits)
  /\ Forall (level bits) (unpack_word bits w)
  /\ pack_word bits (unpack_word bits w) = w.
Proof.
  intros Hb Hw.
  assert (Hpos : 0 < bits) by (destruct Hb as [->|[->| ->]]; lia).
  assert (Hfill : bits * Z.of_nat (Z.to_nat (32 / bits)) = 32)
    by (destruct Hb as [->|[->| ->]]; reflexivity).
  assert (Pb : 0 < 2 ^ bits) by (apply Z.pow_pos_nonneg; lia).
  assert (Hu : unpack_word bits w
               = map (fun k => (w / 2 ^ (bits * Z.of_nat k)) mod 2 ^ bits)
                     (seq 0 (Z.to_nat (32 / bits)))).
  { rewrite (unpack_word_fields _ _ Hb). apply map_ext_in.
    intros k Hk. apply in_seq in Hk. apply field_digit; try lia; nia. }
  assert (Hlen : List.length (unpack_word bits w) = Z.to_nat (32 / bits))
    by (now rewrite Hu, length_map, length_seq).
  assert (Hlev : Forall (level bits) (unpack_word bits w)).
  { rewrite Hu. apply Forall_forall. intros q Hq.
    apply in_map_iff in Hq. destruct Hq as (k & <- & _).
    unfold level.
    pose proof (Z.mod_pos_bound (w / 2 ^ (bits * Z.of_nat k)) (2 ^ bits) Pb).
    lia. }
  split; [exact Hlen|]. split; [exact Hlev|].
  rewrite (pack_word_value bits _ Hb Hlen Hlev), Hu.
  rewrite (packed_value_digits bits w Hpos (proj1 Hw)).
  rewrite Hfill. cbn [Z.of_nat]. rewrite Z.mul_0_r. cbn [Z.pow].
  rewrite Z.div_1_r. apply Z.mod_small. exact Hw.
Qed.
End CodecProperties.

(** ** rope over exact reals

    Row-major indexing: [ravel] and [unravel] are inverse to each other
    on the indices within a shape. *)

Section RealIndexing.
Import Real.

Lemma prod_pos (sh : list Z) : positive_dims sh -> 0 < prod sh.
Proof.
  induction 1 as [|d sh Hd _ IH]; simpl; [lia|]. now apply Z.mul_pos_pos.
Qed.

Lemma in_bounds_positive (sh idx : list Z) :
  in_bounds sh idx -> positive_dims sh.
Proof.
  revert idx; induction sh as [|d sh IH]; intros [|i idx] H; simpl in H;
    try contradiction; constructor; [lia|]. now apply (IH idx).
Qed.

Lemma in_bounds_length (sh idx : list Z) :
  in_bounds sh idx -> List.length idx = List.length sh.
Proof.
  revert idx; induction sh as [|d sh IH]; intros [|i idx] H; simpl in H;
    try contradiction; [reflexivity|]. simpl. f_equal. now apply IH.
Qed.

Lemma ravel_bounds (sh idx : list Z) :
  in_bounds sh idx -> 0 <= ravel sh idx < prod sh.
Proof.
  revert idx; induction sh as [|d sh IH]; intros [|i idx] H; simpl in H;
    try contradiction; simpl; [lia|].
  destruct H as [Hi H]. specialize (IH _ H). nia.
Qed.

Lemma unravel_add_mul (sh : list Z) :
  positive_dims sh ->
  forall n k, unravel sh (n + k * prod sh) = unravel sh n.
Proof.
  induction 1 as [|d sh Hd Hsh IH]; intros n k; simpl; [reflexivity|].
  pose proof (prod_pos _ Hsh) as HP.
  f_equal.
  - replace (n + k * (d * prod sh)) with (n + (k * d) * prod sh) by ring.
    rewrite Z.div_add by lia. rewrite Z.mod_add by lia. reflexivity.
  - replace (n + k * (d * prod sh)) with (n + (k * d) * prod sh) by ring.
    apply IH.
Qed.

Lemma unravel_ravel (sh idx : list Z) :
  in_bounds sh idx -> unravel sh (ravel sh idx) = idx.
Proof.
  revert idx; induction sh as [|d sh IH]; intros [|i idx] H; simpl in H;
    try contradiction; simpl; [reflexivity|].
  destruct H as [Hi H].
  pose proof (ravel_bounds _ _ H) as Hr.
  pose proof (prod_pos _ (in_bounds_positive _ _ H)) as HP.
  f_equal.
  - rewrite Z.add_comm, Z.div_add by lia.
    rewrite Z.div_small by lia. apply Z.mod_small; lia.
  - rewrite Z.add_comm, unravel_add_mul
      by (now apply (in_bounds_positive _ idx)).
    now apply IH.
Qed.

Lemma unravel_in_bounds (sh : list Z) (n : Z) :
  positive_dims sh -> in_bounds sh (unravel sh n).
Proof.
  induction 1 as [|d sh Hd Hsh IH]; simpl; [exact I|].
  split; [apply Z.mod_pos_bound; lia|exact IH].
Qed.

Lemma ravel_unravel_mod (sh : list Z) (n : Z) :
  positive_dims sh -> ravel sh (unravel sh n) = n mod prod sh.
Proof.
  induction 1 as [|d sh Hd Hsh IH]; simpl; [now rewrite Z.mod_1_r|].
  pose proof (prod_pos _ Hsh) as HP.
  rewrite IH, (Z.mul_comm d), Z.rem_mul_r by lia. ring.
Qed.

Lemma ravel_unravel (sh : list Z) (n : Z) :
  positive_dims sh -> 0 <= n < prod sh -> ravel sh (unravel sh n) = n.
Proof.
  intros H Hn. rewrite ravel_unravel_mod by assumption. now apply Z.mod_small.
Qed.

End RealIndexing.

(** What a tensor holds: its shape, and its entries within the shape.
    Each primitive of [Real] is described once in these terms. *)

Section RealDenotation.
Import Real.

Lemma denotes_self (a : tensor) : denotes a (t_shape a) (t_at a).
Proof. split; auto. Qed.

Lemma denotes_ext (a : tensor) (sh : list Z) (f g : list Z -> R) :
  denotes a sh f -> (forall idx, in_bounds sh idx -> f idx = g idx) ->
  denotes a sh g.
Proof.
  intros [Hs Hf] Hfg. split; [exact Hs|].
  intros idx Hi. rewrite Hf by assumption. now apply Hfg.
Qed.

Lemma denotes_unary (g : R -> R) (a : tensor) sh f :
  denotes a sh f -> denotes (unary g a) sh (fun idx => g (f idx)).
Proof.
  intros [Hs Hf]. split; [exact Hs|].
  intros idx Hi. cbn. now rewrite Hf.
Qed.

Lemma bshape_rev_app (l m : list Z) : bshape_rev (l ++ m) l = l ++ m.
Proof.
  induction l as [|x l IH]; simpl; [now destruct m|].
  rewrite IH. now destruct (x =? 1).
Qed.

Lemma bshape_suffix (pre sh : list Z) : bshape (pre ++ sh) sh = pre ++ sh.
Proof.
  unfold bshape. rewrite rev_app_distr, bshape_rev_app.
  now rewrite <- rev_app_distr, rev_involutive.
Qed.

Lemma bshape_same (sh : list Z) : bshape sh sh = sh.
Proof. exact (bshape_suffix [] sh). Qed.

Lemma bidx_aligned_in_bounds (sh idx : list Z) :
  in_bounds sh idx -> bidx_aligned sh idx = idx.
Proof.
  revert idx; induction sh as [|d sh IH]; intros [|i idx] H; simpl in H;
    try contradiction; simpl; [reflexivity|].
  destruct H as [Hi H]. rewrite IH by assumption.
  destruct (d =? 1) eqn:E; [|reflexivity].
  apply Z.eqb_eq in E. f_equal. lia.
Qed.

Lemma in_bounds_app (pre sh idx : list Z) :
  in_bounds (pre ++ sh) idx ->
  in_bounds sh (skipn (List.length pre) idx).
Proof.
  revert idx; induction pre as [|d pre IH]; intros idx H; [exact H|].
  destruct idx as [|i idx]; simpl in H; [contradiction|].
  simpl. apply IH. tauto.
Qed.

Lemma bidx_suffix (pre sh idx : list Z) :
  in_bounds (pre ++ sh) idx -> bidx sh idx = skipn (List.length pre) idx.
Proof.
  intros H. unfold bidx.
  rewrite (in_bounds_length _ _ H), length_app.
  replace (List.length pre + List.length sh - List.length sh)%nat
    with (List.length pre) by lia.
  apply bidx_aligned_in_bounds. now apply in_bounds_app.
Qed.

Lemma bidx_same (sh idx : list Z) : in_bounds sh idx -> bidx sh idx = idx.
Proof. exact (bidx_suffix [] sh idx). Qed.

Lemma denotes_binary_suffix (g : R -> R -> R) (a b : tensor) pre sh fa fb :
  denotes a (pre ++ sh) fa -> denotes b sh fb ->
  denotes (binary g a b) (pre ++ sh)
          (fun idx => g (fa idx) (fb (skipn (List.length pre) idx))).
Proof.
  intros [Hsa Hfa] [Hsb Hfb]. split.
  - cbn. rewrite Hsa, Hsb. apply bshape_suffix.
  - intros idx Hi. cbn. rewrite Hsa, Hsb.
    rewrite (bidx_same _ _ Hi), (bidx_suffix _ _ _ Hi).
    rewrite Hfa by assumption. rewrite Hfb by (now apply in_bounds_app).
    reflexivity.
Qed.

Lemma denotes_binary (g : R -> R -> R) (a b : tensor) sh fa fb :
  denotes a sh fa -> denotes b sh fb ->
  denotes (binary g a b) sh (fun idx => g (fa idx) (fb idx)).
Proof. exact (denotes_binary_suffix g a b [] sh fa fb). Qed.

Lemma slice_index_in_bounds (sh start stop strides idx : list Z) :
  slice_ok sh start stop strides ->
  in_bounds (slice_shape start stop strides) idx ->
  in_bounds sh (slice_index start strides idx).
Proof.
  revert start stop strides idx.
  induction sh as [|d sh IH]; intros [|s start] [|e stop] [|st strides] idx Hok;
    simpl in Hok; try contradiction.
  - destruct idx; simpl; tauto.
  - destruct Hok as (Hs & Hst & He & Hok).
    destruct idx as [|i idx]; simpl; [tauto|].
    intros [Hi H]. split; [|now apply (IH _ stop)].
    pose proof (Z.mul_div_le (e - s + st - 1) st Hst).
    nia.
Qed.

Lemma denotes_slice (a : tensor) sh f start stop strides :
  denotes a sh f -> slice_ok sh start stop strides ->
  denotes (slice a start stop strides) (slice_shape start stop strides)
          (fun idx => f (slice_index start strides idx)).
Proof.
  intros [Hs Hf] Hok. split; [reflexivity|].
  intros idx Hi. cbn. apply Hf. now apply (slice_index_in_bounds _ _ stop).
Qed.

Lemma nonneg_positive (sh : list Z) :
  Forall (fun d => 0 <= d) sh -> 0 < prod sh -> positive_dims sh.
Proof.
  induction 1 as [|d sh Hd Hsh IH]; intros HP; [constructor|].
  simpl in HP.
  assert (0 <= prod sh).
  { clear -Hsh. induction Hsh; simpl; [lia|]. now apply Z.mul_nonneg_nonneg. }
  constructor; [nia|]. apply IH. nia.
Qed.

Lemma infer_shape_id (size : Z) (sh : list Z) :
  Forall (fun d => 0 <= d) sh -> infer_shape size sh = sh.
Proof.
  intros H. unfold infer_shape.
  rewrite <- (map_id sh) at 2. apply map_ext_in. intros d Hd.
  rewrite Forall_forall in H. specialize (H d Hd).
  destruct (d =? -1) eqn:E; [apply Z.eqb_eq in E; lia|reflexivity].
Qed.

Lemma denotes_reshape (a : tensor) sh f sh' :
  denotes a sh f ->
  Forall (fun d => 0 <= d) sh -> Forall (fun d => 0 <= d) sh' ->
  prod sh = prod sh' ->
  denotes (reshape a sh') sh' (fun idx => f (unravel sh (ravel sh' idx))).
Proof.
  intros [Hs Hf] Hn Hn' HP. unfold reshape.
  rewrite (infer_shape_id _ _ Hn'). split; [reflexivity|].
  intros idx Hi. cbn. rewrite Hs. apply Hf.
  apply unravel_in_bounds. apply nonneg_positive; [assumption|].
  rewrite HP. apply prod_pos. now apply (in_bounds_positive _ idx).
Qed.

End RealDenotation.

(** The body of the fallback of [rope], cut at its two [reshape]s. *)

Section RopeStructure.
Context {array : Type} {L : ArrayLib array}.

Lemma rope_fallback_unfold (dims : Z) (traditional : bool) (base scale : R)
    (offset : Z) (forward : bool) (x0 : array) :
  rope_fallback dims traditional base scale offset forward [x0] =
  let ndim0 := Z.of_nat (List.length (shape x0)) in
  let x := reshape x0 [-1; shape_at x0 (ndim0 - 2); shape_at x0 (ndim0 - 1)] in
  let theta := rope_theta dims base scale offset x in
  [reshape (rope_rotate dims traditional forward x (cos theta) (sin theta))
           (shape x0)].
Proof.
  unfold rope_fallback, rope_rotate, rope_theta. cbv zeta.
  destruct traditional; [|reflexivity].
  match goal with |- context [if ?c then _ else _] => destruct c end;
    reflexivity.
Qed.

End RopeStructure.

(** The layout primitives on the ranks [rope] uses them at. *)

Section RealLayout.
Import Real.

Lemma in_bounds3 (B L_ D : Z) (idx : list Z) :
  in_bounds [B; L_; D] idx ->
  exists b l d, idx = [b; l; d] /\ 0 <= b < B /\ 0 <= l < L_ /\ 0 <= d < D.
Proof.
  destruct idx as [|b [|l [|d [|e idx]]]]; simpl; try tauto.
  intros (Hb & Hl & Hd & _). now exists b, l, d.
Qed.

Lemma in_bounds4 (B L_ H E : Z) (idx : list Z) :
  in_bounds [B; L_; H; E] idx ->
  exists b l i e, idx = [b; l; i; e]
    /\ 0 <= b < B /\ 0 <= l < L_ /\ 0 <= i < H /\ 0 <= e < E.
Proof.
  destruct idx as [|b [|l [|i [|e [|e' idx]]]]]; simpl; try tauto.
  intros (Hb & Hl & Hi & He & _). now exists b, l, i, e.
Qed.

(** A slice along the last axis of a 3-D tensor. *)
Lemma denotes_slice3 (a : tensor) (B L_ D : Z) f (s e st n : Z) :
  denotes a [B; L_; D] f ->
  0 <= B -> 0 <= L_ -> 0 <= s -> 0 < st -> e <= D ->
  n = Z.max 0 ((e - s + st - 1) / st) ->
  denotes (slice a [0; 0; s] [B; L_; e] [1; 1; st]) [B; L_; n]
          (fun idx => f [nth 0 idx 0; nth 1 idx 0; s + nth 2 idx 0 * st]).
Proof.
  intros Ha HB HL Hs Hst He ->.
  assert (Hok : slice_ok [B; L_; D] [0; 0; s] [B; L_; e] [1; 1; st])
    by (simpl; lia).
  pose proof (denotes_slice a _ f _ _ _ Ha Hok) as [Hsh Hf].
  assert (Hsh' : slice_shape [0; 0; s] [B; L_; e] [1; 1; st]
                 = [B; L_; Z.max 0 ((e - s + st - 1) / st)]).
  { cbn [slice_shape]. f_equal; [|f_equal].
    - replace (B - 0 + 1 - 1) with B by lia. rewrite Z.div_1_r. lia.
    - replace (L_ - 0 + 1 - 1) with L_ by lia. rewrite Z.div_1_r. lia. }
  rewrite Hsh' in Hsh, Hf. split; [exact Hsh|].
  intros idx Hi. rewrite Hf by assumption.
  apply in_bounds3 in Hi. destruct Hi as (b & l & d & -> & _).
  cbn. f_equal. f_equal; [lia|]. f_equal. lia.
Qed.

(** Joining two 3-D tensors along the last axis. *)
Lemma denotes_concat3 (a b : tensor) (B L_ n1 n2 : Z) fa fb :
  denotes a [B; L_; n1] fa -> denotes b [B; L_; n2] fb ->
  0 <= n1 -> 0 <= n2 ->
  denotes (concat2 2 a b) [B; L_; n1 + n2]
    (fun idx =>
       if nth 2 idx 0 <? n1 then fa idx
       else fb [nth 0 idx 0; nth 1 idx 0; nth 2 idx 0 - n1]).
Proof.
  intros [Hsa Hfa] [Hsb Hfb] H1 H2. split.
  - unfold concat2. cbn. now rewrite Hsa, Hsb.
  - intros idx Hi. apply in_bounds3 in Hi.
    destruct Hi as (i & l & d & -> & Hi & Hl & Hd).
    unfold concat2. cbn. rewrite Hsa. cbn.
    destruct (d <? n1) eqn:E.
    + apply Hfa. simpl. lia.
    + apply Hfb. simpl. lia.
Qed.

(** A new last axis of size 1 on a 3-D tensor, and the join of two such
    tensors along it. *)
Lemma denotes_expand3 (a : tensor) (B L_ H : Z) f :
  denotes a [B; L_; H] f ->
  denotes (expand_dims a 3) [B; L_; H; 1]
          (fun idx => f [nth 0 idx 0; nth 1 idx 0; nth 2 idx 0]).
Proof.
  intros [Hs Hf]. split.
  - unfold expand_dims. cbn. now rewrite Hs.
  - intros idx Hi. apply in_bounds4 in Hi.
    destruct Hi as (b & l & i & e & -> & Hb & Hl & Hi & He).
    unfold expand_dims. cbn. apply Hf. simpl. lia.
Qed.

Lemma denotes_concat4 (a b : tensor) (B L_ H : Z) fa fb :
  denotes a [B; L_; H; 1] fa -> denotes b [B; L_; H; 1] fb ->
  denotes (concat2 3 a b) [B; L_; H; 2]
    (fun idx =>
       if nth 3 idx 0 <? 1 then fa idx
       else fb [nth 0 idx 0; nth 1 idx 0; nth 2 idx 0; nth 3 idx 0 - 1]).
Proof.
  intros [Hsa Hfa] [Hsb Hfb]. split.
  - unfold concat2. cbn. now rewrite Hsa, Hsb.
  - intros idx Hi. apply in_bounds4 in Hi.
    destruct Hi as (b' & l & i & e & -> & Hb & Hl & Hi & He).
    unfold concat2. cbn. rewrite Hsa. cbn.
    destruct (e <? 1) eqn:E.
    + apply Hfa. simpl. lia.
    + apply Hfb. simpl. lia.
Qed.

(** Splitting the last axis [2 * H] of a 3-D shape into [H; 2] keeps the
    row-major position. *)
Lemma unravel_split_last (B L_ H b l d : Z) :
  0 <= b < B -> 0 <= l < L_ -> 0 <= d < 2 * H ->
  unravel [B; L_; H; 2] (ravel [B; L_; 2 * H] [b; l; d])
  = [b; l; d / 2; d mod 2].
Proof.
  intros Hb Hl Hd.
  replace (ravel [B; L_; 2 * H] [b; l; d])
    with (ravel [B; L_; H; 2] [b; l; d / 2; d mod 2]).
  - apply unravel_ravel. simpl.
    pose proof (Z.mod_pos_bound d 2 ltac:(lia)).
    assert (0 <= d / 2 < H)
      by (split; [apply Z.div_pos; lia|apply Z.div_lt_upper_bound; lia]).
    lia.
  - cbn [ravel prod fold_right].
    pose proof (Z.div_mod d 2 ltac:(lia)). nia.
Qed.

End RealLayout.

(** The rotation, row by row. *)

Lemma rotate_inverse (a b t : R) :
  let p := rotate true a b (Rtrigo_def.cos t) (Rtrigo_def.sin t) in
  rotate false (fst p) (snd p) (Rtrigo_def.cos t) (Rtrigo_def.sin t) = (a, b).
Proof.
  cbv zeta. unfold rotate. cbn [fst snd].
  pose proof (sin2_cos2 t) as T. unfold Rsqr in T.
  set (c := Rtrigo_def.cos t) in *. set (s := Rtrigo_def.sin t) in *.
  f_equal.
  - replace ((a * s + b * c) * s + (a * c - b * s) * c)%R
      with (a * (s * s + c * c))%R by ring.
    rewrite T. ring.
  - replace ((a * s + b * c) * c - (a * c - b * s) * s)%R
      with (b * (s * s + c * c))%R by ring.
    rewrite T. ring.
Qed.

(** One row: the rotation with [forward = false] undoes the rotation
    with [forward = true], on rotated and on trailing features. *)
Lemma rotate_row_inverse (traditional : bool) (dims h : Z)
    (theta r : Z -> R) (d : Z) :
  0 <= h -> dims = 2 * h -> 0 <= d ->
  rotate_row traditional false dims h theta
             (rotate_row traditional true dims h theta r) d
  = r d.
Proof.
  intros Hh Hd H0. unfold rotate_row at 1.
  destruct (d <? dims) eqn:E; [apply Z.ltb_lt in E|].
  - destruct traditional.
    + cbv zeta.
      pose proof (Z.div_mod d 2 ltac:(lia)) as Hdm.
      pose proof (Z.mod_pos_bound d 2 ltac:(lia)) as Hm.
      set (i := d / 2) in *.
      assert (Hi : 0 <= i) by lia.
      assert (E0 : rotate_row true true dims h theta r (2 * i)
                   = fst (rotate true (r (2 * i)) (r (2 * i + 1))
                            (Rtrigo_def.cos (theta i))
                            (Rtrigo_def.sin (theta i)))).
      { unfold rotate_row. replace (2 * i <? dims) with true by lia.
        cbv zeta.
        replace (2 * i / 2) with i by (Z.div_mod_to_equations; lia).
        replace ((2 * i) mod 2) with 0 by (Z.div_mod_to_equations; lia).
        reflexivity. }
      assert (E1 : rotate_row true true dims h theta r (2 * i + 1)
                   = snd (rotate true (r (2 * i)) (r (2 * i + 1))
                            (Rtrigo_def.cos (theta i))
                            (Rtrigo_def.sin (theta i)))).
      { unfold rotate_row. replace (2 * i + 1 <? dims) with true by lia.
        cbv zeta.
        replace ((2 * i + 1) / 2) with i by (Z.div_mod_to_equations; lia).
        replace ((2 * i + 1) mod 2) with 1 by (Z.div_mod_to_equations; lia).
        reflexivity. }
      rewrite E0, E1.
      pose proof (rotate_inverse (r (2 * i)) (r (2 * i + 1)) (theta i)) as RI.
      cbv zeta in RI. rewrite RI. cbn [fst snd].
      destruct (d mod 2 =? 0) eqn:E2; f_equal; lia.
    + destruct (d <? h) eqn:E2.
      * assert (E0 : rotate_row false true dims h theta r d
                     = fst (rotate true (r d) (r (h + d))
                              (Rtrigo_def.cos (theta d))
                              (Rtrigo_def.sin (theta d)))).
        { unfold rotate_row. now rewrite (proj2 (Z.ltb_lt d dims) E), E2. }
        assert (E1 : rotate_row false true dims h theta r (h + d)
                     = snd (rotate true (r d) (r (h + d))
                              (Rtrigo_def.cos (theta d))
                              (Rtrigo_def.sin (theta d)))).
        { unfold rotate_row.
          replace (h + d <? dims) with true by lia.
          replace (h + d <? h) with false by lia.
          replace (h + d - h) with d by lia. reflexivity. }
        rewrite E0, E1.
        pose proof (rotate_inverse (r d) (r (h + d)) (theta d)) as RI.
        cbv zeta in RI. now rewrite RI.
      * assert (E0 : rotate_row false true dims h theta r (d - h)
                     = fst (rotate true (r (d - h)) (r d)
                              (Rtrigo_def.cos (theta (d - h)))
                              (Rtrigo_def.sin (theta (d - h))))).
        { unfold rotate_row.
          replace (d - h <? dims) with true by lia.
          replace (d - h <? h) with true by lia.
          replace (h + (d - h)) with d by lia. reflexivity. }
        assert (E1 : rotate_row false true dims h theta r d
                     = snd (rotate true (r (d - h)) (r d)
                              (Rtrigo_def.cos (theta (d - h)))
                              (Rtrigo_def.sin (theta (d - h))))).
        { unfold rotate_row. now rewrite (proj2 (Z.ltb_lt d dims) E), E2. }
        rewrite E0, E1.
        pose proof (rotate_inverse (r (d - h)) (r d) (theta (d - h))) as RI.
        cbv zeta in RI. now rewrite RI.
  - unfold rotate_row. now rewrite E.
Qed.

(** A rotated entry only reads entries of its own row. *)
Lemma rotate_row_ext (traditional forward : bool) (dims h D : Z)
    (theta r r' : Z -> R) (d : Z) :
  0 <= h -> dims = 2 * h -> dims <= D -> 0 <= d < D ->
  (forall d', 0 <= d' < D -> r d' = r' d') ->
  rotate_row traditional forward dims h theta r d
  = rotate_row traditional forward dims h theta r' d.
Proof.
  intros Hh Hd HD Hdd Hr. unfold rotate_row.
  destruct (d <? dims) eqn:E; [apply Z.ltb_lt in E|apply Hr; lia].
  destruct traditional.
  - cbv zeta.
    pose proof (Z.div_mod d 2 ltac:(lia)) as Hdm.
    pose proof (Z.mod_pos_bound d 2 ltac:(lia)) as Hm.
    rewrite (Hr (2 * (d / 2))), (Hr (2 * (d / 2) + 1)) by lia. reflexivity.
  - destruct (d <? h) eqn:E2.
    + rewrite (Hr d), (Hr (h + d)) by lia. reflexivity.
    + rewrite (Hr d), (Hr (d - h)) by lia. reflexivity.
Qed.

Section RopeOnReals.
Variable ds : Stream.

Lemma shape_at_3 (x : Real.tensor) (B L_ D : Z) :
  Real.t_shape x = [B; L_; D] ->
  shape_at (L := Real.Lib ds) x 0 = B /\ shape_at (L := Real.Lib ds) x 1 = L_
  /\ shape_at (L := Real.Lib ds) x 2 = D
  /\ shape_at (L := Real.Lib ds) x (-1) = D.
Proof.
  intros H. unfold shape_at, ndim. cbn [shape Real.Lib]. rewrite H.
  repeat split; reflexivity.
Qed.

Ltac solve_entry :=
  repeat first [reflexivity | lia | progress f_equal].

Lemma rope_rotate_split_half (dims h B L_ D : Z) (fwd : bool)
    (x coss sins : Real.tensor) (f th : list Z -> R) :
  denotes x [B; L_; D] f ->
  denotes coss [L_; h] (fun idx => Rtrigo_def.cos (th idx)) ->
  denotes sins [L_; h] (fun idx => Rtrigo_def.sin (th idx)) ->
  0 <= B -> 0 <= L_ -> 0 <= h -> dims = 2 * h -> dims <= D ->
  denotes (rope_rotate (L := Real.Lib ds) dims false fwd x coss sins) [B; L_; D]
          (rotated false fwd dims h th f).
Proof.
  intros Hx Hc Hs HB HL Hh Hd HD.
  destruct (shape_at_3 x B L_ D (proj1 Hx)) as (S0 & S1 & S2 & S3).
  assert (Hq : idiv dims 2 = h).
  { unfold idiv. subst dims. rewrite Z.mul_comm. apply Z.quot_mul. lia. }
  assert (Hhh : 0 <= h + h) by lia.
  assert (HDd : 0 <= D - dims) by lia.
  unfold rope_rotate, slice_, set_back. rewrite S3, Hq.
  clear S0 S1 S2 S3.
  cbn [shape Real.Lib]. rewrite (proj1 Hx). cbn [removelast app map].
  pose proof (denotes_slice3 x B L_ D f 0 h 1 h Hx HB HL ltac:(lia)
                ltac:(lia) ltac:(lia)
                ltac:(rewrite Z.div_1_r; lia)) as Hx1.
  pose proof (denotes_slice3 x B L_ D f h dims 1 h Hx HB HL ltac:(lia)
                ltac:(lia) ltac:(lia)
                ltac:(rewrite Z.div_1_r; lia)) as Hx2.
  pose proof (denotes_slice3 x B L_ D f dims D 1 (D - dims) Hx HB HL
                ltac:(lia) ltac:(lia) ltac:(lia)
                ltac:(rewrite Z.div_1_r; lia)) as Ht.
  set (x1 := slice x [0; 0; 0] [B; L_; h] [1; 1; 1]) in *.
  set (x2 := slice x [0; 0; h] [B; L_; dims] [1; 1; 1]) in *.
  set (tl := slice x [0; 0; dims] [B; L_; D] [1; 1; 1]) in *.
  pose proof (denotes_binary_suffix Rmult x1 coss [B] [L_; h] _ _ Hx1 Hc)
    as M1c.
  pose proof (denotes_binary_suffix Rmult x1 sins [B] [L_; h] _ _ Hx1 Hs)
    as M1s.
  pose proof (denotes_binary_suffix Rmult x2 coss [B] [L_; h] _ _ Hx2 Hc)
    as M2c.
  pose proof (denotes_binary_suffix Rmult x2 sins [B] [L_; h] _ _ Hx2 Hs)
    as M2s.
  cbn [app] in M1c, M1s, M2c, M2s.
  unfold apply_rope.
  destruct fwd.
  - pose proof (denotes_binary Rminus _ _ _ _ _ M1c M2s) as O1.
    pose proof (denotes_binary Rplus _ _ _ _ _ M1s M2c) as O2.
    pose proof (denotes_concat3 _ _ _ _ _ _ _ _ O1 O2 Hh Hh) as C12.
    destruct (dims <? D) eqn:E.
    + pose proof (denotes_concat3 _ _ _ _ _ _ _ _ C12 Ht) as C.
      specialize (C Hhh HDd).
      replace (h + h + (D - dims)) with D in C by lia.
      apply Z.ltb_lt in E.
      eapply denotes_ext; [exact C|].
      intros idx Hi. apply in_bounds3 in Hi.
      destruct Hi as (b & l & d & -> & Hb & Hl & Hdd).
      unfold rotated, rotate_row, rotate. cbn [nth List.length skipn].
      destruct (d <? h + h) eqn:E1, (d <? dims) eqn:E2; try lia;
        [destruct (d <? h) eqn:E3|]; cbn [fst snd]; solve_entry.
    + apply Z.ltb_ge in E. assert (D = dims) by lia. subst D.
      replace (h + h) with dims in C12 by lia.
      eapply denotes_ext; [exact C12|].
      intros idx Hi. apply in_bounds3 in Hi.
      destruct Hi as (b & l & d & -> & Hb & Hl & Hdd).
      unfold rotated, rotate_row, rotate. cbn [nth List.length skipn].
      replace (d <? dims) with true by lia.
      destruct (d <? h) eqn:E3; cbn [fst snd]; solve_entry.
  - pose proof (denotes_binary Rplus _ _ _ _ _ M2s M1c) as O1.
    pose proof (denotes_binary Rminus _ _ _ _ _ M2c M1s) as O2.
    pose proof (denotes_concat3 _ _ _ _ _ _ _ _ O1 O2 Hh Hh) as C12.
    destruct (dims <? D) eqn:E.
    + pose proof (denotes_concat3 _ _ _ _ _ _ _ _ C12 Ht) as C.
      specialize (C Hhh HDd).
      replace (h + h + (D - dims)) with D in C by lia.
      apply Z.ltb_lt in E.
      eapply denotes_ext; [exact C|].
      intros idx Hi. apply in_bounds3 in Hi.
      destruct Hi as (b & l & d & -> & Hb & Hl & Hdd).
      unfold rotated, rotate_row, rotate. cbn [nth List.length skipn].
      destruct (d <? h + h) eqn:E1, (d <? dims) eqn:E2; try lia;
        [destruct (d <? h) eqn:E3|]; cbn [fst snd]; solve_entry.
    + apply Z.ltb_ge in E. assert (D = dims) by lia. subst D.
      replace (h + h) with dims in C12 by lia.
      eapply denotes_ext; [exact C12|].
      intros idx Hi. apply in_bounds3 in Hi.
      destruct Hi as (b & l & d & -> & Hb & Hl & Hdd).
      unfold rotated, rotate_row, rotate. cbn [nth List.length skipn].
      replace (d <? dims) with true by lia.
      destruct (d <? h) eqn:E3; cbn [fst snd]; solve_entry.
Qed.

Lemma rope_rotate_traditional (dims h B L_ D : Z) (fwd : bool)
    (x coss sins : Real.tensor) (f th : list Z -> R) :
  denotes x [B; L_; D] f ->
  denotes coss [L_; h] (fun idx => Rtrigo_def.cos (th idx)) ->
  denotes sins [L_; h] (fun idx => Rtrigo_def.sin (th idx)) ->
  0 <= B -> 0 <= L_ -> 0 <= h -> dims = 2 * h -> dims <= D ->
  exists csh F,
    denotes (rope_rotate (L := Real.Lib ds) dims true fwd x coss sins) csh F
    /\ Forall (fun d => 0 <= d) csh
    /\ Real.prod csh = Real.prod [B; L_; D]
    /\ forall idx, Real.in_bounds [B; L_; D] idx ->
         F (Real.unravel csh (Real.ravel [B; L_; D] idx))
         = rotated true fwd dims h th f idx.
Proof.
  intros Hx Hc Hs HB HL Hh Hd HD.
  destruct (shape_at_3 x B L_ D (proj1 Hx)) as (S0 & S1 & S2 & S3).
  assert (HDd : 0 <= D - dims) by lia.
  assert (Hdims : 0 <= dims) by lia.
  unfold rope_rotate, slice_. rewrite S0, S1, S3.
  cbn [shape Real.Lib]. rewrite (proj1 Hx). cbn [map].
  clear S0 S1 S2 S3.
  pose proof (denotes_slice3 x B L_ D f 0 dims 2 h Hx HB HL ltac:(lia)
                ltac:(lia) ltac:(lia)
                ltac:(Z.div_mod_to_equations; lia)) as Hx1.
  pose proof (denotes_slice3 x B L_ D f 1 dims 2 h Hx HB HL ltac:(lia)
                ltac:(lia) ltac:(lia)
                ltac:(Z.div_mod_to_equations; lia)) as Hx2.
  pose proof (denotes_slice3 x B L_ D f dims D 1 (D - dims) Hx HB HL
                ltac:(lia) ltac:(lia) ltac:(lia)
                ltac:(rewrite Z.div_1_r; lia)) as Ht.
  set (x1 := slice x [0; 0; 0] [B; L_; dims] [1; 1; 2]) in *.
  set (x2 := slice x [0; 0; 1] [B; L_; dims] [1; 1; 2]) in *.
  set (tl := slice x [0; 0; dims] [B; L_; D] [1; 1; 1]) in *.
  pose proof (denotes_binary_suffix Rmult x1 coss [B] [L_; h] _ _ Hx1 Hc)
    as M1c.
  pose proof (denotes_binary_suffix Rmult x1 sins [B] [L_; h] _ _ Hx1 Hs)
    as M1s.
  pose proof (denotes_binary_suffix Rmult x2 coss [B] [L_; h] _ _ Hx2 Hc)
    as M2c.
  pose proof (denotes_binary_suffix Rmult x2 sins [B] [L_; h] _ _ Hx2 Hs)
    as M2s.
  cbn [app] in M1c, M1s, M2c, M2s.
  assert (Hn4 : Forall (fun d => 0 <= d) [B; L_; h; 2])
    by (repeat constructor; lia).
  assert (Hn3 : Forall (fun d => 0 <= d) [B; L_; dims])
    by (repeat constructor; lia).
  assert (HnD : Forall (fun d => 0 <= d) [B; L_; D])
    by (repeat constructor; lia).
  assert (HP : Real.prod [B; L_; h; 2] = Real.prod [B; L_; dims])
    by (cbn; subst dims; ring).
  unfold apply_rope.
  destruct fwd.
  - pose proof (denotes_binary Rminus _ _ _ _ _ M1c M2s) as O1.
    pose proof (denotes_binary Rplus _ _ _ _ _ M1s M2c) as O2.
    pose proof (denotes_concat4 _ _ _ _ _ _ _
                  (denotes_expand3 _ _ _ _ _ O1)
                  (denotes_expand3 _ _ _ _ _ O2)) as C4.
    cbn [map].
    destruct (dims <? D) eqn:E.
    + pose proof (denotes_reshape _ _ _ [B; L_; dims] C4 Hn4 Hn3 HP) as R3.
      pose proof (denotes_concat3 _ _ _ _ _ _ _ _ R3 Ht) as C.
      specialize (C Hdims HDd).
      replace (dims + (D - dims)) with D in C by lia.
      eexists _, _. split; [exact C|]. split; [exact HnD|].
      split; [reflexivity|].
      intros idx Hi. rewrite unravel_ravel by assumption.
      apply in_bounds3 in Hi.
      destruct Hi as (b & l & d & -> & Hb & Hl & Hdd).
      unfold rotated, rotate_row, rotate. cbn [nth List.length skipn].
      destruct (d <? dims) eqn:E2; [|solve_entry].
      subst dims. rewrite unravel_split_last by lia.
      cbn [nth List.length skipn].
      pose proof (Z.mod_pos_bound d 2 ltac:(lia)).
      destruct (d mod 2 <? 1) eqn:E3, (d mod 2 =? 0) eqn:E4; try lia;
        cbn [fst snd]; solve_entry.
    + apply Z.ltb_ge in E. assert (D = dims) by lia. subst D.
      eexists _, _. split; [exact C4|]. split; [exact Hn4|].
      split; [exact HP|].
      intros idx Hi. apply in_bounds3 in Hi.
      destruct Hi as (b & l & d & -> & Hb & Hl & Hdd).
      unfold rotated, rotate_row, rotate. cbn [nth List.length skipn].
      replace (d <? dims) with true by lia.
      subst dims. rewrite unravel_split_last by lia.
      cbn [nth List.length skipn].
      pose proof (Z.mod_pos_bound d 2 ltac:(lia)).
      destruct (d mod 2 <? 1) eqn:E3, (d mod 2 =? 0) eqn:E4; try lia;
        cbn [fst snd]; solve_entry.
  - pose proof (denotes_binary Rplus _ _ _ _ _ M2s M1c) as O1.
    pose proof (denotes_binary Rminus _ _ _ _ _ M2c M1s) as O2.
    pose proof (denotes_concat4 _ _ _ _ _ _ _
                  (denotes_expand3 _ _ _ _ _ O1)
                  (denotes_expand3 _ _ _ _ _ O2)) as C4.
    cbn [map].
    destruct (dims <? D) eqn:E.
    + pose proof (denotes_reshape _ _ _ [B; L_; dims] C4 Hn4 Hn3 HP) as R3.
      pose proof (denotes_concat3 _ _ _ _ _ _ _ _ R3 Ht) as C.
      specialize (C Hdims HDd).
      replace (dims + (D - dims)) with D in C by lia.
      eexists _, _. split; [exact C|]. split; [exact HnD|].
      split; [reflexivity|].
      intros idx Hi. rewrite unravel_ravel by assumption.
      apply in_bounds3 in Hi.
      destruct Hi as (b & l & d & -> & Hb & Hl & Hdd).
      unfold rotated, rotate_row, rotate. cbn [nth List.length skipn].
      destruct (d <? dims) eqn:E2; [|solve_entry].
      subst dims. rewrite unravel_split_last by lia.
      cbn [nth List.length skipn].
      pose proof (Z.mod_pos_bound d 2 ltac:(lia)).
      destruct (d mod 2 <? 1) eqn:E3, (d mod 2 =? 0) eqn:E4; try lia;
        cbn [fst snd]; solve_entry.
    + apply Z.ltb_ge in E. assert (D = dims) by lia. subst D.
      eexists _, _. split; [exact C4|]. split; [exact Hn4|].
      split; [exact HP|].
      intros idx Hi. apply in_bounds3 in Hi.
      destruct Hi as (b & l & d & -> & Hb & Hl & Hdd).
      unfold rotated, rotate_row, rotate. cbn [nth List.length skipn].
      replace (d <? dims) with true by lia.
      subst dims. rewrite unravel_split_last by lia.
      cbn [nth List.length skipn].
      pose proof (Z.mod_pos_bound d 2 ltac:(lia)).
      destruct (d mod 2 <? 1) eqn:E3, (d mod 2 =? 0) eqn:E4; try lia;
        cbn [fst snd]; solve_entry.
Qed.

Lemma rope_theta_shape (x : Real.tensor) (B L_ D dims h : Z)
    (base scale : R) (offset : Z) :
  Real.t_shape x = [B; L_; D] -> 0 <= L_ -> 0 <= h -> dims = 2 * h ->
  Real.t_shape (rope_theta (L := Real.Lib ds) dims base scale offset x)
  = [L_; h].
Proof.
  intros Hx HL Hh Hd.
  destruct (shape_at_3 x B L_ D Hx) as (S0 & S1 & S2 & S3).
  assert (Hq : idiv dims 2 = h).
  { unfold idiv. subst dims. rewrite Z.mul_comm. apply Z.quot_mul. lia. }
  unfold rope_theta. rewrite S1, Hq. clear S0 S1 S2 S3.
  cbn -[Z.div Z.max Z.add Z.sub Z.mul].
  replace (Z.max 0 ((L_ + offset - offset + 1 - 1) / 1)) with L_
    by (rewrite Z.div_1_r; lia).
  replace (Z.max 0 ((h - 0 + 1 - 1) / 1)) with h
    by (rewrite Z.div_1_r; lia).
  rewrite Pos2Nat.inj_1. cbn.
  destruct (L_ =? 1) eqn:E; cbn; [|reflexivity].
  apply Z.eqb_eq in E. now subst L_.
Qed.

(** The angle table depends on the input through its second axis only. *)
Lemma rope_theta_at (x y : Real.tensor) (dims : Z) (base scale : R)
    (offset : Z) :
  shape_at (L := Real.Lib ds) x 1 = shape_at (L := Real.Lib ds) y 1 ->
  Real.t_at (rope_theta (L := Real.Lib ds) dims base scale offset x)
  = Real.t_at (rope_theta (L := Real.Lib ds) dims base scale offset y).
Proof. intros H. unfold rope_theta. rewrite H. reflexivity. Qed.

Lemma denotes_trig (theta : Real.tensor) (sh : list Z) :
  Real.t_shape theta = sh ->
  denotes (@cos _ (Real.Lib ds) theta) sh
          (fun idx => Rtrigo_def.cos (Real.t_at theta idx))
  /\ denotes (@sin _ (Real.Lib ds) theta) sh
             (fun idx => Rtrigo_def.sin (Real.t_at theta idx)).
Proof. intros H. split; (split; [exact H|reflexivity]). Qed.

Lemma last_two (sh : list Z) :
  (2 <= List.length sh)%nat -> exists pre L_ D, sh = pre ++ [L_; D].
Proof.
  intros H. rewrite <- (rev_involutive sh).
  rewrite <- length_rev in H.
  destruct (rev sh) as [|D [|L_ r]]; simpl in H; try lia.
  exists (rev r), L_, D. cbn [rev]. now rewrite <- app_assoc.
Qed.

Lemma shape_at_last_two (x : Real.tensor) (pre : list Z) (L_ D : Z) :
  Real.t_shape x = pre ++ [L_; D] ->
  let n := Z.of_nat (List.length (Real.t_shape x)) in
  shape_at (L := Real.Lib ds) x (n - 2) = L_
  /\ shape_at (L := Real.Lib ds) x (n - 1) = D
  /\ shape_at (L := Real.Lib ds) x (-1) = D.
Proof.
  intros H n. unfold shape_at, ndim. cbn [shape Real.Lib]. fold n.
  assert (Hn : n = Z.of_nat (List.length pre) + 2).
  { subst n. rewrite H, length_app. cbn [List.length]. lia. }
  replace (n - 2 <? 0) with false by lia.
  replace (n - 1 <? 0) with false by lia.
  replace (Z.to_nat (n - 2)) with (List.length pre + 0)%nat by lia.
  replace (Z.to_nat (n - 1)) with (List.length pre + 1)%nat by lia.
  cbn [Z.ltb Z.compare].
  replace (Z.to_nat (-1 + n)) with (List.length pre + 1)%nat by lia.
  rewrite H, !app_nth2_plus. repeat split; reflexivity.
Qed.

Lemma prod_app (a b : list Z) :
  Real.prod (a ++ b) = Real.prod a * Real.prod b.
Proof.
  induction a as [|d a IH]; cbn [app Real.prod fold_right].
  - fold (Real.prod b). lia.
  - fold (Real.prod (a ++ b)). fold (Real.prod a). rewrite IH. ring.
Qed.

Lemma prod_nonneg (sh : list Z) :
  Forall (fun d => 0 <= d) sh -> 0 <= Real.prod sh.
Proof.
  induction 1 as [|d sh Hd _ IH]; cbn [Real.prod fold_right]; [lia|].
  fold (Real.prod sh). now apply Z.mul_nonneg_nonneg.
Qed.

(** The 3-D view [reshape(x, {-1, L, D})] of a tensor whose last two
    axes are [L] and [D]. *)
Lemma view3 (x : Real.tensor) (pre : list Z) (L_ D : Z) :
  Real.t_shape x = pre ++ [L_; D] ->
  Forall (fun d => 0 <= d) (Real.t_shape x) ->
  let sh := Real.t_shape x in
  let B := Real.prod sh / (L_ * (D * 1)) in
  0 <= B /\ 0 <= L_ /\ 0 <= D
  /\ Real.prod [B; L_; D] = Real.prod sh
  /\ denotes (Real.reshape x [-1; L_; D]) [B; L_; D]
             (fun j => Real.t_at x (Real.unravel sh (Real.ravel [B; L_; D] j))).
Proof.
  intros H Hn sh B.
  assert (HLD : 0 <= L_ /\ 0 <= D).
  { rewrite H in Hn. apply Forall_app in Hn. destruct Hn as [_ Hn].
    inversion Hn as [|? ? HL Hn']; subst. inversion Hn'; subst. lia. }
  destruct HLD as [HL HD].
  assert (HP : Real.prod sh = Real.prod pre * (L_ * (D * 1))).
  { subst sh. rewrite H, prod_app. reflexivity. }
  assert (HB : 0 <= B).
  { subst B. pose proof (prod_nonneg _ Hn).
    destruct (Z.eq_dec (L_ * (D * 1)) 0) as [E|E].
    - rewrite E. now rewrite Z.div_0_r.
    - apply Z.div_pos; [assumption|nia]. }
  assert (HPB : Real.prod [B; L_; D] = Real.prod sh).
  { cbn [Real.prod fold_right]. subst B. rewrite HP.
    destruct (Z.eq_dec (L_ * (D * 1)) 0) as [E|E].
    - rewrite E. ring.
    - rewrite Z.div_mul by assumption. reflexivity. }
  assert (Hinf : Real.infer_shape (Real.prod sh) [-1; L_; D] = [B; L_; D]).
  { unfold Real.infer_shape. cbn [filter map Z.eqb Pos.eqb negb].
    replace (L_ =? -1) with false by lia.
    replace (D =? -1) with false by lia.
    cbn [negb Real.prod fold_right]. reflexivity. }
  split; [exact HB|]. split; [exact HL|]. split; [exact HD|].
  split; [exact HPB|]. split.
  - unfold Real.reshape. cbn [Real.t_shape]. exact Hinf.
  - intros idx _. unfold Real.reshape. cbn [Real.t_at].
    fold sh. now rewrite Hinf.
Qed.

(** The entries of the output of the fallback of [rope]: each row of the
    3-D view of the input, rotated. *)
Lemma rope_fallback_entries (x : Real.tensor) (pre : list Z) (L_ D : Z)
    (dims h : Z) (traditional : bool) (base scale : R) (offset : Z)
    (forward : bool) :
  Real.t_shape x = pre ++ [L_; D] ->
  Forall (fun d => 0 <= d) (Real.t_shape x) ->
  0 <= h -> dims = 2 * h -> dims <= D ->
  let sh := Real.t_shape x in
  let B := Real.prod sh / (L_ * (D * 1)) in
  exists y,
    rope_fallback (L := Real.Lib ds) dims traditional base scale offset
                  forward [x] = [y]
    /\ Real.t_shape y = sh
    /\ forall idx, Real.in_bounds sh idx ->
         Real.t_at y idx
         = rotated traditional forward dims h
             (rope_angles ds dims base scale offset L_)
             (fun j => Real.t_at x (Real.unravel sh (Real.ravel [B; L_; D] j)))
             (Real.unravel [B; L_; D] (Real.ravel sh idx)).
Proof.
  intros Hsh Hn Hh Hd HD sh B.
  destruct (view3 x pre L_ D Hsh Hn) as (HB & HL & HD0 & HPB & Hx3).
  fold sh in HB, HPB, Hx3. fold B in HB, HPB, Hx3.
  destruct (shape_at_last_two x pre L_ D Hsh) as (SL & SD & _).
  cbv zeta in SL, SD.
  rewrite rope_fallback_unfold. cbv zeta.
  cbn [shape Real.Lib]. rewrite SL, SD.
  cbn [reshape Real.Lib].
  set (x3 := Real.reshape x [-1; L_; D]) in *.
  set (theta := rope_theta dims base scale offset x3).
  assert (Hth : Real.t_shape theta = [L_; h])
    by (apply (rope_theta_shape x3 B L_ D); [apply Hx3|assumption..]).
  assert (Hang : Real.t_at theta = rope_angles ds dims base scale offset L_).
  { apply rope_theta_at.
    destruct (shape_at_3 x3 B L_ D (proj1 Hx3)) as (_ & S1 & _).
    rewrite S1. reflexivity. }
  destruct (denotes_trig theta [L_; h] Hth) as [Hc Hs].
  rewrite Hang in Hc, Hs.
  assert (Hcore : exists csh F,
    denotes (rope_rotate (L := Real.Lib ds) dims traditional forward x3
               (@cos _ (Real.Lib ds) theta) (@sin _ (Real.Lib ds) theta))
            csh F
    /\ Forall (fun d => 0 <= d) csh
    /\ Real.prod csh = Real.prod [B; L_; D]
    /\ forall idx, Real.in_bounds [B; L_; D] idx ->
         F (Real.unravel csh (Real.ravel [B; L_; D] idx))
         = rotated traditional forward dims h
             (rope_angles ds dims base scale offset L_)
             (fun j => Real.t_at x (Real.unravel sh (Real.ravel [B; L_; D] j)))
             idx).
  { destruct traditional.
    - now apply (rope_rotate_traditional dims h B L_ D).
    - exists [B; L_; D]. eexists. split.
      + now apply (rope_rotate_split_half dims h B L_ D forward x3 _ _ _ _
                     Hx3 Hc Hs).
      + split; [repeat constructor; lia|]. split; [reflexivity|].
        intros idx Hi. now rewrite unravel_ravel. }
  destruct Hcore as (csh & F & Hcore & Hncsh & HPc & HF).
  pose proof (denotes_reshape _ _ _ sh Hcore Hncsh Hn
                ltac:(rewrite HPc; exact HPB)) as [Hys Hy].
  eexists. split; [reflexivity|]. split; [exact Hys|].
  intros idx Hi. rewrite Hy by assumption.
  pose proof (ravel_bounds _ _ Hi) as Hr.
  assert (Hpos3 : positive_dims [B; L_; D]).
  { apply nonneg_positive; [repeat constructor; lia|]. rewrite HPB. lia. }
  rewrite <- (ravel_unravel [B; L_; D] (Real.ravel sh idx) Hpos3) at 1
    by (rewrite HPB; exact Hr).
  apply HF. now apply unravel_in_bounds.
Qed.

Lemma promote_types_same (t : Dtype) : Real.promote_types t t = t.
Proof. unfold Real.promote_types. now rewrite Dtype_eqb_refl. Qed.

Lemma concatenate_dtype (a : Real.tensor) (l : list Real.tensor) (ax : Z) :
  Real.t_dtype (Real.concatenate (a :: l) ax) = Real.t_dtype a.
Proof.
  unfold Real.concatenate.
  generalize (Real.norm_axis (Real.rank (Real.t_shape a)) ax). intros k.
  revert a. induction l as [|b l IH]; intros a; cbn [fold_left]; [reflexivity|].
  rewrite IH. reflexivity.
Qed.

(** The output of the fallback of [rope] has the dtype of its input. *)
Lemma rope_fallback_dtype (x : Real.tensor) (dims : Z) (traditional : bool)
    (base scale : R) (offset : Z) (forward : bool) :
  map Real.t_dtype
      (rope_fallback (L := Real.Lib ds) dims traditional base scale offset
                     forward [x])
  = [Real.t_dtype x].
Proof.
  rewrite rope_fallback_unfold. cbv zeta. cbn [map]. f_equal.
  cbn [reshape Real.Lib]. unfold Real.reshape at 1. cbn [Real.t_dtype].
  unfold rope_rotate, apply_rope.
  destruct traditional, forward;
    repeat match goal with |- context [if ?c then _ else _] =>
      destruct c end;
    cbn [map app concatenate Real.Lib]; rewrite ?concatenate_dtype;
    cbn; rewrite ?promote_types_same; reflexivity.
Qed.

(** [rope] itself: on a GPU stream the deferred node holds what its
    fallback computes, elsewhere the fallback runs; either way the
    entries are those of [rope_fallback_entries]. *)
Lemma rope_entries (x : Real.tensor) (pre : list Z) (L_ D : Z)
    (dims h : Z) (traditional : bool) (base scale : R) (offset : Z)
    (forward : bool) (s : StreamOrDevice) :
  Real.t_shape x = pre ++ [L_; D] ->
  (1 <= List.length pre)%nat ->
  Forall (fun d => 0 <= d) (Real.t_shape x) ->
  0 <= h -> dims = 2 * h -> dims <= D ->
  let sh := Real.t_shape x in
  let B := Real.prod sh / (L_ * (D * 1)) in
  exists y,
    rope (L := Real.Lib ds) x dims traditional base scale offset forward s
    = Return y
    /\ Real.t_shape y = sh
    /\ Real.t_dtype y = Real.t_dtype x
    /\ forall idx, Real.in_bounds sh idx ->
         Real.t_at y idx
         = rotated traditional forward dims h
             (rope_angles ds dims base scale offset L_)
             (fun j => Real.t_at x (Real.unravel sh (Real.ravel [B; L_; D] j)))
             (Real.unravel [B; L_; D] (Real.ravel sh idx)).
Proof.
  intros Hsh Hpre Hn Hh Hd HD sh B.
  pose proof (rope_fallback_dtype x dims traditional base scale offset
                forward) as Hdt.
  destruct (rope_fallback_entries x pre L_ D dims h traditional base scale
              offset forward Hsh Hn Hh Hd HD) as (y & Hy & Hys & Hyat).
  fold sh in Hys, Hyat. fold B in Hyat.
  unfold rope.
  replace (ndim x <? 3) with false.
  2:{ symmetry. apply Z.ltb_ge. unfold ndim. cbn [shape Real.Lib].
      rewrite Hsh, length_app. cbn [List.length]. lia. }
  destruct (Device_eqb (device (to_stream s)) gpu).
  - eexists. split; [reflexivity|].
    cbn [mk_array Real.Lib]. unfold Real.mk_array, Real.node_outputs.
    cbn [fallback_of]. rewrite Hy.
    cbn [nth Real.t_shape Real.t_at Real.t_dtype].
    split; [reflexivity|]. split; [reflexivity|exact Hyat].
  - rewrite Hy in Hdt |- *. cbn [first]. exists y.
    cbn [map] in Hdt. injection Hdt as Hdt. auto.
Qed.

(** C2.  For every tensor [x] of rank at least 3 and every even [dims]
    between 0 and the size of the last axis, whatever [base], [scale],
    [offset] and the layout are: [rope] with [forward = true] followed
    by [rope] with the same parameters and [forward = false] returns a
    tensor of the shape and dtype of [x] that holds the entries of [x],
    the unrotated trailing features included.  Arithmetic is exact. *)
Theorem rope_forward_then_inverse (x : Real.tensor) (dims : Z)
    (traditional : bool) (base scale : R) (offset : Z)
    (s1 s2 : StreamOrDevice) :
  3 <= ndim (L := Real.Lib ds) x ->
  Forall (fun d => 0 <= d) (Real.t_shape x) ->
  Z.even dims = true ->
  0 <= dims <= shape_at (L := Real.Lib ds) x (-1) ->
  exists y z,
    rope (L := Real.Lib ds) x dims traditional base scale offset true s1
    = Return y
    /\ rope (L := Real.Lib ds) y dims traditional base scale offset false s2
       = Return z
    /\ Real.t_shape z = Real.t_shape x
    /\ Real.t_dtype z = Real.t_dtype x
    /\ forall idx, Real.in_bounds (Real.t_shape x) idx ->
         Real.t_at z idx = Real.t_at x idx.
Proof.
  intros Hrank Hn Heven Hdims.
  unfold ndim in Hrank. cbn [shape Real.Lib] in Hrank.
  assert (Hlen : (2 <= List.length (Real.t_shape x))%nat)
    by (clear - Hrank; lia).
  destruct (last_two (Real.t_shape x) Hlen) as (pre & L_ & D & Hsh).
  assert (Hpre : (1 <= List.length pre)%nat).
  { rewrite Hsh, length_app in Hrank. cbn [List.length] in Hrank. lia. }
  assert (HD : shape_at (L := Real.Lib ds) x (-1) = D)
    by (now destruct (shape_at_last_two x pre L_ D Hsh) as (_ & _ & SD)).
  rewrite HD in Hdims.
  apply Z.even_spec in Heven. destruct Heven as [h Hh].
  assert (Hh0 : 0 <= h) by lia.
  set (sh := Real.t_shape x) in *.
  set (B := Real.prod sh / (L_ * (D * 1))).
  destruct (rope_entries x pre L_ D dims h traditional base scale offset
              true s1 Hsh Hpre Hn Hh0 Hh ltac:(lia))
    as (y & Hy & Hys & Hyd & Hyat).
  fold sh in Hys, Hyat. fold B in Hyat.
  assert (Hysh : Real.t_shape y = pre ++ [L_; D]) by (now rewrite Hys).
  assert (Hyn : Forall (fun d => 0 <= d) (Real.t_shape y))
    by (now rewrite Hys).
  destruct (rope_entries y pre L_ D dims h traditional base scale offset
              false s2 Hysh Hpre Hyn Hh0 Hh ltac:(lia))
    as (z & Hz & Hzs & Hzd & Hzat).
  rewrite Hys in Hzs, Hzat. fold B in Hzat.
  exists y, z. split; [exact Hy|]. split; [exact Hz|]. split; [exact Hzs|].
  split; [now rewrite Hzd|].
  intros idx Hi. rewrite Hzat by assumption.
  destruct (view3 x pre L_ D Hsh Hn) as (HB & HL & HD0 & HPB & _).
  fold sh in HB, HPB. fold B in HB, HPB.
  pose proof (ravel_bounds _ _ Hi) as Hr.
  pose proof (in_bounds_positive _ _ Hi) as Hpos.
  assert (Hpos3 : positive_dims [B; L_; D]).
  { apply nonneg_positive; [repeat constructor; lia|]. rewrite HPB. lia. }
  pose proof (unravel_in_bounds [B; L_; D] (Real.ravel sh idx) Hpos3) as Hj.
  pose proof (ravel_unravel [B; L_; D] (Real.ravel sh idx) Hpos3
                ltac:(rewrite HPB; exact Hr)) as Hrj.
  destruct (in_bounds3 _ _ _ _ Hj) as (b & l & d & Ej & Hb & Hl & Hdd).
  rewrite Ej in *. unfold rotated at 1. cbn [nth].
  rewrite (rotate_row_ext traditional false dims h D _ _
             (rotate_row traditional true dims h
                (fun i => rope_angles ds dims base scale offset L_ [l; i])
                (fun d' => Real.t_at x
                   (Real.unravel sh (Real.ravel [B; L_; D] [b; l; d'])))));
    [|lia|lia|lia|lia|].
  - rewrite rotate_row_inverse by lia.
    rewrite Hrj. now rewrite unravel_ravel.
  - intros d' Hd'.
    assert (Hj' : Real.in_bounds [B; L_; D] [b; l; d']) by (simpl; lia).
    pose proof (ravel_bounds _ _ Hj') as Hr'. rewrite HPB in Hr'.
    rewrite Hyat by (now apply unravel_in_bounds).
    rewrite ravel_unravel by assumption.
    rewrite unravel_ravel by assumption.
    reflexivity.
Qed.

(** *** Rows, pairs and angles *)

Section RealRows.
Import Real.

Lemma in_bounds_app_inv (pre sh idx : list Z) :
  in_bounds (pre ++ sh) idx ->
  exists ipre isuf,
    idx = ipre ++ isuf /\ in_bounds pre ipre /\ in_bounds sh isuf.
Proof.
  revert idx. induction pre as [|d pre IH]; intros idx H.
  - exists [], idx. split; [reflexivity|]. split; [exact I|exact H].
  - destruct idx as [|i idx]; [contradiction|]. destruct H as [Hi H].
    destruct (IH _ H) as (ipre & isuf & -> & Hp & Hs).
    exists (i :: ipre), isuf. split; [reflexivity|].
    split; [split; assumption|assumption].
Qed.

Lemma in_bounds_app_intro (pre sh ipre isuf : list Z) :
  in_bounds pre ipre -> in_bounds sh isuf ->
  in_bounds (pre ++ sh) (ipre ++ isuf).
Proof.
  revert ipre. induction pre as [|d pre IH]; intros [|i ipre] Hp Hs;
    simpl in Hp; try contradiction; [exact Hs|].
  destruct Hp as [Hi Hp]. split; [exact Hi|]. now apply IH.
Qed.

Lemma ravel_app (pre sh ipre isuf : list Z) :
  List.length ipre = List.length pre ->
  ravel (pre ++ sh) (ipre ++ isuf)
  = ravel pre ipre * prod sh + ravel sh isuf.
Proof.
  revert ipre. induction pre as [|d pre IH]; intros [|i ipre] Hl;
    simpl in Hl; try discriminate.
  - simpl. destruct sh, isuf; simpl; lia.
  - cbn [app ravel]. rewrite IH by lia.
    rewrite prod_app. ring.
Qed.

(** The rows of a tensor of shape [pre ++ [L; D]] and the rows of its
    3-D view [reshape(x, {-1, L, D})] are the same rows. *)
Lemma row_view (pre ipre : list Z) (L_ D l d : Z) :
  in_bounds pre ipre -> 0 <= l < L_ -> 0 <= d < D ->
  let sh := pre ++ [L_; D] in
  let B := prod sh / (L_ * (D * 1)) in
  unravel [B; L_; D] (ravel sh (ipre ++ [l; d])) = [ravel pre ipre; l; d]
  /\ forall d', 0 <= d' < D ->
       unravel sh (ravel [B; L_; D] [ravel pre ipre; l; d'])
       = ipre ++ [l; d'].
Proof.
  intros Hp Hl Hd sh B.
  assert (HB : B = prod pre).
  { subst B sh. rewrite prod_app. cbn [prod fold_right].
    apply Z.div_mul. nia. }
  pose proof (ravel_bounds _ _ Hp) as Hr.
  assert (Hrav : forall d', ravel sh (ipre ++ [l; d'])
                            = ravel [B; L_; D] [ravel pre ipre; l; d']).
  { intros d'. subst sh. rewrite ravel_app by (now apply in_bounds_length).
    cbn [ravel prod fold_right]. ring. }
  split.
  - rewrite Hrav. apply unravel_ravel. simpl. lia.
  - intros d' Hd'. rewrite <- Hrav. apply unravel_ravel.
    subst sh. apply in_bounds_app_intro; [exact Hp|]. simpl. lia.
Qed.

End RealRows.

(** The angles only matter below [h]. *)
Lemma rotate_row_theta_ext (traditional forward : bool) (dims h : Z)
    (theta theta' r : Z -> R) (d : Z) :
  0 <= h -> dims = 2 * h -> 0 <= d ->
  (forall i, 0 <= i < h -> theta i = theta' i) ->
  rotate_row traditional forward dims h theta r d
  = rotate_row traditional forward dims h theta' r d.
Proof.
  intros Hh Hd H0 Ht. unfold rotate_row.
  destruct (d <? dims) eqn:E; [apply Z.ltb_lt in E|reflexivity].
  destruct traditional.
  - cbv zeta.
    assert (0 <= d / 2 < h) by (Z.div_mod_to_equations; lia).
    now rewrite (Ht (d / 2)).
  - destruct (d <? h) eqn:E2.
    + apply Z.ltb_lt in E2. now rewrite (Ht d) by lia.
    + apply Z.ltb_ge in E2. now rewrite (Ht (d - h)) by lia.
Qed.

Lemma rotate_row_pair (traditional forward : bool) (dims h : Z)
    (theta r : Z -> R) (i : Z) :
  dims = 2 * h -> 0 <= i < h ->
  let p := rope_pair traditional h i in
  let q := rotate forward (r (fst p)) (r (snd p))
                  (Rtrigo_def.cos (theta i)) (Rtrigo_def.sin (theta i)) in
  rotate_row traditional forward dims h theta r (fst p) = fst q
  /\ rotate_row traditional forward dims h theta r (snd p) = snd q.
Proof.
  intros Hd Hi p q. subst p q. unfold rope_pair, rotate_row.
  destruct traditional; cbn [fst snd].
  - replace (2 * i <? dims) with true by lia.
    replace (2 * i + 1 <? dims) with true by lia.
    cbv zeta.
    replace (2 * i / 2) with i by (Z.div_mod_to_equations; lia).
    replace ((2 * i + 1) / 2) with i by (Z.div_mod_to_equations; lia).
    replace ((2 * i) mod 2) with 0 by (Z.div_mod_to_equations; lia).
    replace ((2 * i + 1) mod 2) with 1 by (Z.div_mod_to_equations; lia).
    split; reflexivity.
  - replace (i <? dims) with true by lia.
    replace (h + i <? dims) with true by lia.
    replace (i <? h) with true by lia.
    replace (h + i <? h) with false by lia.
    replace (h + i - h) with i by lia.
    split; reflexivity.
Qed.

(** Every rotated feature belongs to one pair. *)
Lemma rope_pair_cover (traditional : bool) (dims h d : Z) :
  dims = 2 * h -> 0 <= d < dims ->
  exists i, 0 <= i < h
    /\ (d = fst (rope_pair traditional h i)
        \/ d = snd (rope_pair traditional h i)).
Proof.
  intros Hd Hdd. unfold rope_pair. destruct traditional; cbn [fst snd].
  - exists (d / 2). split; [Z.div_mod_to_equations; lia|].
    destruct (Z.eq_dec (d mod 2) 0); [left|right];
      Z.div_mod_to_equations; lia.
  - destruct (Z_lt_dec d h).
    + exists d. split; [lia|]. now left.
    + exists (d - h). split; [lia|]. right. lia.
Qed.

Lemma rotate_undo (forward : bool) (a b t : R) :
  let p := rotate forward a b (Rtrigo_def.cos t) (Rtrigo_def.sin t) in
  rotate (negb forward) (fst p) (snd p) (Rtrigo_def.cos t) (Rtrigo_def.sin t)
  = (a, b).
Proof.
  cbv zeta. unfold rotate.
  pose proof (sin2_cos2 t) as T. unfold Rsqr in T.
  set (c := Rtrigo_def.cos t) in *. set (s := Rtrigo_def.sin t) in *.
  destruct forward; cbn [negb fst snd]; f_equal.
  - replace ((a * s + b * c) * s + (a * c - b * s) * c)%R
      with (a * (s * s + c * c))%R by ring.
    rewrite T. ring.
  - replace ((a * s + b * c) * c - (a * c - b * s) * s)%R
      with (b * (s * s + c * c))%R by ring.
    rewrite T. ring.
  - replace ((b * s + a * c) * c - (b * c - a * s) * s)%R
      with (a * (s * s + c * c))%R by ring.
    rewrite T. ring.
  - replace ((b * s + a * c) * s + (b * c - a * s) * c)%R
      with (b * (s * s + c * c))%R by ring.
    rewrite T. ring.
Qed.

Lemma rotate_norm (forward : bool) (a b t : R) :
  let p := rotate forward a b (Rtrigo_def.cos t) (Rtrigo_def.sin t) in
  (fst p * fst p + snd p * snd p = a * a + b * b)%R.
Proof.
  cbv zeta. unfold rotate.
  pose proof (sin2_cos2 t) as T. unfold Rsqr in T.
  set (c := Rtrigo_def.cos t) in *. set (s := Rtrigo_def.sin t) in *.
  destruct forward; cbn [fst snd].
  - replace ((a * c - b * s) * (a * c - b * s)
             + (a * s + b * c) * (a * s + b * c))%R
      with ((a * a + b * b) * (s * s + c * c))%R by ring.
    rewrite T. ring.
  - replace ((b * s + a * c) * (b * s + a * c)
             + (b * c - a * s) * (b * c - a * s))%R
      with ((a * a + b * b) * (s * s + c * c))%R by ring.
    rewrite T. ring.
Qed.

(** One row: the rotation in one direction undoes the rotation in the
    other. *)
Lemma rotate_row_undo (traditional forward : bool) (dims h : Z)
    (theta r : Z -> R) (d : Z) :
  0 <= h -> dims = 2 * h -> 0 <= d ->
  rotate_row traditional (negb forward) dims h theta
             (rotate_row traditional forward dims h theta r) d
  = r d.
Proof.
  intros Hh Hd H0.
  destruct (Z_lt_dec d dims) as [E|E].
  - destruct (rope_pair_cover traditional dims h d Hd ltac:(lia))
      as (i & Hi & Hp).
    destruct (rotate_row_pair traditional (negb forward) dims h theta
                (rotate_row traditional forward dims h theta r) i Hd Hi)
      as [O1 O2].
    destruct (rotate_row_pair traditional forward dims h theta r i Hd Hi)
      as [I1 I2].
    cbv zeta in O1, O2, I1, I2.
    rewrite I1, I2 in O1, O2.
    pose proof (rotate_undo forward
                  (r (fst (rope_pair traditional h i)))
                  (r (snd (rope_pair traditional h i))) (theta i)) as RU.
    cbv zeta in RU. rewrite RU in O1, O2. cbn [fst snd] in O1, O2.
    destruct Hp as [-> | ->]; assumption.
  - unfold rotate_row. replace (d <? dims) with false by lia. reflexivity.
Qed.

(** Finite sums. *)

Section Sums.
Import Real.

Lemma Rsum_fold_ext (f g : Z -> R) (l : list nat) :
  (forall k, In k l -> f (Z.of_nat k) = g (Z.of_nat k)) ->
  fold_right (fun k acc => (f (Z.of_nat k) + acc)%R) 0%R l
  = fold_right (fun k acc => (g (Z.of_nat k) + acc)%R) 0%R l.
Proof.
  induction l as [|a l IH]; intros H; [reflexivity|].
  cbn [fold_right]. rewrite (H a (or_introl eq_refl)), IH; [reflexivity|].
  intros k Hk. apply H. now right.
Qed.

Lemma Rsum_ext (n : Z) (f g : Z -> R) :
  (forall k, 0 <= k < n -> f k = g k) -> Rsum n f = Rsum n g.
Proof.
  intros H. unfold Rsum. apply Rsum_fold_ext.
  intros k Hk. apply in_seq in Hk. apply H. lia.
Qed.

Lemma Rsum_fold_shift (n : nat) :
  forall (f : Z -> R) (a : nat),
    fold_right (fun k acc => (f (Z.of_nat k) + acc)%R) 0%R (seq a n)
    = fold_right (fun k acc => (f (Z.of_nat a + Z.of_nat k)%Z + acc)%R) 0%R
                 (seq 0 n).
Proof.
  induction n as [|n IH]; intros f a; [reflexivity|].
  cbn [seq fold_right]. cbn [Z.of_nat]. rewrite Z.add_0_r. f_equal.
  rewrite (IH f (S a)).
  rewrite (IH (fun k => f (Z.of_nat a + k)%Z) 1%nat).
  apply (Rsum_fold_ext (fun k => f (Z.of_nat (S a) + k)%Z)
                       (fun k => f (Z.of_nat a + (Z.of_nat 1 + k))%Z)).
  intros k _. f_equal. lia.
Qed.

Lemma Rsum_split (n a : Z) (f : Z -> R) :
  0 <= a <= n ->
  Rsum n f = (Rsum a f + Rsum (n - a)%Z (fun k => f (a + k)%Z))%R.
Proof.
  intros H. unfold Rsum.
  replace (Z.to_nat n) with (Z.to_nat a + Z.to_nat (n - a))%nat by lia.
  rewrite seq_app, fold_right_app. cbn [Nat.add].
  rewrite Rsum_fold_shift, Z2Nat.id by lia.
  generalize (fold_right
     (fun k acc => (f (a + Z.of_nat k)%Z + acc)%R) 0%R
     (seq 0 (Z.to_nat (n - a)))).
  intros r. induction (seq 0 (Z.to_nat a)) as [|b l IH]; cbn [fold_right].
  - lra.
  - rewrite IH. lra.
Qed.

Lemma Rsum_plus (n : Z) (f g : Z -> R) :
  Rsum n (fun k => (f k + g k)%R) = (Rsum n f + Rsum n g)%R.
Proof.
  unfold Rsum. induction (seq 0 (Z.to_nat n)) as [|a l IH]; cbn [fold_right].
  - lra.
  - rewrite IH. lra.
Qed.

Lemma Rsum_scal (n : Z) (c : R) (f : Z -> R) :
  Rsum n (fun k => (c * f k)%R) = (c * Rsum n f)%R.
Proof.
  unfold Rsum. induction (seq 0 (Z.to_nat n)) as [|a l IH]; cbn [fold_right].
  - lra.
  - rewrite IH. lra.
Qed.

Lemma Rsum_const (n : Z) (c : R) :
  0 <= n -> Rsum n (fun _ => c) = (IZR n * c)%R.
Proof.
  intros Hn. unfold Rsum.
  assert (H : forall l : list nat,
    fold_right (fun _ acc => (c + acc)%R) 0%R l
    = (INR (List.length l) * c)%R).
  { induction l as [|a l IH]; [cbn; lra|].
    cbn [fold_right]. rewrite IH. cbn [List.length]. rewrite S_INR. lra. }
  rewrite H, length_seq, INR_IZR_INZ, Z2Nat.id by exact Hn. reflexivity.
Qed.

Lemma Rsum_succ (n : Z) (f : Z -> R) :
  0 <= n -> Rsum (n + 1) f = (Rsum n f + f n)%R.
Proof.
  intros Hn. rewrite (Rsum_split (n + 1) n) by lia.
  replace (n + 1 - n) with 1 by lia. f_equal.
  unfold Rsum. change (Z.to_nat 1) with 1%nat.
  cbn [seq fold_right Z.of_nat]. rewrite Z.add_0_r. lra.
Qed.

Lemma Rsum_pairs (n : Z) (f : Z -> R) :
  0 <= n ->
  Rsum (2 * n) f = Rsum n (fun i => (f (2 * i)%Z + f (2 * i + 1)%Z)%R).
Proof.
  intros Hn. pattern n. apply natlike_ind; [reflexivity| |exact Hn].
  intros m Hm IH.
  replace (2 * Z.succ m) with (2 * m + 1 + 1) by lia.
  rewrite !Rsum_succ by lia. rewrite IH.
  replace (Z.succ m) with (m + 1) by lia. rewrite Rsum_succ by lia. lra.
Qed.

End Sums.

(** The sum over the rotated features of a row, pair by pair. *)
Lemma Rsum_rope_pairs (traditional : bool) (h : Z) (F : Z -> R) :
  0 <= h ->
  Real.Rsum (2 * h) F
  = Real.Rsum h (fun i => (F (fst (rope_pair traditional h i))
                           + F (snd (rope_pair traditional h i)))%R).
Proof.
  intros Hh. unfold rope_pair. destruct traditional; cbn [fst snd].
  - now apply Rsum_pairs.
  - rewrite (Rsum_split (2 * h) h) by lia.
    replace (2 * h - h) with h by lia. now rewrite Rsum_plus.
Qed.

(** The product of two rotated pairs depends on the two angles through
    their difference only. *)
Lemma rotate_dot (forward : bool) (a b a' b' t t' : R) :
  let p := rotate forward a b (Rtrigo_def.cos t) (Rtrigo_def.sin t) in
  let p' := rotate forward a' b' (Rtrigo_def.cos t') (Rtrigo_def.sin t') in
  let dt := if forward then (t - t')%R else (t' - t)%R in
  (fst p * fst p' + snd p * snd p'
   = (a * a' + b * b') * Rtrigo_def.cos dt
     + (a * b' - b * a') * Rtrigo_def.sin dt)%R.
Proof.
  cbv zeta. unfold rotate. destruct forward; cbn [fst snd];
    rewrite cos_minus, sin_minus; ring.
Qed.

(** The angle table: position [offset + l], scaled, times the frequency
    [base ^ (- i / h)] of the pair [i]. *)
Lemma rope_angles_at (dims h : Z) (base scale : R) (offset L_ l i : Z) :
  dims = 2 * h -> 0 <= l < L_ -> 0 <= i < h ->
  rope_angles ds dims base scale offset L_ [l; i]
  = (IZR (offset + l) * scale
     * Rtrigo_def.exp (- IZR i * (ln base / IZR h)))%R.
Proof.
  intros Hd Hl Hi. unfold rope_angles, rope_theta.
  assert (Hq : idiv dims 2 = h).
  { unfold idiv. subst dims. rewrite Z.mul_comm. apply Z.quot_mul. lia. }
  rewrite Hq.
  replace (shape_at (L := Real.Lib ds)
             {| Real.t_shape := [0; L_; 0]; Real.t_dtype := float32;
                Real.t_at := fun _ => 0%R |} 1) with L_ by reflexivity.
  cbn -[Z.div Z.max Z.add Z.sub Z.mul IZR Rtrigo_def.exp ln].
  replace (Z.max 0 ((L_ + offset - offset + 1 - 1) / 1)) with L_
    by (rewrite Z.div_1_r; lia).
  replace (Z.max 0 ((h - 0 + 1 - 1) / 1)) with h
    by (rewrite Z.div_1_r; lia).
  rewrite Pos2Nat.inj_1.
  cbn -[Z.div Z.max Z.add Z.sub Z.mul IZR Rtrigo_def.exp ln].
  destruct (L_ =? 1) eqn:EL; destruct (h =? 1) eqn:Eh;
    cbn -[Z.div Z.max Z.add Z.sub Z.mul IZR Rtrigo_def.exp ln];
    rewrite ?Z.eqb_eq in *;
    repeat match goal with
           | |- context [IZR (?a + ?b * 1)] =>
               replace (a + b * 1) with (a + b) by lia
           end.
  all: try (replace l with 0 by lia); try (replace i with 0 by lia).
  all: rewrite ?Z.add_0_r; try reflexivity.
Qed.


(** The entries of [rope], row by row of the input itself. *)
Lemma rope_at (x : Real.tensor) (pre : list Z) (L_ D dims h : Z)
    (traditional : bool) (base scale : R) (offset : Z) (forward : bool)
    (s : StreamOrDevice) :
  Real.t_shape x = pre ++ [L_; D] ->
  (1 <= List.length pre)%nat ->
  Forall (fun d => 0 <= d) (Real.t_shape x) ->
  0 <= h -> dims = 2 * h -> dims <= D ->
  exists y,
    rope (L := Real.Lib ds) x dims traditional base scale offset forward s
    = Return y
    /\ Real.t_shape y = Real.t_shape x
    /\ Real.t_dtype y = Real.t_dtype x
    /\ forall ipre l d,
         Real.in_bounds pre ipre -> 0 <= l < L_ -> 0 <= d < D ->
         Real.t_at y (ipre ++ [l; d])
         = rotate_row traditional forward dims h
             (fun i => rope_angles ds dims base scale offset L_ [l; i])
             (fun d' => Real.t_at x (ipre ++ [l; d'])) d.
Proof.
  intros Hsh Hpre Hn Hh Hd HD.
  destruct (rope_entries x pre L_ D dims h traditional base scale offset
              forward s Hsh Hpre Hn Hh Hd HD) as (y & Hy & Hys & Hyd & Hyat).
  exists y. split; [exact Hy|]. split; [exact Hys|]. split; [exact Hyd|].
  intros ipre l d Hp Hl Hdd.
  destruct (row_view pre ipre L_ D l d Hp Hl Hdd) as [V1 V2].
  cbv zeta in V1, V2. rewrite <- Hsh in V1, V2.
  rewrite Hyat.
  2:{ rewrite Hsh. apply in_bounds_app_intro; [exact Hp|]. simpl. lia. }
  rewrite V1. unfold rotated. cbn [nth].
  apply (rotate_row_ext traditional forward dims h D); try assumption.
  intros d' Hd'. now rewrite V2.
Qed.

(** What [rope] computes, in closed form.  On a tensor of shape
    [pre ++ [L; D]] with [dims = 2 * h <= D], the row at position [l] of
    every leading index is the row of the input with each of its [h]
    pairs rotated by the angle
    [(offset + l) * scale * exp(- i * ln(base) / h)], and with the
    features from [dims] on unchanged; on a GPU stream and off it. *)
Theorem rope_rows (x : Real.tensor) (pre : list Z) (L_ D dims h : Z)
    (traditional : bool) (base scale : R) (offset : Z) (forward : bool)
    (s : StreamOrDevice) :
  Real.t_shape x = pre ++ [L_; D] ->
  (1 <= List.length pre)%nat ->
  Forall (fun d => 0 <= d) (Real.t_shape x) ->
  0 <= h -> dims = 2 * h -> dims <= D ->
  exists y,
    rope (L := Real.Lib ds) x dims traditional base scale offset forward s
    = Return y
    /\ Real.t_shape y = Real.t_shape x
    /\ Real.t_dtype y = Real.t_dtype x
    /\ forall ipre l d,
         Real.in_bounds pre ipre -> 0 <= l < L_ -> 0 <= d < D ->
         Real.t_at y (ipre ++ [l; d])
         = rotate_row traditional forward dims h
             (rope_angle base scale offset h l)
             (fun d' => Real.t_at x (ipre ++ [l; d'])) d.
Proof.
  intros Hsh Hpre Hn Hh Hd HD.
  destruct (rope_at x pre L_ D dims h traditional base scale offset forward s
              Hsh Hpre Hn Hh Hd HD) as (y & Hy & Hys & Hyd & Hyat).
  exists y. split; [exact Hy|]. split; [exact Hys|]. split; [exact Hyd|].
  intros ipre l d Hp Hl Hdd. rewrite (Hyat ipre l d Hp Hl Hdd).
  apply rotate_row_theta_ext; [assumption|assumption|lia|].
  intros i Hi. unfold rope_angle. now apply rope_angles_at.
Qed.

(** [rope] is a rotation: every pair of features it rotates keeps its
    norm, and the features from [dims] on are passed through. *)
Theorem rope_keeps_norms (x : Real.tensor) (pre : list Z) (L_ D dims h : Z)
    (traditional : bool) (base scale : R) (offset : Z) (forward : bool)
    (s : StreamOrDevice) :
  Real.t_shape x = pre ++ [L_; D] ->
  (1 <= List.length pre)%nat ->
  Forall (fun d => 0 <= d) (Real.t_shape x) ->
  0 <= h -> dims = 2 * h -> dims <= D ->
  exists y,
    rope (L := Real.Lib ds) x dims traditional base scale offset forward s
    = Return y
    /\ forall ipre l,
         Real.in_bounds pre ipre -> 0 <= l < L_ ->
         (forall i, 0 <= i < h ->
            let d1 := fst (rope_pair traditional h i) in
            let d2 := snd (rope_pair traditional h i) in
            (Real.t_at y (ipre ++ [l; d1]) * Real.t_at y (ipre ++ [l; d1])
             + Real.t_at y (ipre ++ [l; d2]) * Real.t_at y (ipre ++ [l; d2])
             = Real.t_at x (ipre ++ [l; d1]) * Real.t_at x (ipre ++ [l; d1])
               + Real.t_at x (ipre ++ [l; d2]) * Real.t_at x (ipre ++ [l; d2])
            )%R)
         /\ (forall d, dims <= d < D ->
               Real.t_at y (ipre ++ [l; d]) = Real.t_at x (ipre ++ [l; d])).
Proof.
  intros Hsh Hpre Hn Hh Hd HD.
  destruct (rope_at x pre L_ D dims h traditional base scale offset forward s
              Hsh Hpre Hn Hh Hd HD) as (y & Hy & Hys & Hyd & Hyat).
  exists y. split; [exact Hy|].
  intros ipre l Hp Hl. split.
  - intros i Hi d1 d2.
    assert (H1 : 0 <= d1 < D /\ 0 <= d2 < D).
    { subst d1 d2. unfold rope_pair. destruct traditional; cbn [fst snd]; lia. }
    rewrite (Hyat ipre l d1 Hp Hl (proj1 H1)).
    rewrite (Hyat ipre l d2 Hp Hl (proj2 H1)).
    destruct (rotate_row_pair traditional forward dims h
                (fun i0 => rope_angles ds dims base scale offset L_ [l; i0])
                (fun d' => Real.t_at x (ipre ++ [l; d'])) i Hd Hi) as [R1 R2].
    cbv zeta in R1, R2. fold d1 d2 in R1, R2. rewrite R1, R2.
    apply rotate_norm.
  - intros d Hdd. rewrite (Hyat ipre l d Hp Hl ltac:(lia)).
    unfold rotate_row. now replace (d <? dims) with false by lia.
Qed.

(** The reason for [rope]: the dot product of a rotated query row at
    position [m] and a rotated key row at position [n] depends on the
    positions through the distance [m - n] only ([offset] has gone).
    Pair by pair it is the dot product of the two pairs turned by the
    angle of the distance (and of the pair's frequency), and the
    features from [dims] on contribute their plain product. *)
Theorem rope_scores_depend_on_distance (q k : Real.tensor)
    (preq prek : list Z) (Lq Lk D dims h : Z) (traditional : bool)
    (base scale : R) (offset : Z) (forward : bool) (s1 s2 : StreamOrDevice) :
  Real.t_shape q = preq ++ [Lq; D] -> (1 <= List.length preq)%nat ->
  Real.t_shape k = prek ++ [Lk; D] -> (1 <= List.length prek)%nat ->
  Forall (fun d => 0 <= d) (Real.t_shape q) ->
  Forall (fun d => 0 <= d) (Real.t_shape k) ->
  0 <= h -> dims = 2 * h -> dims <= D ->
  exists yq yk,
    rope (L := Real.Lib ds) q dims traditional base scale offset forward s1
    = Return yq
    /\ rope (L := Real.Lib ds) k dims traditional base scale offset forward s2
       = Return yk
    /\ forall iq ik m n,
         Real.in_bounds preq iq -> Real.in_bounds prek ik ->
         0 <= m < Lq -> 0 <= n < Lk ->
         Real.Rsum D (fun d => (Real.t_at yq (iq ++ [m; d])
                                * Real.t_at yk (ik ++ [n; d]))%R)
         = (Real.Rsum h (fun i =>
              let d1 := fst (rope_pair traditional h i) in
              let d2 := snd (rope_pair traditional h i) in
              let q1 := Real.t_at q (iq ++ [m; d1]) in
              let q2 := Real.t_at q (iq ++ [m; d2]) in
              let k1 := Real.t_at k (ik ++ [n; d1]) in
              let k2 := Real.t_at k (ik ++ [n; d2]) in
              let dist := (if forward then m - n else n - m)%Z in
              let dt := rope_angle base scale 0 h dist i in
              (q1 * k1 + q2 * k2) * Rtrigo_def.cos dt
              + (q1 * k2 - q2 * k1) * Rtrigo_def.sin dt)
            + Real.Rsum (D - dims)%Z (fun d =>
                Real.t_at q (iq ++ [m; (dims + d)%Z])
                * Real.t_at k (ik ++ [n; (dims + d)%Z])))%R.
Proof.
  intros Hq Hpq Hk Hpk Hnq Hnk Hh Hd HD.
  destruct (rope_at q preq Lq D dims h traditional base scale offset
              forward s1 Hq Hpq Hnq Hh Hd HD) as (yq & Hyq & _ & _ & Aq).
  destruct (rope_at k prek Lk D dims h traditional base scale offset
              forward s2 Hk Hpk Hnk Hh Hd HD) as (yk & Hyk & _ & _ & Ak).
  exists yq, yk. split; [exact Hyq|]. split; [exact Hyk|].
  intros iq ik m n Hiq Hik Hm Hn.
  rewrite (Rsum_split D dims) by lia. f_equal.
  - subst dims. rewrite (Rsum_rope_pairs traditional h) by lia.
    apply Rsum_ext. intros i Hi. cbv zeta.
    assert (H1 : 0 <= fst (rope_pair traditional h i) < D
                 /\ 0 <= snd (rope_pair traditional h i) < D).
    { unfold rope_pair. destruct traditional; cbn [fst snd]; lia. }
    destruct H1 as [H1 H2].
    rewrite (Aq iq m _ Hiq Hm H1), (Aq iq m _ Hiq Hm H2).
    rewrite (Ak ik n _ Hik Hn H1), (Ak ik n _ Hik Hn H2).
    destruct (rotate_row_pair traditional forward (2 * h) h
                (fun i0 => rope_angles ds (2 * h) base scale offset Lq [m; i0])
                (fun d' => Real.t_at q (iq ++ [m; d'])) i eq_refl Hi)
      as [Q1 Q2].
    destruct (rotate_row_pair traditional forward (2 * h) h
                (fun i0 => rope_angles ds (2 * h) base scale offset Lk [n; i0])
                (fun d' => Real.t_at k (ik ++ [n; d'])) i eq_refl Hi)
      as [K1 K2].
    cbv zeta in Q1, Q2, K1, K2. rewrite Q1, Q2, K1, K2.
    rewrite rotate_dot. cbv zeta.
    rewrite !(rope_angles_at (2 * h) h) by (try reflexivity; lia).
    unfold rope_angle.
    assert (Hang : forall a b : Z,
      (IZR (offset + a)%Z * scale
         * Rtrigo_def.exp (- IZR i * (ln base / IZR h))
       - IZR (offset + b)%Z * scale
         * Rtrigo_def.exp (- IZR i * (ln base / IZR h))
       = IZR (0 + (a - b))%Z * scale
         * Rtrigo_def.exp (- IZR i * (ln base / IZR h)))%R).
    { intros a b. rewrite !plus_IZR, minus_IZR. ring. }
    destruct forward; rewrite Hang; reflexivity.
  - apply Rsum_ext. intros d Hdd.
    rewrite (Aq iq m _ Hiq Hm) by lia. rewrite (Ak ik n _ Hik Hn) by lia.
    unfold rotate_row. now replace (dims + d <? dims) with false by lia.
Qed.

(** [RoPE::vjp] undoes [rope]: the node it builds on the output of
    [rope] holds the input of [rope] again, for either direction of the
    rotation (the rotation is orthogonal, so its transpose is its
    inverse).  In particular [rope] with [forward = true] also undoes
    [rope] with [forward = false]. *)
Theorem RoPE_vjp_undoes_rope (x : Real.tensor) (dims : Z)
    (traditional : bool) (base scale : R) (offset : Z) (forward : bool)
    (s1 : StreamOrDevice) (node_stream : Stream)
    (primals : list Real.tensor) (argnums : list Z)
    (outputs : list Real.tensor) :
  3 <= ndim (L := Real.Lib ds) x ->
  Forall (fun d => 0 <= d) (Real.t_shape x) ->
  Z.even dims = true ->
  0 <= dims <= shape_at (L := Real.Lib ds) x (-1) ->
  exists y z,
    rope (L := Real.Lib ds) x dims traditional base scale offset forward s1
    = Return y
    /\ RoPE_vjp (L := Real.Lib ds) node_stream dims traditional base scale
         offset forward primals [y] argnums outputs = Return [z]
    /\ Real.t_shape z = Real.t_shape x
    /\ Real.t_dtype z = Real.t_dtype x
    /\ forall idx, Real.in_bounds (Real.t_shape x) idx ->
         Real.t_at z idx = Real.t_at x idx.
Proof.
  intros Hrank Hn Heven Hdims.
  unfold ndim in Hrank. cbn [shape Real.Lib] in Hrank.
  assert (Hlen : (2 <= List.length (Real.t_shape x))%nat)
    by (clear - Hrank; lia).
  destruct (last_two (Real.t_shape x) Hlen) as (pre & L_ & D & Hsh).
  assert (Hpre : (1 <= List.length pre)%nat).
  { rewrite Hsh, length_app in Hrank. cbn [List.length] in Hrank. lia. }
  assert (HD : shape_at (L := Real.Lib ds) x (-1) = D)
    by (now destruct (shape_at_last_two x pre L_ D Hsh) as (_ & _ & SD)).
  rewrite HD in Hdims.
  apply Z.even_spec in Heven. destruct Heven as [h Hh].
  assert (Hh0 : 0 <= h) by lia.
  destruct (rope_at x pre L_ D dims h traditional base scale offset
              forward s1 Hsh Hpre Hn Hh0 Hh ltac:(lia))
    as (y & Hy & Hys & Hyd & Hyat).
  assert (Hysh : Real.t_shape y = pre ++ [L_; D]) by (now rewrite Hys).
  assert (Hyn : Forall (fun d => 0 <= d) (Real.t_shape y))
    by (now rewrite Hys).
  destruct (rope_at y pre L_ D dims h traditional base scale offset
              (negb forward) (on_stream node_stream) Hysh Hpre Hyn Hh0 Hh
              ltac:(lia))
    as (z & Hz & Hzs & Hzd & Hzat).
  exists y. eexists. split; [exact Hy|].
  split; [unfold RoPE_vjp; reflexivity|].
  cbn [mk_array Real.Lib]. unfold Real.mk_array, Real.node_outputs.
  cbn [fallback_of]. unfold RoPE_vjp_fallback. rewrite Hz.
  cbn [nth Real.t_shape Real.t_dtype Real.t_at shape dtype Real.Lib].
  split; [exact Hys|]. split; [exact Hyd|].
  intros idx Hi. rewrite Hsh in Hi.
  destruct (in_bounds_app_inv _ _ _ Hi) as (ipre & isuf & -> & Hp & Hs).
  destruct isuf as [|l [|d [|e isuf]]]; simpl in Hs; try tauto.
  destruct Hs as (Hl & Hdd & _).
  rewrite (Hzat ipre l d Hp Hl Hdd).
  rewrite (rotate_row_ext traditional (negb forward) dims h D _ _
             (rotate_row traditional forward dims h
                (fun i => rope_angles ds dims base scale offset L_ [l; i])
                (fun d' => Real.t_at x (ipre ++ [l; d']))));
    [|lia|lia|lia|lia|].
  - apply rotate_row_undo; lia.
  - intros d' Hd'. now apply Hyat.
Qed.
End RopeOnReals.

(** ** layer_norm and rms_norm over exact reals

    Reductions along the last axis, and broadcasting against their
    results. *)

Section LastAxis.
Import Real.

Lemma in_bounds_snoc (pre : list Z) (D : Z) (idx : list Z) :
  in_bounds (pre ++ [D]) idx ->
  exists ipre d, idx = ipre ++ [d] /\ in_bounds pre ipre /\ 0 <= d < D.
Proof.
  intros H.
  destruct (in_bounds_app_inv _ _ _ H) as (ipre & isuf & -> & Hp & Hs).
  destruct isuf as [|d [|e isuf]]; simpl in Hs; try tauto.
  exists ipre, d. tauto.
Qed.

Lemma in_bounds_snoc_intro (pre ipre : list Z) (D d : Z) :
  in_bounds pre ipre -> 0 <= d < D -> in_bounds (pre ++ [D]) (ipre ++ [d]).
Proof.
  intros Hp Hd. apply in_bounds_app_intro; [exact Hp|]. simpl. tauto.
Qed.

Lemma set_nth_snoc {A} (pre : list A) (n : nat) (v d : A) :
  n = List.length pre -> set_nth n v (pre ++ [d]) = pre ++ [v].
Proof.
  intros ->. induction pre as [|a pre IH]; [reflexivity|].
  cbn [List.length app set_nth]. now rewrite IH.
Qed.

Lemma norm_axis_last (pre : list Z) (D : Z) :
  norm_axis (rank (pre ++ [D])) (-1) = List.length pre.
Proof.
  unfold norm_axis, rank. rewrite length_app.
  cbn [List.length Z.ltb Z.compare]. lia.
Qed.

Lemma bshape_rev_same (l : list Z) : bshape_rev l l = l.
Proof.
  induction l as [|x l IH]; [reflexivity|]. cbn [bshape_rev].
  rewrite IH. now destruct (x =? 1) eqn:E.
Qed.

(** Broadcasting against an operand reduced along the last axis. *)
Lemma bshape_keepdims (pre : list Z) (D : Z) :
  bshape (pre ++ [D]) (pre ++ [1]) = pre ++ [D].
Proof.
  unfold bshape. rewrite !rev_app_distr. cbn [rev app bshape_rev].
  rewrite bshape_rev_same.
  replace (if D =? 1 then 1 else D) with D
    by (destruct (D =? 1) eqn:E; [apply Z.eqb_eq in E; lia|reflexivity]).
  cbn [rev]. now rewrite rev_involutive.
Qed.

Lemma bidx_aligned_snoc (pre ipre : list Z) (d : Z) :
  in_bounds pre ipre ->
  bidx_aligned (pre ++ [1]) (ipre ++ [d]) = ipre ++ [0].
Proof.
  revert ipre. induction pre as [|p pre IH]; intros [|i ipre] H;
    simpl in H; try contradiction; [reflexivity|].
  destruct H as [Hi H]. cbn [app bidx_aligned]. rewrite IH by assumption.
  destruct (p =? 1) eqn:E; [|reflexivity].
  apply Z.eqb_eq in E. f_equal. lia.
Qed.

Lemma bidx_keepdims (pre ipre : list Z) (d : Z) :
  in_bounds pre ipre -> bidx (pre ++ [1]) (ipre ++ [d]) = ipre ++ [0].
Proof.
  intros H. unfold bidx. rewrite !length_app, (in_bounds_length _ _ H).
  rewrite Nat.sub_diag. cbn [skipn]. now apply bidx_aligned_snoc.
Qed.

(** [fa] and [fb] are read at [ipre ++ [d]] and at [ipre ++ [0]]. *)
Lemma denotes_binary_keepdims (g : R -> R -> R) (a b : tensor)
    (pre : list Z) (D : Z) fa fb :
  denotes a (pre ++ [D]) fa -> denotes b (pre ++ [1]) fb ->
  denotes (binary g a b) (pre ++ [D])
          (fun idx => g (fa idx) (fb (removelast idx ++ [0]))).
Proof.
  intros [Hsa Hfa] [Hsb Hfb]. split.
  - cbn. rewrite Hsa, Hsb. apply bshape_keepdims.
  - intros idx Hi. cbn. rewrite Hsa, Hsb.
    rewrite (bidx_same _ _ Hi).
    destruct (in_bounds_snoc _ _ _ Hi) as (ipre & d & -> & Hp & Hd).
    rewrite (bidx_keepdims _ _ _ Hp), removelast_last.
    rewrite Hfa by assumption.
    rewrite Hfb by (apply in_bounds_snoc_intro; [assumption|lia]).
    reflexivity.
Qed.

Lemma bshape_rev_prefix (l m : list Z) : bshape_rev l (l ++ m) = l ++ m.
Proof.
  induction l as [|x l IH]; [reflexivity|]. cbn [app bshape_rev].
  rewrite IH. now destruct (x =? 1) eqn:E.
Qed.

Lemma bshape_prefix (pre sh : list Z) : bshape sh (pre ++ sh) = pre ++ sh.
Proof.
  unfold bshape. rewrite rev_app_distr, bshape_rev_prefix.
  now rewrite <- rev_app_distr, rev_involutive.
Qed.

(** The smaller operand first. *)
Lemma denotes_binary_prefix (g : R -> R -> R) (a b : tensor) pre sh fa fb :
  denotes a sh fa -> denotes b (pre ++ sh) fb ->
  denotes (binary g a b) (pre ++ sh)
          (fun idx => g (fa (skipn (List.length pre) idx)) (fb idx)).
Proof.
  intros [Hsa Hfa] [Hsb Hfb]. split.
  - cbn. rewrite Hsa, Hsb. apply bshape_prefix.
  - intros idx Hi. cbn. rewrite Hsa, Hsb.
    rewrite (bidx_same _ _ Hi), (bidx_suffix _ _ _ Hi).
    rewrite Hfb by assumption. rewrite Hfa by (now apply in_bounds_app).
    reflexivity.
Qed.

(** A 0-dimensional operand second. *)
Lemma denotes_binary_scalar (g : R -> R -> R) (a b : tensor) sh fa (v : R) :
  denotes a sh fa -> t_shape b = [] -> t_at b [] = v ->
  denotes (binary g a b) sh (fun idx => g (fa idx) v).
Proof.
  intros Ha Hsb Hvb.
  assert (Hb : denotes b [] (fun _ => v)).
  { split; [exact Hsb|]. intros [|i idx] Hi; [exact Hvb|contradiction]. }
  rewrite <- (app_nil_r sh) in Ha |- *.
  apply (denotes_binary_suffix g a b sh [] fa (fun _ => v) Ha Hb).
Qed.

Lemma denotes_astype (a : tensor) (t : Dtype) sh f :
  denotes a sh f -> denotes (astype a t) sh f.
Proof. intros H. exact H. Qed.

(** [sum(a, -1, keepdims = true)] and [mean(a, -1, keepdims = true)]. *)
Lemma denotes_sum_last (a : tensor) (pre : list Z) (D : Z) f :
  denotes a (pre ++ [D]) f ->
  denotes (sum a [-1] true) (pre ++ [1])
          (fun idx => Rsum D (fun k => f (removelast idx ++ [k]))).
Proof.
  intros [Hs Hf]. unfold sum, reduce, norm_axes. cbn [map fold_left].
  rewrite Hs, norm_axis_last. unfold reduce_axis. split.
  - cbn [t_shape]. rewrite Hs. now apply set_nth_snoc.
  - intros idx Hi. cbn [t_at]. rewrite Hs.
    rewrite nth_middle.
    destruct (in_bounds_snoc _ _ _ Hi) as (ipre & d & -> & Hp & Hd).
    rewrite removelast_last.
    apply Rsum_ext. intros k Hk.
    rewrite set_nth_snoc by (symmetry; now apply in_bounds_length).
    apply Hf. now apply in_bounds_snoc_intro.
Qed.

Lemma count_last (a : tensor) (pre : list Z) (D : Z) :
  t_shape a = pre ++ [D] -> count a [-1] = D.
Proof.
  intros Hs. unfold count, norm_axes. cbn [map]. rewrite Hs, norm_axis_last.
  rewrite nth_middle. cbn [prod fold_right]. lia.
Qed.

Lemma denotes_mean_last (a : tensor) (pre : list Z) (D : Z) f :
  denotes a (pre ++ [D]) f ->
  denotes (mean a [-1] true) (pre ++ [1])
          (fun idx => row_mean D (fun k => f (removelast idx ++ [k]))).
Proof.
  intros Ha. unfold mean. rewrite (count_last a pre D (proj1 Ha)).
  apply (denotes_unary (fun x => (x / IZR D)%R) _ _ _
           (denotes_sum_last a pre D f Ha)).
Qed.

End LastAxis.

Section NormsOnReals.
Variable ds : Stream.

Lemma ndim_snoc (x : Real.tensor) (pre : list Z) (D : Z) :
  Real.t_shape x = pre ++ [D] ->
  ndim (L := Real.Lib ds) x = Z.of_nat (List.length pre) + 1.
Proof.
  intros H. unfold ndim. cbn [shape Real.Lib]. rewrite H, length_app.
  cbn [List.length]. lia.
Qed.

Lemma ndim_1 (w : Real.tensor) (D : Z) :
  Real.t_shape w = [D] -> ndim (L := Real.Lib ds) w = 1.
Proof. intros H. unfold ndim. cbn [shape Real.Lib]. now rewrite H. Qed.

Lemma skipn_snoc (pre ipre : list Z) (d : Z) :
  Real.in_bounds pre ipre -> skipn (List.length pre) (ipre ++ [d]) = [d].
Proof.
  intros H. rewrite <- (in_bounds_length _ _ H), skipn_app, skipn_all.
  now rewrite Nat.sub_diag.
Qed.

(** The fallback of [layer_norm], row by row. *)
Lemma layer_norm_fallback_rows (hw hb : bool) (eps : R) (out_type : Dtype)
    (x0 w b : Real.tensor) (pre : list Z) (D : Z) :
  Real.t_shape x0 = pre ++ [D] ->
  (hw = true -> Real.t_shape w = [D]) ->
  (hb = true -> Real.t_shape b = [D]) ->
  exists y,
    layer_norm_fallback (L := Real.Lib ds) hw hb eps out_type [x0; w; b] = [y]
    /\ Real.t_shape y = pre ++ [D]
    /\ (Real.t_dtype w = out_type -> Real.t_dtype b = out_type ->
        Real.t_dtype y = out_type)
    /\ forall ipre d, Real.in_bounds pre ipre -> 0 <= d < D ->
         Real.t_at y (ipre ++ [d])
         = layer_norm_row eps D
             (if hw then Some (fun k => Real.t_at w [k]) else None)
             (if hb then Some (fun k => Real.t_at b [k]) else None)
             (fun k => Real.t_at x0 (ipre ++ [k])) d.
Proof.
  intros Hx Hw Hb.
  unfold layer_norm_fallback.
  cbn [astype mean square subtract add multiply rsqrt array_of Real.Lib].
  set (x := Real.astype x0 float32).
  assert (Dx : denotes x (pre ++ [D]) (Real.t_at x0))
    by (split; [exact Hx|reflexivity]).
  pose proof (denotes_mean_last x pre D _ Dx) as Dmu.
  set (mu := Real.mean x [-1] true) in *.
  pose proof (denotes_unary (fun v => (v * v)%R) mu _ _ Dmu) as Dmu2.
  pose proof (denotes_unary (fun v => (v * v)%R) x _ _ Dx) as Dsq.
  pose proof (denotes_mean_last _ pre D _ Dsq) as Dx2.
  pose proof (denotes_binary Rminus _ _ _ _ _ Dx2 Dmu2) as Dv.
  pose proof (denotes_binary_scalar Rplus _ (Real.array_of eps float32) _ _
                eps Dv eq_refl eq_refl) as Dve.
  pose proof (denotes_unary (fun v => (/ R_sqrt.sqrt v)%R) _ _ _ Dve) as Drs.
  pose proof (denotes_binary_keepdims Rminus x mu pre D _ _ Dx Dmu) as Dxc.
  pose proof (denotes_binary_keepdims Rmult _ _ pre D _ _ Dxc Drs) as Dn.
  match goal with |- context [Real.astype ?n out_type] =>
    set (n' := Real.astype n out_type) in *
  end.
  assert (Dn' : denotes n' (pre ++ [D])
    (fun idx =>
       ((Real.t_at x0 idx
         - row_mean D (fun k =>
             Real.t_at x0 (removelast (removelast idx ++ [0%Z]) ++ [k])))
        * / R_sqrt.sqrt
              (row_mean D (fun k =>
                 Real.t_at x0 (removelast (removelast idx ++ [0%Z]) ++ [k])
                 * Real.t_at x0 (removelast (removelast idx ++ [0%Z]) ++ [k]))
               - row_mean D (fun k =>
                   Real.t_at x0 (removelast (removelast idx ++ [0%Z]) ++ [k]))
                 * row_mean D (fun k =>
                     Real.t_at x0 (removelast (removelast idx ++ [0%Z]) ++ [k]))
               + eps))%R)) by exact Dn.
  assert (Hrow : forall ipre d, Real.in_bounds pre ipre -> 0 <= d < D ->
    Real.t_at n' (ipre ++ [d])
    = layer_norm_row eps D None None
        (fun k => Real.t_at x0 (ipre ++ [k])) d).
  { intros ipre d Hp Hd.
    rewrite (proj2 Dn') by (now apply in_bounds_snoc_intro).
    rewrite !removelast_last. reflexivity. }
  assert (Tn : Real.t_dtype n' = out_type) by reflexivity.
  destruct hw, hb.
  - specialize (Hw eq_refl). specialize (Hb eq_refl).
    assert (Dw : denotes w [D] (Real.t_at w)) by (split; auto).
    assert (Db : denotes b [D] (Real.t_at b)) by (split; auto).
    pose proof (denotes_binary_suffix Rmult n' w pre [D] _ _ Dn' Dw) as D1.
    pose proof (denotes_binary_suffix Rplus _ b pre [D] _ _ D1 Db) as D2.
    eexists. split; [reflexivity|]. split; [exact (proj1 D2)|]. split.
    + intros Tw Tb. cbn. rewrite Tw, Tb. now rewrite !promote_types_same.
    + intros ipre d Hp Hd.
      rewrite (proj2 D2) by (now apply in_bounds_snoc_intro).
      rewrite (skipn_snoc pre ipre d Hp).
      rewrite <- (proj2 Dn') by (now apply in_bounds_snoc_intro).
      rewrite Hrow by assumption. reflexivity.
  - specialize (Hw eq_refl).
    assert (Dw : denotes w [D] (Real.t_at w)) by (split; auto).
    pose proof (denotes_binary_suffix Rmult n' w pre [D] _ _ Dn' Dw) as D1.
    eexists. split; [reflexivity|]. split; [exact (proj1 D1)|]. split.
    + intros Tw Tb. cbn. rewrite Tw. now rewrite !promote_types_same.
    + intros ipre d Hp Hd.
      rewrite (proj2 D1) by (now apply in_bounds_snoc_intro).
      rewrite (skipn_snoc pre ipre d Hp).
      rewrite <- (proj2 Dn') by (now apply in_bounds_snoc_intro).
      rewrite Hrow by assumption. reflexivity.
  - specialize (Hb eq_refl).
    assert (Db : denotes b [D] (Real.t_at b)) by (split; auto).
    pose proof (denotes_binary_suffix Rplus n' b pre [D] _ _ Dn' Db) as D1.
    eexists. split; [reflexivity|]. split; [exact (proj1 D1)|]. split.
    + intros Tw Tb. cbn. rewrite Tb. now rewrite !promote_types_same.
    + intros ipre d Hp Hd.
      rewrite (proj2 D1) by (now apply in_bounds_snoc_intro).
      rewrite (skipn_snoc pre ipre d Hp).
      rewrite <- (proj2 Dn') by (now apply in_bounds_snoc_intro).
      rewrite Hrow by assumption. reflexivity.
  - eexists. split; [reflexivity|]. split; [exact (proj1 Dn')|].
    split; [intros _ _; exact Tn|exact Hrow].
Qed.

(** [layer_norm] on a GPU stream and off it: the entries are those of
    the fallback on the inputs as given. *)
Lemma layer_norm_at (x : Real.tensor) (weight bias : option Real.tensor)
    (eps : R) (s_ : StreamOrDevice) (pre : list Z) (D : Z) :
  Real.t_shape x = pre ++ [D] ->
  (forall w, weight = Some w -> Real.t_shape w = [D]) ->
  (forall b, bias = Some b -> Real.t_shape b = [D]) ->
  @issubdtype _ (Real.Lib ds)
    (layer_norm_out_type (L := Real.Lib ds) x weight bias) floating = true ->
  exists y,
    layer_norm (L := Real.Lib ds) x weight bias eps s_ = Return y
    /\ Real.t_shape y = Real.t_shape x
    /\ Real.t_dtype y = layer_norm_out_type (L := Real.Lib ds) x weight bias
    /\ forall ipre d, Real.in_bounds pre ipre -> 0 <= d < D ->
         Real.t_at y (ipre ++ [d])
         = layer_norm_row eps D
             (option_map (fun w k => Real.t_at w [k]) weight)
             (option_map (fun b k => Real.t_at b [k]) bias)
             (fun k => Real.t_at x (ipre ++ [k])) d.
Proof.
  intros Hx Hw Hb Hf.
  unfold layer_norm.
  fold (layer_norm_out_type (L := Real.Lib ds) x weight bias).
  set (out_type := layer_norm_out_type (L := Real.Lib ds) x weight bias) in *.
  rewrite (ndim_snoc x pre D Hx).
  replace (Z.of_nat (List.length pre) + 1 =? 0) with false
    by (symmetry; apply Z.eqb_neq; lia).
  replace (match weight with
           | Some w => negb (ndim (L := Real.Lib ds) w =? 1)
           | None => false
           end) with false
    by (destruct weight as [w|]; [|reflexivity];
        now rewrite (ndim_1 w D (Hw w eq_refl))).
  replace (match bias with
           | Some b => negb (ndim (L := Real.Lib ds) b =? 1)
           | None => false
           end) with false
    by (destruct bias as [b|]; [|reflexivity];
        now rewrite (ndim_1 b D (Hb b eq_refl))).
  rewrite Hf. cbn [negb].
  set (pw := passed_weight (L := Real.Lib ds) weight out_type).
  set (pb := passed_bias (L := Real.Lib ds) bias out_type).
  assert (Hpw : has_value weight = true -> Real.t_shape pw = [D]).
  { destruct weight as [w|]; [|discriminate]. intros _.
    exact (Hw w eq_refl). }
  assert (Hpb : has_value bias = true -> Real.t_shape pb = [D]).
  { destruct bias as [b|]; [|discriminate]. intros _.
    exact (Hb b eq_refl). }
  assert (Ew : (if has_value weight
                then Some (fun k => Real.t_at pw [k]) else None)
               = option_map (fun w k => Real.t_at w [k]) weight)
    by (now destruct weight).
  assert (Eb : (if has_value bias
                then Some (fun k => Real.t_at pb [k]) else None)
               = option_map (fun b k => Real.t_at b [k]) bias)
    by (now destruct bias).
  destruct (Device_eqb (device (to_stream s_)) gpu).
  - destruct (layer_norm_fallback_rows (has_value weight) (has_value bias)
                eps out_type (Real.astype x out_type) pw pb
                pre D Hx Hpw Hpb) as (y & Hy & Hys & Hyd & Hyat).
    eexists. split; [reflexivity|].
    cbn [mk_array Real.Lib]. unfold Real.mk_array, Real.node_outputs.
    cbn [fallback_of astype Real.Lib]. rewrite Hy.
    cbn [nth Real.t_shape Real.t_dtype Real.t_at shape Real.Lib].
    split; [reflexivity|]. split; [reflexivity|].
    intros ipre d Hp Hd. rewrite (Hyat ipre d Hp Hd), Ew, Eb. reflexivity.
  - destruct (layer_norm_fallback_rows (has_value weight) (has_value bias)
                eps out_type x pw pb pre D Hx Hpw Hpb)
      as (y & Hy & Hys & Hyd & Hyat).
    rewrite Hy. cbn [first]. exists y. split; [reflexivity|].
    split; [now rewrite Hys, Hx|]. split; [now apply Hyd|].
    intros ipre d Hp Hd. rewrite (Hyat ipre d Hp Hd), Ew, Eb. reflexivity.
Qed.

(** What [layer_norm] computes, in closed form.  On [x] of shape
    [pre ++ [D]] with a weight and a bias of shape [D] (or without), every
    row [r] of [x] becomes
    [(r - mean r) / sqrt(var r + eps) * weight + bias] with
    [var r = mean(r^2) - (mean r)^2], in the output type and with the
    shape of [x]; on a GPU stream and off it. *)
Theorem layer_norm_rows (x : Real.tensor) (weight bias : option Real.tensor)
    (eps : R) (s_ : StreamOrDevice) (pre : list Z) (D : Z) :
  Real.t_shape x = pre ++ [D] ->
  (forall w, weight = Some w -> Real.t_shape w = [D]) ->
  (forall b, bias = Some b -> Real.t_shape b = [D]) ->
  @issubdtype _ (Real.Lib ds)
    (layer_norm_out_type (L := Real.Lib ds) x weight bias) floating = true ->
  exists y,
    layer_norm (L := Real.Lib ds) x weight bias eps s_ = Return y
    /\ Real.t_shape y = Real.t_shape x
    /\ Real.t_dtype y = layer_norm_out_type (L := Real.Lib ds) x weight bias
    /\ forall ipre d, Real.in_bounds pre ipre -> 0 <= d < D ->
         let r := fun k => Real.t_at x (ipre ++ [k]) in
         let mu := (Real.Rsum D r / IZR D)%R in
         let var := (Real.Rsum D (fun k => r k * r k) / IZR D - mu * mu)%R in
         let n := ((r d - mu) * / R_sqrt.sqrt (var + eps))%R in
         let n' := match weight with
                   | Some w => (n * Real.t_at w [d])%R
                   | None => n
                   end in
         Real.t_at y (ipre ++ [d])
         = match bias with
           | Some b => (n' + Real.t_at b [d])%R
           | None => n'
           end.
Proof.
  intros Hx Hw Hb Hf.
  destruct (layer_norm_at x weight bias eps s_ pre D Hx Hw Hb Hf)
    as (y & Hy & Hys & Hyd & Hyat).
  exists y. split; [exact Hy|]. split; [exact Hys|]. split; [exact Hyd|].
  intros ipre d Hp Hd. cbv zeta. rewrite (Hyat ipre d Hp Hd).
  unfold layer_norm_row, row_var, row_mean.
  destruct weight, bias; reflexivity.
Qed.

(** Without weight and bias, [layer_norm] standardizes every row: the
    output row has mean 0, and its mean square is
    [var / (var + eps)]. *)
Theorem layer_norm_standardizes (x : Real.tensor) (eps : R)
    (s_ : StreamOrDevice) (pre : list Z) (D : Z) :
  Real.t_shape x = pre ++ [D] -> 0 < D ->
  @issubdtype _ (Real.Lib ds) (Real.t_dtype x) floating = true ->
  exists y,
    layer_norm (L := Real.Lib ds) x None None eps s_ = Return y
    /\ forall ipre, Real.in_bounds pre ipre ->
         let r := fun k => Real.t_at x (ipre ++ [k]) in
         let out := fun d => Real.t_at y (ipre ++ [d]) in
         row_mean D out = 0%R
         /\ ((0 < row_var D r + eps)%R ->
             row_mean D (fun d => (out d * out d)%R)
             = (row_var D r / (row_var D r + eps))%R).
Proof.
  intros Hx HD Hf.
  destruct (layer_norm_at x None None eps s_ pre D Hx
              ltac:(discriminate) ltac:(discriminate) Hf)
    as (y & Hy & _ & _ & Hyat).
  exists y. split; [exact Hy|].
  intros ipre Hp r out.
  set (mu := row_mean D r).
  set (c := (/ R_sqrt.sqrt (row_var D r + eps))%R).
  assert (Hout : forall d, 0 <= d < D -> out d = ((r d - mu) * c)%R).
  { intros d Hd. subst out. cbv beta. now rewrite (Hyat ipre d Hp Hd). }
  assert (HDr : (IZR D <> 0)%R) by (apply not_0_IZR; lia).
  assert (Hmu : (Real.Rsum D r = IZR D * mu)%R).
  { subst mu. unfold row_mean. field. exact HDr. }
  assert (Hc : Real.Rsum D (fun d => (r d - mu)%R) = 0%R).
  { rewrite (Rsum_ext D _ (fun d => (r d + (- mu))%R))
      by (intros; unfold Rminus; reflexivity).
    rewrite Rsum_plus, Rsum_const, Hmu by lia. ring. }
  split.
  - unfold row_mean. rewrite (Rsum_ext D out _ Hout).
    rewrite (Rsum_ext D _ (fun d => (c * (r d - mu))%R))
      by (intros; ring).
    rewrite Rsum_scal, Hc. field. exact HDr.
  - intros Hpos. unfold row_mean at 1.
    rewrite (Rsum_ext D _ (fun d => (c * c * ((r d * r d)
                                     + (- (2 * mu) * r d + mu * mu)))%R)).
    2:{ intros d Hd. rewrite (Hout d Hd). ring. }
    rewrite Rsum_scal, Rsum_plus, Rsum_plus, Rsum_scal, Rsum_const, Hmu
      by lia.
    assert (Hcc : (c * c = / (row_var D r + eps))%R).
    { subst c. rewrite <- Rinv_mult.
      rewrite sqrt_sqrt by lra. reflexivity. }
    rewrite Hcc.
    assert (Hm2 : (Real.Rsum D (fun k => (r k * r k)%R)
                   = IZR D * (row_var D r + mu * mu))%R).
    { unfold row_var. fold mu. unfold row_mean. field. exact HDr. }
    rewrite Hm2. field. split; [lra|exact HDr].
Qed.

Lemma promote_types_absorb (a b : Dtype) :
  Real.promote_types b (Real.promote_types a b) = Real.promote_types a b.
Proof. destruct a, b; reflexivity. Qed.

(** The fallback of [rms_norm], row by row. *)
Lemma rms_norm_fallback_rows (eps : R) (out_type : Dtype)
    (x0 w : Real.tensor) (pre : list Z) (D : Z) :
  Real.t_shape x0 = pre ++ [D] -> Real.t_shape w = [D] ->
  exists y,
    rms_norm_fallback (L := Real.Lib ds) eps out_type [x0; w] = [y]
    /\ Real.t_shape y = pre ++ [D]
    /\ (Real.t_dtype w = out_type -> Real.t_dtype y = out_type)
    /\ forall ipre d, Real.in_bounds pre ipre -> 0 <= d < D ->
         Real.t_at y (ipre ++ [d])
         = rms_norm_row eps D (fun k => Real.t_at w [k])
             (fun k => Real.t_at x0 (ipre ++ [k])) d.
Proof.
  intros Hx Hw.
  unfold rms_norm_fallback.
  cbn [astype mean square add multiply rsqrt array_of Real.Lib].
  set (x := Real.astype x0 float32).
  assert (Dx : denotes x (pre ++ [D]) (Real.t_at x0))
    by (split; [exact Hx|reflexivity]).
  pose proof (denotes_unary (fun v => (v * v)%R) x _ _ Dx) as Dsq.
  pose proof (denotes_mean_last _ pre D _ Dsq) as Dms.
  pose proof (denotes_binary_scalar Rplus _ (Real.array_of eps float32) _ _
                eps Dms eq_refl eq_refl) as Dme.
  pose proof (denotes_unary (fun v => (/ R_sqrt.sqrt v)%R) _ _ _ Dme) as Drs.
  pose proof (denotes_binary_keepdims Rmult x _ pre D _ _ Dx Drs) as Dn.
  match goal with |- context [Real.astype ?n out_type] =>
    set (n' := Real.astype n out_type) in *
  end.
  assert (Dn' : denotes n' (pre ++ [D])
    (fun idx =>
       (Real.t_at x0 idx
        * / R_sqrt.sqrt
              (row_mean D (fun k =>
                 Real.t_at x0 (removelast (removelast idx ++ [0%Z]) ++ [k])
                 * Real.t_at x0 (removelast (removelast idx ++ [0%Z]) ++ [k]))
               + eps))%R)) by exact Dn.
  assert (Dw : denotes w [D] (Real.t_at w)) by (split; auto).
  pose proof (denotes_binary_prefix Rmult w n' pre [D] _ _ Dw Dn') as D1.
  eexists. split; [reflexivity|]. split; [exact (proj1 D1)|]. split.
  - intros Tw. cbn. rewrite Tw. now rewrite promote_types_same.
  - intros ipre d Hp Hd.
    rewrite (proj2 D1) by (now apply in_bounds_snoc_intro).
    rewrite (skipn_snoc pre ipre d Hp), !removelast_last. reflexivity.
Qed.

(** What [rms_norm] computes, in closed form.  On [x] of shape
    [pre ++ [D]] with a weight of shape [D], every row [r] of [x] becomes
    [weight * r / sqrt(mean(r^2) + eps)], in the common type and with the
    shape of [x]; on a GPU stream and off it. *)
Theorem rms_norm_rows (x weight : Real.tensor) (eps : R)
    (s_ : StreamOrDevice) (pre : list Z) (D : Z) :
  Real.t_shape x = pre ++ [D] -> Real.t_shape weight = [D] ->
  @issubdtype _ (Real.Lib ds)
    (@result_type _ (Real.Lib ds) [x; weight]) floating = true ->
  exists y,
    rms_norm (L := Real.Lib ds) x weight eps s_ = Return y
    /\ Real.t_shape y = Real.t_shape x
    /\ Real.t_dtype y = @result_type _ (Real.Lib ds) [x; weight]
    /\ forall ipre d, Real.in_bounds pre ipre -> 0 <= d < D ->
         let r := fun k => Real.t_at x (ipre ++ [k]) in
         Real.t_at y (ipre ++ [d])
         = (Real.t_at weight [d]
            * (r d
               * / R_sqrt.sqrt
                     (Real.Rsum D (fun k => r k * r k) / IZR D + eps)))%R.
Proof.
  intros Hx Hw Hf. unfold rms_norm.
  rewrite (ndim_snoc x pre D Hx), (ndim_1 weight D Hw).
  replace (Z.of_nat (List.length pre) + 1 =? 0) with false
    by (symmetry; apply Z.eqb_neq; lia).
  cbn [Z.eqb Pos.eqb negb]. rewrite Hf. cbn [negb].
  set (out_type := @result_type _ (Real.Lib ds) [x; weight]).
  destruct (Device_eqb (device (to_stream s_)) gpu).
  - destruct (rms_norm_fallback_rows eps out_type
                (Real.astype x out_type)
                (Real.astype weight out_type) pre D Hx Hw)
      as (y & Hy & Hys & Hyd & Hyat).
    eexists. split; [reflexivity|].
    cbn [mk_array Real.Lib]. unfold Real.mk_array, Real.node_outputs.
    cbn [fallback_of astype Real.Lib]. rewrite Hy.
    cbn [nth Real.t_shape Real.t_dtype Real.t_at shape Real.Lib].
    split; [reflexivity|]. split; [reflexivity|].
    intros ipre d Hp Hd. cbv zeta. now rewrite (Hyat ipre d Hp Hd).
  - destruct (rms_norm_fallback_rows eps out_type x weight pre D Hx Hw)
      as (y & Hy & Hys & Hyd & Hyat).
    rewrite Hy. cbn [first]. exists y. split; [reflexivity|].
    split; [now rewrite Hys, Hx|].
    split.
    + unfold rms_norm_fallback in Hy. injection Hy as <-.
      subst out_type. cbn. apply promote_types_absorb.
    + intros ipre d Hp Hd. cbv zeta. now rewrite (Hyat ipre d Hp Hd).
Qed.

End NormsOnReals.

(** ** The quantization codec over exact reals

    [affine_quantize], its overload with given scales and biases and
    [affine_dequantize] on matrices: what the packed words hold, and what
    comes back. *)

(** The primitives of [Real.Lib], unfolded to their definitions. *)
Ltac real_primitives :=
  cbn [mk_array make_arrays array_of expand_dims right_shift left_shift
       concatenate reshape multiply add subtract divide maximum max min
       greater abs where_ negative round not_equal equal Real.Lib].

Ltac real_primitives_in H :=
  cbn [mk_array make_arrays array_of expand_dims right_shift left_shift
       concatenate reshape multiply add subtract divide maximum max min
       greater abs where_ negative round not_equal equal Real.Lib] in H.

Section QuantizeScalars.
Import Real.

Lemma Rfloor_IZR (z : Z) : Rfloor (IZR z) = z.
Proof. unfold Rfloor. symmetry. apply Int_part_spec. lra. Qed.

Lemma Rrint_rint (x : R) : Rrint x = IZR (rint x).
Proof.
  unfold Rrint, rint. cbv zeta.
  destruct (Req_dec_T (IZR (Rfloor (x + / 2))) (x + / 2));
    [destruct (Z.even (Rfloor (x + / 2)))|]; reflexivity.
Qed.

Lemma Rmax_IZR (a b : Z) : Rmax (IZR a) (IZR b) = IZR (Z.max a b).
Proof.
  destruct (Z_le_gt_dec a b) as [H|H].
  - rewrite Z.max_r by lia. apply Rmax_right. now apply IZR_le.
  - rewrite Z.max_l by lia. apply Rmax_left. apply IZR_le. lia.
Qed.

Lemma Rmin_IZR (a b : Z) : Rmin (IZR a) (IZR b) = IZR (Z.min a b).
Proof.
  destruct (Z_le_gt_dec a b) as [H|H].
  - rewrite Z.min_l by lia. apply Rmin_left. now apply IZR_le.
  - rewrite Z.min_r by lia. apply Rmin_right. apply IZR_le. lia.
Qed.

Lemma clip_round_level (bits : Z) (x : R) :
  Rmin (Rmax (Rrint x) 0) (IZR (Z.shiftl 1 bits - 1))
  = IZR (quantize_level bits x).
Proof.
  unfold quantize_level. rewrite Rrint_rint, Rmax_IZR, Rmin_IZR.
  now rewrite Z.shiftl_1_l.
Qed.

Lemma quantize_level_level (bits : Z) (x : R) :
  0 <= bits -> Codec.level bits (quantize_level bits x).
Proof.
  intros Hb. unfold Codec.level, quantize_level.
  assert (0 < 2 ^ bits) by (apply Z.pow_pos_nonneg; lia). lia.
Qed.

Lemma Rpow_two (e : Z) : 0 <= e -> Rpow 2 (IZR e) = IZR (2 ^ e).
Proof.
  intros He. unfold Rpow. rewrite Rfloor_IZR.
  destruct (Req_dec_T (IZR e) (IZR e)) as [_|N]; [|now destruct N].
  destruct e as [|p|p]; [reflexivity| |lia].
  symmetry. apply (Zpower_pos_powerRZ 2 p).
Qed.

(** One round of the unpacking loop, on a word held as a real. *)
Lemma shift_mask_field (bits start W : Z) :
  0 < bits -> 0 <= start -> start + bits <= 32 ->
  Rshr (Rshl (IZR W) (IZR (32 - (start + bits)))) (IZR (32 - bits))
  = IZR (Codec.field bits start W).
Proof.
  intros Hb Hs Hsb. unfold Rshr, Rshl, Codec.field, Codec.u32_shr,
    Codec.u32_shl.
  rewrite !Rfloor_IZR.
  rewrite (u32_small (32 - (start + bits)))
    by (change (2 ^ 32) with 4294967296; lia).
  rewrite (u32_small (32 - bits)) by (change (2 ^ 32) with 4294967296; lia).
  reflexivity.
Qed.

(** The packing sum, as a sum of reals. *)
Lemma Rsum_packed_value (bits : Z) (q : Z -> Z) :
  0 <= bits ->
  forall (m : nat) (j : Z),
    Rsum (Z.of_nat m)
         (fun k => (IZR (q (j + k)%Z) * IZR (2 ^ (bits * k)))%R)
    = IZR (Codec.packed_value bits
             (map (fun k => q (j + Z.of_nat k)) (seq 0 m))).
Proof.
  intros Hb. induction m as [|m IH]; intros j.
  - reflexivity.
  - rewrite Nat2Z.inj_succ.
    replace (Z.succ (Z.of_nat m)) with (Z.of_nat m + 1) by lia.
    rewrite (Rsum_split (Z.of_nat m + 1) 1) by lia.
    replace (Z.of_nat m + 1 - 1) with (Z.of_nat m) by lia.
    cbn [seq map Codec.packed_value].
    rewrite <- seq_shift, map_map.
    rewrite (map_ext (fun x => q (j + Z.of_nat (S x)))
                     (fun k => q (j + 1 + Z.of_nat k)))
      by (intros; f_equal; lia).
    rewrite plus_IZR, mult_IZR.
    rewrite <- (IH (j + 1)).
    unfold Rsum at 1. change (Z.to_nat 1) with 1%nat.
    cbn [seq fold_right Z.of_nat]. rewrite Z.mul_0_r, Z.add_0_r.
    change (2 ^ 0) with 1. rewrite Rmult_1_r, Rplus_0_r. f_equal.
    rewrite <- Rsum_scal. apply Rsum_ext. intros k Hk.
    replace (j + (1 + k)) with (j + 1 + k) by lia.
    replace (bits * (1 + k)) with (bits + bits * k) by lia.
    rewrite Z.pow_add_r by nia. rewrite mult_IZR. ring.
Qed.

End QuantizeScalars.

Section MatrixLayout.
Import Real.

Lemma in_bounds2 (R_ D : Z) (idx : list Z) :
  in_bounds [R_; D] idx ->
  exists r c, idx = [r; c] /\ 0 <= r < R_ /\ 0 <= c < D.
Proof.
  destruct idx as [|r [|c [|e idx]]]; simpl; try tauto.
  intros (Hr & Hc & _). now exists r, c.
Qed.

(** A row of [A * B] features, cut into [A] groups of [B]. *)
Lemma ravel_group (R_ A B r a b : Z) :
  ravel [R_; A; B] [r; a; b] = ravel [R_; A * B] [r; a * B + b].
Proof. cbn [ravel prod fold_right]. ring. Qed.

Lemma unravel_group (R_ A B r c : Z) :
  0 <= r < R_ -> 0 < B -> 0 <= c < A * B ->
  unravel [R_; A; B] (ravel [R_; A * B] [r; c]) = [r; c / B; c mod B].
Proof.
  intros Hr HB Hc.
  replace (ravel [R_; A * B] [r; c])
    with (ravel [R_; A; B] [r; c / B; c mod B]).
  - apply unravel_ravel. simpl.
    pose proof (Z.mod_pos_bound c B HB).
    assert (0 <= c / B < A).
    { split; [apply Z.div_pos; lia|].
      apply Z.div_lt_upper_bound; [lia|]. now rewrite Z.mul_comm. }
    lia.
  - rewrite ravel_group. f_equal. f_equal.
    pose proof (Z.div_mod c B ltac:(lia)). f_equal. lia.
Qed.

Lemma unravel_ungroup (R_ A B r a b : Z) :
  0 <= r < R_ -> 0 <= a < A -> 0 <= b < B ->
  unravel [R_; A * B] (ravel [R_; A; B] [r; a; b]) = [r; a * B + b].
Proof.
  intros Hr Ha Hb. rewrite ravel_group. apply unravel_ravel. simpl. nia.
Qed.

(** [reshape] with an inferred axis. *)
Lemma denotes_reshape_infer (a : tensor) sh f tgt sh' :
  denotes a sh f ->
  infer_shape (prod sh) tgt = sh' ->
  Forall (fun d => 0 <= d) sh -> prod sh = prod sh' ->
  denotes (reshape a tgt) sh' (fun idx => f (unravel sh (ravel sh' idx))).
Proof.
  intros [Hs Hf] Hinf Hn HP. unfold reshape. rewrite Hs, Hinf.
  split; [reflexivity|].
  intros idx Hi. cbn. apply Hf.
  apply unravel_in_bounds. apply nonneg_positive; [assumption|].
  rewrite HP. apply prod_pos. now apply (in_bounds_positive _ idx).
Qed.

(** A matrix cut into groups: [reshape(w, {-1, A, B})]. *)
Lemma denotes_group (a : tensor) (R_ A B : Z) f :
  denotes a [R_; A * B] f -> 0 < R_ -> 0 < A -> 0 < B ->
  denotes (reshape a [-1; A; B]) [R_; A; B]
          (fun idx => f [nth 0 idx 0; nth 1 idx 0 * B + nth 2 idx 0]).
Proof.
  intros Ha HR HA HB.
  assert (Hinf : infer_shape (prod [R_; A * B]) [-1; A; B] = [R_; A; B]).
  { unfold infer_shape. cbn [filter map Z.eqb Pos.eqb negb].
    replace (A =? -1) with false by lia. replace (B =? -1) with false by lia.
    cbn [negb prod fold_right]. f_equal.
    replace (R_ * (A * B * 1)) with (R_ * (A * (B * 1))) by ring.
    apply Z.div_mul. nia. }
  pose proof (denotes_reshape_infer a _ f _ _ Ha Hinf
                ltac:(repeat constructor; nia)
                ltac:(cbn [prod fold_right]; ring)) as Hr.
  apply (denotes_ext _ _ _ _ Hr).
  intros idx Hi. apply in_bounds3 in Hi.
  destruct Hi as (r & g & t & -> & Hr' & Hg & Ht).
  cbn [nth]. now rewrite unravel_ungroup.
Qed.

(** Groups of [B] regrouped into groups of [B']. *)
Lemma denotes_regroup (a : tensor) (R_ A B A' B' : Z) f tgt :
  denotes a [R_; A; B] f ->
  infer_shape (prod [R_; A; B]) tgt = [R_; A'; B'] ->
  0 < R_ -> 0 < A -> 0 < B -> 0 < A' -> 0 < B' -> A * B = A' * B' ->
  denotes (reshape a tgt) [R_; A'; B']
    (fun idx =>
       let c := nth 1 idx 0 * B' + nth 2 idx 0 in
       f [nth 0 idx 0; c / B; c mod B]).
Proof.
  intros Ha Hinf HR HA HB HA' HB' HAB.
  pose proof (denotes_reshape_infer a _ f _ _ Ha Hinf
                ltac:(repeat constructor; lia)
                ltac:(cbn [prod fold_right]; nia)) as Hr.
  apply (denotes_ext _ _ _ _ Hr).
  intros idx Hi. apply in_bounds3 in Hi.
  destruct Hi as (r & g & t & -> & Hr' & Hg & Ht).
  cbn [nth]. cbv zeta. rewrite ravel_group, <- HAB.
  rewrite unravel_group by nia. reflexivity.
Qed.

(** Groups joined into a matrix again. *)
Lemma denotes_ungroup (a : tensor) (R_ A B : Z) f tgt :
  denotes a [R_; A; B] f ->
  infer_shape (prod [R_; A; B]) tgt = [R_; A * B] ->
  0 < R_ -> 0 < A -> 0 < B ->
  denotes (reshape a tgt) [R_; A * B]
    (fun idx => f [nth 0 idx 0; nth 1 idx 0 / B; nth 1 idx 0 mod B]).
Proof.
  intros Ha Hinf HR HA HB.
  pose proof (denotes_reshape_infer a _ f _ _ Ha Hinf
                ltac:(repeat constructor; lia)
                ltac:(cbn [prod fold_right]; nia)) as Hr.
  apply (denotes_ext _ _ _ _ Hr).
  intros idx Hi. apply in_bounds2 in Hi.
  destruct Hi as (r & c & -> & Hr' & Hc).
  cbn [nth]. now rewrite unravel_group.
Qed.

(** A matrix reshaped to its own shape. *)
Lemma denotes_reshape_same (a : tensor) (R_ M : Z) f tgt :
  denotes a [R_; M] f ->
  infer_shape (prod [R_; M]) tgt = [R_; M] ->
  0 < R_ -> 0 < M ->
  denotes (reshape a tgt) [R_; M] f.
Proof.
  intros Ha Hinf HR HM.
  pose proof (denotes_reshape_infer a _ f _ _ Ha Hinf
                ltac:(repeat constructor; lia) eq_refl) as Hr.
  apply (denotes_ext _ _ _ _ Hr).
  intros idx Hi. now rewrite unravel_ravel.
Qed.

(** [expand_dims(a, -1)] on a matrix. *)
Lemma denotes_expand_last (a : tensor) (R_ G : Z) f :
  denotes a [R_; G] f ->
  denotes (expand_dims a (-1)) [R_; G; 1]
          (fun idx => f [nth 0 idx 0; nth 1 idx 0]).
Proof.
  intros [Hs Hf]. split.
  - unfold expand_dims. cbn. now rewrite Hs.
  - intros idx Hi. apply in_bounds3 in Hi.
    destruct Hi as (r & g & t & -> & Hr & Hg & Ht).
    unfold expand_dims. rewrite Hs. cbn. apply Hf. simpl. lia.
Qed.

(** [clip] between two 0-dimensional bounds. *)
Lemma denotes_clip_scalars (a lo hi : tensor) sh f :
  denotes a sh f -> t_shape lo = [] -> t_shape hi = [] ->
  denotes (clip a lo hi) sh
          (fun idx => Rmin (Rmax (f idx) (t_at lo [])) (t_at hi [])).
Proof.
  intros [Hs Hf] Hlo Hhi. unfold clip. rewrite Hs, Hlo, Hhi.
  assert (Hb : bshape sh (bshape [] []) = sh).
  { change (bshape [] []) with (@nil Z).
    pose proof (bshape_suffix sh []) as H. now rewrite app_nil_r in H. }
  split; [exact Hb|].
  intros idx Hi. cbn [t_at]. rewrite (bidx_same _ _ Hi), Hf by assumption.
  reflexivity.
Qed.

(** [sum(a, 2, keepdims = false)] on a 3-D tensor. *)
Lemma denotes_sum_groups (a : tensor) (R_ M E : Z) f :
  denotes a [R_; M; E] f ->
  denotes (sum a [2] false) [R_; M]
          (fun idx => Rsum E (fun k => f (idx ++ [k]))).
Proof.
  intros [Hs Hf]. unfold sum, reduce, norm_axes, squeeze_axes.
  cbn [map fold_left]. unfold norm_axis, rank. rewrite Hs.
  cbn [List.length Z.of_nat Pos.of_succ_nat Pos.succ Z.ltb Z.compare
       Z.to_nat Pos.to_nat Pos.iter_op Nat.add].
  unfold reduce_axis. rewrite Hs.
  cbn [t_shape List.length seq rev app filter existsb Nat.eqb orb
       fold_left set_nth nth].
  unfold squeeze_axis. cbn [t_shape t_dtype t_at remove_nth].
  split; [reflexivity|].
  intros idx Hi. apply in_bounds2 in Hi.
  destruct Hi as (r & c & -> & Hr & Hc).
  cbn [insert_nth set_nth app]. apply Rsum_ext. intros k Hk.
  apply Hf. simpl. lia.
Qed.

(** Parts of one value each, joined along the last axis. *)
Lemma denotes_concat_parts (R_ M : Z) (l : list tensor) :
  forall (a : tensor) (n : Z) (F : list Z -> R) (P : nat -> list Z -> R),
    denotes a [R_; M; n] F -> 0 <= n ->
    (forall k t, nth_error l k = Some t -> denotes t [R_; M; 1] (P k)) ->
    denotes (fold_left (concat2 2) l a)
            [R_; M; n + Z.of_nat (List.length l)]
            (fun idx =>
               if nth 2 idx 0 <? n then F idx
               else P (Z.to_nat (nth 2 idx 0 - n))
                      [nth 0 idx 0; nth 1 idx 0; 0]).
Proof.
  induction l as [|t l IH]; intros a n F P Ha Hn HP.
  - cbn [fold_left List.length Z.of_nat]. rewrite Z.add_0_r.
    apply (denotes_ext _ _ _ _ Ha).
    intros idx Hi. apply in_bounds3 in Hi.
    destruct Hi as (r & j & k & -> & Hr & Hj & Hk).
    cbn [nth]. now replace (k <? n) with true by lia.
  - cbn [fold_left List.length].
    pose proof (denotes_concat3 a t R_ M n 1 _ _ Ha
                  (HP 0%nat t eq_refl) Hn ltac:(lia)) as Hc.
    specialize (IH (concat2 2 a t) (n + 1) _ (fun k => P (S k)) Hc
                   ltac:(lia)
                   ltac:(intros k t' Hk; exact (HP (S k) t' Hk))).
    replace (n + Z.of_nat (S (List.length l)))
      with (n + 1 + Z.of_nat (List.length l)) by lia.
    apply (denotes_ext _ _ _ _ IH).
    intros idx Hi. apply in_bounds3 in Hi.
    destruct Hi as (r & j & k & -> & Hr & Hj & Hk).
    cbn [nth].
    destruct (k <? n) eqn:E1.
    + now replace (k <? n + 1) with true by lia.
    + destruct (k <? n + 1) eqn:E2.
      * replace (k - n) with 0 by lia. reflexivity.
      * replace (Z.to_nat (k - n)) with (S (Z.to_nat (k - (n + 1)))) by lia.
        reflexivity.
Qed.

End MatrixLayout.

Section PartsGeneric.
Context {array : Type} {L : ArrayLib array}.

(** The parts the unpacking loop makes, for the supported widths. *)
Lemma dequantize_parts_supported (w : array) (bits : Z) :
  supported_bits bits ->
  dequantize_parts 32 w bits 0
  = map (fun k =>
           expand_dims
             (right_shift
                (left_shift w
                   (array_of (IZR (32 - (bits * Z.of_nat k + bits))) uint32))
                (array_of (IZR (32 - bits)) uint32))
             (-1))
        (seq 0 (Z.to_nat (32 / bits))).
Proof. intros [->|[->| ->]]; reflexivity. Qed.

End PartsGeneric.

Section QuantizeWords.
Variable ds : Stream.
Import Real.

Lemma el_per_int_pos (bits : Z) : supported_bits bits -> 0 < 32 / bits.
Proof. intros [->|[->| ->]]; reflexivity. Qed.

Lemma el_per_int_fill (bits : Z) :
  supported_bits bits -> bits * Z.of_nat (Z.to_nat (32 / bits)) = 32.
Proof. intros [->|[->| ->]]; reflexivity. Qed.

Lemma denotes_shifts (bits : Z) :
  supported_bits bits ->
  denotes (power (array_of 2 uint32) (arange 0 32 bits uint32)) [32 / bits]
          (fun idx => IZR (2 ^ (bits * hd 0 idx))).
Proof.
  intros Hb. split.
  - destruct Hb as [->|[->| ->]]; reflexivity.
  - assert (Hp : 0 < bits) by (destruct Hb as [->|[->| ->]]; lia).
    pose proof (el_per_int_pos bits Hb) as He.
    intros idx Hi. destruct idx as [|k [|? ?]]; cbn [in_bounds] in Hi;
      try tauto.
    unfold power, binary, arange, array_of. cbn [t_at t_shape].
    rewrite bidx_same
      by (destruct Hb as [->|[->| ->]]; cbn in Hi |- *; lia).
    cbn [hd]. rewrite Rpow_two by nia. do 2 f_equal. lia.
Qed.

Lemma infer_middle (R_ M E n : Z) :
  0 < R_ -> 0 < E -> n = R_ * (M * E) ->
  infer_shape n [R_; -1; E] = [R_; M; E].
Proof.
  intros HR HE ->. unfold infer_shape. cbn [filter map Z.eqb Pos.eqb negb].
  replace (R_ =? -1) with false by lia. replace (E =? -1) with false by lia.
  cbn [negb prod fold_right]. do 2 f_equal.
  replace (R_ * (M * E)) with (M * (R_ * (E * 1))) by ring.
  apply Z.div_mul. nia.
Qed.

Lemma infer_last (R_ M n : Z) :
  0 < R_ -> n = R_ * M -> infer_shape n [R_; -1] = [R_; M].
Proof.
  intros HR ->. unfold infer_shape. cbn [filter map Z.eqb Pos.eqb negb].
  replace (R_ =? -1) with false by lia.
  cbn [negb prod fold_right]. do 2 f_equal.
  replace (R_ * M) with (M * (R_ * 1)) by ring.
  apply Z.div_mul. nia.
Qed.

Lemma idiv_el (bits : Z) : supported_bits bits -> idiv 32 bits = 32 / bits.
Proof. intros [->|[->| ->]]; reflexivity. Qed.

Lemma sum_groups_dtype (a : tensor) (R_ M E : Z) :
  t_shape a = [R_; M; E] -> t_dtype (sum a [2] false) = t_dtype a.
Proof.
  intros Hs. unfold sum, reduce, norm_axes, squeeze_axes.
  cbn [map fold_left]. unfold norm_axis, rank. rewrite Hs.
  cbn [List.length Z.of_nat Pos.of_succ_nat Pos.succ Z.ltb Z.compare
       Z.to_nat Pos.to_nat Pos.iter_op Nat.add].
  unfold reduce_axis. rewrite Hs. reflexivity.
Qed.

(** [pack_and_quantize] on a matrix cut into groups: every word holds
    the levels of [32 / bits] columns in a row, the first one lowest. *)
Lemma pack_and_quantize_words (pw scales biases : tensor)
    (R_ G gs M bits : Z) F S B :
  denotes pw [R_; G; gs] F ->
  denotes scales [R_; G; 1] S ->
  denotes biases [R_; G; 1] B ->
  supported_bits bits -> 0 < R_ -> 0 < G -> 0 < gs -> 0 < M ->
  M * (32 / bits) = G * gs ->
  denotes (pack_and_quantize (L := Lib ds) pw scales biases gs bits) [R_; M]
    (fun idx =>
       IZR (Codec.packed_value bits
         (map (fun k =>
            let r := nth 0 idx 0 in
            let c := nth 1 idx 0 * (32 / bits) + Z.of_nat k in
            quantize_level bits
              ((F [r; c / gs; c mod gs] - B [r; c / gs; 0])
               / S [r; c / gs; 0]))
          (seq 0 (Z.to_nat (32 / bits))))))
  /\ t_dtype (pack_and_quantize (L := Lib ds) pw scales biases gs bits)
     = uint32.
Proof.
  intros Dpw Ds Db Hb HR HG Hgs HM HMG.
  pose proof (el_per_int_pos bits Hb) as He.
  assert (Hp : 0 < bits) by (destruct Hb as [->|[->| ->]]; lia).
  unfold pack_and_quantize. rewrite (idiv_el bits Hb).
  cbn [array_of power arange astype clip round divide subtract reshape
       multiply sum dtype shape Lib].
  pose proof (denotes_binary_keepdims Rminus pw biases [R_; G] gs F B
                Dpw Db) as D1.
  pose proof (denotes_binary_keepdims Rdiv _ scales [R_; G] gs _ S
                D1 Ds) as D2.
  pose proof (denotes_unary Rrint _ _ _ D2) as D3.
  pose proof (denotes_clip_scalars _
                (Real.array_of 0 (t_dtype pw))
                (Real.array_of (IZR (Z.shiftl 1 bits - 1)) (t_dtype pw))
                _ _ D3 eq_refl eq_refl) as D4.
  pose proof (denotes_astype _ uint32 _ _ D4) as D5.
  match goal with |- context [shape_at ?a 0] =>
    set (q := a) in *;
    assert (D5' : denotes q [R_; G; gs]
      (fun idx =>
         Rmin (Rmax (Rrint ((F idx - B (removelast idx ++ [0%Z]))
                            / S (removelast idx ++ [0%Z]))) 0)
              (IZR (Z.shiftl 1 bits - 1)))) by exact D5
  end.
  clear D1 D2 D3 D4 D5.
  assert (Hq0 : shape_at (L := Lib ds) q 0 = R_).
  { unfold shape_at, ndim. cbn [shape Lib]. rewrite (proj1 D5').
    reflexivity. }
  rewrite Hq0.
  pose proof (denotes_regroup q R_ G gs M (32 / bits) _ [R_; -1; 32 / bits]
                D5'
                (infer_middle R_ M (32 / bits) (prod [R_; G; gs]) HR He
                   ltac:(cbn [prod fold_right]; rewrite HMG; ring))
                HR HG Hgs HM He (eq_sym HMG)) as D6.
  pose proof (denotes_binary_suffix Rmult _ _ [R_; M] [32 / bits] _ _
                D6 (denotes_shifts bits Hb)) as D7.
  pose proof (denotes_sum_groups _ R_ M (32 / bits) _ D7) as D8.
  split.
  - apply (denotes_ext _ _ _ _ D8).
    intros idx Hi. apply in_bounds2 in Hi.
    destruct Hi as (r & m & -> & Hr & Hm).
    cbn [nth]. cbv zeta.
    rewrite <- (Rsum_packed_value bits
                  (fun c => quantize_level bits
                     ((F [r; c / gs; c mod gs] - B [r; c / gs; 0])
                      / S [r; c / gs; 0])) ltac:(lia)
                  (Z.to_nat (32 / bits)) (m * (32 / bits))).
    rewrite Z2Nat.id by lia.
    apply Rsum_ext. intros k Hk.
    cbn [app nth List.length skipn hd removelast].
    rewrite clip_round_level. reflexivity.
  - etransitivity;
      [exact (sum_groups_dtype _ R_ M (32 / bits) (proj1 D7))|reflexivity].
Qed.

End QuantizeWords.

Section QuantizeGiven.
Variable ds : Stream.
Import Real.

Lemma shape_at_last2 (a : tensor) (R_ D : Z) :
  t_shape a = [R_; D] -> shape_at (L := Lib ds) a (-1) = D.
Proof.
  intros H. unfold shape_at, ndim. cbn [shape Lib]. now rewrite H.
Qed.

Lemma ndim2 (a : tensor) (R_ D : Z) :
  t_shape a = [R_; D] -> ndim (L := Lib ds) a = 2.
Proof. intros H. unfold ndim. cbn [shape Lib]. now rewrite H. Qed.

Lemma affine_quantize_given_fallback_words (w scales biases : tensor)
    (R_ G gs M bits el : Z) :
  t_shape w = [R_; G * gs] ->
  t_shape scales = [R_; G] -> t_shape biases = [R_; G] ->
  supported_bits bits -> 0 < R_ -> 0 < G -> 0 < gs -> 0 < M ->
  M * (32 / bits) = G * gs ->
  exists p,
    affine_quantize_given_fallback (L := Lib ds) gs bits el
      [w; scales; biases] = [p]
    /\ t_shape p = [R_; M] /\ t_dtype p = uint32
    /\ forall r m, 0 <= r < R_ -> 0 <= m < M ->
         t_at p [r; m]
         = IZR (Codec.packed_value bits
                  (word_levels gs bits w scales biases r m)).
Proof.
  intros Hw Hs Hbs Hb HR HG Hgs HM HMG.
  pose proof (el_per_int_pos bits Hb) as He.
  unfold affine_quantize_given_fallback.
  rewrite (shape_at_last2 w R_ (G * gs) Hw).
  cbn [shape Lib]. rewrite Hw.
  replace (idiv (G * gs) gs) with G
    by (unfold idiv; now rewrite Z.quot_mul by lia).
  cbn [expand_dims reshape Lib].
  assert (Dw : denotes w [R_; G * gs] (t_at w)) by (split; auto).
  assert (Dsc : denotes scales [R_; G] (t_at scales)) by (split; auto).
  assert (Dbi : denotes biases [R_; G] (t_at biases)) by (split; auto).
  pose proof (denotes_group w R_ G gs _ Dw HR HG Hgs) as D1.
  pose proof (denotes_expand_last scales R_ G _ Dsc) as D2.
  pose proof (denotes_expand_last biases R_ G _ Dbi) as D3.
  destruct (pack_and_quantize_words ds _ _ _ R_ G gs M bits _ _ _
              D1 D2 D3 Hb HR HG Hgs HM HMG) as [D4 T4].
  pose proof (denotes_reshape_same _ R_ M _ (set_back [R_; G * gs] (-1)) D4
                (infer_last R_ M (prod [R_; M]) HR
                   ltac:(cbn [prod fold_right]; ring))
                HR HM) as D5.
  eexists. split; [reflexivity|]. split; [exact (proj1 D5)|].
  split; [exact T4|].
  intros r m Hr Hm. rewrite (proj2 D5) by (simpl; lia).
  cbn [nth]. f_equal. f_equal. unfold word_levels.
  apply map_ext_in. intros k Hk. apply in_seq in Hk.
  cbv zeta. unfold stored_level.
  set (c := m * (32 / bits) + Z.of_nat k).
  assert (Hc : 0 <= c < G * gs) by (subst c; nia).
  pose proof (Z.div_mod c gs ltac:(lia)) as Hdm.
  replace (c / gs * gs + c mod gs) with c by lia. reflexivity.
Qed.

(** [affine_quantize] with given scales and biases, on a matrix. *)
Lemma affine_quantize_given_words (w scales biases : tensor)
    (R_ G gs M bits : Z) (s_ : StreamOrDevice) :
  t_shape w = [R_; G * gs] ->
  t_shape scales = [R_; G] -> t_shape biases = [R_; G] ->
  supported_bits bits -> 0 < R_ -> 0 < G -> 0 < gs -> 0 < M ->
  M * (32 / bits) = G * gs ->
  exists p,
    affine_quantize_given (L := Lib ds) w scales biases gs bits s_ = Return p
    /\ t_shape p = [R_; M] /\ t_dtype p = uint32
    /\ forall r m, 0 <= r < R_ -> 0 <= m < M ->
         t_at p [r; m]
         = IZR (Codec.packed_value bits
                  (word_levels gs bits w scales biases r m)).
Proof.
  intros Hw Hs Hbs Hb HR HG Hgs HM HMG.
  pose proof (el_per_int_pos bits Hb) as He.
  destruct (affine_quantize_given_fallback_words w scales biases R_ G gs M
              bits (idiv 32 bits) Hw Hs Hbs Hb HR HG Hgs HM HMG)
    as (p & Hp & Hps & Hpd & Hpat).
  unfold affine_quantize_given.
  replace (bits =? 0) with false
    by (destruct Hb as [->|[->| ->]]; reflexivity).
  destruct (Device_eqb _ gpu).
  - eexists. split; [reflexivity|].
    real_primitives. unfold mk_array, node_outputs.
    cbn [fallback_of]. rewrite Hp.
    cbn [nth t_shape t_dtype t_at shape Lib].
    rewrite (shape_at_last2 w R_ (G * gs) Hw), Hw, (idiv_el bits Hb).
    split; [|split; [reflexivity|exact Hpat]].
    unfold set_back, idiv. cbn [removelast app]. do 2 f_equal.
    rewrite <- HMG. apply Z.quot_mul. lia.
  - rewrite Hp. cbn [first]. exists p. auto.
Qed.

End QuantizeGiven.

Section DequantizeOnReals.
Variable ds : Stream.
Import Real.

Lemma denotes_shape_eq (a : tensor) sh sh' f :
  denotes a sh f -> sh = sh' -> denotes a sh' f.
Proof. now intros H <-. Qed.

Lemma nth_error_map_seq {A} (f : nat -> A) (s n k : nat) (t : A) :
  nth_error (map f (seq s n)) k = Some t -> t = f (s + k)%nat.
Proof.
  intros H.
  assert (Hk : (k < n)%nat).
  { assert (k < List.length (map f (seq s n)))%nat as Hl
      by (apply nth_error_Some; congruence).
    now rewrite length_map, length_seq in Hl. }
  apply (nth_error_nth _ _ (f 0%nat)) in H.
  now rewrite map_nth, seq_nth in H by assumption.
Qed.

(** The unpacking loop of the dequantize fallback on a matrix of words:
    part [k] holds field [k] of every word. *)
Lemma denotes_unpacked (p : tensor) (R_ M bits : Z) (W : Z -> Z -> Z) :
  t_shape p = [R_; M] -> supported_bits bits ->
  (forall r m, 0 <= r < R_ -> 0 <= m < M -> t_at p [r; m] = IZR (W r m)) ->
  denotes (concatenate (dequantize_parts (L := Lib ds) 32 p bits 0) (-1))
          [R_; M; 32 / bits]
          (fun idx =>
             IZR (Codec.field bits (bits * nth 2 idx 0)
                              (W (nth 0 idx 0) (nth 1 idx 0)))).
Proof.
  intros Hp Hb HW.
  pose proof (el_per_int_pos bits Hb) as He.
  assert (Hpos : 0 < bits) by (destruct Hb as [->|[->| ->]]; lia).
  pose proof (el_per_int_fill bits Hb) as Hfill.
  rewrite (dequantize_parts_supported p bits Hb).
  real_primitives.
  match goal with |- context [map ?f (seq 0 _)] => set (part := f) end.
  set (FP := fun (j : nat) (idx : list Z) =>
               Rshr (Rshl (t_at p [nth 0 idx 0; nth 1 idx 0])
                          (IZR (32 - (bits * Z.of_nat j + bits))))
                    (IZR (32 - bits))).
  assert (Dp : denotes p [R_; M] (t_at p)) by (split; auto).
  assert (Dpart : forall j, denotes (part j) [R_; M; 1] (FP j)).
  { intros j. subst part FP. cbv beta.
    apply (denotes_expand_last _ R_ M
             (fun i => Rshr (Rshl (t_at p i)
                                  (IZR (32 - (bits * Z.of_nat j + bits))))
                            (IZR (32 - bits)))).
    apply (denotes_binary_scalar Rshr _ _ [R_; M]
             (fun i => Rshl (t_at p i)
                            (IZR (32 - (bits * Z.of_nat j + bits))))
             (IZR (32 - bits))); [|reflexivity|reflexivity].
    apply (denotes_binary_scalar Rshl _ _ [R_; M] (t_at p)
             (IZR (32 - (bits * Z.of_nat j + bits))));
      [exact Dp|reflexivity|reflexivity]. }
  destruct (Z.to_nat (32 / bits)) as [|n] eqn:En; [lia|].
  cbn [seq map]. unfold concatenate.
  rewrite (proj1 (Dpart 0%nat)).
  change (norm_axis (rank [R_; M; 1]) (-1)) with 2%nat.
  pose proof (denotes_concat_parts R_ M (map part (seq 1 n)) (part 0%nat) 1
                (FP 0%nat) (fun k => FP (S k)) (Dpart 0%nat) ltac:(lia)) as Dc.
  assert (Hparts : forall k t,
             nth_error (map part (seq 1 n)) k = Some t ->
             denotes t [R_; M; 1] (FP (S k))).
  { intros k t Hk. apply nth_error_map_seq in Hk. subst t. apply Dpart. }
  specialize (Dc Hparts).
  rewrite length_map, length_seq in Dc.
  apply (denotes_shape_eq _ _ [R_; M; 32 / bits]) in Dc;
    [|do 3 f_equal; lia].
  apply (denotes_ext _ _ _ _ Dc).
  intros idx Hi. apply in_bounds3 in Hi.
  destruct Hi as (r & m & k & -> & Hr & Hm & Hk).
  cbn [nth]. subst FP. cbv beta. cbn [nth].
  rewrite (HW r m Hr Hm).
  destruct (k <? 1) eqn:E.
  - replace k with 0 by lia. cbn [Z.of_nat].
    apply shift_mask_field; nia.
  - replace (Z.of_nat (S (Z.to_nat (k - 1)))) with k by lia.
    apply shift_mask_field; nia.
Qed.

(** The fallback of [affine_dequantize] on a matrix of words. *)
Lemma affine_dequantize_fallback_fields (p scales biases : tensor)
    (R_ M G gs bits el : Z) (W : Z -> Z -> Z) :
  t_shape p = [R_; M] ->
  t_shape scales = [R_; G] -> t_shape biases = [R_; G] ->
  supported_bits bits -> 0 < R_ -> 0 < G -> 0 < gs -> 0 < M ->
  M * (32 / bits) = G * gs ->
  (forall r m, 0 <= r < R_ -> 0 <= m < M -> t_at p [r; m] = IZR (W r m)) ->
  exists y,
    affine_dequantize_fallback (L := Lib ds) [R_; -1] [R_; -1] gs bits el
      [p; scales; biases] = [y]
    /\ t_shape y = [R_; G * gs]
    /\ forall r c, 0 <= r < R_ -> 0 <= c < G * gs ->
         t_at y [r; c]
         = (IZR (Codec.field bits (bits * (c mod (32 / bits)))
                             (W r (c / (32 / bits))%Z))
            * t_at scales [r; (c / gs)%Z]
            + t_at biases [r; (c / gs)%Z])%R.
Proof.
  intros Hp Hs Hbs Hb HR HG Hgs HM HMG HW.
  pose proof (el_per_int_pos bits Hb) as He.
  unfold affine_dequantize_fallback.
  pose proof (denotes_unpacked p R_ M bits W Hp Hb HW) as D1.
  real_primitives_in D1. real_primitives. cbn [app].
  assert (Dsc : denotes scales [R_; G] (t_at scales)) by (split; auto).
  assert (Dbi : denotes biases [R_; G] (t_at biases)) by (split; auto).
  pose proof (denotes_regroup _ R_ M (32 / bits) G gs _ [R_; -1; gs] D1
                (infer_middle R_ G gs (prod [R_; M; 32 / bits]) HR Hgs
                   ltac:(cbn [prod fold_right]; rewrite <- HMG; ring))
                HR HM He HG Hgs HMG) as D2.
  pose proof (denotes_binary_keepdims Rmult _ _ [R_; G] gs _ _ D2
                (denotes_expand_last scales R_ G _ Dsc)) as D3.
  pose proof (denotes_binary_keepdims Rplus _ _ [R_; G] gs _ _ D3
                (denotes_expand_last biases R_ G _ Dbi)) as D4.
  pose proof (denotes_ungroup _ R_ G gs _ [R_; -1] D4
                (infer_last R_ (G * gs) (prod [R_; G; gs]) HR
                   ltac:(cbn [prod fold_right]; ring))
                HR HG Hgs) as D5.
  eexists. split; [reflexivity|]. split; [exact (proj1 D5)|].
  intros r c Hr Hc. rewrite (proj2 D5) by (simpl; lia).
  cbn [nth removelast app]. cbv zeta.
  pose proof (Z.div_mod c gs ltac:(lia)) as Hdm.
  replace (c / gs * gs + c mod gs) with c by lia. reflexivity.
Qed.

Lemma list_Z_eqb_refl (l : list Z) : list_Z_eqb l l = true.
Proof. unfold list_Z_eqb. now destruct (list_eq_dec Z.eq_dec l l). Qed.

(** [affine_dequantize] on a matrix of words, on a stream that is not a
    GPU stream: the call runs the closure itself. *)
Lemma affine_dequantize_fields (p scales biases : tensor)
    (R_ M G gs bits : Z) (W : Z -> Z -> Z) (s_ : StreamOrDevice) :
  device (to_stream ds s_) <> gpu ->
  t_shape p = [R_; M] -> t_dtype p = uint32 ->
  t_shape scales = [R_; G] -> t_shape biases = [R_; G] ->
  supported_bits bits -> 0 < R_ -> 0 < G -> 0 < gs -> 0 < M ->
  M * (32 / bits) = G * gs ->
  (forall r m, 0 <= r < R_ -> 0 <= m < M -> t_at p [r; m] = IZR (W r m)) ->
  exists y,
    affine_dequantize (L := Lib ds) p scales biases gs bits s_ = Return y
    /\ t_shape y = [R_; G * gs]
    /\ forall r c, 0 <= r < R_ -> 0 <= c < G * gs ->
         t_at y [r; c]
         = (IZR (Codec.field bits (bits * (c mod (32 / bits)))
                             (W r (c / (32 / bits))%Z))
            * t_at scales [r; (c / gs)%Z]
            + t_at biases [r; (c / gs)%Z])%R.
Proof.
  intros Hcpu Hp Hpt Hs Hbs Hb HR HG Hgs HM HMG HW.
  destruct (affine_dequantize_fallback_fields p scales biases R_ M G gs bits
              (idiv 32 bits) W Hp Hs Hbs Hb HR HG Hgs HM HMG HW)
    as (y & Hy & Hys & Hyat).
  unfold affine_dequantize.
  replace (bits <=? 0) with false
    by (destruct Hb as [->|[->| ->]]; reflexivity).
  replace (gs <=? 0) with false by lia.
  rewrite (ndim2 ds p R_ M Hp), (ndim2 ds scales R_ G Hs),
    (ndim2 ds biases R_ G Hbs).
  rewrite (shape_at_last2 ds p R_ M Hp), (shape_at_last2 ds scales R_ G Hs).
  cbn [Z.ltb Z.compare orb shape dtype Lib]. rewrite Hp, Hs, Hbs, Hpt.
  unfold set_back. cbn [removelast app].
  rewrite list_Z_eqb_refl. cbn [negb orb Dtype_eqb].
  replace (M * idiv 32 bits =? G * gs) with true
    by (rewrite (idiv_el bits Hb); lia).
  cbn [negb].
  destruct (Device_eqb _ gpu) eqn:Ed.
  - apply Device_eqb_eq in Ed. contradiction.
  - rewrite Hy. cbn [first]. exists y. auto.
Qed.

End DequantizeOnReals.

Section RoundingError.
Import Real.

(** [round] moves a value by at most one half. *)
Lemma rint_bounds (x : R) : (x - / 2 <= IZR (rint x) <= x + / 2)%R.
Proof.
  unfold rint. cbv zeta. unfold Rfloor.
  destruct (base_Int_part (x + / 2)) as [H1 H2].
  set (n := Int_part (x + / 2)) in *.
  destruct (Req_dec_T (IZR n) (x + / 2)) as [E|E].
  - destruct (Z.even n); [|rewrite minus_IZR]; lra.
  - lra.
Qed.

Lemma rint_near (x : R) : (Rabs (IZR (rint x) - x) <= / 2)%R.
Proof. pose proof (rint_bounds x). apply Rabs_le. lra. Qed.

(** A value within the levels is not clipped. *)
Lemma quantize_level_in_range (bits : Z) (x : R) :
  0 <= bits -> (0 <= x <= IZR (2 ^ bits - 1))%R ->
  quantize_level bits x = rint x.
Proof.
  intros Hb [H0 H1]. unfold quantize_level.
  pose proof (rint_bounds x) as Hn.
  assert (L0 : -1 < rint x) by (apply lt_IZR; lra).
  assert (L1 : rint x < 2 ^ bits - 1 + 1)
    by (apply lt_IZR; rewrite plus_IZR; lra).
  lia.
Qed.

(** What a level gives back is within half a scale of what it stored. *)
Lemma dequantized_near (bits : Z) (v s b : R) :
  0 <= bits -> s <> 0%R -> (0 <= (v - b) / s <= IZR (2 ^ bits - 1))%R ->
  (Rabs (IZR (quantize_level bits ((v - b) / s)) * s + b - v)
   <= Rabs s / 2)%R.
Proof.
  intros Hb Hs Hx. rewrite (quantize_level_in_range bits _ Hb Hx).
  set (x := ((v - b) / s)%R).
  replace (IZR (rint x) * s + b - v)%R with ((IZR (rint x) - x) * s)%R
    by (subst x; field; exact Hs).
  rewrite Rabs_mult.
  pose proof (rint_near x) as Hn. pose proof (Rabs_pos s) as Hp.
  replace (Rabs s / 2)%R with (/ 2 * Rabs s)%R by lra.
  now apply Rmult_le_compat_r.
Qed.

End RoundingError.

Section CodecWords.
Import Codec.

(** The levels of a word, packed without wrap-around and unpacked by the
    loop. *)
Lemma unpack_packed_value (bits : Z) (qs : list Z) :
  supported_bits bits -> List.length qs = Z.to_nat (32 / bits) ->
  Forall (level bits) qs ->
  0 <= packed_value bits qs < 2 ^ 32
  /\ forall k, (k < List.length qs)%nat ->
       field bits (bits * Z.of_nat k) (packed_value bits qs) = nth k qs 0.
Proof.
  intros Hb Hlen Hq.
  assert (Hpos : 0 < bits) by (destruct Hb as [->|[->| ->]]; lia).
  assert (Hfill : bits * Z.of_nat (Z.to_nat (32 / bits)) = 32)
    by (destruct Hb as [->|[->| ->]]; reflexivity).
  pose proof (packed_value_bounds bits qs Hpos Hq) as Hbound.
  rewrite Hlen, Hfill in Hbound.
  split; [exact Hbound|].
  intros k Hk.
  rewrite field_digit; [now apply packed_value_digit|lia|nia| |exact Hbound].
  assert (Z.of_nat k + 1 <= Z.of_nat (List.length qs)) as H by lia.
  rewrite Hlen in H. nia.
Qed.

Lemma nth_unpack_word (bits w : Z) (k : nat) :
  supported_bits bits -> (k < Z.to_nat (32 / bits))%nat ->
  nth k (unpack_word bits w) 0 = field bits (bits * Z.of_nat k) w.
Proof.
  intros Hb Hk. rewrite (unpack_word_fields bits w Hb).
  rewrite (nth_indep _ 0 (field bits (bits * Z.of_nat 0) w))
    by (now rewrite length_map, length_seq).
  rewrite (map_nth (fun k => field bits (bits * Z.of_nat k) w)).
  now rewrite seq_nth.
Qed.

Lemma field_level (bits start w : Z) :
  0 < bits -> 0 <= start -> start + bits <= 32 -> 0 <= w < 2 ^ 32 ->
  level bits (field bits start w).
Proof.
  intros Hb Hs Hsb Hw. rewrite field_digit by assumption.
  unfold level.
  assert (0 < 2 ^ bits) by (apply Z.pow_pos_nonneg; lia).
  pose proof (Z.mod_pos_bound (w / 2 ^ start) (2 ^ bits) ltac:(lia)). lia.
Qed.

End CodecWords.

Section QuantizeRoundTrip.
Variable ds : Stream.

Lemma word_levels_length (gs bits : Z) (w s b : Real.tensor) (r m : Z) :
  List.length (word_levels gs bits w s b r m) = Z.to_nat (32 / bits).
Proof. unfold word_levels. now rewrite length_map, length_seq. Qed.

Lemma word_levels_level (gs bits : Z) (w s b : Real.tensor) (r m : Z) :
  0 <= bits -> Forall (Codec.level bits) (word_levels gs bits w s b r m).
Proof.
  intros Hb. unfold word_levels. apply Forall_map, Forall_forall.
  intros k _. now apply quantize_level_level.
Qed.

Lemma word_levels_nth (gs bits : Z) (w s b : Real.tensor) (r m : Z)
    (k : nat) :
  (k < Z.to_nat (32 / bits))%nat ->
  nth k (word_levels gs bits w s b r m) 0
  = stored_level gs bits w s b r (m * (32 / bits) + Z.of_nat k).
Proof.
  intros Hk. unfold word_levels.
  rewrite (nth_indep _ 0
             (stored_level gs bits w s b r (m * (32 / bits) + Z.of_nat 0)))
    by (now rewrite length_map, length_seq).
  rewrite (map_nth (fun k => stored_level gs bits w s b r
                               (m * (32 / bits) + Z.of_nat k))).
  now rewrite seq_nth.
Qed.

(** What [affine_quantize] with given scales and biases stores.  On a
    floating-point matrix [w] of [G] groups of [group_size] columns a
    row, with one scale and one bias a group, and for 2, 4 or 8 bits: the
    result is a [uint32] matrix with [32 / bits] columns of [w] to a word;
    every entry is a 32-bit word, and the unpacking loop of dequantize
    reads from it the levels
    [clip(round((w - bias) / scale), 0, 2^bits - 1)] of its columns, first
    column first; on a GPU stream and off it, over exact reals. *)
Theorem affine_quantize_given_packs (w scales biases : Real.tensor)
    (R_ G group_size M bits : Z) (s_ : StreamOrDevice) :
  Real.t_shape w = [R_; G * group_size] ->
  Real.is_float (Real.t_dtype w) = true ->
  Real.t_shape scales = [R_; G] -> Real.t_shape biases = [R_; G] ->
  supported_bits bits -> 0 < R_ -> 0 < G -> 0 < group_size ->
  M * (32 / bits) = G * group_size ->
  exists p,
    affine_quantize_given (L := Real.Lib ds) w scales biases group_size bits
                          s_ = Return p
    /\ Real.t_shape p = [R_; M] /\ Real.t_dtype p = uint32
    /\ forall r m, 0 <= r < R_ -> 0 <= m < M ->
         exists word,
           Real.t_at p [r; m] = IZR word /\ 0 <= word < 2 ^ 32
           /\ Codec.unpack_word bits word
              = word_levels group_size bits w scales biases r m.
Proof.
  intros Hw _ Hs Hbs Hb HR HG Hgs HMG.
  pose proof (el_per_int_pos bits Hb) as He.
  assert (Hpos : 0 < bits) by (destruct Hb as [->|[->| ->]]; lia).
  assert (HM : 0 < M) by nia.
  destruct (affine_quantize_given_words ds w scales biases R_ G group_size M
              bits s_ Hw Hs Hbs Hb HR HG Hgs HM HMG)
    as (p & Hp & Hps & Hpd & Hpat).
  exists p. repeat (split; [assumption|]).
  intros r m Hr Hm.
  set (qs := word_levels group_size bits w scales biases r m) in *.
  assert (Hb0 : 0 <= bits) by lia.
  destruct (unpack_packed_value bits qs Hb
              (word_levels_length _ _ _ _ _ _ _)
              (word_levels_level _ _ _ _ _ _ _ Hb0))
    as [Hbound Hfield].
  exists (Codec.packed_value bits qs).
  split; [now apply Hpat|]. split; [exact Hbound|].
  assert (Hlen : List.length qs = Z.to_nat (32 / bits))
    by apply word_levels_length.
  rewrite (unpack_word_fields _ _ Hb).
  transitivity (map (fun k => nth k qs 0) (seq 0 (List.length qs)));
    [|apply map_nth_seq].
  rewrite Hlen.
  apply map_ext_in. intros k Hk. apply in_seq in Hk.
  apply Hfield. lia.
Qed.

(** What [affine_dequantize] reads.  On a [uint32] matrix of words with
    scales and biases of [G] groups a row, for 2, 4 or 8 bits and
    [M * (32 / bits) = G * group_size]: the result has [32 / bits] columns
    a word, and column [c] of a row is [q * scale + bias], with [q] the
    field number [c mod (32 / bits)] of word [c / (32 / bits)], a level
    in [0, 2^bits - 1], and the scale and the bias of group
    [c / group_size]; on a stream that is not a GPU stream, where the
    call runs the unpacking itself, over exact reals. *)
Theorem affine_dequantize_unpacks (p scales biases : Real.tensor)
    (R_ M G group_size bits : Z) (word : Z -> Z -> Z)
    (s_ : StreamOrDevice) :
  device (Real.to_stream ds s_) <> gpu ->
  Real.t_shape p = [R_; M] -> Real.t_dtype p = uint32 ->
  Real.t_shape scales = [R_; G] -> Real.t_shape biases = [R_; G] ->
  supported_bits bits -> 0 < R_ -> 0 < G -> 0 < group_size ->
  M * (32 / bits) = G * group_size ->
  (forall r m, 0 <= r < R_ -> 0 <= m < M ->
     Real.t_at p [r; m] = IZR (word r m) /\ 0 <= word r m < 2 ^ 32) ->
  exists y,
    affine_dequantize (L := Real.Lib ds) p scales biases group_size bits s_
    = Return y
    /\ Real.t_shape y = [R_; M * (32 / bits)]
    /\ forall r c, 0 <= r < R_ -> 0 <= c < M * (32 / bits) ->
         let q := nth (Z.to_nat (c mod (32 / bits)))
                      (Codec.unpack_word bits (word r (c / (32 / bits)))) 0 in
         Codec.level bits q
         /\ Real.t_at y [r; c]
            = (IZR q * Real.t_at scales [r; (c / group_size)%Z]
               + Real.t_at biases [r; (c / group_size)%Z])%R.
Proof.
  intros Hcpu Hp Hpt Hs Hbs Hb HR HG Hgs HMG HW.
  pose proof (el_per_int_pos bits Hb) as He.
  assert (Hpos : 0 < bits) by (destruct Hb as [->|[->| ->]]; lia).
  pose proof (el_per_int_fill bits Hb) as Hfill.
  assert (HM : 0 < M) by nia.
  destruct (affine_dequantize_fields ds p scales biases R_ M G group_size
              bits word s_ Hcpu Hp Hpt Hs Hbs Hb HR HG Hgs HM HMG
              (fun r m Hr Hm => proj1 (HW r m Hr Hm)))
    as (y & Hy & Hys & Hyat).
  exists y. split; [exact Hy|]. split; [now rewrite HMG|].
  intros r c Hr Hc. cbv zeta.
  pose proof (Z.mod_pos_bound c (32 / bits) He) as Hk.
  assert (Hm : 0 <= c / (32 / bits) < M).
  { split; [apply Z.div_pos; lia|].
    apply Z.div_lt_upper_bound; [lia|]. rewrite Z.mul_comm. lia. }
  rewrite (nth_unpack_word bits _ _ Hb) by lia.
  rewrite Z2Nat.id by lia.
  split.
  - apply field_level; [lia|nia| |exact (proj2 (HW r _ Hr Hm))].
    rewrite Z2Nat.id in Hfill by lia. nia.
  - apply Hyat; [exact Hr|lia].
Qed.

(** [affine_dequantize] on words that hold the levels of [w], on a
    stream that is not a GPU stream. *)
Lemma dequantize_packed_levels (w p scales biases : Real.tensor)
    (R_ G group_size M bits : Z) (s_ : StreamOrDevice) :
  device (Real.to_stream ds s_) <> gpu ->
  Real.t_shape p = [R_; M] -> Real.t_dtype p = uint32 ->
  Real.t_shape scales = [R_; G] -> Real.t_shape biases = [R_; G] ->
  supported_bits bits -> 0 < R_ -> 0 < G -> 0 < group_size -> 0 < M ->
  M * (32 / bits) = G * group_size ->
  (forall r m, 0 <= r < R_ -> 0 <= m < M ->
     Real.t_at p [r; m]
     = IZR (Codec.packed_value bits
              (word_levels group_size bits w scales biases r m))) ->
  exists y,
    affine_dequantize (L := Real.Lib ds) p scales biases group_size bits s_
    = Return y
    /\ Real.t_shape y = [R_; G * group_size]
    /\ forall r c, 0 <= r < R_ -> 0 <= c < G * group_size ->
         Real.t_at y [r; c]
         = (IZR (stored_level group_size bits w scales biases r c)
            * Real.t_at scales [r; (c / group_size)%Z]
            + Real.t_at biases [r; (c / group_size)%Z])%R.
Proof.
  intros Hcpu Hps Hpd Hs Hbs Hb HR HG Hgs HM HMG Hpat.
  pose proof (el_per_int_pos bits Hb) as He.
  assert (Hpos : 0 < bits) by (destruct Hb as [->|[->| ->]]; lia).
  destruct (affine_dequantize_fields ds p scales biases R_ M G group_size
              bits
              (fun r m => Codec.packed_value bits
                            (word_levels group_size bits w scales biases r m))
              s_ Hcpu Hps Hpd Hs Hbs Hb HR HG Hgs HM HMG Hpat)
    as (y & Hy & Hys & Hyat).
  exists y. split; [exact Hy|]. split; [exact Hys|].
  intros r c Hr Hc.
  rewrite (Hyat r c Hr Hc). do 3 f_equal.
  pose proof (Z.mod_pos_bound c (32 / bits) He) as Hk.
  set (qs := word_levels group_size bits w scales biases r
                         (c / (32 / bits))).
  assert (Hb0 : 0 <= bits) by lia.
  destruct (unpack_packed_value bits qs Hb
              (word_levels_length _ _ _ _ _ _ _)
              (word_levels_level _ _ _ _ _ _ _ Hb0))
    as [_ Hfield].
  specialize (Hfield (Z.to_nat (c mod (32 / bits)))).
  rewrite Z2Nat.id in Hfield by lia.
  rewrite Hfield by (unfold qs; rewrite word_levels_length; lia).
  unfold qs. rewrite word_levels_nth by lia.
  rewrite Z2Nat.id by lia. f_equal.
  pose proof (Z.div_mod c (32 / bits) ltac:(lia)). lia.
Qed.

(** Quantizing with given scales and biases and dequantizing again.  On
    a floating-point matrix [w] of [G] groups of [group_size] columns a
    row, with one scale and one bias a group, for 2, 4 or 8 bits and a row
    that fills whole words: both calls return, the result has the shape of
    [w], and entry [r, c] is [q * scale + bias] with
    [q = clip(round((w - bias) / scale), 0, 2^bits - 1)]; where the scale
    is not zero and [(w - bias) / scale] lies within the levels, the entry
    is within half a scale of the entry of [w].  The quantizing call is on
    either kind of stream, the dequantizing call on a stream that is not
    a GPU stream, where it runs the unpacking itself; over exact reals. *)
Theorem dequantize_quantize_round_trip (w scales biases : Real.tensor)
    (R_ G group_size M bits : Z) (s1 s2 : StreamOrDevice) :
  device (Real.to_stream ds s2) <> gpu ->
  Real.t_shape w = [R_; G * group_size] ->
  Real.is_float (Real.t_dtype w) = true ->
  Real.t_shape scales = [R_; G] -> Real.t_shape biases = [R_; G] ->
  supported_bits bits -> 0 < R_ -> 0 < G -> 0 < group_size ->
  M * (32 / bits) = G * group_size ->
  exists p y,
    affine_quantize_given (L := Real.Lib ds) w scales biases group_size bits
                          s1 = Return p
    /\ affine_dequantize (L := Real.Lib ds) p scales biases group_size bits
                         s2 = Return y
    /\ Real.t_shape y = Real.t_shape w
    /\ forall r c, 0 <= r < R_ -> 0 <= c < G * group_size ->
         let s := Real.t_at scales [r; c / group_size] in
         let b := Real.t_at biases [r; c / group_size] in
         Real.t_at y [r; c]
         = (IZR (stored_level group_size bits w scales biases r c) * s + b)%R
         /\ (s <> 0%R ->
             (0 <= (Real.t_at w [r; c] - b) / s <= IZR (2 ^ bits - 1))%R ->
             (Rabs (Real.t_at y [r; c] - Real.t_at w [r; c])
              <= Rabs s / 2)%R).
Proof.
  intros Hcpu Hw _ Hs Hbs Hb HR HG Hgs HMG.
  pose proof (el_per_int_pos bits Hb) as He.
  assert (Hpos : 0 < bits) by (destruct Hb as [->|[->| ->]]; lia).
  assert (HM : 0 < M) by nia.
  destruct (affine_quantize_given_words ds w scales biases R_ G group_size M
              bits s1 Hw Hs Hbs Hb HR HG Hgs HM HMG)
    as (p & Hp & Hps & Hpd & Hpat).
  destruct (dequantize_packed_levels w p scales biases R_ G group_size M
              bits s2 Hcpu Hps Hpd Hs Hbs Hb HR HG Hgs HM HMG Hpat)
    as (y & Hy & Hys & Hyat).
  exists p, y. split; [exact Hp|]. split; [exact Hy|].
  split; [now rewrite Hys, Hw|].
  intros r c Hr Hc. cbv zeta.
  split; [exact (Hyat r c Hr Hc)|].
  intros Hs0 Hx. rewrite (Hyat r c Hr Hc).
  apply (dequantized_near bits); [lia|exact Hs0|exact Hx].
Qed.

End QuantizeRoundTrip.

Section ScaleScalars.
Import Real.

Lemma rint_0 : rint 0 = 0.
Proof.
  pose proof (rint_bounds 0) as H.
  assert (-1 < rint 0) by (apply lt_IZR; lra).
  assert (rint 0 < 1) by (apply lt_IZR; lra).
  lia.
Qed.

(** The scale of a group, as the quantize fallback settles it from the
    edge [e] of the group: never zero. *)
Lemma settled_scale_nonzero (hi lo nb e m eps : R) :
  (0 < eps)%R ->
  let s1 := Rmax ((hi - lo) / nb) eps in
  let s2 := if Reqb m 0 then (- s1)%R else s1 in
  let q0 := Rrint (e / s2) in
  (if Reqb (Rbool (negb (Reqb q0 0))) 0 then s2 else (e / q0)%R) <> 0%R.
Proof.
  intros He s1 s2 q0.
  assert (H1 : (0 < s1)%R)
    by (pose proof (Rmax_r ((hi - lo) / nb) eps); subst s1; lra).
  assert (H2 : s2 <> 0%R) by (subst s2; destruct (Reqb m 0); lra).
  unfold Reqb at 2. destruct (Req_dec_T q0 0) as [E|E]; cbn [negb Rbool].
  - unfold Reqb. destruct (Req_dec_T 0 0); [exact H2|lra].
  - unfold Reqb. destruct (Req_dec_T 1 0) as [A|_]; [lra|].
    assert (e <> 0)%R.
    { intros ->. apply E. subst q0. unfold Rdiv. rewrite Rmult_0_l.
      now rewrite Rrint_rint, rint_0. }
    unfold Rdiv. apply Rmult_integral_contrapositive_currified;
      [assumption|now apply Rinv_neq_0_compat].
Qed.

End ScaleScalars.

Section Selection.
Import Real.

Lemma bshape_nil_l (sh : list Z) : bshape [] sh = sh.
Proof. unfold bshape. cbn [rev bshape_rev]. apply rev_involutive. Qed.

Lemma denotes_compare (g : R -> R -> bool) (a b : tensor) sh fa fb :
  denotes a sh fa -> denotes b sh fb ->
  denotes (compare g a b) sh (fun idx => Rbool (g (fa idx) (fb idx))).
Proof.
  intros [Hsa Hfa] [Hsb Hfb]. split.
  - cbn. rewrite Hsa, Hsb. apply bshape_same.
  - intros idx Hi. cbn. rewrite Hsa, Hsb, (bidx_same _ _ Hi).
    now rewrite Hfa, Hfb.
Qed.

Lemma denotes_compare_scalar (g : R -> R -> bool) (a b : tensor) sh fa :
  denotes a sh fa -> t_shape b = [] ->
  denotes (compare g a b) sh (fun idx => Rbool (g (fa idx) (t_at b []))).
Proof.
  intros [Hsa Hfa] Hsb. split.
  - cbn. rewrite Hsa, Hsb. pose proof (bshape_suffix sh []) as H.
    now rewrite app_nil_r in H.
  - intros idx Hi. cbn. rewrite Hsa, Hsb, (bidx_same _ _ Hi).
    now rewrite Hfa.
Qed.

Lemma denotes_where (c a b : tensor) sh fc fa fb :
  denotes c sh fc -> denotes a sh fa -> denotes b sh fb ->
  denotes (where_ c a b) sh
          (fun idx => if Reqb (fc idx) 0 then fb idx else fa idx).
Proof.
  intros [Hsc Hfc] [Hsa Hfa] [Hsb Hfb]. split.
  - cbn. rewrite Hsc, Hsa, Hsb. now rewrite !bshape_same.
  - intros idx Hi. cbn. rewrite Hsc, Hsa, Hsb, (bidx_same _ _ Hi).
    now rewrite Hfc, Hfa, Hfb.
Qed.

(** [where] with a 0-dimensional first choice. *)
Lemma denotes_where_scalar (c a b : tensor) sh fc fb :
  denotes c sh fc -> t_shape a = [] -> denotes b sh fb ->
  denotes (where_ c a b) sh
          (fun idx => if Reqb (fc idx) 0 then fb idx else t_at a []).
Proof.
  intros [Hsc Hfc] Hsa [Hsb Hfb]. split.
  - cbn. rewrite Hsc, Hsa, Hsb. now rewrite bshape_nil_l, bshape_same.
  - intros idx Hi. cbn. rewrite Hsc, Hsa, Hsb, (bidx_same _ _ Hi).
    now rewrite Hfc, Hfb.
Qed.

Lemma reduce_last_shape (red : Z -> (Z -> R) -> R) (a : tensor)
    (pre : list Z) (D : Z) :
  t_shape a = pre ++ [D] -> t_shape (reduce red a [-1] true) = pre ++ [1].
Proof.
  intros Hs. unfold reduce, norm_axes. cbn [map fold_left].
  rewrite Hs, norm_axis_last. unfold reduce_axis. cbn [t_shape].
  rewrite Hs. now apply set_nth_snoc.
Qed.

End Selection.

Section QuantizeMain.
Variable ds : Stream.
Import Real.

Lemma eps_pos : (0 < 1 / 10 ^ 7)%R.
Proof. apply Rdiv_lt_0_compat; [lra|apply pow_lt; lra]. Qed.

(** The fallback of [affine_quantize] on a matrix. *)
Lemma affine_quantize_fallback_parts (w : tensor) (R_ G gs M bits el : Z) :
  t_shape w = [R_; G * gs] ->
  supported_bits bits -> 0 < R_ -> 0 < G -> 0 < gs -> 0 < M ->
  M * (32 / bits) = G * gs ->
  exists wq sc bi,
    affine_quantize_fallback (L := Lib ds) gs bits el [w] = [wq; sc; bi]
    /\ t_shape wq = [R_; M] /\ t_dtype wq = uint32
    /\ t_shape sc = [R_; G] /\ t_shape bi = [R_; G]
    /\ (forall r g, 0 <= r < R_ -> 0 <= g < G -> t_at sc [r; g] <> 0%R)
    /\ forall r m, 0 <= r < R_ -> 0 <= m < M ->
         t_at wq [r; m]
         = IZR (Codec.packed_value bits (word_levels gs bits w sc bi r m)).
Proof.
  intros Hw Hb HR HG Hgs HM HMG.
  pose proof (el_per_int_pos bits Hb) as He.
  unfold affine_quantize_fallback.
  rewrite (shape_at_last2 ds w R_ (G * gs) Hw).
  cbn [shape dtype Lib]. rewrite Hw.
  replace (idiv (G * gs) gs) with G
    by (unfold idiv; now rewrite Z.quot_mul by lia).
  real_primitives.
  assert (Dw : denotes w [R_; G * gs] (t_at w)) by (split; auto).
  pose proof (denotes_group w R_ G gs _ Dw HR HG Hgs) as D1.
  set (pw := reshape w [-1; G; gs]) in *.
  set (wmax := max pw [-1] true). set (wmin := min pw [-1] true).
  assert (Dmax : denotes wmax [R_; G; 1] (t_at wmax))
    by (split; [exact (reduce_last_shape _ pw [R_; G] gs (proj1 D1))
               |reflexivity]).
  assert (Dmin : denotes wmin [R_; G; 1] (t_at wmin))
    by (split; [exact (reduce_last_shape _ pw [R_; G] gs (proj1 D1))
               |reflexivity]).
  pose proof (denotes_compare Rgtb _ _ _ _ _
                (denotes_unary Rabs _ _ _ Dmin)
                (denotes_unary Rabs _ _ _ Dmax)) as Dmask.
  set (zero := array_of 0 (t_dtype w)).
  set (n_bins := array_of (IZR (Z.shiftl 1 bits - 1)) (t_dtype w)).
  set (eps := array_of (1 / 10 ^ 7) (t_dtype w)).
  pose proof (denotes_binary Rminus _ _ _ _ _ Dmax Dmin) as Dsub.
  pose proof (denotes_binary_scalar Rdiv _ n_bins _ _ _ Dsub
                eq_refl eq_refl) as Ddiv.
  pose proof (denotes_binary_scalar Rmax _ eps _ _ _ Ddiv
                eq_refl eq_refl) as Ds1.
  pose proof (denotes_where _ _ _ _ _ _ _ Dmask Ds1
                (denotes_unary Ropp _ _ _ Ds1)) as Ds2.
  pose proof (denotes_where _ _ _ _ _ _ _ Dmask Dmin Dmax) as Dedge.
  pose proof (denotes_unary Rrint _ _ _
                (denotes_binary Rdiv _ _ _ _ _ Dedge Ds2)) as Dq0.
  pose proof (denotes_where _ _ _ _ _ _ _
                (denotes_compare_scalar (fun x y => negb (Reqb x y))
                   _ zero _ _ Dq0 eq_refl)
                (denotes_binary Rdiv _ _ _ _ _ Dedge Dq0)
                Ds2) as Ds3.
  pose proof (denotes_where_scalar _ zero _ _ _ _
                (denotes_compare_scalar Reqb _ zero _ _ Dq0 eq_refl)
                eq_refl Dedge) as Db3.
  destruct (pack_and_quantize_words ds _ _ _ R_ G gs M bits _ _ _
              D1 Ds3 Db3 Hb HR HG Hgs HM HMG) as [D4 T4].
  pose proof (denotes_reshape_same _ R_ M _ (set_back [R_; G * gs] (-1)) D4
                (infer_last R_ M (prod [R_; M]) HR
                   ltac:(cbn [prod fold_right]; ring))
                HR HM) as D5.
  pose proof (denotes_shape_eq _ _ [R_; G] _
                (denotes_ungroup _ R_ G 1 _ (set_back [R_; G * gs] (-1)) Ds3
                   (infer_last R_ (G * 1) (prod [R_; G; 1]) HR
                      ltac:(cbn [prod fold_right]; ring))
                   HR HG ltac:(lia))
                ltac:(now rewrite Z.mul_1_r)) as Dsc.
  pose proof (denotes_shape_eq _ _ [R_; G] _
                (denotes_ungroup _ R_ G 1 _ (set_back [R_; G * gs] (-1)) Db3
                   (infer_last R_ (G * 1) (prod [R_; G; 1]) HR
                      ltac:(cbn [prod fold_right]; ring))
                   HR HG ltac:(lia))
                ltac:(now rewrite Z.mul_1_r)) as Dbi.
  do 3 eexists. split; [reflexivity|].
  split; [exact (proj1 D5)|]. split; [exact T4|].
  split; [exact (proj1 Dsc)|]. split; [exact (proj1 Dbi)|]. split.
  - intros r g Hr Hg. rewrite (proj2 Dsc) by (simpl; lia).
    cbn [nth]. apply settled_scale_nonzero. exact eps_pos.
  - intros r m Hr Hm. rewrite (proj2 D5) by (simpl; lia).
    cbn [nth]. f_equal. f_equal. unfold word_levels.
    apply map_ext_in. intros k Hk. apply in_seq in Hk.
    cbv zeta. unfold stored_level.
    set (c := m * (32 / bits) + Z.of_nat k).
    assert (Hc : 0 <= c < G * gs) by (subst c; nia).
    assert (Hg : 0 <= c / gs < G).
    { split; [apply Z.div_pos; lia|].
      apply Z.div_lt_upper_bound; [lia|]. rewrite Z.mul_comm. lia. }
    pose proof (Z.div_mod c gs ltac:(lia)) as Hdm.
    rewrite (proj2 Dsc) by (simpl; lia).
    rewrite (proj2 Dbi) by (simpl; lia).
    cbn [nth]. rewrite Z.div_1_r, Z.mod_1_r.
    replace (c / gs * gs + c mod gs) with c by lia. reflexivity.
Qed.

End QuantizeMain.

Section QuantizeMainApi.
Variable ds : Stream.

Lemma words_fill_groups (G gs bits : Z) :
  supported_group_size gs -> supported_bits bits ->
  G * gs / (32 / bits) * (32 / bits) = G * gs.
Proof.
  intros Hg Hb.
  assert (Hk : gs = gs / (32 / bits) * (32 / bits))
    by (destruct Hg as [->|[->| ->]], Hb as [->|[->| ->]]; reflexivity).
  pose proof (el_per_int_pos bits Hb) as He.
  rewrite Hk at 1 2. rewrite Z.mul_assoc, Z.div_mul by lia. reflexivity.
Qed.

(** [affine_quantize] on a matrix. *)
Lemma affine_quantize_parts (w : Real.tensor) (R_ G gs bits : Z)
    (s_ : StreamOrDevice) :
  Real.t_shape w = [R_; G * gs] ->
  supported_group_size gs -> supported_bits bits ->
  0 < R_ -> 32 * (32 / bits) <= G * gs ->
  exists wq sc bi,
    affine_quantize (L := Real.Lib ds) w gs bits s_ = Return (wq, sc, bi)
    /\ Real.t_shape wq = [R_; G * gs / (32 / bits)]
    /\ Real.t_dtype wq = uint32
    /\ Real.t_shape sc = [R_; G] /\ Real.t_shape bi = [R_; G]
    /\ (forall r g, 0 <= r < R_ -> 0 <= g < G ->
          Real.t_at sc [r; g] <> 0%R)
    /\ forall r m, 0 <= r < R_ -> 0 <= m < G * gs / (32 / bits) ->
         Real.t_at wq [r; m]
         = IZR (Codec.packed_value bits (word_levels gs bits w sc bi r m)).
Proof.
  intros Hw Hg Hb HR Hbig.
  pose proof (el_per_int_pos bits Hb) as He.
  assert (Hgs : 0 < gs) by (destruct Hg as [->|[->| ->]]; lia).
  assert (HG : 0 < G) by nia.
  pose proof (words_fill_groups G gs bits Hg Hb) as HMG.
  set (M := G * gs / (32 / bits)) in *.
  assert (HM : 0 < M) by nia.
  destruct (affine_quantize_fallback_parts ds w R_ G gs M bits
              (idiv 32 bits) Hw Hb HR HG Hgs HM HMG)
    as (wq & sc & bi & Hf & Hwq & Twq & Hsc & Hbi & Hnz & Hat).
  unfold affine_quantize.
  replace (negb (gs =? 32) && negb (gs =? 64) && negb (gs =? 128))
    with false by (destruct Hg as [->|[->| ->]]; reflexivity).
  replace (negb (bits =? 2) && negb (bits =? 4) && negb (bits =? 8))
    with false by (destruct Hb as [->|[->| ->]]; reflexivity).
  rewrite (ndim2 ds w R_ (G * gs) Hw).
  rewrite (shape_at_last2 ds w R_ (G * gs) Hw).
  cbn [Z.ltb Z.compare].
  replace (imod (G * gs) gs =? 0) with true
    by (unfold imod; rewrite Z.rem_mul by lia; reflexivity).
  cbn [negb].
  replace (G * gs <? 32 * idiv 32 bits) with false
    by (rewrite (idiv_el bits Hb); lia).
  destruct (Device_eqb _ gpu).
  - real_primitives. unfold Real.make_arrays.
    cbn [List.length seq map]. unfold Real.node_outputs.
    cbn [fallback_of]. rewrite Hf. cbn [nth].
    do 3 eexists. split; [reflexivity|].
    cbn [Real.t_shape Real.t_dtype Real.t_at shape Real.Lib].
    rewrite Hw. unfold set_back. cbn [removelast app].
    unfold idiv. rewrite (Z.quot_mul G gs) by lia.
    assert (Hpos : 0 < bits) by (destruct Hb as [->|[->| ->]]; lia).
    rewrite (Z.quot_div_nonneg 32 bits) by lia.
    rewrite Z.quot_div_nonneg by lia.
    repeat (split; [reflexivity|]).
    split; [exact Hnz|exact Hat].
  - rewrite Hf. exists wq, sc, bi. split; [reflexivity|].
    repeat (split; [assumption|]). exact Hat.
Qed.

(** What [affine_quantize] returns on a matrix.  For a group size of
    32, 64 or 128, 2, 4 or 8 bits and a floating-point matrix [w] with
    rows of [G] whole groups, long enough to pass the checks: the packed
    matrix is [uint32] with [32 / bits] columns of [w] to a word, scales
    and biases hold one entry a group, no scale is zero, and every entry
    of the packed matrix is a 32-bit word from which the unpacking loop of
    dequantize reads the levels
    [clip(round((w - bias) / scale), 0, 2^bits - 1)] of its columns under
    the returned scales and biases; on a GPU stream and off it, over exact
    reals. *)
Theorem affine_quantize_packs (w : Real.tensor) (R_ G group_size bits : Z)
    (s_ : StreamOrDevice) :
  Real.t_shape w = [R_; G * group_size] ->
  Real.is_float (Real.t_dtype w) = true ->
  supported_group_size group_size -> supported_bits bits ->
  0 < R_ -> 32 * (32 / bits) <= G * group_size ->
  exists wq scales biases,
    affine_quantize (L := Real.Lib ds) w group_size bits s_
    = Return (wq, scales, biases)
    /\ Real.t_shape wq = [R_; G * group_size / (32 / bits)]
    /\ Real.t_dtype wq = uint32
    /\ Real.t_shape scales = [R_; G] /\ Real.t_shape biases = [R_; G]
    /\ (forall r g, 0 <= r < R_ -> 0 <= g < G ->
          Real.t_at scales [r; g] <> 0%R)
    /\ forall r m, 0 <= r < R_ -> 0 <= m < G * group_size / (32 / bits) ->
         exists word,
           Real.t_at wq [r; m] = IZR word /\ 0 <= word < 2 ^ 32
           /\ Codec.unpack_word bits word
              = word_levels group_size bits w scales biases r m.
Proof.
  intros Hw _ Hg Hb HR Hbig.
  assert (Hpos : 0 < bits) by (destruct Hb as [->|[->| ->]]; lia).
  destruct (affine_quantize_parts w R_ G group_size bits s_ Hw Hg Hb HR Hbig)
    as (wq & sc & bi & Hq & Hwq & Twq & Hsc & Hbi & Hnz & Hat).
  exists wq, sc, bi. repeat (split; [assumption|]).
  intros r m Hr Hm.
  set (qs := word_levels group_size bits w sc bi r m) in *.
  assert (Hb0 : 0 <= bits) by lia.
  destruct (unpack_packed_value bits qs Hb
              (word_levels_length _ _ _ _ _ _ _)
              (word_levels_level _ _ _ _ _ _ _ Hb0))
    as [Hbound Hfield].
  exists (Codec.packed_value bits qs).
  split; [now apply Hat|]. split; [exact Hbound|].
  assert (Hlen : List.length qs = Z.to_nat (32 / bits))
    by apply word_levels_length.
  rewrite (unpack_word_fields _ _ Hb).
  transitivity (map (fun k => nth k qs 0) (seq 0 (List.length qs)));
    [|apply map_nth_seq].
  rewrite Hlen.
  apply map_ext_in. intros k Hk. apply in_seq in Hk.
  apply Hfield. lia.
Qed.

(** Quantizing a floating-point matrix and dequantizing what comes
    back.  Under the conditions that [affine_quantize] checks, both calls
    return, the
    result has the shape of [w], and entry [r, c] is [q * scale + bias]
    with the scale and the bias of the group of [c], a scale that is not
    zero, and [q = clip(round((w - bias) / scale), 0, 2^bits - 1)]; where
    [(w - bias) / scale] lies within the levels, the entry is within half
    a scale of the entry of [w].  The quantizing call is on either kind
    of stream, the dequantizing call on a stream that is not a GPU
    stream, where it runs the unpacking itself; over exact reals. *)
Theorem dequantize_affine_quantize (w : Real.tensor)
    (R_ G group_size bits : Z) (s1 s2 : StreamOrDevice) :
  device (Real.to_stream ds s2) <> gpu ->
  Real.t_shape w = [R_; G * group_size] ->
  Real.is_float (Real.t_dtype w) = true ->
  supported_group_size group_size -> supported_bits bits ->
  0 < R_ -> 32 * (32 / bits) <= G * group_size ->
  exists wq scales biases y,
    affine_quantize (L := Real.Lib ds) w group_size bits s1
    = Return (wq, scales, biases)
    /\ affine_dequantize (L := Real.Lib ds) wq scales biases group_size bits
                         s2 = Return y
    /\ Real.t_shape y = Real.t_shape w
    /\ forall r c, 0 <= r < R_ -> 0 <= c < G * group_size ->
         let s := Real.t_at scales [r; c / group_size] in
         let b := Real.t_at biases [r; c / group_size] in
         s <> 0%R
         /\ Real.t_at y [r; c]
            = (IZR (stored_level group_size bits w scales biases r c) * s
               + b)%R
         /\ ((0 <= (Real.t_at w [r; c] - b) / s <= IZR (2 ^ bits - 1))%R ->
             (Rabs (Real.t_at y [r; c] - Real.t_at w [r; c])
              <= Rabs s / 2)%R).
Proof.
  intros Hcpu Hw _ Hg Hb HR Hbig.
  pose proof (el_per_int_pos bits Hb) as He.
  assert (Hpos : 0 < bits) by (destruct Hb as [->|[->| ->]]; lia).
  assert (Hgs : 0 < group_size) by (destruct Hg as [->|[->| ->]]; lia).
  assert (HG : 0 < G) by nia.
  pose proof (words_fill_groups G group_size bits Hg Hb) as HMG.
  destruct (affine_quantize_parts w R_ G group_size bits s1 Hw Hg Hb HR Hbig)
    as (wq & sc & bi & Hq & Hwq & Twq & Hsc & Hbi & Hnz & Hat).
  set (M := G * group_size / (32 / bits)) in *.
  assert (HM : 0 < M) by nia.
  destruct (dequantize_packed_levels ds w wq sc bi R_ G group_size M
              bits s2 Hcpu Hwq Twq Hsc Hbi Hb HR HG Hgs HM HMG Hat)
    as (y & Hy & Hys & Hyat).
  exists wq, sc, bi, y. split; [exact Hq|]. split; [exact Hy|].
  split; [now rewrite Hys, Hw|].
  intros r c Hr Hc. cbv zeta.
  assert (Hgr : 0 <= c / group_size < G).
  { split; [apply Z.div_pos; lia|].
    apply Z.div_lt_upper_bound; [lia|]. rewrite Z.mul_comm. lia. }
  split; [now apply Hnz|]. split; [exact (Hyat r c Hr Hc)|].
  intros Hx. rewrite (Hyat r c Hr Hc).
  apply (dequantized_near bits); [lia|now apply Hnz|exact Hx].
Qed.

End QuantizeMainApi.

(** ** scaled_dot_product_attention over exact reals

    The fallback in closed form: scores, softmax weights and the heads
    that share keys and values. *)

Section AttentionLayout.
Import Real.

Lemma in_bounds5 (A B C D E : Z) (idx : list Z) :
  in_bounds [A; B; C; D; E] idx ->
  exists a b c d e, idx = [a; b; c; d; e]
    /\ 0 <= a < A /\ 0 <= b < B /\ 0 <= c < C /\ 0 <= d < D /\ 0 <= e < E.
Proof.
  destruct idx as [|a [|b [|c [|d [|e [|e' idx]]]]]]; simpl; try tauto.
  intros (Ha & Hb & Hc & Hd & He & _). now exists a, b, c, d, e.
Qed.

(** A 0-dimensional operand first. *)
Lemma denotes_scalar_binary (g : R -> R -> R) (a b : tensor) sh fb (v : R) :
  t_shape a = [] -> t_at a [] = v -> denotes b sh fb ->
  denotes (binary g a b) sh (fun idx => g v (fb idx)).
Proof.
  intros Hsa Hva Hb.
  assert (Ha : denotes a [] (fun _ => v)).
  { split; [exact Hsa|]. intros [|i idx] Hi; [exact Hva|contradiction]. }
  rewrite <- (app_nil_r sh) in Hb |- *.
  apply (denotes_binary_prefix g a b sh [] (fun _ => v) fb Ha Hb).
Qed.

(** Query heads cut into groups of [N] that share a key/value head:
    [reshape(q, {B, G, N, L, -1})]. *)
Lemma denotes_split_heads (a : tensor) (B G N L_ D : Z) f :
  denotes a [B; G * N; L_; D] f ->
  0 < B -> 0 < G -> 0 < N -> 0 < L_ -> 0 < D ->
  denotes (reshape a [B; G; N; L_; -1]) [B; G; N; L_; D]
    (fun idx => f [nth 0 idx 0; nth 1 idx 0 * N + nth 2 idx 0;
                   nth 3 idx 0; nth 4 idx 0]).
Proof.
  intros Ha HB HG HN HL HD.
  assert (Hinf : infer_shape (prod [B; G * N; L_; D]) [B; G; N; L_; -1]
                 = [B; G; N; L_; D]).
  { unfold infer_shape. cbn [filter map Z.eqb Pos.eqb negb].
    replace (B =? -1) with false by lia. replace (G =? -1) with false by lia.
    replace (N =? -1) with false by lia.
    replace (L_ =? -1) with false by lia.
    cbn [negb prod fold_right]. do 4 f_equal.
    replace (B * (G * N * (L_ * (D * 1))))
      with (D * (B * (G * (N * (L_ * 1))))) by ring.
    f_equal. apply Z.div_mul. nia. }
  pose proof (denotes_reshape_infer a _ f _ _ Ha Hinf
                ltac:(repeat constructor; nia)
                ltac:(cbn [prod fold_right]; ring)) as Hr.
  apply (denotes_ext _ _ _ _ Hr).
  intros idx Hi. apply in_bounds5 in Hi.
  destruct Hi as (b & g & n & l & d & -> & Hb & Hg & Hn & Hl & Hd).
  cbn [nth].
  replace (ravel [B; G; N; L_; D] [b; g; n; l; d])
    with (ravel [B; G * N; L_; D] [b; g * N + n; l; d])
    by (cbn [ravel prod fold_right]; ring).
  rewrite unravel_ravel by (simpl; nia). reflexivity.
Qed.

(** The groups joined again: [reshape(out, {B, G * N, L, -1})]. *)
Lemma denotes_merge_heads (a : tensor) (B G N L_ D : Z) f :
  denotes a [B; G; N; L_; D] f ->
  0 < B -> 0 < G -> 0 < N -> 0 < L_ -> 0 < D ->
  denotes (reshape a [B; G * N; L_; -1]) [B; G * N; L_; D]
    (fun idx => f [nth 0 idx 0; nth 1 idx 0 / N; nth 1 idx 0 mod N;
                   nth 2 idx 0; nth 3 idx 0]).
Proof.
  intros Ha HB HG HN HL HD.
  assert (HGN : 0 < G * N) by nia.
  assert (Hinf : infer_shape (prod [B; G; N; L_; D]) [B; G * N; L_; -1]
                 = [B; G * N; L_; D]).
  { unfold infer_shape. cbn [filter map Z.eqb Pos.eqb negb].
    replace (B =? -1) with false by lia.
    replace (G * N =? -1) with false by lia.
    replace (L_ =? -1) with false by lia.
    cbn [negb prod fold_right]. do 3 f_equal.
    replace (B * (G * (N * (L_ * (D * 1)))))
      with (D * (B * (G * N * (L_ * 1)))) by ring.
    f_equal. apply Z.div_mul. nia. }
  pose proof (denotes_reshape_infer a _ f _ _ Ha Hinf
                ltac:(repeat constructor; nia)
                ltac:(cbn [prod fold_right]; ring)) as Hr.
  apply (denotes_ext _ _ _ _ Hr).
  intros idx Hi. apply in_bounds4 in Hi.
  destruct Hi as (b & h & l & d & -> & Hb & Hh & Hl & Hd).
  cbn [nth].
  pose proof (Z.div_mod h N ltac:(lia)) as Hdm.
  pose proof (Z.mod_pos_bound h N HN) as Hm.
  assert (Hq : 0 <= h / N < G).
  { split; [apply Z.div_pos; lia|].
    apply Z.div_lt_upper_bound; [lia|]. rewrite Z.mul_comm. lia. }
  replace (ravel [B; G * N; L_; D] [b; h; l; d])
    with (ravel [B; G; N; L_; D] [b; h / N; h mod N; l; d])
    by (cbn [ravel prod fold_right]; rewrite Hdm at 3; ring).
  rewrite unravel_ravel by (simpl; lia). reflexivity.
Qed.

(** [expand_dims(k, 2)] on a 4-D tensor. *)
Lemma denotes_expand_heads (a : tensor) (B G S_ D : Z) f :
  denotes a [B; G; S_; D] f ->
  denotes (expand_dims a 2) [B; G; 1; S_; D]
    (fun idx => f [nth 0 idx 0; nth 1 idx 0; nth 3 idx 0; nth 4 idx 0]).
Proof.
  intros [Hs Hf]. split.
  - unfold expand_dims. cbn. now rewrite Hs.
  - intros idx Hi. apply in_bounds5 in Hi.
    destruct Hi as (b & g & n & l & d & -> & Hb & Hg & Hn & Hl & Hd).
    unfold expand_dims. rewrite Hs. cbn. apply Hf. simpl. lia.
Qed.

(** [swapaxes(k, -1, -2)] on 4-D and on 5-D tensors. *)
Lemma denotes_swap_last4 (a : tensor) (B H S_ D : Z) f :
  denotes a [B; H; S_; D] f ->
  denotes (swapaxes a (-1) (-2)) [B; H; D; S_]
    (fun idx => f [nth 0 idx 0; nth 1 idx 0; nth 3 idx 0; nth 2 idx 0]).
Proof.
  intros [Hs Hf]. split.
  - unfold swapaxes. cbn. now rewrite Hs.
  - intros idx Hi. apply in_bounds4 in Hi.
    destruct Hi as (b & h & d & t & -> & Hb & Hh & Hd & Ht).
    unfold swapaxes. rewrite Hs. cbn. apply Hf. simpl. lia.
Qed.

Lemma denotes_swap_last5 (a : tensor) (B G N S_ D : Z) f :
  denotes a [B; G; N; S_; D] f ->
  denotes (swapaxes a (-1) (-2)) [B; G; N; D; S_]
    (fun idx => f [nth 0 idx 0; nth 1 idx 0; nth 2 idx 0; nth 4 idx 0;
                   nth 3 idx 0]).
Proof.
  intros [Hs Hf]. split.
  - unfold swapaxes. cbn. now rewrite Hs.
  - intros idx Hi. apply in_bounds5 in Hi.
    destruct Hi as (b & g & n & d & t & -> & Hb & Hg & Hn & Hd & Ht).
    unfold swapaxes. rewrite Hs. cbn. apply Hf. simpl. lia.
Qed.

(** [matmul] with the same batch axes on both sides. *)
Lemma denotes_matmul4 (a b : tensor) (B H L_ D S_ : Z) fa fb :
  denotes a [B; H; L_; D] fa -> denotes b [B; H; D; S_] fb ->
  denotes (matmul a b) [B; H; L_; S_]
    (fun idx =>
       let i := nth 0 idx 0 in
       let h := nth 1 idx 0 in
       let l := nth 2 idx 0 in
       let s := nth 3 idx 0 in
       Rsum D (fun t => (fa [i; h; l; t] * fb [i; h; t; s])%R)).
Proof.
  intros [Hsa Hfa] [Hsb Hfb]. split.
  - unfold matmul. rewrite Hsa, Hsb.
    cbn [t_shape List.length Nat.sub firstn nth].
    now rewrite bshape_same.
  - intros idx Hi. apply in_bounds4 in Hi.
    destruct Hi as (i & h & l & s & -> & Hi & Hh & Hl & Hs).
    unfold matmul. rewrite Hsa, Hsb.
    cbn [t_at List.length Nat.sub firstn nth].
    rewrite (bidx_same [B; H] [i; h]) by (simpl; lia).
    cbn [nth]. cbv zeta. apply Rsum_ext. intros t Ht. cbn [app].
    rewrite Hfa, Hfb by (simpl; lia). reflexivity.
Qed.

(** [matmul] of grouped queries with keys or values that have one head
    a group. *)
Lemma denotes_matmul5 (a b : tensor) (B G N L_ D S_ : Z) fa fb :
  denotes a [B; G; N; L_; D] fa -> denotes b [B; G; 1; D; S_] fb ->
  denotes (matmul a b) [B; G; N; L_; S_]
    (fun idx =>
       let i := nth 0 idx 0 in
       let g := nth 1 idx 0 in
       let n := nth 2 idx 0 in
       let l := nth 3 idx 0 in
       let s := nth 4 idx 0 in
       Rsum D (fun t => (fa [i; g; n; l; t] * fb [i; g; 0%Z; t; s])%R)).
Proof.
  intros [Hsa Hfa] [Hsb Hfb]. split.
  - unfold matmul. rewrite Hsa, Hsb.
    cbn [t_shape List.length Nat.sub firstn nth].
    pose proof (bshape_keepdims [B; G] N) as Hk. cbn [app] in Hk.
    now rewrite Hk.
  - intros idx Hi. apply in_bounds5 in Hi.
    destruct Hi as (i & g & n & l & s & -> & Hi & Hg & Hn & Hl & Hs).
    unfold matmul. rewrite Hsa, Hsb.
    cbn [t_at List.length Nat.sub firstn nth].
    rewrite (bidx_same [B; G; N] [i; g; n]) by (simpl; lia).
    pose proof (bidx_keepdims [B; G] [i; g] n ltac:(simpl; lia)) as Hk.
    cbn [app] in Hk. rewrite Hk.
    cbn [nth]. cbv zeta. apply Rsum_ext. intros t Ht. cbn [app].
    rewrite Hfa, Hfb by (simpl; lia). reflexivity.
Qed.

(** [softmax] along the last axis. *)
Lemma denotes_softmax_last (a : tensor) (pre : list Z) (D : Z) f
    (precise : bool) :
  denotes a (pre ++ [D]) f ->
  denotes (softmax a [-1] precise) (pre ++ [D])
    (fun idx =>
       (Rtrigo_def.exp (f idx)
        / Rsum D (fun k => Rtrigo_def.exp (f (removelast idx ++ [k])))
       )%R).
Proof.
  intros Ha.
  pose proof (denotes_unary Rtrigo_def.exp a _ _ Ha) as De.
  pose proof (denotes_sum_last _ pre D _ De) as Ds.
  pose proof (denotes_binary_keepdims Rdiv _ _ pre D _ _ De Ds) as Dd.
  split; [exact (proj1 Ha)|].
  intros idx Hi. unfold softmax. cbn [t_at].
  etransitivity; [exact (proj2 Dd idx Hi)|].
  cbv beta. now rewrite removelast_last.
Qed.

End AttentionLayout.

Ltac attention_primitives :=
  cbn [multiply array_of reshape expand_dims matmul swapaxes softmax add
       astype dtype shape Real.Lib].

Section AttentionOnReals.
Variable ds : Stream.
Import Real.

Lemma shape_at4 (a : tensor) (A B C D : Z) :
  t_shape a = [A; B; C; D] ->
  shape_at (L := Lib ds) a 0 = A /\ shape_at (L := Lib ds) a 2 = C
  /\ shape_at (L := Lib ds) a (-1) = D /\ shape_at (L := Lib ds) a (-3) = B
  /\ shape_at (L := Lib ds) a 1 = B /\ ndim (L := Lib ds) a = 4.
Proof.
  intros H. unfold shape_at, ndim. cbn [shape Lib]. rewrite H.
  repeat split; reflexivity.
Qed.

(** Scores on grouped heads, normalized and applied to the values. *)
Lemma denotes_finish5 (scores v0 : tensor) (B G N L_ S_ Dv : Z) fs fv :
  denotes scores [B; G; N; L_; S_] fs -> denotes v0 [B; G; S_; Dv] fv ->
  0 < B -> 0 < G -> 0 < N -> 0 < L_ -> 0 < Dv ->
  denotes (reshape (matmul (softmax scores [-1] true) (expand_dims v0 2))
                   [B; G * N; L_; -1])
          [B; G * N; L_; Dv]
    (fun idx =>
       let b := nth 0 idx 0 in
       let h := nth 1 idx 0 in
       let l := nth 2 idx 0 in
       let j := nth 3 idx 0 in
       let g := h / N in
       let n := h mod N in
       Rsum S_ (fun t =>
         (softmax_weight S_ (fun u => fs [b; g; n; l; u]) t
          * fv [b; g; t; j])%R)).
Proof.
  intros Dsc Dv0 HB HG HN HL HDv.
  pose proof (denotes_softmax_last scores [B; G; N; L_] S_ fs true Dsc) as D1.
  pose proof (denotes_expand_heads v0 B G S_ Dv fv Dv0) as D2.
  pose proof (denotes_matmul5 _ _ B G N L_ S_ Dv _ _ D1 D2) as D3.
  pose proof (denotes_merge_heads _ B G N L_ Dv _ D3 HB HG HN HL HDv) as D4.
  apply (denotes_ext _ _ _ _ D4).
  intros idx Hi. apply in_bounds4 in Hi.
  destruct Hi as (b & h & l & j & -> & Hb & Hh & Hl & Hj).
  cbn [nth]. cbv zeta. apply Rsum_ext. intros t Ht.
  cbn [nth removelast app]. reflexivity.
Qed.

Lemma denotes_finish4 (scores v0 : tensor) (B H L_ S_ Dv : Z) fs fv :
  denotes scores [B; H; L_; S_] fs -> denotes v0 [B; H; S_; Dv] fv ->
  denotes (matmul (softmax scores [-1] true) v0) [B; H; L_; Dv]
    (fun idx =>
       let b := nth 0 idx 0 in
       let h := nth 1 idx 0 in
       let l := nth 2 idx 0 in
       let j := nth 3 idx 0 in
       Rsum S_ (fun t =>
         (softmax_weight S_ (fun u => fs [b; h; l; u]) t
          * fv [b; h; t; j])%R)).
Proof.
  intros Dsc Dv0.
  pose proof (denotes_softmax_last scores [B; H; L_] S_ fs true Dsc) as D1.
  pose proof (denotes_matmul4 _ _ B H L_ S_ Dv _ _ D1 Dv0) as D3.
  apply (denotes_ext _ _ _ _ D3).
  intros idx Hi. apply in_bounds4 in Hi.
  destruct Hi as (b & h & l & j & -> & Hb & Hh & Hl & Hj).
  cbn [nth]. cbv zeta. apply Rsum_ext. intros t Ht.
  cbn [nth removelast app]. reflexivity.
Qed.

(** The scores before the mask. *)
Lemma denotes_scores5 (scale : R) (t : Dtype) (q0 k0 : tensor)
    (B G N L_ S_ D : Z) :
  t_shape q0 = [B; G * N; L_; D] -> t_shape k0 = [B; G; S_; D] ->
  0 < B -> 0 < G -> 0 < N -> 0 < L_ -> 0 < D ->
  denotes (matmul (reshape (multiply (array_of scale t) q0)
                           [B; G; N; L_; -1])
                  (swapaxes (expand_dims k0 2) (-1) (-2)))
          [B; G; N; L_; S_]
    (fun idx =>
       let b := nth 0 idx 0 in
       let g := nth 1 idx 0 in
       let n := nth 2 idx 0 in
       let l := nth 3 idx 0 in
       let u := nth 4 idx 0 in
       let h := g * N + n in
       Rsum D (fun d => (scale * t_at q0 [b; h; l; d]
                         * t_at k0 [b; g; u; d])%R)).
Proof.
  intros Hq Hk HB HG HN HL HD.
  assert (Dq0 : denotes q0 [B; G * N; L_; D] (t_at q0)) by (split; auto).
  assert (Dk0 : denotes k0 [B; G; S_; D] (t_at k0)) by (split; auto).
  pose proof (denotes_scalar_binary Rmult (array_of scale t) q0 _ _ scale
                eq_refl eq_refl Dq0) as D1.
  pose proof (denotes_split_heads _ B G N L_ D _ D1 HB HG HN HL HD) as D2.
  pose proof (denotes_swap_last5 _ B G 1 S_ D _
                (denotes_expand_heads k0 B G S_ D _ Dk0)) as D3.
  pose proof (denotes_matmul5 _ _ B G N L_ D S_ _ _ D2 D3) as D4.
  apply (denotes_ext _ _ _ _ D4).
  intros idx Hi. apply in_bounds5 in Hi.
  destruct Hi as (b & g & n & l & u & -> & Hb & Hg & Hn & Hl & Hu).
  cbn [nth]. cbv zeta. apply Rsum_ext. intros d Hd.
  cbn [nth]. reflexivity.
Qed.

Lemma denotes_scores4 (scale : R) (t : Dtype) (q0 k0 : tensor)
    (B H L_ S_ D : Z) :
  t_shape q0 = [B; H; L_; D] -> t_shape k0 = [B; H; S_; D] ->
  denotes (matmul (multiply (array_of scale t) q0)
                  (swapaxes k0 (-1) (-2)))
          [B; H; L_; S_]
    (fun idx =>
       let b := nth 0 idx 0 in
       let h := nth 1 idx 0 in
       let l := nth 2 idx 0 in
       let u := nth 3 idx 0 in
       Rsum D (fun d => (scale * t_at q0 [b; h; l; d]
                         * t_at k0 [b; h; u; d])%R)).
Proof.
  intros Hq Hk.
  assert (Dq0 : denotes q0 [B; H; L_; D] (t_at q0)) by (split; auto).
  assert (Dk0 : denotes k0 [B; H; S_; D] (t_at k0)) by (split; auto).
  pose proof (denotes_scalar_binary Rmult (array_of scale t) q0 _ _ scale
                eq_refl eq_refl Dq0) as D1.
  pose proof (denotes_swap_last4 _ B H S_ D _ Dk0) as D3.
  pose proof (denotes_matmul4 _ _ B H L_ D S_ _ _ D1 D3) as D4.
  apply (denotes_ext _ _ _ _ D4).
  intros idx Hi. apply in_bounds4 in Hi.
  destruct Hi as (b & h & l & u & -> & Hb & Hh & Hl & Hu).
  cbn [nth]. cbv zeta. apply Rsum_ext. intros d Hd.
  cbn [nth]. reflexivity.
Qed.

End AttentionOnReals.

Section SoftmaxWeights.
Import Real.

Lemma softmax_weight_ext (S_ : Z) (s s' : Z -> R) (t : Z) :
  (forall u, 0 <= u < S_ -> s u = s' u) -> 0 <= t < S_ ->
  softmax_weight S_ s t = softmax_weight S_ s' t.
Proof.
  intros H Ht. unfold softmax_weight. rewrite (H t Ht). f_equal.
  apply Rsum_ext. intros u Hu. now rewrite H.
Qed.

Lemma Rsum_pos (n : Z) (f : Z -> R) :
  0 < n -> (forall k, 0 <= k < n -> (0 < f k)%R) -> (0 < Rsum n f)%R.
Proof.
  intros Hn. assert (H0 : 0 <= n - 1) by lia.
  replace n with (n - 1 + 1) by lia. revert H0. generalize (n - 1).
  clear n Hn. intros m Hm. pattern m. apply natlike_ind; [| |exact Hm].
  - intros H. rewrite Rsum_succ by lia.
    change (Rsum 0 f) with 0%R. specialize (H 0 ltac:(lia)). lra.
  - intros x Hx IH H. unfold Z.succ. rewrite (Rsum_succ (x + 1)) by lia.
    specialize (IH ltac:(intros k Hk; apply H; lia)).
    specialize (H (x + 1) ltac:(lia)). lra.
Qed.

Lemma softmax_weight_pos (S_ : Z) (s : Z -> R) (t : Z) :
  0 <= t < S_ -> (0 < softmax_weight S_ s t)%R.
Proof.
  intros Ht. unfold softmax_weight. apply Rdiv_lt_0_compat.
  - apply exp_pos.
  - apply Rsum_pos; [lia|]. intros. apply exp_pos.
Qed.

Lemma softmax_weight_total (S_ : Z) (s : Z -> R) :
  0 < S_ -> Rsum S_ (softmax_weight S_ s) = 1%R.
Proof.
  intros HS. unfold softmax_weight.
  assert (Hp : (0 < Rsum S_ (fun u => Rtrigo_def.exp (s u)))%R)
    by (apply Rsum_pos; [lia|]; intros; apply exp_pos).
  set (Z_ := Rsum S_ (fun u => Rtrigo_def.exp (s u))) in *.
  rewrite (Rsum_ext S_ _ (fun t => (/ Z_ * Rtrigo_def.exp (s t))%R))
    by (intros; unfold Rdiv; ring).
  rewrite Rsum_scal. fold Z_. field. lra.
Qed.

End SoftmaxWeights.

Section AttentionRows.
Variable ds : Stream.
Import Real.

Lemma sdpa_fallback_rows (scale : R) (ft : Dtype) (q0 k0 v0 : tensor)
    (mask : option tensor) (B G N L_ S_ D Dv : Z) :
  t_shape q0 = [B; G * N; L_; D] -> t_shape k0 = [B; G; S_; D] ->
  t_shape v0 = [B; G; S_; Dv] ->
  (forall m, mask = Some m -> t_shape m = [L_; S_]) ->
  0 < B -> 0 < G -> 0 < N -> 0 < L_ -> 0 < D -> 0 < Dv ->
  exists y,
    sdpa_fallback (L := Lib ds) scale (has_value mask) ft (G * N) G
      (q0 :: k0 :: v0 :: match mask with Some m => [m] | None => [] end)
    = [y]
    /\ t_shape y = [B; G * N; L_; Dv]
    /\ forall b h l j,
         0 <= b < B -> 0 <= h < G * N -> 0 <= l < L_ -> 0 <= j < Dv ->
         t_at y [b; h; l; j]
         = attention_row scale q0 k0 v0 mask D S_ b h (h / N) l j.
Proof.
  intros Hq Hk Hv Hm HB HG HN HL HD HDv.
  assert (Dv0 : denotes v0 [B; G; S_; Dv] (t_at v0)) by (split; auto).
  unfold sdpa_fallback. attention_primitives.
  replace (idiv (G * N) G) with N
    by (unfold idiv; rewrite Z.mul_comm; now rewrite Z.quot_mul by lia).
  set (qs := multiply (array_of scale (t_dtype q0)) q0).
  assert (Hqs : t_shape qs = [B; G * N; L_; D]).
  { assert (Dq0 : denotes q0 [B; G * N; L_; D] (t_at q0)) by (split; auto).
    exact (proj1 (denotes_scalar_binary Rmult
                    (array_of scale (t_dtype q0)) q0 _ _ scale
                    eq_refl eq_refl Dq0)). }
  destruct (shape_at4 ds qs _ _ _ _ Hqs) as (-> & -> & _).
  subst qs.
  destruct (N >? 1) eqn:EN.
  - pose proof (denotes_scores5 scale (t_dtype q0) q0 k0 B G N L_ S_ D
                  Hq Hk HB HG HN HL HD) as Ds.
    destruct mask as [m|]; cbn [has_value].
    + assert (Dm : denotes m [L_; S_] (t_at m))
        by (split; [now apply Hm|reflexivity]).
      pose proof (denotes_binary_suffix Rplus _ m [B; G; N] [L_; S_] _ _
                    Ds Dm) as Da.
      pose proof (denotes_finish5 _ v0 B G N L_ S_ Dv _ _ Da Dv0
                    HB HG HN HL HDv) as Df.
      eexists. split; [reflexivity|]. split; [exact (proj1 Df)|].
      intros b h l j Hb Hh Hl Hj.
      rewrite (proj2 Df) by (simpl; lia).
      cbn [nth]. cbv zeta. unfold attention_row.
      pose proof (Z.div_mod h N ltac:(lia)) as Hdm.
      apply Rsum_ext. intros t Ht. f_equal.
      apply softmax_weight_ext; [|exact Ht].
      intros u Hu. cbn [nth List.length skipn]. unfold attention_score.
      replace (h / N * N + h mod N) with h by lia. reflexivity.
    + pose proof (denotes_finish5 _ v0 B G N L_ S_ Dv _ _ Ds Dv0
                    HB HG HN HL HDv) as Df.
      eexists. split; [reflexivity|]. split; [exact (proj1 Df)|].
      intros b h l j Hb Hh Hl Hj.
      rewrite (proj2 Df) by (simpl; lia).
      cbn [nth]. cbv zeta. unfold attention_row.
      pose proof (Z.div_mod h N ltac:(lia)) as Hdm.
      apply Rsum_ext. intros t Ht. f_equal.
      apply softmax_weight_ext; [|exact Ht].
      intros u Hu. cbn [nth]. unfold attention_score, mask_at.
      replace (h / N * N + h mod N) with h by lia. now rewrite Rplus_0_r.
  - assert (N = 1) by lia. subst N. rewrite Z.mul_1_r in *.
    pose proof (denotes_scores4 scale (t_dtype q0) q0 k0 B G L_ S_ D
                  Hq Hk) as Ds.
    destruct mask as [m|]; cbn [has_value].
    + assert (Dm : denotes m [L_; S_] (t_at m))
        by (split; [now apply Hm|reflexivity]).
      pose proof (denotes_binary_suffix Rplus _ m [B; G] [L_; S_] _ _
                    Ds Dm) as Da.
      pose proof (denotes_finish4 _ v0 B G L_ S_ Dv _ _ Da Dv0) as Df.
      eexists. split; [reflexivity|]. split; [exact (proj1 Df)|].
      intros b h l j Hb Hh Hl Hj.
      rewrite (proj2 Df) by (simpl; lia).
      cbn [nth]. cbv zeta. unfold attention_row. rewrite Z.div_1_r.
      apply Rsum_ext. intros t Ht. f_equal.
    + pose proof (denotes_finish4 _ v0 B G L_ S_ Dv _ _ Ds Dv0) as Df.
      eexists. split; [reflexivity|]. split; [exact (proj1 Df)|].
      intros b h l j Hb Hh Hl Hj.
      rewrite (proj2 Df) by (simpl; lia).
      cbn [nth]. cbv zeta. unfold attention_row. rewrite Z.div_1_r.
      apply Rsum_ext. intros t Ht. f_equal.
      apply softmax_weight_ext; [|exact Ht].
      intros u Hu. cbn [nth]. unfold attention_score, mask_at.
      now rewrite Rplus_0_r.
Qed.

End AttentionRows.

Section AttentionClosedForm.
Variable ds : Stream.

(** [scaled_dot_product_attention] on inputs that pass its checks. *)
Lemma scaled_dot_product_attention_at (q k v : Real.tensor) (scale : R)
    (mask : option Real.tensor) (s_ : StreamOrDevice)
    (B G N L_ S_ D Dv : Z) :
  Real.t_shape q = [B; G * N; L_; D] -> Real.t_shape k = [B; G; S_; D] ->
  Real.t_shape v = [B; G; S_; Dv] ->
  (forall m, mask = Some m -> Real.t_shape m = [L_; S_]) ->
  0 < B -> 0 < G -> 0 < N -> 0 < L_ -> 0 < D -> 0 < Dv ->
  @issubdtype _ (Real.Lib ds)
    (@result_type _ (Real.Lib ds) [q; k; v]) floating = true ->
  exists y,
    scaled_dot_product_attention (L := Real.Lib ds) q k v scale mask s_
    = Return y
    /\ Real.t_shape y = [B; G * N; L_; Dv]
    /\ forall b h l j,
         0 <= b < B -> 0 <= h < G * N -> 0 <= l < L_ -> 0 <= j < Dv ->
         Real.t_at y [b; h; l; j]
         = attention_row scale q k v mask D S_ b h (h / N) l j.
Proof.
  intros Hq Hk Hv Hm HB HG HN HL HD HDv Hf.
  unfold scaled_dot_product_attention.
  destruct (shape_at4 ds q _ _ _ _ Hq) as (Q0 & Q2 & Q1 & Q3 & _ & Qn).
  destruct (shape_at4 ds k _ _ _ _ Hk) as (K0 & K2 & K1 & K3 & _ & Kn).
  destruct (shape_at4 ds v _ _ _ _ Hv) as (V0 & V2 & V1 & V3 & _ & Vn).
  rewrite Qn, Kn, Vn, Q0, K0, V0, Q1, K1, Q3, K3, V3.
  cbn [Z.eqb Pos.eqb negb orb]. rewrite !Z.eqb_refl. cbn [negb orb].
  replace (G =? 0) with false by lia.
  replace (imod (G * N) G =? 0) with true
    by (unfold imod; rewrite Z.mul_comm, Z.rem_mul by lia; reflexivity).
  cbn [negb]. rewrite Hf. cbn [negb].
  rewrite implementation_supports_use_case_false.
  set (ft := @result_type _ (Real.Lib ds) [q; k; v]).
  destruct (sdpa_fallback_rows ds scale ft
              (Real.astype q ft) (Real.astype k ft) (Real.astype v ft)
              mask B G N L_ S_ D Dv Hq Hk Hv Hm HB HG HN HL HD HDv)
    as (y & Hy & Hys & Hyat).
  exists y. split; [|split; [exact Hys|exact Hyat]].
  destruct mask as [m|]; cbn [has_value] in Hy |- *;
    cbn [astype Real.Lib]; now rewrite Hy.
Qed.

(** What [scaled_dot_product_attention] computes, in closed form.  On
    queries of shape [B, G * N, L, D], keys of shape [B, G, S, D] and
    values of shape [B, G, S, Dv] of a floating common type, without a
    mask or with one of shape [L, S]: the output has shape
    [B, G * N, L, Dv], and its row for query head [h] at position [l] is
    [sum_t p_t * v_t] over the value rows of head [h / N], with
    [p = softmax_t (sum_d scale * q_d * k_{t,d} + mask_{l,t})] over the
    key rows of the same head: [N] query heads in a row share one
    key/value head.  On every stream, over exact reals. *)
Theorem scaled_dot_product_attention_rows (q k v : Real.tensor) (scale : R)
    (mask : option Real.tensor) (s_ : StreamOrDevice)
    (B G N L_ S_ D Dv : Z) :
  Real.t_shape q = [B; G * N; L_; D] -> Real.t_shape k = [B; G; S_; D] ->
  Real.t_shape v = [B; G; S_; Dv] ->
  (forall m, mask = Some m -> Real.t_shape m = [L_; S_]) ->
  0 < B -> 0 < G -> 0 < N -> 0 < L_ -> 0 < D -> 0 < Dv ->
  @issubdtype _ (Real.Lib ds)
    (@result_type _ (Real.Lib ds) [q; k; v]) floating = true ->
  exists y,
    scaled_dot_product_attention (L := Real.Lib ds) q k v scale mask s_
    = Return y
    /\ Real.t_shape y = [B; G * N; L_; Dv]
    /\ forall b h l j,
         0 <= b < B -> 0 <= h < G * N -> 0 <= l < L_ -> 0 <= j < Dv ->
         Real.t_at y [b; h; l; j]
         = Real.Rsum S_ (fun t =>
             (softmax_weight S_
                (fun u =>
                   Real.Rsum D (fun d =>
                     scale * Real.t_at q [b; h; l; d]
                     * Real.t_at k [b; (h / N)%Z; u; d])
                   + mask_at mask l u) t
              * Real.t_at v [b; (h / N)%Z; t; j])%R).
Proof.
  intros Hq Hk Hv Hm HB HG HN HL HD HDv Hf.
  exact (scaled_dot_product_attention_at q k v scale mask s_
           B G N L_ S_ D Dv Hq Hk Hv Hm HB HG HN HL HD HDv Hf).
Qed.

(** Every output row of [scaled_dot_product_attention] is a weighted
    mean of value rows: for every query there are weights over the [S]
    keys, all positive and of sum 1, the same for every feature, such
    that the output row is the sum of the value rows of head [h / N]
    under these weights.  Over exact reals. *)
Theorem attention_is_weighted_mean (q k v : Real.tensor) (scale : R)
    (mask : option Real.tensor) (s_ : StreamOrDevice)
    (B G N L_ S_ D Dv : Z) :
  Real.t_shape q = [B; G * N; L_; D] -> Real.t_shape k = [B; G; S_; D] ->
  Real.t_shape v = [B; G; S_; Dv] ->
  (forall m, mask = Some m -> Real.t_shape m = [L_; S_]) ->
  0 < B -> 0 < G -> 0 < N -> 0 < L_ -> 0 < S_ -> 0 < D -> 0 < Dv ->
  @issubdtype _ (Real.Lib ds)
    (@result_type _ (Real.Lib ds) [q; k; v]) floating = true ->
  exists y,
    scaled_dot_product_attention (L := Real.Lib ds) q k v scale mask s_
    = Return y
    /\ forall b h l, 0 <= b < B -> 0 <= h < G * N -> 0 <= l < L_ ->
         exists p : Z -> R,
           (forall t, 0 <= t < S_ -> (0 < p t)%R)
           /\ Real.Rsum S_ p = 1%R
           /\ forall j, 0 <= j < Dv ->
                Real.t_at y [b; h; l; j]
                = Real.Rsum S_ (fun t =>
                    (p t * Real.t_at v [b; (h / N)%Z; t; j])%R).
Proof.
  intros Hq Hk Hv Hm HB HG HN HL HS HD HDv Hf.
  destruct (scaled_dot_product_attention_at q k v scale mask s_
              B G N L_ S_ D Dv Hq Hk Hv Hm HB HG HN HL HD HDv Hf)
    as (y & Hy & _ & Hyat).
  exists y. split; [exact Hy|].
  intros b h l Hb Hh Hl.
  exists (softmax_weight S_
            (attention_score scale q k mask D b h (h / N) l)).
  split; [intros t Ht; now apply softmax_weight_pos|].
  split; [now apply softmax_weight_total|].
  intros j Hj. now apply Hyat.
Qed.

End AttentionClosedForm.

(** ** The gradients of the norms

    [LayerNorm::vjp] and [RMSNorm::vjp] against the derivative of the
    forward functions, over exact reals. *)

Section Derivatives.
Open Scope R_scope.

Lemma derivable_pt_lim_ext (f g : R -> R) (a l : R) :
  (forall x, f x = g x) -> derivable_pt_lim f a l -> derivable_pt_lim g a l.
Proof.
  intros Hfg Hf eps Heps. destruct (Hf eps Heps) as [delta Hd].
  exists delta. intros h Hh Hlt. rewrite <- !Hfg. now apply Hd.
Qed.

Lemma derivable_pt_lim_eq (f : R -> R) (a l l' : R) :
  l = l' -> derivable_pt_lim f a l -> derivable_pt_lim f a l'.
Proof. now intros <-. Qed.

Lemma deriv_affine (A0 A1 x : R) :
  derivable_pt_lim (fun e => A0 + e * A1) x A1.
Proof.
  apply (derivable_pt_lim_ext (fct_cte A0 + id * fct_cte A1)%F);
    [intros; reflexivity|].
  apply (derivable_pt_lim_eq _ _ (0 + (1 * fct_cte A1 x + id x * 0)));
    [unfold fct_cte, id; ring|].
  apply derivable_pt_lim_plus; [apply derivable_pt_lim_const|].
  apply derivable_pt_lim_mult;
    [apply derivable_pt_lim_id|apply derivable_pt_lim_const].
Qed.

Lemma deriv_quadratic (P0 P1 P2 : R) :
  derivable_pt_lim (fun e => P0 + e * P1 + e * e * P2) 0 P1.
Proof.
  apply (derivable_pt_lim_ext
           ((fun e => (P0 + e * P1)%R) + (id * id) * fct_cte P2)%F);
    [intros; reflexivity|].
  apply (derivable_pt_lim_eq _ _
           (P1 + ((1 * id 0 + id 0 * 1) * fct_cte P2 0
                  + (id * id)%F 0 * 0)));
    [unfold fct_cte, id, mult_fct; ring|].
  apply derivable_pt_lim_plus; [apply deriv_affine|].
  apply derivable_pt_lim_mult; [|apply derivable_pt_lim_const].
  apply derivable_pt_lim_mult; apply derivable_pt_lim_id.
Qed.

(** The derivative at 0 of an affine function over the square root of a
    quadratic one. *)
Lemma deriv_over_sqrt (A0 A1 P0 P1 P2 C : R) :
  0 < P0 ->
  derivable_pt_lim
    (fun e => (A0 + e * A1) * / R_sqrt.sqrt (P0 + e * P1 + e * e * P2) + C)
    0
    (A1 * / R_sqrt.sqrt P0
     - A0 * (P1 / 2)
       * (/ R_sqrt.sqrt P0 * / R_sqrt.sqrt P0 * / R_sqrt.sqrt P0)).
Proof.
  intros HP.
  assert (Hs : 0 < R_sqrt.sqrt P0) by now apply sqrt_lt_R0.
  set (P := fun e => P0 + e * P1 + e * e * P2).
  assert (HP0 : P 0 = P0) by (unfold P; ring).
  assert (Dsq : derivable_pt_lim (comp R_sqrt.sqrt P) 0
                  (/ (2 * R_sqrt.sqrt P0) * P1)).
  { apply derivable_pt_lim_comp; [apply deriv_quadratic|].
    rewrite HP0. now apply derivable_pt_lim_sqrt. }
  apply (derivable_pt_lim_ext
           ((fun e => (A0 + e * A1)%R) / comp R_sqrt.sqrt P + fct_cte C)%F);
    [intros; reflexivity|].
  assert (Hc0 : comp R_sqrt.sqrt P 0 = R_sqrt.sqrt P0)
    by (unfold comp; now rewrite HP0).
  apply (derivable_pt_lim_eq _ _
           ((A1 * comp R_sqrt.sqrt P 0
             - / (2 * R_sqrt.sqrt P0) * P1 * (A0 + 0 * A1))
            / Rsqr (comp R_sqrt.sqrt P 0) + 0)).
  { rewrite Hc0. unfold Rsqr. field. lra. }
  apply derivable_pt_lim_plus; [|apply derivable_pt_lim_const].
  apply (derivable_pt_lim_div (fun e => A0 + e * A1) (comp R_sqrt.sqrt P));
    [apply deriv_affine|exact Dsq|rewrite Hc0; lra].
Qed.

End Derivatives.

Section RowGradients.
Variable D : Z.
Hypothesis HD : 0 < D.
Open Scope R_scope.

Let S := Real.Rsum D.

Lemma IZR_D_neq : IZR D <> 0.
Proof. apply not_0_IZR. lia. Qed.

Lemma Rsum_lin2 (c1 c2 : R) (f1 f2 : Z -> R) :
  S (fun k => c1 * f1 k + c2 * f2 k) = c1 * S f1 + c2 * S f2.
Proof. unfold S. now rewrite Rsum_plus, !Rsum_scal. Qed.

Lemma Rsum_lin3 (c1 c2 c3 : R) (f1 f2 f3 : Z -> R) :
  S (fun k => c1 * f1 k + c2 * f2 k + c3 * f3 k)
  = c1 * S f1 + c2 * S f2 + c3 * S f3.
Proof. unfold S. now rewrite !Rsum_plus, !Rsum_scal. Qed.

Lemma Rsum_lin4 (c1 c2 c3 c4 : R) (f1 f2 f3 f4 : Z -> R) :
  S (fun k => c1 * f1 k + c2 * f2 k + c3 * f3 k + c4 * f4 k)
  = c1 * S f1 + c2 * S f2 + c3 * S f3 + c4 * S f4.
Proof. unfold S. now rewrite !Rsum_plus, !Rsum_scal. Qed.

Lemma Rsum_as (f g : Z -> R) : (forall k, f k = g k) -> S f = S g.
Proof. intros H. apply Rsum_ext. intros k _. apply H. Qed.

Lemma Rsum_square_nonneg (f : Z -> R) : 0 <= S (fun k => f k * f k).
Proof.
  unfold S, Real.Rsum.
  induction (seq 0 (Z.to_nat D)) as [|a l IH]; cbn [fold_right]; [lra|].
  pose proof (Rle_0_sqr (f (Z.of_nat a))) as H. unfold Rsqr in H. lra.
Qed.

(** The variance of a row is not negative. *)
Lemma row_var_nonneg (x : Z -> R) : 0 <= row_var D x.
Proof.
  unfold row_var, row_mean. fold S.
  pose proof (Rsum_square_nonneg (fun k => x k - S x / IZR D)) as H.
  rewrite (Rsum_as _ (fun k => 1 * (x k * x k)
                               + (- 2 * (S x / IZR D)) * x k
                               + (S x / IZR D * (S x / IZR D)) * 1))
    in H by (intros; ring).
  rewrite Rsum_lin3 in H.
  replace (S (fun _ => 1)) with (IZR D) in H
    by (unfold S; rewrite Rsum_const; [ring|lia]).
  pose proof IZR_D_neq as Hn.
  assert (HDp : 0 < IZR D) by (apply IZR_lt; lia).
  replace (S (fun k => x k * x k) / IZR D - S x / IZR D * (S x / IZR D))
    with ((1 * S (fun k => x k * x k) + - 2 * (S x / IZR D) * S x
           + S x / IZR D * (S x / IZR D) * IZR D) / IZR D)
    by (field; exact Hn).
  apply Rmult_le_pos; [exact H|]. left. now apply Rinv_0_lt_compat.
Qed.

Lemma row_mean_affine (x u : Z -> R) (e : R) :
  row_mean D (fun k => x k + e * u k) = row_mean D x + e * row_mean D u.
Proof.
  unfold row_mean. fold S.
  rewrite (Rsum_as _ (fun k => 1 * x k + e * u k)) by (intros; ring).
  rewrite Rsum_lin2. field. exact IZR_D_neq.
Qed.

Lemma row_square_affine (x u : Z -> R) (e : R) :
  row_mean D (fun k => (x k + e * u k) * (x k + e * u k))
  = row_mean D (fun k => x k * x k)
    + e * (2 * row_mean D (fun k => x k * u k))
    + e * e * row_mean D (fun k => u k * u k).
Proof.
  unfold row_mean. fold S.
  rewrite (Rsum_as _ (fun k => 1 * (x k * x k) + (2 * e) * (x k * u k)
                               + (e * e) * (u k * u k)))
    by (intros; ring).
  rewrite Rsum_lin3. field. exact IZR_D_neq.
Qed.

Lemma row_var_affine (x u : Z -> R) (e : R) :
  row_var D (fun k => x k + e * u k)
  = row_var D x
    + e * (2 * (row_mean D (fun k => x k * u k)
                - row_mean D x * row_mean D u))
    + e * e * row_var D u.
Proof.
  unfold row_var. rewrite row_square_affine, row_mean_affine. ring.
Qed.

(** The gradient of [layer_norm] along a row: the derivative at 0 of
    [sum_d g_d * layer_norm(x + e * u)_d] is [sum_d vjp_d * u_d]. *)
Lemma layer_norm_row_gradient (eps : R) (w b g x u : Z -> R) :
  0 < eps ->
  derivable_pt_lim
    (fun e =>
       S (fun d => g d * layer_norm_row eps D (Some w) (Some b)
                                        (fun k => x k + e * u k) d))
    0
    (S (fun d => layer_norm_vjp_row eps D w g x d * u d)).
Proof.
  intros Heps.
  pose proof (row_var_nonneg x) as Hv.
  pose proof IZR_D_neq as Hn.
  set (mu := row_mean D x). set (mv := row_mean D u).
  set (A0 := S (fun d => w d * g d * (x d - mu))).
  set (A1 := S (fun d => w d * g d * (u d - mv))).
  set (C := S (fun d => g d * b d)).
  set (P0 := row_var D x + eps).
  set (P1 := 2 * (row_mean D (fun k => x k * u k) - mu * mv)).
  set (P2 := row_var D u).
  assert (HP0 : 0 < P0) by (unfold P0; lra).
  apply (derivable_pt_lim_ext
           (fun e => (A0 + e * A1)
                     * / R_sqrt.sqrt (P0 + e * P1 + e * e * P2) + C)).
  { intros e. unfold layer_norm_row. cbv zeta.
    rewrite row_mean_affine, row_var_affine. fold mu mv P1 P2.
    replace (row_var D x + e * P1 + e * e * P2 + eps)
      with (P0 + e * P1 + e * e * P2) by (unfold P0; ring).
    set (h := / R_sqrt.sqrt (P0 + e * P1 + e * e * P2)).
    rewrite (Rsum_as _ (fun d => h * (w d * g d * (x d - mu))
                                 + (e * h) * (w d * g d * (u d - mv))
                                 + 1 * (g d * b d)))
      by (intros; ring).
    rewrite Rsum_lin3. fold A0 A1 C. ring. }
  apply (derivable_pt_lim_eq _ _
           (A1 * / R_sqrt.sqrt P0
            - A0 * (P1 / 2)
              * (/ R_sqrt.sqrt P0 * / R_sqrt.sqrt P0 * / R_sqrt.sqrt P0)));
    [|now apply deriv_over_sqrt].
  unfold layer_norm_vjp_row. cbv zeta. fold mu P0.
  set (n := / R_sqrt.sqrt P0).
  set (m1 := row_mean D (fun k => w k * g k)).
  set (m2 := row_mean D (fun k => w k * g k * (x k - mu))).
  rewrite (Rsum_as (fun d => ((w d * g d - m1) * n
                              - (x d - mu) * m2 * (n * n * n)) * u d)
             (fun d => n * (w d * g d * u d) + (- n * m1) * u d
                       + (- (m2 * (n * n * n))) * (x d * u d)
                       + (mu * m2 * (n * n * n)) * u d))
    by (intros; ring).
  rewrite Rsum_lin4.
  assert (E1 : A1 = S (fun d => w d * g d * u d)
                    - mv * S (fun k => w k * g k)).
  { unfold A1.
    rewrite (Rsum_as _ (fun d => 1 * (w d * g d * u d)
                                 + (- mv) * (w d * g d)))
      by (intros; ring).
    rewrite Rsum_lin2. ring. }
  assert (E2 : m2 = A0 / IZR D) by reflexivity.
  assert (E3 : m1 = S (fun k => w k * g k) / IZR D) by reflexivity.
  assert (E4 : mv = S u / IZR D) by reflexivity.
  assert (E5 : P1 = 2 * (S (fun k => x k * u k) / IZR D - mu * mv))
    by reflexivity.
  rewrite E1, E2, E3, E5, E4. field. exact Hn.
Qed.

(** The same for [rms_norm]. *)
Lemma rms_norm_row_gradient (eps : R) (w g x u : Z -> R) :
  0 < eps ->
  derivable_pt_lim
    (fun e =>
       S (fun d => g d * rms_norm_row eps D w
                                      (fun k => x k + e * u k) d))
    0
    (S (fun d => rms_norm_vjp_row eps D w g x d * u d)).
Proof.
  intros Heps.
  pose proof (Rsum_square_nonneg x) as Hv.
  pose proof IZR_D_neq as Hn.
  assert (HDp : 0 < IZR D) by (apply IZR_lt; lia).
  set (A0 := S (fun d => g d * w d * x d)).
  set (A1 := S (fun d => g d * w d * u d)).
  set (P0 := row_mean D (fun k => x k * x k) + eps).
  set (P1 := 2 * row_mean D (fun k => x k * u k)).
  set (P2 := row_mean D (fun k => u k * u k)).
  assert (HP0 : 0 < P0).
  { unfold P0, row_mean. fold S.
    assert (0 <= S (fun k => x k * x k) / IZR D)
      by (apply Rmult_le_pos; [exact Hv|left; now apply Rinv_0_lt_compat]).
    lra. }
  apply (derivable_pt_lim_ext
           (fun e => (A0 + e * A1)
                     * / R_sqrt.sqrt (P0 + e * P1 + e * e * P2) + 0)).
  { intros e. unfold rms_norm_row.
    rewrite row_square_affine. fold P1 P2.
    replace (row_mean D (fun k => x k * x k) + e * P1 + e * e * P2 + eps)
      with (P0 + e * P1 + e * e * P2) by (unfold P0; ring).
    set (h := / R_sqrt.sqrt (P0 + e * P1 + e * e * P2)).
    rewrite (Rsum_as _ (fun d => h * (g d * w d * x d)
                                 + (e * h) * (g d * w d * u d)))
      by (intros; ring).
    rewrite Rsum_lin2. fold A0 A1. ring. }
  apply (derivable_pt_lim_eq _ _
           (A1 * / R_sqrt.sqrt P0
            - A0 * (P1 / 2)
              * (/ R_sqrt.sqrt P0 * / R_sqrt.sqrt P0 * / R_sqrt.sqrt P0)));
    [|now apply deriv_over_sqrt].
  unfold rms_norm_vjp_row. cbv zeta. fold P0.
  set (n := / R_sqrt.sqrt P0).
  set (m2 := row_mean D (fun k => g k * w k * x k)).
  rewrite (Rsum_as (fun d => (g d * w d * n - x d * m2 * (n * n * n)) * u d)
             (fun d => n * (g d * w d * u d)
                       + (- (m2 * (n * n * n))) * (x d * u d)))
    by (intros; ring).
  rewrite Rsum_lin2. fold A1.
  assert (E2 : m2 = A0 / IZR D) by reflexivity.
  assert (E5 : P1 = 2 * (S (fun k => x k * u k) / IZR D)) by reflexivity.
  rewrite E2, E5. field. exact Hn.
Qed.

End RowGradients.

Ltac norm_vjp_primitives :=
  cbn [number_of_elements sum square multiply subtract add rsqrt power
       array_of mean dtype shape Real.Lib].

(** Sums over a row read at [ipre ++ [k]]: the indices are put in that
    form. *)
Ltac clean_row_sums D pre ipre Hp :=
  repeat match goal with
  | |- context [Real.Rsum D ?f] =>
      lazymatch f with
      | context [skipn] => idtac
      | context [removelast] => idtac
      end;
      erewrite (Rsum_ext D f)
        by (let k := fresh "k" in
            intros k ?; cbv beta;
            rewrite ?removelast_last, ?(skipn_snoc pre ipre _ Hp);
            reflexivity)
  end.

Section NormGradients.
Variable ds : Stream.
Import Real.

Lemma Rpow_cube (n : R) : Rpow n 3 = (n * n * n)%R.
Proof.
  unfold Rpow. rewrite (Rfloor_IZR 3).
  destruct (Req_dec_T 3 3) as [_|N]; [|now destruct N].
  change (powerRZ n 3) with (n * (n * (n * 1)))%R. ring.
Qed.

(** The gradient for [x] that the fallback of [LayerNorm::vjp] computes,
    row by row. *)
Lemma LayerNorm_vjp_fallback_rows (eps : R) (x w b g : tensor)
    (pre : list Z) (D : Z) :
  t_shape x = pre ++ [D] -> t_shape w = [D] -> t_shape g = pre ++ [D] ->
  exists gx gw gb,
    LayerNorm_vjp_fallback (L := Lib ds) eps [x; w; b; g] = [gx; gw; gb]
    /\ t_shape gx = pre ++ [D]
    /\ forall ipre d, in_bounds pre ipre -> 0 <= d < D ->
         t_at gx (ipre ++ [d])
         = layer_norm_vjp_row eps D (fun k => t_at w [k])
             (fun k => t_at g (ipre ++ [k]))
             (fun k => t_at x (ipre ++ [k])) d.
Proof.
  intros Hx Hw Hg.
  unfold LayerNorm_vjp_fallback. norm_vjp_primitives.
  assert (Dx : denotes x (pre ++ [D]) (t_at x)) by (split; auto).
  assert (Dw : denotes w [D] (t_at w)) by (split; auto).
  assert (Dg : denotes g (pre ++ [D]) (t_at g)) by (split; auto).
  unfold number_of_elements. rewrite (count_last x pre D Hx).
  set (norm := array_of (/ IZR D) (t_dtype x)).
  pose proof (denotes_binary_scalar Rmult _ norm _ _ (/ IZR D)
                (denotes_sum_last x pre D _ Dx) eq_refl eq_refl) as Dmu.
  pose proof (denotes_binary_scalar Rmult _ norm _ _ (/ IZR D)
                (denotes_sum_last _ pre D _
                   (denotes_unary (fun v => (v * v)%R) x _ _ Dx))
                eq_refl eq_refl) as Dmu2.
  pose proof (denotes_binary Rminus _ _ _ _ _ Dmu2
                (denotes_unary (fun v => (v * v)%R) _ _ _ Dmu)) as Dvar.
  pose proof (denotes_unary (fun v => (/ R_sqrt.sqrt v)%R) _ _ _
                (denotes_binary_scalar Rplus _
                   (array_of eps (t_dtype x)) _ _ eps Dvar
                   eq_refl eq_refl)) as Dn.
  pose proof (denotes_binary_scalar Rpow _ (array_of 3 (t_dtype x)) _ _ 3%R
                Dn eq_refl eq_refl) as Dn3.
  pose proof (denotes_binary_keepdims Rminus x _ pre D _ _ Dx Dmu) as Dxc.
  pose proof (denotes_binary_prefix Rmult w g pre [D] _ _ Dw Dg) as Dwg.
  pose proof (denotes_binary_scalar Rmult _ norm _ _ (/ IZR D)
                (denotes_sum_last _ pre D _ Dwg) eq_refl eq_refl) as Dswg.
  pose proof (denotes_binary_scalar Rmult _ norm _ _ (/ IZR D)
                (denotes_sum_last _ pre D _
                   (denotes_binary Rmult _ _ _ _ _ Dwg Dxc))
                eq_refl eq_refl) as Dswgxc.
  pose proof (denotes_binary_keepdims Rmult _ _ pre D _ _
                (denotes_binary_keepdims Rmult _ _ pre D _ _ Dxc Dswgxc)
                Dn3) as Dt1.
  pose proof (denotes_binary_keepdims Rmult _ _ pre D _ _
                (denotes_binary_keepdims Rminus _ _ pre D _ _ Dwg Dswg)
                Dn) as Dt2.
  pose proof (denotes_binary Rminus _ _ _ _ _ Dt2 Dt1) as Dgx.
  do 3 eexists. split; [reflexivity|]. split; [exact (proj1 Dgx)|].
  intros ipre d Hp Hd.
  etransitivity;
    [exact (proj2 Dgx _ (in_bounds_snoc_intro pre ipre D d Hp Hd))|].
  cbv beta. rewrite !removelast_last, Rpow_cube, (skipn_snoc pre ipre d Hp).
  clean_row_sums D pre ipre Hp.
  unfold layer_norm_vjp_row, row_var, row_mean, Rdiv. cbv zeta.
  reflexivity.
Qed.

(** The gradient for [x] that the fallback of [RMSNorm::vjp] computes,
    row by row. *)
Lemma RMSNorm_vjp_fallback_rows (eps : R) (x w g : tensor)
    (pre : list Z) (D : Z) :
  t_shape x = pre ++ [D] -> t_shape w = [D] -> t_shape g = pre ++ [D] ->
  exists gx gw,
    RMSNorm_vjp_fallback (L := Lib ds) eps [x; w; g] = [gx; gw]
    /\ t_shape gx = pre ++ [D]
    /\ forall ipre d, in_bounds pre ipre -> 0 <= d < D ->
         t_at gx (ipre ++ [d])
         = rms_norm_vjp_row eps D (fun k => t_at w [k])
             (fun k => t_at g (ipre ++ [k]))
             (fun k => t_at x (ipre ++ [k])) d.
Proof.
  intros Hx Hw Hg.
  unfold RMSNorm_vjp_fallback. norm_vjp_primitives.
  assert (Dx : denotes x (pre ++ [D]) (t_at x)) by (split; auto).
  assert (Dw : denotes w [D] (t_at w)) by (split; auto).
  assert (Dg : denotes g (pre ++ [D]) (t_at g)) by (split; auto).
  pose proof (denotes_unary (fun v => (/ R_sqrt.sqrt v)%R) _ _ _
                (denotes_binary_scalar Rplus _
                   (array_of eps (t_dtype x)) _ _ eps
                   (denotes_mean_last _ pre D _
                      (denotes_unary (fun v => (v * v)%R) x _ _ Dx))
                   eq_refl eq_refl)) as Dn.
  pose proof (denotes_binary_scalar Rpow _ (array_of 3 (t_dtype x)) _ _ 3%R
                Dn eq_refl eq_refl) as Dn3.
  pose proof (denotes_binary_suffix Rmult g w pre [D] _ _ Dg Dw) as Dgw.
  pose proof (denotes_mean_last _ pre D _
                (denotes_binary Rmult _ _ _ _ _ Dgw Dx)) as Dt.
  pose proof (denotes_binary_keepdims Rmult _ _ pre D _ _
                (denotes_binary_keepdims Rmult _ _ pre D _ _ Dx Dt)
                Dn3) as Dt'.
  pose proof (denotes_binary Rminus _ _ _ _ _
                (denotes_binary_keepdims Rmult _ _ pre D _ _ Dgw Dn)
                Dt') as Dgx.
  do 2 eexists. split; [reflexivity|]. split; [exact (proj1 Dgx)|].
  intros ipre d Hp Hd.
  etransitivity;
    [exact (proj2 Dgx _ (in_bounds_snoc_intro pre ipre D d Hp Hd))|].
  cbv beta. rewrite !removelast_last, Rpow_cube, (skipn_snoc pre ipre d Hp).
  unfold row_mean.
  clean_row_sums D pre ipre Hp.
  unfold rms_norm_vjp_row, row_mean, Rdiv. cbv zeta.
  reflexivity.
Qed.

(** [LayerNorm::vjp] asked for the gradient of [x]. *)
Lemma LayerNorm_vjp_x (s : Stream) (eps : R) (x w b g : tensor)
    (outputs : list tensor) (pre : list Z) (D : Z) :
  t_shape x = pre ++ [D] -> t_shape w = [D] -> t_shape g = pre ++ [D] ->
  exists gx,
    LayerNorm_vjp (L := Lib ds) s eps [x; w; b] [g] [0] outputs
    = Return [gx]
    /\ t_shape gx = t_shape x
    /\ forall ipre d, in_bounds pre ipre -> 0 <= d < D ->
         t_at gx (ipre ++ [d])
         = layer_norm_vjp_row eps D (fun k => t_at w [k])
             (fun k => t_at g (ipre ++ [k]))
             (fun k => t_at x (ipre ++ [k])) d.
Proof.
  intros Hx Hw Hg.
  destruct (LayerNorm_vjp_fallback_rows eps x w b g pre D Hx Hw Hg)
    as (gx & gw & gb & Hf & Hs & Hat).
  unfold LayerNorm_vjp. real_primitives. unfold make_arrays, node_outputs.
  cbn [fallback_of]. rewrite Hf.
  cbn [List.length seq map nth select Z.ltb Z.compare Z.to_nat nth_error].
  eexists. split; [reflexivity|]. split; [reflexivity|exact Hat].
Qed.

(** [RMSNorm::vjp] asked for the gradient of [x]. *)
Lemma RMSNorm_vjp_x (s : Stream) (eps : R) (x w g : tensor)
    (outputs : list tensor) (pre : list Z) (D : Z) :
  t_shape x = pre ++ [D] -> t_shape w = [D] -> t_shape g = pre ++ [D] ->
  exists gx,
    RMSNorm_vjp (L := Lib ds) s eps [x; w] [g] [0] outputs = Return [gx]
    /\ t_shape gx = t_shape x
    /\ forall ipre d, in_bounds pre ipre -> 0 <= d < D ->
         t_at gx (ipre ++ [d])
         = rms_norm_vjp_row eps D (fun k => t_at w [k])
             (fun k => t_at g (ipre ++ [k]))
             (fun k => t_at x (ipre ++ [k])) d.
Proof.
  intros Hx Hw Hg.
  destruct (RMSNorm_vjp_fallback_rows eps x w g pre D Hx Hw Hg)
    as (gx & gw & Hf & Hs & Hat).
  unfold RMSNorm_vjp. real_primitives. unfold make_arrays, node_outputs.
  cbn [fallback_of]. rewrite Hf.
  cbn [List.length seq map nth select Z.ltb Z.compare Z.to_nat nth_error].
  eexists. split; [reflexivity|]. split; [reflexivity|exact Hat].
Qed.

End NormGradients.

Section VjpIsGradient.
Variable ds : Stream.

(** [rms_norm] on inputs that pass its checks, row by row. *)
Lemma rms_norm_at (x weight : Real.tensor) (eps : R)
    (s_ : StreamOrDevice) (pre : list Z) (D : Z) :
  Real.t_shape x = pre ++ [D] -> Real.t_shape weight = [D] ->
  @issubdtype _ (Real.Lib ds)
    (@result_type _ (Real.Lib ds) [x; weight]) floating = true ->
  exists y,
    rms_norm (L := Real.Lib ds) x weight eps s_ = Return y
    /\ forall ipre d, Real.in_bounds pre ipre -> 0 <= d < D ->
         Real.t_at y (ipre ++ [d])
         = rms_norm_row eps D (fun k => Real.t_at weight [k])
             (fun k => Real.t_at x (ipre ++ [k])) d.
Proof.
  intros Hx Hw Hf. unfold rms_norm.
  rewrite (ndim_snoc ds x pre D Hx), (ndim_1 ds weight D Hw).
  replace (Z.of_nat (List.length pre) + 1 =? 0) with false
    by (symmetry; apply Z.eqb_neq; lia).
  cbn [Z.eqb Pos.eqb negb]. rewrite Hf. cbn [negb].
  set (out_type := @result_type _ (Real.Lib ds) [x; weight]).
  destruct (Device_eqb (device (to_stream s_)) gpu).
  - destruct (rms_norm_fallback_rows ds eps out_type
                (Real.astype x out_type)
                (Real.astype weight out_type) pre D Hx Hw)
      as (y & Hy & Hys & Hyd & Hyat).
    eexists. split; [reflexivity|].
    cbn [mk_array Real.Lib]. unfold Real.mk_array, Real.node_outputs.
    cbn [fallback_of astype Real.Lib]. rewrite Hy.
    cbn [nth Real.t_at].
    intros ipre d Hp Hd. now rewrite (Hyat ipre d Hp Hd).
  - destruct (rms_norm_fallback_rows ds eps out_type x weight pre D Hx Hw)
      as (y & Hy & Hys & Hyd & Hyat).
    rewrite Hy. cbn [first]. exists y. split; [reflexivity|exact Hyat].
Qed.

(** [LayerNorm::vjp] returns the gradient of [layer_norm] for [x].  For
    [x] and a cotangent [g] of shape [pre ++ [D]], a weight and a bias
    of shape [D], [D > 0] and [eps > 0]: asked for argument 0, the
    method returns one array [gx] of the shape of [x], and for every
    direction [U] and every row, the derivative at [e = 0] of
    [sum_d g_d * layer_norm(x + e * U)_d] along the row is
    [sum_d gx_d * U_d].  Over exact reals, [layer_norm] on either kind
    of stream. *)
Theorem LayerNorm_vjp_is_gradient (s : Stream) (s_ : StreamOrDevice)
    (eps : R) (x w b g : Real.tensor) (outputs : list Real.tensor)
    (pre : list Z) (D : Z) :
  Real.t_shape x = pre ++ [D] -> Real.t_shape w = [D] ->
  Real.t_shape b = [D] -> Real.t_shape g = pre ++ [D] ->
  0 < D -> (0 < eps)%R ->
  @issubdtype _ (Real.Lib ds)
    (@result_type _ (Real.Lib ds) [x; w; b]) floating = true ->
  exists gx,
    LayerNorm_vjp (L := Real.Lib ds) s eps [x; w; b] [g] [0] outputs
    = Return [gx]
    /\ Real.t_shape gx = Real.t_shape x
    /\ forall (U : list Z -> R) (ipre : list Z),
         Real.in_bounds pre ipre ->
         derivable_pt_lim
           (fun e =>
              Real.Rsum D (fun d =>
                (Real.t_at g (ipre ++ [d])
                 * returned_at
                     (layer_norm (L := Real.Lib ds) (perturb x U e)
                                 (Some w) (Some b) eps s_)
                     (ipre ++ [d]))%R))
           0
           (Real.Rsum D (fun d =>
              (Real.t_at gx (ipre ++ [d]) * U (ipre ++ [d]))%R)).
Proof.
  intros Hx Hw Hb Hg HD Heps Hf.
  destruct (LayerNorm_vjp_x ds s eps x w b g outputs pre D Hx Hw Hg)
    as (gx & Hv & Hs & Hat).
  exists gx. split; [exact Hv|]. split; [exact Hs|].
  intros U ipre Hp.
  apply (derivable_pt_lim_ext
           (fun e =>
              Real.Rsum D (fun d =>
                (Real.t_at g (ipre ++ [d])
                 * layer_norm_row eps D
                     (Some (fun k => Real.t_at w [k]))
                     (Some (fun k => Real.t_at b [k]))
                     (fun k => Real.t_at x (ipre ++ [k])
                               + e * U (ipre ++ [k])) d)%R))).
  { intros e.
    destruct (layer_norm_at ds (perturb x U e) (Some w) (Some b) eps s_
                pre D Hx
                ltac:(intros w' E; injection E as <-; exact Hw)
                ltac:(intros b' E; injection E as <-; exact Hb) Hf)
      as (y & Hy & _ & _ & Hyat).
    rewrite Hy. cbn [returned_at].
    apply Rsum_ext. intros d Hd. now rewrite (Hyat ipre d Hp Hd). }
  apply (derivable_pt_lim_eq _ _
           (Real.Rsum D (fun d =>
              (layer_norm_vjp_row eps D (fun k => Real.t_at w [k])
                 (fun k => Real.t_at g (ipre ++ [k]))
                 (fun k => Real.t_at x (ipre ++ [k])) d
               * U (ipre ++ [d]))%R))).
  { apply Rsum_ext. intros d Hd. now rewrite (Hat ipre d Hp Hd). }
  exact (layer_norm_row_gradient D HD eps
           (fun k => Real.t_at w [k]) (fun k => Real.t_at b [k])
           (fun k => Real.t_at g (ipre ++ [k]))
           (fun k => Real.t_at x (ipre ++ [k]))
           (fun k => U (ipre ++ [k])) Heps).
Qed.

(** [RMSNorm::vjp] returns the gradient of [rms_norm] for [x].  For [x]
    and a cotangent [g] of shape [pre ++ [D]], a weight of shape [D],
    [D > 0] and [eps > 0]: asked for argument 0, the method returns one
    array [gx] of the shape of [x], and for every direction [U] and
    every row, the derivative at [e = 0] of
    [sum_d g_d * rms_norm(x + e * U)_d] along the row is
    [sum_d gx_d * U_d].  Over exact reals, [rms_norm] on either kind of
    stream. *)
Theorem RMSNorm_vjp_is_gradient (s : Stream) (s_ : StreamOrDevice)
    (eps : R) (x w g : Real.tensor) (outputs : list Real.tensor)
    (pre : list Z) (D : Z) :
  Real.t_shape x = pre ++ [D] -> Real.t_shape w = [D] ->
  Real.t_shape g = pre ++ [D] ->
  0 < D -> (0 < eps)%R ->
  @issubdtype _ (Real.Lib ds)
    (@result_type _ (Real.Lib ds) [x; w]) floating = true ->
  exists gx,
    RMSNorm_vjp (L := Real.Lib ds) s eps [x; w] [g] [0] outputs
    = Return [gx]
    /\ Real.t_shape gx = Real.t_shape x
    /\ forall (U : list Z -> R) (ipre : list Z),
         Real.in_bounds pre ipre ->
         derivable_pt_lim
           (fun e =>
              Real.Rsum D (fun d =>
                (Real.t_at g (ipre ++ [d])
                 * returned_at
                     (rms_norm (L := Real.Lib ds) (perturb x U e) w eps s_)
                     (ipre ++ [d]))%R))
           0
           (Real.Rsum D (fun d =>
              (Real.t_at gx (ipre ++ [d]) * U (ipre ++ [d]))%R)).
Proof.
  intros Hx Hw Hg HD Heps Hf.
  destruct (RMSNorm_vjp_x ds s eps x w g outputs pre D Hx Hw Hg)
    as (gx & Hv & Hs & Hat).
  exists gx. split; [exact Hv|]. split; [exact Hs|].
  intros U ipre Hp.
  apply (derivable_pt_lim_ext
           (fun e =>
              Real.Rsum D (fun d =>
                (Real.t_at g (ipre ++ [d])
                 * rms_norm_row eps D (fun k => Real.t_at w [k])
                     (fun k => Real.t_at x (ipre ++ [k])
                               + e * U (ipre ++ [k])) d)%R))).
  { intros e.
    destruct (rms_norm_at (perturb x U e) w eps s_ pre D Hx Hw Hf)
      as (y & Hy & Hyat).
    rewrite Hy. cbn [returned_at].
    apply Rsum_ext. intros d Hd. now rewrite (Hyat ipre d Hp Hd). }
  apply (derivable_pt_lim_eq _ _
           (Real.Rsum D (fun d =>
              (rms_norm_vjp_row eps D (fun k => Real.t_at w [k])
                 (fun k => Real.t_at g (ipre ++ [k]))
                 (fun k => Real.t_at x (ipre ++ [k])) d
               * U (ipre ++ [d]))%R))).
  { apply Rsum_ext. intros d Hd. now rewrite (Hat ipre d Hp Hd). }
  exact (rms_norm_row_gradient D HD eps
           (fun k => Real.t_at w [k])
           (fun k => Real.t_at g (ipre ++ [k]))
           (fun k => Real.t_at x (ipre ++ [k]))
           (fun k => U (ipre ++ [k])) Heps).
Qed.

End VjpIsGradient.

Section RopeGradient.
Variable ds : Stream.

(** [rope] is linear in its rows. *)
Lemma rotate_row_linear (traditional forward : bool) (dims h : Z)
    (theta x u : Z -> R) (e : R) (d : Z) :
  rotate_row traditional forward dims h theta (fun k => (x k + e * u k)%R) d
  = (rotate_row traditional forward dims h theta x d
     + e * rotate_row traditional forward dims h theta u d)%R.
Proof.
  unfold rotate_row, rotate.
  destruct (d <? dims); [|reflexivity].
  destruct traditional.
  - cbv zeta. destruct (d mod 2 =? 0), forward; cbn [fst snd]; ring.
  - destruct (d <? h), forward; cbn [fst snd]; ring.
Qed.

(** The rotation the other way round is the transpose. *)
Lemma rotate_transpose (forward : bool) (g1 g2 u1 u2 t : R) :
  let c := Rtrigo_def.cos t in
  let s := Rtrigo_def.sin t in
  (g1 * fst (rotate forward u1 u2 c s) + g2 * snd (rotate forward u1 u2 c s)
   = fst (rotate (negb forward) g1 g2 c s) * u1
     + snd (rotate (negb forward) g1 g2 c s) * u2)%R.
Proof. cbv zeta. unfold rotate. destruct forward; cbn [negb fst snd]; ring. Qed.

Lemma rotate_row_transpose (traditional forward : bool) (D dims h : Z)
    (theta g u : Z -> R) :
  0 <= h -> dims = 2 * h -> dims <= D ->
  Real.Rsum D (fun d =>
    (g d * rotate_row traditional forward dims h theta u d)%R)
  = Real.Rsum D (fun d =>
      (rotate_row traditional (negb forward) dims h theta g d * u d)%R).
Proof.
  intros Hh Hd HD.
  rewrite (Rsum_split D dims) by lia.
  rewrite (Rsum_split D dims
             (fun d => (rotate_row traditional (negb forward) dims h theta g d
                        * u d)%R)) by lia.
  f_equal.
  - subst dims. rewrite !(Rsum_rope_pairs traditional h) by lia.
    apply Rsum_ext. intros i Hi.
    destruct (rotate_row_pair traditional forward (2 * h) h theta u i
                eq_refl Hi) as [U1 U2].
    destruct (rotate_row_pair traditional (negb forward) (2 * h) h theta g i
                eq_refl Hi) as [G1 G2].
    cbv zeta in U1, U2, G1, G2. rewrite U1, U2, G1, G2.
    apply rotate_transpose.
  - apply Rsum_ext. intros d Hdd. unfold rotate_row.
    replace (dims + d <? dims) with false by lia. ring.
Qed.

End RopeGradient.

Section RopeVjpIsGradient.
Variable ds : Stream.

(** [RoPE::vjp] returns the gradient of [rope].  For [x] and a
    cotangent [g] of shape [pre ++ [L, D]] (rank 3 or more) and
    [dims = 2 * h <= D]: the method returns one array [gx] of the shape
    of [x], and for every direction [U] and every row, the derivative at
    [e = 0] of [sum_d g_d * rope(x + e * U)_d] along the row is
    [sum_d gx_d * U_d]; [gx] is [g] rotated the other way round.  Over
    exact reals, [rope] on either kind of stream. *)
Theorem RoPE_vjp_is_gradient (x g : Real.tensor) (pre : list Z)
    (L_ D dims h : Z) (traditional : bool) (base scale : R) (offset : Z)
    (forward : bool) (s1 : StreamOrDevice) (node_stream : Stream)
    (primals : list Real.tensor) (argnums : list Z)
    (outputs : list Real.tensor) :
  Real.t_shape x = pre ++ [L_; D] -> Real.t_shape g = pre ++ [L_; D] ->
  (1 <= List.length pre)%nat ->
  Forall (fun d => 0 <= d) (pre ++ [L_; D]) ->
  0 <= h -> dims = 2 * h -> dims <= D ->
  exists gx,
    RoPE_vjp (L := Real.Lib ds) node_stream dims traditional base scale
      offset forward primals [g] argnums outputs = Return [gx]
    /\ Real.t_shape gx = Real.t_shape x
    /\ forall (U : list Z -> R) (ipre : list Z) (l : Z),
         Real.in_bounds pre ipre -> 0 <= l < L_ ->
         derivable_pt_lim
           (fun e =>
              Real.Rsum D (fun d =>
                (Real.t_at g (ipre ++ [l; d])
                 * returned_at
                     (rope (L := Real.Lib ds) (perturb x U e) dims
                           traditional base scale offset forward s1)
                     (ipre ++ [l; d]))%R))
           0
           (Real.Rsum D (fun d =>
              (Real.t_at gx (ipre ++ [l; d]) * U (ipre ++ [l; d]))%R)).
Proof.
  intros Hx Hg Hpre Hn Hh Hd HD.
  assert (Hng : Forall (fun d => 0 <= d) (Real.t_shape g))
    by (now rewrite Hg).
  destruct (rope_at ds g pre L_ D dims h traditional base scale offset
              (negb forward) (on_stream node_stream) Hg Hpre Hng Hh Hd HD)
    as (z & Hz & Hzs & _ & Hzat).
  eexists. split; [unfold RoPE_vjp; reflexivity|].
  cbn [mk_array Real.Lib]. unfold Real.mk_array, Real.node_outputs.
  cbn [fallback_of]. unfold RoPE_vjp_fallback. rewrite Hz.
  cbn [nth Real.t_shape Real.t_dtype Real.t_at shape dtype Real.Lib].
  split; [now rewrite Hg, Hx|].
  intros U ipre l Hp Hl.
  set (theta := fun i => rope_angles ds dims base scale offset L_ [l; i]).
  set (gr := fun d => Real.t_at g (ipre ++ [l; d])).
  set (xr := fun d => Real.t_at x (ipre ++ [l; d])).
  set (ur := fun d => U (ipre ++ [l; d])).
  set (A0 := Real.Rsum D (fun d =>
               (gr d * rotate_row traditional forward dims h theta xr d)%R)).
  set (A1 := Real.Rsum D (fun d =>
               (gr d * rotate_row traditional forward dims h theta ur d)%R)).
  apply (derivable_pt_lim_ext (fun e => (A0 + e * A1)%R)).
  { intros e.
    assert (Hnx : Forall (fun d => 0 <= d)
                         (Real.t_shape (perturb x U e)))
      by (cbn [perturb Real.t_shape]; now rewrite Hx).
    destruct (rope_at ds (perturb x U e) pre L_ D dims h traditional base
                scale offset forward s1 Hx Hpre Hnx Hh Hd HD)
      as (y & Hy & _ & _ & Hyat).
    rewrite Hy. cbn [returned_at].
    unfold A0, A1, gr, xr, ur. rewrite <- Rsum_scal, <- Rsum_plus.
    apply Rsum_ext. intros d Hdd. rewrite (Hyat ipre l d Hp Hl Hdd).
    cbn [perturb Real.t_at]. fold theta.
    rewrite (rotate_row_linear traditional forward dims h theta
               (fun k => Real.t_at x (ipre ++ [l; k]))
               (fun k => U (ipre ++ [l; k])) e d).
    ring. }
  apply (derivable_pt_lim_eq _ _ A1); [|apply deriv_affine].
  unfold A1. rewrite (rotate_row_transpose traditional forward D dims h
                        theta gr ur Hh Hd HD).
  apply Rsum_ext. intros d Hdd. now rewrite (Hzat ipre l d Hp Hl Hdd).
Qed.

End RopeVjpIsGradient.

Section ColumnSums.
Import Real.

Lemma Rsum_zero (n : Z) : Rsum n (fun _ => 0%R) = 0%R.
Proof.
  unfold Rsum. induction (seq 0 (Z.to_nat n)) as [|a l IH];
    cbn [fold_right]; [reflexivity|]. rewrite IH. ring.
Qed.

(** Sums over rows and columns, in either order. *)
Lemma Rsum_swap (n m : Z) (F : Z -> Z -> R) :
  Rsum n (fun r => Rsum m (fun d => F r d))
  = Rsum m (fun d => Rsum n (fun r => F r d)).
Proof.
  unfold Rsum at 1 4.
  induction (seq 0 (Z.to_nat n)) as [|a l IH]; cbn [fold_right].
  - now rewrite Rsum_zero.
  - rewrite IH. now rewrite <- Rsum_plus.
Qed.

(** [sum(a, 0, keepdims = false)] on a matrix. *)
Lemma denotes_sum_rows (a : tensor) (R_ D : Z) f :
  denotes a [R_; D] f ->
  denotes (sum a [0] false) [D]
          (fun idx => Rsum R_ (fun r => f (r :: idx))).
Proof.
  intros [Hs Hf]. unfold sum, reduce, norm_axes, squeeze_axes.
  cbn [map fold_left]. unfold norm_axis, rank. rewrite Hs.
  cbn [List.length Z.of_nat Pos.of_succ_nat Pos.succ Z.ltb Z.compare
       Z.to_nat Pos.to_nat Pos.iter_op Nat.add].
  unfold reduce_axis. rewrite Hs.
  cbn [t_shape List.length seq rev app filter existsb Nat.eqb orb
       fold_left set_nth nth].
  unfold squeeze_axis. cbn [t_shape t_dtype t_at remove_nth].
  split; [reflexivity|].
  intros idx Hi. destruct idx as [|d [|? ?]]; simpl in Hi; try tauto.
  cbn [insert_nth set_nth]. apply Rsum_ext. intros r Hr.
  apply Hf. simpl. lia.
Qed.

End ColumnSums.

Section ParameterGradients.
Variable ds : Stream.
Import Real.

(** The gradients for the weight and the bias that the fallback of
    [LayerNorm::vjp] computes on matrices. *)
Lemma LayerNorm_vjp_fallback_params (eps : R) (x w b g : tensor)
    (R_ D : Z) :
  t_shape x = [R_; D] -> t_shape w = [D] -> t_shape b = [D] ->
  t_shape g = [R_; D] ->
  exists gx gw gb,
    LayerNorm_vjp_fallback (L := Lib ds) eps [x; w; b; g] = [gx; gw; gb]
    /\ forall d, 0 <= d < D ->
         t_at gw [d]
         = Rsum R_ (fun r =>
             let xr := fun k => t_at x [r; k] in
             (t_at g [r; d]
              * ((xr d - row_mean D xr)
                 * / R_sqrt.sqrt (row_var D xr + eps)))%R)
         /\ t_at gb [d] = Rsum R_ (fun r => t_at g [r; d]).
Proof.
  intros Hx Hw Hb Hg.
  unfold LayerNorm_vjp_fallback.
  rewrite (ndim_1 ds w D Hw), (ndim_1 ds b D Hb).
  replace (ndim (L := Lib ds) g) with 2
    by (unfold ndim; cbn [shape Lib]; now rewrite Hg).
  cbn [Z.eqb Z.sub Z.add Z.opp Z.pos_sub Pos.pred_double iota Z.to_nat
       Pos.to_nat Pos.iter_op Nat.add seq map Z.of_nat].
  norm_vjp_primitives.
  assert (Dx : denotes x ([R_] ++ [D]) (t_at x)) by (split; auto).
  assert (Dg : denotes g ([R_] ++ [D]) (t_at g)) by (split; auto).
  unfold number_of_elements. rewrite (count_last x [R_] D Hx).
  set (norm := array_of (/ IZR D) (t_dtype x)).
  pose proof (denotes_binary_scalar Rmult _ norm _ _ (/ IZR D)
                (denotes_sum_last x [R_] D _ Dx) eq_refl eq_refl) as Dmu.
  pose proof (denotes_binary_scalar Rmult _ norm _ _ (/ IZR D)
                (denotes_sum_last _ [R_] D _
                   (denotes_unary (fun v => (v * v)%R) x _ _ Dx))
                eq_refl eq_refl) as Dmu2.
  pose proof (denotes_binary Rminus _ _ _ _ _ Dmu2
                (denotes_unary (fun v => (v * v)%R) _ _ _ Dmu)) as Dvar.
  pose proof (denotes_unary (fun v => (/ R_sqrt.sqrt v)%R) _ _ _
                (denotes_binary_scalar Rplus _
                   (array_of eps (t_dtype x)) _ _ eps Dvar
                   eq_refl eq_refl)) as Dn.
  pose proof (denotes_binary_keepdims Rminus x _ [R_] D _ _ Dx Dmu) as Dxc.
  pose proof (denotes_sum_rows _ R_ D _
                (denotes_binary Rmult _ _ _ _ _ Dg
                   (denotes_binary_keepdims Rmult _ _ [R_] D _ _ Dxc Dn)))
    as Dgw.
  pose proof (denotes_sum_rows g R_ D _ Dg) as Dgb.
  do 3 eexists. split; [reflexivity|].
  intros d Hd. split.
  - etransitivity; [exact (proj2 Dgw [d] ltac:(simpl; lia))|].
    cbv beta. cbn [removelast app].
    unfold row_var, row_mean, Rdiv. cbv zeta. reflexivity.
  - exact (proj2 Dgb [d] ltac:(simpl; lia)).
Qed.

(** The gradient for the weight that the fallback of [RMSNorm::vjp]
    computes on matrices. *)
Lemma RMSNorm_vjp_fallback_params (eps : R) (x w g : tensor) (R_ D : Z) :
  t_shape x = [R_; D] -> t_shape w = [D] -> t_shape g = [R_; D] ->
  exists gx gw,
    RMSNorm_vjp_fallback (L := Lib ds) eps [x; w; g] = [gx; gw]
    /\ forall d, 0 <= d < D ->
         t_at gw [d]
         = Rsum R_ (fun r =>
             let xr := fun k => t_at x [r; k] in
             (t_at g [r; d]
              * (xr d
                 * / R_sqrt.sqrt (row_mean D (fun k => xr k * xr k) + eps))
             )%R).
Proof.
  intros Hx Hw Hg.
  unfold RMSNorm_vjp_fallback.
  replace (ndim (L := Lib ds) g) with 2
    by (unfold ndim; cbn [shape Lib]; now rewrite Hg).
  cbn [Z.sub Z.add Z.opp Z.pos_sub Pos.pred_double iota Z.to_nat
       Pos.to_nat Pos.iter_op Nat.add seq map Z.of_nat].
  norm_vjp_primitives.
  assert (Dx : denotes x ([R_] ++ [D]) (t_at x)) by (split; auto).
  assert (Dg : denotes g ([R_] ++ [D]) (t_at g)) by (split; auto).
  pose proof (denotes_unary (fun v => (/ R_sqrt.sqrt v)%R) _ _ _
                (denotes_binary_scalar Rplus _
                   (array_of eps (t_dtype x)) _ _ eps
                   (denotes_mean_last _ [R_] D _
                      (denotes_unary (fun v => (v * v)%R) x _ _ Dx))
                   eq_refl eq_refl)) as Dn.
  pose proof (denotes_sum_rows _ R_ D _
                (denotes_binary Rmult _ _ _ _ _ Dg
                   (denotes_binary_keepdims Rmult _ _ [R_] D _ _ Dx Dn)))
    as Dgw.
  do 2 eexists. split; [reflexivity|].
  intros d Hd.
  etransitivity; [exact (proj2 Dgw [d] ltac:(simpl; lia))|].
  cbv beta. cbn [removelast app]. cbv zeta. reflexivity.
Qed.

End ParameterGradients.

Section ParameterGradientTheorems.
Variable ds : Stream.

Lemma Rsum_affine2 (R_ D : Z) (a c : Z -> Z -> R) (e : R) :
  Real.Rsum R_ (fun r => Real.Rsum D (fun d => (a r d + e * c r d)%R))
  = (Real.Rsum R_ (fun r => Real.Rsum D (fun d => a r d))
     + e * Real.Rsum R_ (fun r => Real.Rsum D (fun d => c r d)))%R.
Proof.
  rewrite <- Rsum_scal, <- Rsum_plus. apply Rsum_ext. intros r _.
  now rewrite Rsum_plus, Rsum_scal.
Qed.

Lemma Rsum_columns (R_ D : Z) (c : Z -> Z -> R) (V : Z -> R) :
  Real.Rsum R_ (fun r => Real.Rsum D (fun d => (c r d * V d)%R))
  = Real.Rsum D (fun d => (Real.Rsum R_ (fun r => c r d) * V d)%R).
Proof.
  rewrite Rsum_swap. apply Rsum_ext. intros d _.
  rewrite (Rmult_comm _ (V d)), <- Rsum_scal.
  apply Rsum_ext. intros r _. ring.
Qed.

(** [LayerNorm::vjp] returns the gradients of [layer_norm] for the
    weight and the bias.  For a matrix [x] and a cotangent [g] of shape
    [R, D] and a weight and a bias of shape [D]: asked for arguments 1
    and 2, the method returns two arrays [gw] and [gb] of the shapes of
    the weight and the bias, and for every direction [V] the derivative
    at [e = 0] of [sum_{r,d} g * layer_norm(x, w + e * V, b)] is
    [sum_d gw_d * V_d], and that of
    [sum_{r,d} g * layer_norm(x, w, b + e * V)] is [sum_d gb_d * V_d].
    Over exact reals, [layer_norm] on either kind of stream. *)
Theorem LayerNorm_vjp_parameter_gradients (s : Stream)
    (s_ : StreamOrDevice) (eps : R) (x w b g : Real.tensor)
    (outputs : list Real.tensor) (R_ D : Z) :
  Real.t_shape x = [R_; D] -> Real.t_shape w = [D] ->
  Real.t_shape b = [D] -> Real.t_shape g = [R_; D] ->
  @issubdtype _ (Real.Lib ds)
    (@result_type _ (Real.Lib ds) [x; w; b]) floating = true ->
  exists gw gb,
    LayerNorm_vjp (L := Real.Lib ds) s eps [x; w; b] [g] [1; 2] outputs
    = Return [gw; gb]
    /\ Real.t_shape gw = Real.t_shape w
    /\ Real.t_shape gb = Real.t_shape b
    /\ forall V : list Z -> R,
         derivable_pt_lim
           (fun e =>
              weighted_total R_ D g
                (layer_norm (L := Real.Lib ds) x (Some (perturb w V e))
                            (Some b) eps s_))
           0 (Real.Rsum D (fun d => (Real.t_at gw [d] * V [d])%R))
         /\ derivable_pt_lim
              (fun e =>
                 weighted_total R_ D g
                   (layer_norm (L := Real.Lib ds) x (Some w)
                               (Some (perturb b V e)) eps s_))
              0 (Real.Rsum D (fun d => (Real.t_at gb [d] * V [d])%R)).
Proof.
  intros Hx Hw Hb Hg Hf.
  destruct (LayerNorm_vjp_fallback_params ds eps x w b g R_ D Hx Hw Hb Hg)
    as (gx & gw & gb & Hfb & Hat).
  unfold LayerNorm_vjp. real_primitives.
  unfold Real.make_arrays, Real.node_outputs.
  cbn [fallback_of]. rewrite Hfb.
  cbn [List.length seq map nth select Z.ltb Z.compare Z.to_nat Pos.to_nat
       Pos.iter_op Nat.add nth_error].
  do 2 eexists. split; [reflexivity|].
  split; [reflexivity|]. split; [reflexivity|].
  cbn [Real.t_at].
  set (nh := fun r d =>
               let xr := fun k => Real.t_at x [r; k] in
               ((xr d - row_mean D xr)
                * / R_sqrt.sqrt (row_var D xr + eps))%R).
  intros V. split.
  - apply (derivable_pt_lim_ext
             (fun e =>
                (Real.Rsum R_ (fun r => Real.Rsum D (fun d =>
                    Real.t_at g [r; d]
                    * (nh r d * Real.t_at w [d] + Real.t_at b [d])))
                 + e * Real.Rsum R_ (fun r => Real.Rsum D (fun d =>
                         Real.t_at g [r; d] * nh r d * V [d])))%R)).
    { intros e. rewrite <- Rsum_affine2. unfold weighted_total.
      destruct (layer_norm_at ds x (Some (perturb w V e)) (Some b) eps s_
                  [R_] D Hx
                  ltac:(intros w' E; injection E as <-; exact Hw)
                  ltac:(intros b' E; injection E as <-; exact Hb) Hf)
        as (y & Hy & _ & _ & Hyat).
      rewrite Hy. cbn [returned_at].
      apply Rsum_ext. intros r Hr. apply Rsum_ext. intros d Hd.
      pose proof (Hyat [r] d ltac:(simpl; lia) Hd) as E.
      cbn [app] in E. rewrite E.
      unfold layer_norm_row, nh. cbn [option_map perturb Real.t_at app].
      cbv zeta. ring. }
    apply (derivable_pt_lim_eq _ _
             (Real.Rsum R_ (fun r => Real.Rsum D (fun d =>
                (Real.t_at g [r; d] * nh r d * V [d])%R))));
      [|apply deriv_affine].
    rewrite Rsum_columns. apply Rsum_ext. intros d Hd.
    now rewrite (proj1 (Hat d Hd)).
  - apply (derivable_pt_lim_ext
             (fun e =>
                (Real.Rsum R_ (fun r => Real.Rsum D (fun d =>
                    Real.t_at g [r; d]
                    * (nh r d * Real.t_at w [d] + Real.t_at b [d])))
                 + e * Real.Rsum R_ (fun r => Real.Rsum D (fun d =>
                         Real.t_at g [r; d] * V [d])))%R)).
    { intros e. rewrite <- Rsum_affine2. unfold weighted_total.
      destruct (layer_norm_at ds x (Some w) (Some (perturb b V e)) eps s_
                  [R_] D Hx
                  ltac:(intros w' E; injection E as <-; exact Hw)
                  ltac:(intros b' E; injection E as <-; exact Hb) Hf)
        as (y & Hy & _ & _ & Hyat).
      rewrite Hy. cbn [returned_at].
      apply Rsum_ext. intros r Hr. apply Rsum_ext. intros d Hd.
      pose proof (Hyat [r] d ltac:(simpl; lia) Hd) as E.
      cbn [app] in E. rewrite E.
      unfold layer_norm_row, nh. cbn [option_map perturb Real.t_at app].
      cbv zeta. ring. }
    apply (derivable_pt_lim_eq _ _
             (Real.Rsum R_ (fun r => Real.Rsum D (fun d =>
                (Real.t_at g [r; d] * V [d])%R))));
      [|apply deriv_affine].
    rewrite Rsum_columns. apply Rsum_ext. intros d Hd.
    now rewrite (proj2 (Hat d Hd)).
Qed.

(** [RMSNorm::vjp] returns the gradient of [rms_norm] for the weight.
    For a matrix [x] and a cotangent [g] of shape [R, D] and a weight of
    shape [D]: asked for argument 1, the method returns one array [gw]
    of the shape of the weight, and for every direction [V] the
    derivative at [e = 0] of [sum_{r,d} g * rms_norm(x, w + e * V)] is
    [sum_d gw_d * V_d].  Over exact reals, [rms_norm] on either kind of
    stream. *)
Theorem RMSNorm_vjp_weight_gradient (s : Stream) (s_ : StreamOrDevice)
    (eps : R) (x w g : Real.tensor) (outputs : list Real.tensor)
    (R_ D : Z) :
  Real.t_shape x = [R_; D] -> Real.t_shape w = [D] ->
  Real.t_shape g = [R_; D] ->
  @issubdtype _ (Real.Lib ds)
    (@result_type _ (Real.Lib ds) [x; w]) floating = true ->
  exists gw,
    RMSNorm_vjp (L := Real.Lib ds) s eps [x; w] [g] [1] outputs
    = Return [gw]
    /\ Real.t_shape gw = Real.t_shape w
    /\ forall V : list Z -> R,
         derivable_pt_lim
           (fun e =>
              weighted_total R_ D g
                (rms_norm (L := Real.Lib ds) x (perturb w V e) eps s_))
           0 (Real.Rsum D (fun d => (Real.t_at gw [d] * V [d])%R)).
Proof.
  intros Hx Hw Hg Hf.
  destruct (RMSNorm_vjp_fallback_params ds eps x w g R_ D Hx Hw Hg)
    as (gx & gw & Hfb & Hat).
  unfold RMSNorm_vjp. real_primitives.
  unfold Real.make_arrays, Real.node_outputs.
  cbn [fallback_of]. rewrite Hfb.
  cbn [List.length seq map nth select Z.ltb Z.compare Z.to_nat Pos.to_nat
       Pos.iter_op Nat.add nth_error].
  eexists. split; [reflexivity|]. split; [reflexivity|].
  cbn [Real.t_at].
  set (nh := fun r d =>
               let xr := fun k => Real.t_at x [r; k] in
               (xr d * / R_sqrt.sqrt (row_mean D (fun k => xr k * xr k)
                                      + eps))%R).
  intros V.
  apply (derivable_pt_lim_ext
           (fun e =>
              (Real.Rsum R_ (fun r => Real.Rsum D (fun d =>
                  Real.t_at g [r; d] * (Real.t_at w [d] * nh r d)))
               + e * Real.Rsum R_ (fun r => Real.Rsum D (fun d =>
                       Real.t_at g [r; d] * nh r d * V [d])))%R)).
  { intros e. rewrite <- Rsum_affine2. unfold weighted_total.
    destruct (rms_norm_at ds x (perturb w V e) eps s_ [R_] D Hx Hw Hf)
      as (y & Hy & Hyat).
    rewrite Hy. cbn [returned_at].
    apply Rsum_ext. intros r Hr. apply Rsum_ext. intros d Hd.
    pose proof (Hyat [r] d ltac:(simpl; lia) Hd) as E.
    cbn [app] in E. rewrite E.
    unfold rms_norm_row, nh. cbn [perturb Real.t_at app].
    cbv zeta. ring. }
  apply (derivable_pt_lim_eq _ _
           (Real.Rsum R_ (fun r => Real.Rsum D (fun d =>
              (Real.t_at g [r; d] * nh r d * V [d])%R))));
    [|apply deriv_affine].
  rewrite Rsum_columns. apply Rsum_ext. intros d Hd.
  now rewrite (Hat d Hd).
Qed.

End ParameterGradientTheorems.

(** * Witnesses and divergences *)

Section Examples.

#[local] Existing Instance example_lib.

Lemma rsqrt_is_reciprocal_sqrt_real : rsqrt_is_reciprocal_sqrt.
Proof. intros a b. reflexivity. Defined.

Lemma rms_norm_spec_witness :
  raises (rms_norm (iota_tensor [] float32) (iota_tensor [3] float32)
                   (1 / 100000)%R monostate)
  /\ rms_norm (iota_tensor [2; 3] float16) (iota_tensor [3] float32)
              (1 / 100000)%R monostate
     = Return (rms_norm_reference (1 / 100000)%R float32
                 (iota_tensor [2; 3] float16) (iota_tensor [3] float32)).
Proof.
  split.
  - apply (rms_norm_spec (iota_tensor [] float32) (iota_tensor [3] float32)
             (1 / 100000)%R monostate rsqrt_is_reciprocal_sqrt_real).
    left. reflexivity.
  - destruct (rms_norm_spec (iota_tensor [2; 3] float16)
                (iota_tensor [3] float32) (1 / 100000)%R monostate
                rsqrt_is_reciprocal_sqrt_real) as [_ H].
    destruct H as (fb & _ & Hcall).
    + unfold ndim. simpl. lia.
    + reflexivity.
    + reflexivity.
    + exact Hcall.
Defined.

Lemma rope_forward_then_inverse_witness :
  exists y z,
    rope (iota_tensor [2; 3; 4; 6] float32) 4 true 10000 1 5 true
         (on_device gpu) = Return y
    /\ rope y 4 true 10000 1 5 false (on_device cpu) = Return z
    /\ Real.t_shape z = [2; 3; 4; 6]
    /\ Real.t_dtype z = float32
    /\ forall idx, Real.in_bounds [2; 3; 4; 6] idx ->
         Real.t_at z idx = IZR (Real.ravel [2; 3; 4; 6] idx).
Proof.
  apply (rope_forward_then_inverse cpu_stream
           (iota_tensor [2; 3; 4; 6] float32) 4 true 10000%R 1%R 5
           (on_device gpu) (on_device cpu)).
  - unfold ndim. simpl. lia.
  - simpl. repeat constructor; lia.
  - reflexivity.
  - unfold shape_at, ndim. simpl. lia.
Defined.

Lemma unpack_pack_word_witness :
  Codec.unpack_word 4 (Codec.pack_word 4 [1; 2; 3; 4; 5; 6; 7; 15])
  = [1; 2; 3; 4; 5; 6; 7; 15].
Proof.
  apply (unpack_pack_word 4 [1; 2; 3; 4; 5; 6; 7; 15]).
  - right; left; reflexivity.
  - reflexivity.
  - repeat constructor; unfold Codec.level; simpl; lia.
Defined.

Lemma Custom_vjp_argnums_witness :
  let core_vjp := fun (f : closure nat) (primals cotangents : list nat) =>
                    (f primals, primals) in
  Custom_vjp core_vjp (fun l => l) [10; 11; 12]%nat [7]%nat [0; 2] []
  = [10; 12]%nat
  /\ (List.length
        (Custom_vjp core_vjp (fun l => l) [10; 11; 12]%nat [7]%nat
                    [2; 0]%Z [])
      < 2)%nat.
Proof.
  intros core_vjp.
  destruct (Custom_vjp_argnums core_vjp (fun l => l) [10; 11; 12]%nat
              [7]%nat [0; 2] []) as (_ & Hsorted & _).
  destruct (Custom_vjp_argnums core_vjp (fun l => l) [10; 11; 12]%nat
              [7]%nat [2; 0] []) as (_ & _ & Hunsorted).
  split.
  - cbv zeta in Hsorted. specialize (Hsorted ltac:(repeat constructor)).
    specialize (Hsorted ltac:(repeat constructor; simpl; lia)).
    apply (f_equal (map (fun o : option nat =>
                           match o with Some v => v | None => O end)))
      in Hsorted.
    rewrite map_map, map_id in Hsorted. exact Hsorted.
  - apply Hunsorted. intros Hs.
    inversion Hs as [|? ? _ Hlt]; subst.
    inversion Hlt as [|? ? H20 _]; subst. lia.
Defined.

Lemma custom_kernel_only_on_gpu_witness :
  custom_kernel [("a"%string, iota_tensor [4] float32)] "out[0] = a[0];"
                [("out"%string, [4])] [("out"%string, float32)]
                (4, 1, 1) (4, 1, 1) true (on_device cpu)
  = Undefined flows_off_the_end.
Proof.
  apply (custom_kernel_only_on_gpu
           [("a"%string, iota_tensor [4] float32)] "out[0] = a[0];"
           [("out"%string, [4])] [("out"%string, float32)]
           (4, 1, 1) (4, 1, 1) true (on_device cpu)).
  simpl. discriminate.
Defined.

Lemma affine_quantize_raises_iff_witness :
  raises (affine_quantize (iota_tensor [2; 512] float32) 64 3 monostate)
  /\ returns (affine_quantize (iota_tensor [2; 512] float32) 64 4 monostate).
Proof.
  split.
  - apply (affine_quantize_raises_iff (iota_tensor [2; 512] float32) 64 3
             monostate).
    right; left. unfold supported_bits. lia.
  - destruct (affine_quantize_raises_iff (iota_tensor [2; 512] float32) 64 4
                monostate) as [_ H].
    destruct H as (p & s & b & Hcall & _).
    + unfold quantize_rejects, supported_group_size, supported_bits, ndim,
        shape_at.
      simpl.
      intros [H|[H|[H|[H|H]]]]; try lia.
      apply H. exists 8. reflexivity.
    + rewrite Hcall. now exists (p, s, b).
Defined.



Lemma scaled_dot_product_attention_is_fallback_witness :
  let q := iota_tensor [1; 2; 4; 8] float32 in
  let k := iota_tensor [1; 1; 4; 8] float32 in
  let v := iota_tensor [1; 1; 4; 8] float32 in
  scaled_dot_product_attention q k v (1 / 2)%R None (on_device gpu)
  = Return (attention_reference (1 / 2)%R None 2 1
              (astype q float32) (astype k float32) (astype v float32)).
Proof.
  intros q k v.
  destruct (scaled_dot_product_attention_is_fallback q k v (1 / 2)%R None
              (on_device gpu)) as [_ H].
  destruct H as [_ Hcall].
  - unfold sdpa_valid, ndim, shape_at, imod. simpl.
    repeat split; try reflexivity; lia.
  - exact Hcall.
Defined.

Lemma Custom_jvp_all_tangents_witness :
  let core_jvp :=
    fun (f : closure Real.tensor) (primals tangents : list Real.tensor) =>
      (f primals, tangents) in
  let p := iota_tensor [2] float32 in
  let t := iota_tensor [3] float32 in
  exists all_tangents,
    Custom_jvp core_jvp (fun l => l) [p; p; p] [t] [1]
    = Return (snd (core_jvp (fun l => l) [p; p; p] all_tangents))
    /\ List.length all_tangents = 3%nat
    /\ (forall j a, nth_error [1] j = Some a ->
          nth_error all_tangents (Z.to_nat a) = nth_error [t] j)
    /\ (forall i q, nth_error [p; p; p] i = Some q ->
          ~ In (Z.of_nat i) [1] ->
          nth_error all_tangents i = Some (zeros_like q)).
Proof.
  intros core_jvp p t.
  apply (Custom_jvp_all_tangents core_jvp (fun l => l) [p; p; p] [t] [1]).
  - repeat constructor.
  - repeat constructor; simpl; lia.
  - simpl; lia.
Defined.

Lemma norm_vjp_returns_selected_witness :
  let x := iota_tensor [2; 3] float32 in
  let w := iota_tensor [3] float32 in
  let eps := (1 / 100000)%R in
  exists l,
    RMSNorm_vjp cpu_stream eps [x; w] [x] [1; 0] [] = Return l
    /\ map Some l
       = map (fun a =>
                nth_error
                  (make_arrays [shape x; shape w] [dtype x; dtype w]
                     (RMSNormVJP cpu_stream (RMSNorm_vjp_fallback eps) eps)
                     [x; w; x])
                  (Z.to_nat a))
             [1; 0].
Proof.
  intros x w eps.
  apply (norm_vjp_returns_selected cpu_stream eps x w w x [1; 0] []).
  - repeat constructor; simpl; intuition lia.
  - repeat constructor; lia.
Defined.

Lemma dequantize_parts_length_witness :
  Z.of_nat (List.length (dequantize_parts 32 (iota_tensor [1; 4] uint32) 3 0))
  = 11
  /\ idiv 32 3 = 10.
Proof.
  split; [|reflexivity].
  apply (dequantize_parts_length (iota_tensor [1; 4] uint32) 3). lia.
Defined.

Lemma custom_kernel_gpu_outputs_witness :
  exists outs dts,
    (forall grid threadgroup ensure_row_contiguous,
       custom_kernel [("a"%string, iota_tensor [4] float32)] "out[0] = a[0];"
         [("out"%string, [4])]
         [("out"%string, float32); ("unused"%string, int8)]
         grid threadgroup ensure_row_contiguous (on_device gpu)
       = Return outs)
    /\ List.length outs = 1%nat
    /\ map Some dts = [Some float32]
    /\ outs = make_arrays [[4]] dts
                (CustomKernel (to_stream (on_device gpu)) "out[0] = a[0];")
                [iota_tensor [4] float32].
Proof.
  apply (custom_kernel_gpu_outputs
           [("a"%string, iota_tensor [4] float32)] "out[0] = a[0];"
           [("out"%string, [4])]
           [("out"%string, float32); ("unused"%string, int8)]
           (1, 1, 1) (1, 1, 1) true (on_device gpu)).
  - reflexivity.
  - intros name sh [H|[]]. injection H as <- <-. now exists float32.
Defined.

Lemma pack_unpack_word_witness :
  Codec.pack_word 4 (Codec.unpack_word 4 4275878552) = 4275878552.
Proof.
  apply (pack_unpack_word 4 4275878552).
  - right; left; reflexivity.
  - split; [lia|reflexivity].
Defined.
Lemma rope_rows_witness :
  let x := iota_tensor [2; 3; 4; 6] float32 in
  exists y,
    rope x 4 false 10000 1 5 true (on_device gpu) = Return y
    /\ Real.t_shape y = [2; 3; 4; 6]
    /\ Real.t_dtype y = float32
    /\ forall ipre l d,
         Real.in_bounds [2; 3] ipre -> 0 <= l < 4 -> 0 <= d < 6 ->
         Real.t_at y (ipre ++ [l; d])
         = rotate_row false true 4 2 (rope_angle 10000 1 5 2 l)
             (fun d' => Real.t_at x (ipre ++ [l; d'])) d.
Proof.
  intros x.
  apply (rope_rows cpu_stream x [2; 3] 4 6 4 2 false 10000%R 1%R 5 true
           (on_device gpu)).
  - reflexivity.
  - simpl; lia.
  - simpl. repeat constructor; lia.
  - lia.
  - reflexivity.
  - lia.
Defined.

Lemma rope_keeps_norms_witness :
  let x := iota_tensor [2; 3; 4; 6] float32 in
  exists y,
    rope x 4 true 10000 1 5 true (on_device cpu) = Return y
    /\ forall ipre l,
         Real.in_bounds [2; 3] ipre -> 0 <= l < 4 ->
         (forall i, 0 <= i < 2 ->
            let d1 := fst (rope_pair true 2 i) in
            let d2 := snd (rope_pair true 2 i) in
            (Real.t_at y (ipre ++ [l; d1]) * Real.t_at y (ipre ++ [l; d1])
             + Real.t_at y (ipre ++ [l; d2]) * Real.t_at y (ipre ++ [l; d2])
             = Real.t_at x (ipre ++ [l; d1]) * Real.t_at x (ipre ++ [l; d1])
               + Real.t_at x (ipre ++ [l; d2]) * Real.t_at x (ipre ++ [l; d2])
            )%R)
         /\ (forall d, 4 <= d < 6 ->
               Real.t_at y (ipre ++ [l; d]) = Real.t_at x (ipre ++ [l; d])).
Proof.
  intros x.
  apply (rope_keeps_norms cpu_stream x [2; 3] 4 6 4 2 true 10000%R 1%R 5 true
           (on_device cpu)).
  - reflexivity.
  - simpl; lia.
  - simpl. repeat constructor; lia.
  - lia.
  - reflexivity.
  - lia.
Defined.

Lemma rope_scores_depend_on_distance_witness :
  let q := iota_tensor [1; 2; 4; 6] float32 in
  let k := iota_tensor [1; 1; 5; 6] float32 in
  exists yq yk,
    rope q 4 false 10000 1 7 true (on_device cpu) = Return yq
    /\ rope k 4 false 10000 1 7 true (on_device cpu) = Return yk
    /\ forall iq ik m n,
         Real.in_bounds [1; 2] iq -> Real.in_bounds [1; 1] ik ->
         0 <= m < 4 -> 0 <= n < 5 ->
         Real.Rsum 6 (fun d => (Real.t_at yq (iq ++ [m; d])
                                * Real.t_at yk (ik ++ [n; d]))%R)
         = (Real.Rsum 2 (fun i =>
              let d1 := fst (rope_pair false 2 i) in
              let d2 := snd (rope_pair false 2 i) in
              let q1 := Real.t_at q (iq ++ [m; d1]) in
              let q2 := Real.t_at q (iq ++ [m; d2]) in
              let k1 := Real.t_at k (ik ++ [n; d1]) in
              let k2 := Real.t_at k (ik ++ [n; d2]) in
              let dt := rope_angle 10000 1 0 2 (m - n) i in
              (q1 * k1 + q2 * k2) * Rtrigo_def.cos dt
              + (q1 * k2 - q2 * k1) * Rtrigo_def.sin dt)
            + Real.Rsum (6 - 4)%Z (fun d =>
                Real.t_at q (iq ++ [m; (4 + d)%Z])
                * Real.t_at k (ik ++ [n; (4 + d)%Z])))%R.
Proof.
  intros q k.
  apply (rope_scores_depend_on_distance cpu_stream q k [1; 2] [1; 1] 4 5 6 4 2
           false 10000%R 1%R 7 true (on_device cpu) (on_device cpu)).
  - reflexivity.
  - simpl; lia.
  - reflexivity.
  - simpl; lia.
  - simpl. repeat constructor; lia.
  - simpl. repeat constructor; lia.
  - lia.
  - reflexivity.
  - lia.
Defined.

Lemma RoPE_vjp_undoes_rope_witness :
  let x := iota_tensor [2; 3; 4; 6] float32 in
  exists y z,
    rope x 4 true 10000 1 5 false (on_device cpu) = Return y
    /\ RoPE_vjp (mkStream 0 gpu) 4 true 10000 1 5 false [x] [y] [0] []
       = Return [z]
    /\ Real.t_shape z = [2; 3; 4; 6]
    /\ Real.t_dtype z = float32
    /\ forall idx, Real.in_bounds [2; 3; 4; 6] idx ->
         Real.t_at z idx = Real.t_at x idx.
Proof.
  intros x.
  apply (RoPE_vjp_undoes_rope cpu_stream x 4 true 10000%R 1%R 5 false
           (on_device cpu) (mkStream 0 gpu) [x] [0] []).
  - unfold ndim. simpl. lia.
  - simpl. repeat constructor; lia.
  - reflexivity.
  - unfold shape_at, ndim. simpl. lia.
Defined.
Lemma layer_norm_rows_witness :
  let x := iota_tensor [2; 3] float16 in
  let w := iota_tensor [3] float32 in
  let eps := (1 / 100000)%R in
  exists y,
    layer_norm x (Some w) None eps (on_device gpu) = Return y
    /\ Real.t_shape y = [2; 3]
    /\ Real.t_dtype y = float32
    /\ forall ipre d, Real.in_bounds [2] ipre -> 0 <= d < 3 ->
         let r := fun k => Real.t_at x (ipre ++ [k]) in
         let mu := (Real.Rsum 3 r / 3)%R in
         let var := (Real.Rsum 3 (fun k => r k * r k) / 3 - mu * mu)%R in
         Real.t_at y (ipre ++ [d])
         = ((r d - mu) * / R_sqrt.sqrt (var + eps) * Real.t_at w [d])%R.
Proof.
  intros x w eps.
  apply (layer_norm_rows cpu_stream x (Some w) None eps (on_device gpu)
           [2] 3).
  - reflexivity.
  - intros w' H. now injection H as <-.
  - discriminate.
  - reflexivity.
Defined.

Lemma layer_norm_standardizes_witness :
  let x := iota_tensor [2; 3] float32 in
  exists y,
    layer_norm x None None 0 (on_device cpu) = Return y
    /\ forall ipre, Real.in_bounds [2] ipre ->
         let r := fun k => Real.t_at x (ipre ++ [k]) in
         let out := fun d => Real.t_at y (ipre ++ [d]) in
         row_mean 3 out = 0%R
         /\ ((0 < row_var 3 r + 0)%R ->
             row_mean 3 (fun d => (out d * out d)%R)
             = (row_var 3 r / (row_var 3 r + 0))%R).
Proof.
  intros x.
  apply (layer_norm_standardizes cpu_stream x 0%R (on_device cpu) [2] 3).
  - reflexivity.
  - lia.
  - reflexivity.
Defined.

Lemma rms_norm_rows_witness :
  let x := iota_tensor [2; 3] float16 in
  let w := iota_tensor [3] float32 in
  let eps := (1 / 100000)%R in
  exists y,
    rms_norm x w eps (on_device cpu) = Return y
    /\ Real.t_shape y = [2; 3]
    /\ Real.t_dtype y = float32
    /\ forall ipre d, Real.in_bounds [2] ipre -> 0 <= d < 3 ->
         let r := fun k => Real.t_at x (ipre ++ [k]) in
         Real.t_at y (ipre ++ [d])
         = (Real.t_at w [d]
            * (r d
               * / R_sqrt.sqrt (Real.Rsum 3 (fun k => r k * r k) / 3 + eps))
           )%R.
Proof.
  intros x w eps.
  apply (rms_norm_rows cpu_stream x w eps (on_device cpu) [2] 3).
  - reflexivity.
  - reflexivity.
  - reflexivity.
Defined.

Lemma affine_quantize_given_packs_witness :
  let w := iota_tensor [2; 64] float32 in
  let scales := Real.mk_tensor [2; 2] float32 (fun _ => 4%R) in
  let biases := Real.mk_tensor [2; 2] float32 (fun _ => 1%R) in
  exists p,
    affine_quantize_given w scales biases 32 4 (on_device cpu) = Return p
    /\ Real.t_shape p = [2; 8] /\ Real.t_dtype p = uint32
    /\ forall r m, 0 <= r < 2 -> 0 <= m < 8 ->
         exists word,
           Real.t_at p [r; m] = IZR word /\ 0 <= word < 2 ^ 32
           /\ Codec.unpack_word 4 word
              = word_levels 32 4 w scales biases r m.
Proof.
  intros w scales biases.
  apply (affine_quantize_given_packs cpu_stream w scales biases 2 2 32 8 4
           (on_device cpu)).
  - reflexivity.
  - reflexivity.
  - reflexivity.
  - reflexivity.
  - right. left. reflexivity.
  - lia.
  - lia.
  - lia.
  - reflexivity.
Defined.

Lemma affine_dequantize_unpacks_witness :
  let p := Real.mk_tensor [1; 4] uint32 (fun _ => 305419896%R) in
  let scales := Real.mk_tensor [1; 1] float32 (fun _ => 4%R) in
  let biases := Real.mk_tensor [1; 1] float32 (fun _ => 1%R) in
  exists y,
    affine_dequantize p scales biases 32 4 (on_device cpu) = Return y
    /\ Real.t_shape y = [1; 4 * (32 / 4)]
    /\ forall r c, 0 <= r < 1 -> 0 <= c < 4 * (32 / 4) ->
         let q := nth (Z.to_nat (c mod (32 / 4)))
                      (Codec.unpack_word 4 305419896) 0 in
         Codec.level 4 q
         /\ Real.t_at y [r; c]
            = (IZR q * Real.t_at scales [r; (c / 32)%Z]
               + Real.t_at biases [r; (c / 32)%Z])%R.
Proof.
  intros p scales biases.
  apply (affine_dequantize_unpacks cpu_stream p scales biases 1 4 1 32 4
           (fun _ _ => 305419896) (on_device cpu)).
  - discriminate.
  - reflexivity.
  - reflexivity.
  - reflexivity.
  - reflexivity.
  - right. left. reflexivity.
  - lia.
  - lia.
  - lia.
  - reflexivity.
  - intros r m _ _. split; [reflexivity|]. split; [lia|reflexivity].
Defined.

Lemma dequantize_quantize_round_trip_witness :
  let w := iota_tensor [2; 64] float32 in
  let scales := Real.mk_tensor [2; 2] float32 (fun _ => 4%R) in
  let biases := Real.mk_tensor [2; 2] float32 (fun _ => 1%R) in
  exists p y,
    affine_quantize_given w scales biases 32 4 (on_device gpu) = Return p
    /\ affine_dequantize p scales biases 32 4 (on_device cpu) = Return y
    /\ Real.t_shape y = Real.t_shape w
    /\ forall r c, 0 <= r < 2 -> 0 <= c < 2 * 32 ->
         let s := Real.t_at scales [r; c / 32] in
         let b := Real.t_at biases [r; c / 32] in
         Real.t_at y [r; c]
         = (IZR (stored_level 32 4 w scales biases r c) * s + b)%R
         /\ (s <> 0%R ->
             (0 <= (Real.t_at w [r; c] - b) / s <= IZR (2 ^ 4 - 1))%R ->
             (Rabs (Real.t_at y [r; c] - Real.t_at w [r; c])
              <= Rabs s / 2)%R).
Proof.
  intros w scales biases.
  apply (dequantize_quantize_round_trip cpu_stream w scales biases 2 2 32 8 4
           (on_device gpu) (on_device cpu)).
  - discriminate.
  - reflexivity.
  - reflexivity.
  - reflexivity.
  - reflexivity.
  - right. left. reflexivity.
  - lia.
  - lia.
  - lia.
  - reflexivity.
Defined.

Lemma affine_quantize_packs_witness :
  let w := iota_tensor [2; 256] float32 in
  exists wq scales biases,
    affine_quantize w 64 4 (on_device gpu) = Return (wq, scales, biases)
    /\ Real.t_shape wq = [2; 4 * 64 / (32 / 4)]
    /\ Real.t_dtype wq = uint32
    /\ Real.t_shape scales = [2; 4] /\ Real.t_shape biases = [2; 4]
    /\ (forall r g, 0 <= r < 2 -> 0 <= g < 4 ->
          Real.t_at scales [r; g] <> 0%R)
    /\ forall r m, 0 <= r < 2 -> 0 <= m < 4 * 64 / (32 / 4) ->
         exists word,
           Real.t_at wq [r; m] = IZR word /\ 0 <= word < 2 ^ 32
           /\ Codec.unpack_word 4 word
              = word_levels 64 4 w scales biases r m.
Proof.
  intros w.
  apply (affine_quantize_packs cpu_stream w 2 4 64 4 (on_device gpu)).
  - reflexivity.
  - reflexivity.
  - right. left. reflexivity.
  - right. left. reflexivity.
  - lia.
  - vm_compute. discriminate.
Defined.

Lemma dequantize_affine_quantize_witness :
  let w := iota_tensor [2; 256] float32 in
  exists wq scales biases y,
    affine_quantize w 64 4 (on_device gpu) = Return (wq, scales, biases)
    /\ affine_dequantize wq scales biases 64 4 (on_device cpu) = Return y
    /\ Real.t_shape y = Real.t_shape w
    /\ forall r c, 0 <= r < 2 -> 0 <= c < 4 * 64 ->
         let s := Real.t_at scales [r; c / 64] in
         let b := Real.t_at biases [r; c / 64] in
         s <> 0%R
         /\ Real.t_at y [r; c]
            = (IZR (stored_level 64 4 w scales biases r c) * s + b)%R
         /\ ((0 <= (Real.t_at w [r; c] - b) / s <= IZR (2 ^ 4 - 1))%R ->
             (Rabs (Real.t_at y [r; c] - Real.t_at w [r; c])
              <= Rabs s / 2)%R).
Proof.
  intros w.
  apply (dequantize_affine_quantize cpu_stream w 2 4 64 4
           (on_device gpu) (on_device cpu)).
  - discriminate.
  - reflexivity.
  - reflexivity.
  - right. left. reflexivity.
  - right. left. reflexivity.
  - lia.
  - vm_compute. discriminate.
Defined.

Lemma scaled_dot_product_attention_rows_witness :
  let q := iota_tensor [1; 4; 2; 3] float32 in
  let k := iota_tensor [1; 2; 5; 3] float16 in
  let v := iota_tensor [1; 2; 5; 2] float32 in
  let mask := Some (Real.mk_tensor [2; 5] float32 (fun _ => 0%R)) in
  let scale := (1 / 2)%R in
  exists y,
    scaled_dot_product_attention q k v scale mask (on_device gpu) = Return y
    /\ Real.t_shape y = [1; 2 * 2; 2; 2]
    /\ forall b h l j,
         0 <= b < 1 -> 0 <= h < 2 * 2 -> 0 <= l < 2 -> 0 <= j < 2 ->
         Real.t_at y [b; h; l; j]
         = Real.Rsum 5 (fun t =>
             (softmax_weight 5
                (fun u =>
                   Real.Rsum 3 (fun d =>
                     scale * Real.t_at q [b; h; l; d]
                     * Real.t_at k [b; (h / 2)%Z; u; d])
                   + mask_at mask l u) t
              * Real.t_at v [b; (h / 2)%Z; t; j])%R).
Proof.
  intros q k v mask scale.
  apply (scaled_dot_product_attention_rows cpu_stream q k v scale mask
           (on_device gpu) 1 2 2 2 5 3 2).
  - reflexivity.
  - reflexivity.
  - reflexivity.
  - intros m Hm. injection Hm as <-. reflexivity.
  - lia.
  - lia.
  - lia.
  - lia.
  - lia.
  - lia.
  - reflexivity.
Defined.

Lemma attention_is_weighted_mean_witness :
  let q := iota_tensor [1; 4; 2; 3] float32 in
  let k := iota_tensor [1; 2; 5; 3] float16 in
  let v := iota_tensor [1; 2; 5; 2] float32 in
  exists y,
    scaled_dot_product_attention q k v 1 None (on_device cpu) = Return y
    /\ forall b h l, 0 <= b < 1 -> 0 <= h < 2 * 2 -> 0 <= l < 2 ->
         exists p : Z -> R,
           (forall t, 0 <= t < 5 -> (0 < p t)%R)
           /\ Real.Rsum 5 p = 1%R
           /\ forall j, 0 <= j < 2 ->
                Real.t_at y [b; h; l; j]
                = Real.Rsum 5 (fun t =>
                    (p t * Real.t_at v [b; (h / 2)%Z; t; j])%R).
Proof.
  intros q k v.
  apply (attention_is_weighted_mean cpu_stream q k v 1 None
           (on_device cpu) 1 2 2 2 5 3 2).
  - reflexivity.
  - reflexivity.
  - reflexivity.
  - intros m Hm. discriminate Hm.
  - lia.
  - lia.
  - lia.
  - lia.
  - lia.
  - lia.
  - lia.
  - reflexivity.
Defined.
Lemma LayerNorm_vjp_is_gradient_witness :
  let x := iota_tensor [2; 3] float32 in
  let w := iota_tensor [3] float32 in
  let b := iota_tensor [3] float16 in
  let g := iota_tensor [2; 3] float32 in
  let eps := (1 / 100000)%R in
  exists gx,
    LayerNorm_vjp cpu_stream eps [x; w; b] [g] [0] [] = Return [gx]
    /\ Real.t_shape gx = Real.t_shape x
    /\ forall (U : list Z -> R) (ipre : list Z),
         Real.in_bounds [2] ipre ->
         derivable_pt_lim
           (fun e =>
              Real.Rsum 3 (fun d =>
                (Real.t_at g (ipre ++ [d])
                 * returned_at
                     (layer_norm (perturb x U e) (Some w) (Some b) eps
                                 (on_device gpu))
                     (ipre ++ [d]))%R))
           0
           (Real.Rsum 3 (fun d =>
              (Real.t_at gx (ipre ++ [d]) * U (ipre ++ [d]))%R)).
Proof.
  intros x w b g eps.
  apply (LayerNorm_vjp_is_gradient cpu_stream cpu_stream (on_device gpu)
           eps x w b g [] [2] 3).
  - reflexivity.
  - reflexivity.
  - reflexivity.
  - reflexivity.
  - lia.
  - unfold eps. lra.
  - reflexivity.
Defined.

Lemma RMSNorm_vjp_is_gradient_witness :
  let x := iota_tensor [2; 3] float32 in
  let w := iota_tensor [3] float32 in
  let g := iota_tensor [2; 3] float32 in
  let eps := (1 / 100000)%R in
  exists gx,
    RMSNorm_vjp cpu_stream eps [x; w] [g] [0] [] = Return [gx]
    /\ Real.t_shape gx = Real.t_shape x
    /\ forall (U : list Z -> R) (ipre : list Z),
         Real.in_bounds [2] ipre ->
         derivable_pt_lim
           (fun e =>
              Real.Rsum 3 (fun d =>
                (Real.t_at g (ipre ++ [d])
                 * returned_at
                     (rms_norm (perturb x U e) w eps (on_device cpu))
                     (ipre ++ [d]))%R))
           0
           (Real.Rsum 3 (fun d =>
              (Real.t_at gx (ipre ++ [d]) * U (ipre ++ [d]))%R)).
Proof.
  intros x w g eps.
  apply (RMSNorm_vjp_is_gradient cpu_stream cpu_stream (on_device cpu)
           eps x w g [] [2] 3).
  - reflexivity.
  - reflexivity.
  - reflexivity.
  - lia.
  - unfold eps. lra.
  - reflexivity.
Defined.
Lemma RoPE_vjp_is_gradient_witness :
  let x := iota_tensor [2; 3; 4] float32 in
  let g := iota_tensor [2; 3; 4] float32 in
  exists gx,
    RoPE_vjp cpu_stream 2 false 10000%R 1%R 0 true [x] [g] [0] []
    = Return [gx]
    /\ Real.t_shape gx = Real.t_shape x
    /\ forall (U : list Z -> R) (ipre : list Z) (l : Z),
         Real.in_bounds [2] ipre -> 0 <= l < 3 ->
         derivable_pt_lim
           (fun e =>
              Real.Rsum 4 (fun d =>
                (Real.t_at g (ipre ++ [l; d])
                 * returned_at
                     (rope (perturb x U e) 2 false 10000%R 1%R 0 true
                           (on_device gpu))
                     (ipre ++ [l; d]))%R))
           0
           (Real.Rsum 4 (fun d =>
              (Real.t_at gx (ipre ++ [l; d]) * U (ipre ++ [l; d]))%R)).
Proof.
  intros x g.
  apply (RoPE_vjp_is_gradient cpu_stream x g [2] 3 4 2 1 false 10000%R 1%R
           0 true (on_device gpu) cpu_stream [x] [0] []).
  - reflexivity.
  - reflexivity.
  - simpl. lia.
  - repeat constructor; lia.
  - lia.
  - reflexivity.
  - lia.
Defined.

Lemma LayerNorm_vjp_parameter_gradients_witness :
  let x := iota_tensor [2; 3] float32 in
  let w := iota_tensor [3] float32 in
  let b := iota_tensor [3] float32 in
  let g := iota_tensor [2; 3] float32 in
  let eps := (1 / 100000)%R in
  exists gw gb,
    LayerNorm_vjp cpu_stream eps [x; w; b] [g] [1; 2] [] = Return [gw; gb]
    /\ Real.t_shape gw = Real.t_shape w
    /\ Real.t_shape gb = Real.t_shape b
    /\ forall V : list Z -> R,
         derivable_pt_lim
           (fun e =>
              weighted_total 2 3 g
                (layer_norm x (Some (perturb w V e)) (Some b) eps
                            (on_device cpu)))
           0 (Real.Rsum 3 (fun d => (Real.t_at gw [d] * V [d])%R))
         /\ derivable_pt_lim
              (fun e =>
                 weighted_total 2 3 g
                   (layer_norm x (Some w) (Some (perturb b V e)) eps
                               (on_device cpu)))
              0 (Real.Rsum 3 (fun d => (Real.t_at gb [d] * V [d])%R)).
Proof.
  intros x w b g eps.
  apply (LayerNorm_vjp_parameter_gradients cpu_stream cpu_stream
           (on_device cpu) eps x w b g [] 2 3).
  - reflexivity.
  - reflexivity.
  - reflexivity.
  - reflexivity.
  - reflexivity.
Defined.

Lemma RMSNorm_vjp_weight_gradient_witness :
  let x := iota_tensor [2; 3] float32 in
  let w := iota_tensor [3] float32 in
  let g := iota_tensor [2; 3] float32 in
  let eps := (1 / 100000)%R in
  exists gw,
    RMSNorm_vjp cpu_stream eps [x; w] [g] [1] [] = Return [gw]
    /\ Real.t_shape gw = Real.t_shape w
    /\ forall V : list Z -> R,
         derivable_pt_lim
           (fun e =>
              weighted_total 2 3 g
                (rms_norm x (perturb w V e) eps (on_device gpu)))
           0 (Real.Rsum 3 (fun d => (Real.t_at gw [d] * V [d])%R)).
Proof.
  intros x w g eps.
  apply (RMSNorm_vjp_weight_gradient cpu_stream cpu_stream (on_device gpu)
           eps x w g [] 2 3).
  - reflexivity.
  - reflexivity.
  - reflexivity.
  - reflexivity.
Defined.

(** ** The two divergences, evaluated *)

(** C4.  The overload of [affine_quantize] that is given [scales] and
    [biases], on [scales] and [biases] that are 1-D and of integer dtype
    for a 2-D [float32] matrix: it throws nothing and returns the packed
    matrix, on a GPU stream and off it, where [affine_dequantize] rejects
    the same [scales] and [biases]. *)
Lemma affine_quantize_given_accepts_inconsistent_input :
  let w := iota_tensor [2; 64] float32 in
  let scales := iota_tensor [1] int32 in
  let biases := iota_tensor [1] int32 in
  (exists packed,
      affine_quantize_given w scales biases 64 4 (on_device gpu)
      = Return packed /\ Real.t_shape packed = [2; 8])
  /\ (exists packed,
        affine_quantize_given w scales biases 64 4 (on_device cpu)
        = Return packed /\ Real.t_shape packed = [2; 8])
  /\ raises (affine_dequantize (iota_tensor [2; 8] uint32) scales biases 64 4
               (on_device gpu)).
Proof.
  intros w scales biases. split; [|split].
  - eexists. split; reflexivity.
  - eexists. split; reflexivity.
  - eexists. reflexivity.
Qed.

(** C6.  [layer_norm] with a weight of shape [3] and no bias, and the
    gradient its [vjp] computes: the node input standing for the absent
    bias is a 0-dimensional scalar, the node [LayerNorm::vjp] builds
    declares the shape of that scalar for the bias gradient, and the
    fallback returns for it zeros of the shape of the weight. *)
Lemma LayerNorm_vjp_absent_bias_gradient :
  let x := iota_tensor [2; 3] float32 in
  let w := iota_tensor [3] float32 in
  let g := iota_tensor [2; 3] float32 in
  let eps := (1 / 100000)%R in
  let primals :=
    [astype x float32; passed_weight (Some w) float32;
     passed_bias None float32] in
  (exists fallback,
      layer_norm x (Some w) None eps (on_device gpu)
      = Return (mk_array [2; 3] float32
                  (LayerNorm (mkStream 0 gpu) fallback eps) primals))
  /\ shape (passed_bias None float32) = []
  /\ (exists db,
        LayerNorm_vjp (mkStream 0 gpu) eps primals [g] [2] [] = Return [db]
        /\ shape db = [])
  /\ (exists dx dw db,
        LayerNorm_vjp_fallback eps (primals ++ [g]) = [dx; dw; db]
        /\ shape db = [3]
        /\ shape db <> shape (passed_bias None float32)).
Proof.
  intros x w g eps primals. split; [|split; [|split]].
  - eexists. reflexivity.
  - reflexivity.
  - eexists. split; reflexivity.
  - do 3 eexists. split; [reflexivity|]. split; [reflexivity|].
    discriminate.
Qed.
End Examples.
